(** * Lemon (tools/lemon/lemon.c): a shallow embedding of the parser
      generator's grammar analysis, and the properties of its specification.

    Pointers of the C program are positions in the tables that own the
    objects: a [struct symbol *] is a position in the symbol table [x2a->tbl]
    (symbols are never removed, the table keeps creation order), a
    [struct rule *] is a position in the list of all rules (which is the
    rule's [index]), linked lists ([next], [nextlhs], [bp]) are lists.
    [int] is [Z]; the counters modelled here stay far below [2^31]. *)

From Stdlib Require Import ZArith String Ascii Bool Lia List Permutation Sorted.
Import ListNotations.
Open Scope Z_scope.

(* ================================================================= *)
(** ** Characters and C strings *)

Definition NUL : ascii := Ascii.zero.

(** [s[i]] for a NUL-terminated string: the terminator is read at
    [i = strlen s] (and the model gives NUL past it, where C is undefined). *)
Definition char_at (s : string) (i : nat) : ascii :=
  match String.get i s with Some c => c | None => NUL end.

Definition code (c : ascii) : Z := Z.of_N (N_of_ascii c).

(** <ctype.h> in the C locale, on [(unsigned char)c]. *)
Definition safe_isupper (c : ascii) : bool := (65 <=? code c) && (code c <=? 90).
Definition safe_islower (c : ascii) : bool := (97 <=? code c) && (code c <=? 122).
Definition safe_isdigit (c : ascii) : bool := (48 <=? code c) && (code c <=? 57).
Definition safe_isalpha (c : ascii) : bool := safe_isupper c || safe_islower c.
Definition safe_isalnum (c : ascii) : bool := safe_isalpha c || safe_isdigit c.
Definition safe_isspace (c : ascii) : bool :=
  (code c =? 32) || ((9 <=? code c) && (code c <=? 13)).

(** [strcmp]: bytes compared as [unsigned char].  Of the result only the
    sign is specified, and used. *)
Fixpoint strcmp (a b : string) : Z :=
  match a, b with
  | EmptyString, EmptyString => 0
  | EmptyString, String _ _ => -1
  | String _ _, EmptyString => 1
  | String c a', String d b' =>
      if (code c =? code d) then strcmp a' b' else code c - code d
  end.

(** [%d] of printf: the decimal digits of an [int], of which there are at
    most ten. *)
Definition digit (d : Z) : ascii := ascii_of_nat (48 + Z.to_nat d).

Fixpoint digits (k : nat) (n : Z) (acc : string) : string :=
  match k with
  | O => acc
  | S k' =>
      let acc' := String (digit (n mod 10)) acc in
      if n <? 10 then acc' else digits k' (n / 10) acc'
  end.

Definition fmt_d (n : Z) : string :=
  if n <? 0 then String "-" (digits 10 (- n) EmptyString) else digits 10 n EmptyString.

(* ================================================================= *)
(** ** Principal data structures (struct.h) *)

Definition symptr := nat.
Definition ruleptr := nat.

Inductive symtype := TERMINAL | NONTERMINAL.
Inductive e_assoc := LEFT | RIGHT | NONE | UNK.

Record symbol := mkSymbol {
  sym_name : string;
  sym_index : Z;
  sym_type : symtype;
  sym_rule : list ruleptr;          (* the chain sp->rule, ->nextlhs, ... *)
  sym_prec : Z;                     (* -1 when undefined *)
  sym_assoc : e_assoc;
  sym_firstset : option (list bool);(* NULL until FindFirstSets *)
  sym_lambda : bool;
  sym_destructor : option string;
  sym_destructorln : Z;
  sym_datatype : option string;
  sym_dtnum : Z
}.

Record rule := mkRule {
  rl_lhs : symptr;
  rl_lhsalias : option string;
  rl_ruleline : Z;
  rl_rhs : list symptr;             (* nrhs is its length *)
  rl_rhsalias : list (option string);
  rl_line : Z;
  rl_code : option string;
  rl_precsym : option symptr;
  rl_index : Z;
  rl_canReduce : bool
}.

Definition rl_nrhs (r : rule) : Z := Z.of_nat (length (rl_rhs r)).

Inductive e_action :=
  SHIFT | ACCEPT | REDUCE | ERROR | CONFLICT | SH_RESOLVED | RD_RESOLVED | NOT_USED.

Definition e_action_code (t : e_action) : Z :=
  match t with
  | SHIFT => 0 | ACCEPT => 1 | REDUCE => 2 | ERROR => 3 | CONFLICT => 4
  | SH_RESOLVED => 5 | RD_RESOLVED => 6 | NOT_USED => 7
  end.

Definition e_action_eqb (a b : e_action) : bool := e_action_code a =? e_action_code b.

Definition e_assoc_eqb (a b : e_assoc) : bool :=
  match a, b with
  | LEFT, LEFT | RIGHT, RIGHT | NONE, NONE | UNK, UNK => true
  | _, _ => false
  end.

(** The union [x] of an action: the new state of a shift, the rule of a
    reduce.  States are named by their [index]. *)
Inductive act_union :=
| x_stp (stp : nat)
| x_rp (rp : option ruleptr).

Record action := mkAction {
  act_sp : symptr;
  act_type : e_action;
  act_x : act_union
}.

Definition set_type (a : action) (t : e_action) : action :=
  mkAction (act_sp a) t (act_x a).
Definition set_sp (a : action) (sp : symptr) : action :=
  mkAction sp (act_type a) (act_x a).

Definition cfgptr := nat.

Inductive cfg_status := COMPLETE | INCOMPLETE.

(** A configuration.  Its links [next] and [bp] are the lists that hold it
    ([current], [basis], a state's [cfp] and [bp]). *)
Record config := mkConfig {
  cf_rp : ruleptr;
  cf_dot : Z;
  cf_fws : list bool;
  cf_fplp : list cfgptr;
  cf_bplp : list cfgptr;
  cf_stp : option nat;
  cf_status : cfg_status
}.

Record state := mkState {
  st_bp : list cfgptr;
  st_cfp : list cfgptr;
  st_index : Z;
  st_ap : list action;
  st_naction : Z;
  st_tabstart : Z;
  st_tabdfltact : Z
}.

(** The state vector [struct lemon], followed by the file-level statics of
    lemon.c that the functions below read and write: the symbol table
    [x2a], the state table [x3a], the configuration table [x4a], the
    configuration list builder ([current], [basis] and the two end
    pointers, of which only null or not matters), the set [size], and the
    store of configurations (what [newconfig] hands out). *)
Record lemon := mkLemon {
  lem_sorted : list nat;
  lem_rule : list rule;
  lem_nstate : Z;
  lem_nrule : Z;
  lem_nsymbol : Z;
  lem_nterminal : Z;
  lem_symbols : list symptr;
  lem_errorcnt : Z;
  lem_errsym : option symptr;
  lem_name : option string;
  lem_arg : option string;
  lem_tokentype : option string;
  lem_start : option string;
  lem_stacksize : option string;
  lem_include : option string;
  lem_includeln : Z;
  lem_error : option string;
  lem_errorln : Z;
  lem_overflow : option string;
  lem_overflowln : Z;
  lem_failure : option string;
  lem_failureln : Z;
  lem_accept : option string;
  lem_acceptln : Z;
  lem_extracode : option string;
  lem_extracodeln : Z;
  lem_tokendest : option string;
  lem_tokendestln : Z;
  lem_filename : string;
  lem_tokenprefix : option string;
  lem_nconflict : Z;
  lem_tablesize : Z;
  lem_basisflag : Z;
  (* statics *)
  x2a : list symbol;
  x3a : list state;
  x4a : list cfgptr;
  cfg_store : list config;
  current : list cfgptr;
  currentend : bool;
  basis : list cfgptr;
  basisend : bool;
  size : Z;
  (* the calls of ErrorMsg so far, the latest first: filename, lineno and
     the message after vsprintf *)
  msgs : list (string * Z * string)
}.

(** The state of the grammar-file parser (parse.c).  [declargslot] and
    [decllnslot] point into [struct lemon] or into a symbol: they are the
    names of the fields they point to. *)
Inductive e_state :=
  INITIALIZE | WAITING_FOR_DECL_OR_RULE | WAITING_FOR_DECL_KEYWORD
| WAITING_FOR_DECL_ARG | WAITING_FOR_PRECEDENCE_SYMBOL | WAITING_FOR_ARROW
| IN_RHS | LHS_ALIAS_1 | LHS_ALIAS_2 | LHS_ALIAS_3 | RHS_ALIAS_1 | RHS_ALIAS_2
| PRECEDENCE_MARK_1 | PRECEDENCE_MARK_2 | RESYNC_AFTER_RULE_ERROR
| RESYNC_AFTER_DECL_ERROR | WAITING_FOR_DESTRUCTOR_SYMBOL
| WAITING_FOR_DATATYPE_SYMBOL.

Inductive argslot :=
  slot_name | slot_include | slot_extracode | slot_tokendest | slot_tokenprefix
| slot_error | slot_accept | slot_failure | slot_overflow | slot_arg
| slot_tokentype | slot_stacksize | slot_start
| slot_destructor (sp : symptr) | slot_datatype (sp : symptr).

Inductive lnslot :=
  ln_include | ln_extracode | ln_tokendest | ln_error | ln_accept | ln_failure
| ln_overflow | ln_destructor (sp : symptr).

Record pstate := mkPstate {
  ps_filename : string;
  ps_tokenlineno : Z;
  ps_errorcnt : Z;
  ps_tokenstart : string;
  ps_gp : lemon;
  ps_state : e_state;
  ps_lhs : option symptr;
  ps_lhsalias : option string;
  ps_rhs : list symptr;             (* rhs[0..nrhs-1] *)
  ps_alias : list (option string);  (* alias[0..nrhs-1] *)
  ps_prevrule : option ruleptr;
  ps_declkeyword : option string;
  ps_declargslot : option argslot;
  ps_decllnslot : option lnslot;
  ps_declassoc : e_assoc;
  ps_preccounter : Z;
  ps_firstrule : option (option ruleptr);   (* None: not set yet *)
  ps_lastrule : option ruleptr
}.

Definition ps_nrhs (ps : pstate) : Z := Z.of_nat (List.length (ps_rhs ps)).

(* ================================================================= *)
(** ** Field updates ([p->field = v]) *)

Definition set_sym_name (s : symbol) (v : string) : symbol :=
  mkSymbol v (sym_index s) (sym_type s) (sym_rule s) (sym_prec s) (sym_assoc s) (sym_firstset s) (sym_lambda s) (sym_destructor s) (sym_destructorln s) (sym_datatype s) (sym_dtnum s).
Definition set_sym_index (s : symbol) (v : Z) : symbol :=
  mkSymbol (sym_name s) v (sym_type s) (sym_rule s) (sym_prec s) (sym_assoc s) (sym_firstset s) (sym_lambda s) (sym_destructor s) (sym_destructorln s) (sym_datatype s) (sym_dtnum s).
Definition set_sym_type (s : symbol) (v : symtype) : symbol :=
  mkSymbol (sym_name s) (sym_index s) v (sym_rule s) (sym_prec s) (sym_assoc s) (sym_firstset s) (sym_lambda s) (sym_destructor s) (sym_destructorln s) (sym_datatype s) (sym_dtnum s).
Definition set_sym_rule (s : symbol) (v : list ruleptr) : symbol :=
  mkSymbol (sym_name s) (sym_index s) (sym_type s) v (sym_prec s) (sym_assoc s) (sym_firstset s) (sym_lambda s) (sym_destructor s) (sym_destructorln s) (sym_datatype s) (sym_dtnum s).
Definition set_sym_prec (s : symbol) (v : Z) : symbol :=
  mkSymbol (sym_name s) (sym_index s) (sym_type s) (sym_rule s) v (sym_assoc s) (sym_firstset s) (sym_lambda s) (sym_destructor s) (sym_destructorln s) (sym_datatype s) (sym_dtnum s).
Definition set_sym_assoc (s : symbol) (v : e_assoc) : symbol :=
  mkSymbol (sym_name s) (sym_index s) (sym_type s) (sym_rule s) (sym_prec s) v (sym_firstset s) (sym_lambda s) (sym_destructor s) (sym_destructorln s) (sym_datatype s) (sym_dtnum s).
Definition set_sym_firstset (s : symbol) (v : option (list bool)) : symbol :=
  mkSymbol (sym_name s) (sym_index s) (sym_type s) (sym_rule s) (sym_prec s) (sym_assoc s) v (sym_lambda s) (sym_destructor s) (sym_destructorln s) (sym_datatype s) (sym_dtnum s).
Definition set_sym_lambda (s : symbol) (v : bool) : symbol :=
  mkSymbol (sym_name s) (sym_index s) (sym_type s) (sym_rule s) (sym_prec s) (sym_assoc s) (sym_firstset s) v (sym_destructor s) (sym_destructorln s) (sym_datatype s) (sym_dtnum s).
Definition set_sym_destructor (s : symbol) (v : option string) : symbol :=
  mkSymbol (sym_name s) (sym_index s) (sym_type s) (sym_rule s) (sym_prec s) (sym_assoc s) (sym_firstset s) (sym_lambda s) v (sym_destructorln s) (sym_datatype s) (sym_dtnum s).
Definition set_sym_destructorln (s : symbol) (v : Z) : symbol :=
  mkSymbol (sym_name s) (sym_index s) (sym_type s) (sym_rule s) (sym_prec s) (sym_assoc s) (sym_firstset s) (sym_lambda s) (sym_destructor s) v (sym_datatype s) (sym_dtnum s).
Definition set_sym_datatype (s : symbol) (v : option string) : symbol :=
  mkSymbol (sym_name s) (sym_index s) (sym_type s) (sym_rule s) (sym_prec s) (sym_assoc s) (sym_firstset s) (sym_lambda s) (sym_destructor s) (sym_destructorln s) v (sym_dtnum s).
Definition set_sym_dtnum (s : symbol) (v : Z) : symbol :=
  mkSymbol (sym_name s) (sym_index s) (sym_type s) (sym_rule s) (sym_prec s) (sym_assoc s) (sym_firstset s) (sym_lambda s) (sym_destructor s) (sym_destructorln s) (sym_datatype s) v.
Definition set_rl_lhs (r : rule) (v : symptr) : rule :=
  mkRule v (rl_lhsalias r) (rl_ruleline r) (rl_rhs r) (rl_rhsalias r) (rl_line r) (rl_code r) (rl_precsym r) (rl_index r) (rl_canReduce r).
Definition set_rl_lhsalias (r : rule) (v : option string) : rule :=
  mkRule (rl_lhs r) v (rl_ruleline r) (rl_rhs r) (rl_rhsalias r) (rl_line r) (rl_code r) (rl_precsym r) (rl_index r) (rl_canReduce r).
Definition set_rl_ruleline (r : rule) (v : Z) : rule :=
  mkRule (rl_lhs r) (rl_lhsalias r) v (rl_rhs r) (rl_rhsalias r) (rl_line r) (rl_code r) (rl_precsym r) (rl_index r) (rl_canReduce r).
Definition set_rl_rhs (r : rule) (v : list symptr) : rule :=
  mkRule (rl_lhs r) (rl_lhsalias r) (rl_ruleline r) v (rl_rhsalias r) (rl_line r) (rl_code r) (rl_precsym r) (rl_index r) (rl_canReduce r).
Definition set_rl_rhsalias (r : rule) (v : list (option string)) : rule :=
  mkRule (rl_lhs r) (rl_lhsalias r) (rl_ruleline r) (rl_rhs r) v (rl_line r) (rl_code r) (rl_precsym r) (rl_index r) (rl_canReduce r).
Definition set_rl_line (r : rule) (v : Z) : rule :=
  mkRule (rl_lhs r) (rl_lhsalias r) (rl_ruleline r) (rl_rhs r) (rl_rhsalias r) v (rl_code r) (rl_precsym r) (rl_index r) (rl_canReduce r).
Definition set_rl_code (r : rule) (v : option string) : rule :=
  mkRule (rl_lhs r) (rl_lhsalias r) (rl_ruleline r) (rl_rhs r) (rl_rhsalias r) (rl_line r) v (rl_precsym r) (rl_index r) (rl_canReduce r).
Definition set_rl_precsym (r : rule) (v : option symptr) : rule :=
  mkRule (rl_lhs r) (rl_lhsalias r) (rl_ruleline r) (rl_rhs r) (rl_rhsalias r) (rl_line r) (rl_code r) v (rl_index r) (rl_canReduce r).
Definition set_rl_index (r : rule) (v : Z) : rule :=
  mkRule (rl_lhs r) (rl_lhsalias r) (rl_ruleline r) (rl_rhs r) (rl_rhsalias r) (rl_line r) (rl_code r) (rl_precsym r) v (rl_canReduce r).
Definition set_rl_canReduce (r : rule) (v : bool) : rule :=
  mkRule (rl_lhs r) (rl_lhsalias r) (rl_ruleline r) (rl_rhs r) (rl_rhsalias r) (rl_line r) (rl_code r) (rl_precsym r) (rl_index r) v.
Definition set_cf_rp (c : config) (v : ruleptr) : config :=
  mkConfig v (cf_dot c) (cf_fws c) (cf_fplp c) (cf_bplp c) (cf_stp c) (cf_status c).
Definition set_cf_dot (c : config) (v : Z) : config :=
  mkConfig (cf_rp c) v (cf_fws c) (cf_fplp c) (cf_bplp c) (cf_stp c) (cf_status c).
Definition set_cf_fws (c : config) (v : list bool) : config :=
  mkConfig (cf_rp c) (cf_dot c) v (cf_fplp c) (cf_bplp c) (cf_stp c) (cf_status c).
Definition set_cf_fplp (c : config) (v : list cfgptr) : config :=
  mkConfig (cf_rp c) (cf_dot c) (cf_fws c) v (cf_bplp c) (cf_stp c) (cf_status c).
Definition set_cf_bplp (c : config) (v : list cfgptr) : config :=
  mkConfig (cf_rp c) (cf_dot c) (cf_fws c) (cf_fplp c) v (cf_stp c) (cf_status c).
Definition set_cf_stp (c : config) (v : option nat) : config :=
  mkConfig (cf_rp c) (cf_dot c) (cf_fws c) (cf_fplp c) (cf_bplp c) v (cf_status c).
Definition set_cf_status (c : config) (v : cfg_status) : config :=
  mkConfig (cf_rp c) (cf_dot c) (cf_fws c) (cf_fplp c) (cf_bplp c) (cf_stp c) v.
Definition set_st_bp (st : state) (v : list cfgptr) : state :=
  mkState v (st_cfp st) (st_index st) (st_ap st) (st_naction st) (st_tabstart st) (st_tabdfltact st).
Definition set_st_cfp (st : state) (v : list cfgptr) : state :=
  mkState (st_bp st) v (st_index st) (st_ap st) (st_naction st) (st_tabstart st) (st_tabdfltact st).
Definition set_st_index (st : state) (v : Z) : state :=
  mkState (st_bp st) (st_cfp st) v (st_ap st) (st_naction st) (st_tabstart st) (st_tabdfltact st).
Definition set_st_ap (st : state) (v : list action) : state :=
  mkState (st_bp st) (st_cfp st) (st_index st) v (st_naction st) (st_tabstart st) (st_tabdfltact st).
Definition set_st_naction (st : state) (v : Z) : state :=
  mkState (st_bp st) (st_cfp st) (st_index st) (st_ap st) v (st_tabstart st) (st_tabdfltact st).
Definition set_st_tabstart (st : state) (v : Z) : state :=
  mkState (st_bp st) (st_cfp st) (st_index st) (st_ap st) (st_naction st) v (st_tabdfltact st).
Definition set_st_tabdfltact (st : state) (v : Z) : state :=
  mkState (st_bp st) (st_cfp st) (st_index st) (st_ap st) (st_naction st) (st_tabstart st) v.
Definition set_lem_sorted (l : lemon) (v : list nat) : lemon :=
  mkLemon v (lem_rule l) (lem_nstate l) (lem_nrule l) (lem_nsymbol l) (lem_nterminal l) (lem_symbols l) (lem_errorcnt l) (lem_errsym l) (lem_name l) (lem_arg l) (lem_tokentype l) (lem_start l) (lem_stacksize l) (lem_include l) (lem_includeln l) (lem_error l) (lem_errorln l) (lem_overflow l) (lem_overflowln l) (lem_failure l) (lem_failureln l) (lem_accept l) (lem_acceptln l) (lem_extracode l) (lem_extracodeln l) (lem_tokendest l) (lem_tokendestln l) (lem_filename l) (lem_tokenprefix l) (lem_nconflict l) (lem_tablesize l) (lem_basisflag l) (x2a l) (x3a l) (x4a l) (cfg_store l) (current l) (currentend l) (basis l) (basisend l) (size l) (msgs l).
Definition set_lem_rule (l : lemon) (v : list rule) : lemon :=
  mkLemon (lem_sorted l) v (lem_nstate l) (lem_nrule l) (lem_nsymbol l) (lem_nterminal l) (lem_symbols l) (lem_errorcnt l) (lem_errsym l) (lem_name l) (lem_arg l) (lem_tokentype l) (lem_start l) (lem_stacksize l) (lem_include l) (lem_includeln l) (lem_error l) (lem_errorln l) (lem_overflow l) (lem_overflowln l) (lem_failure l) (lem_failureln l) (lem_accept l) (lem_acceptln l) (lem_extracode l) (lem_extracodeln l) (lem_tokendest l) (lem_tokendestln l) (lem_filename l) (lem_tokenprefix l) (lem_nconflict l) (lem_tablesize l) (lem_basisflag l) (x2a l) (x3a l) (x4a l) (cfg_store l) (current l) (currentend l) (basis l) (basisend l) (size l) (msgs l).
Definition set_lem_nstate (l : lemon) (v : Z) : lemon :=
  mkLemon (lem_sorted l) (lem_rule l) v (lem_nrule l) (lem_nsymbol l) (lem_nterminal l) (lem_symbols l) (lem_errorcnt l) (lem_errsym l) (lem_name l) (lem_arg l) (lem_tokentype l) (lem_start l) (lem_stacksize l) (lem_include l) (lem_includeln l) (lem_error l) (lem_errorln l) (lem_overflow l) (lem_overflowln l) (lem_failure l) (lem_failureln l) (lem_accept l) (lem_acceptln l) (lem_extracode l) (lem_extracodeln l) (lem_tokendest l) (lem_tokendestln l) (lem_filename l) (lem_tokenprefix l) (lem_nconflict l) (lem_tablesize l) (lem_basisflag l) (x2a l) (x3a l) (x4a l) (cfg_store l) (current l) (currentend l) (basis l) (basisend l) (size l) (msgs l).
Definition set_lem_nrule (l : lemon) (v : Z) : lemon :=
  mkLemon (lem_sorted l) (lem_rule l) (lem_nstate l) v (lem_nsymbol l) (lem_nterminal l) (lem_symbols l) (lem_errorcnt l) (lem_errsym l) (lem_name l) (lem_arg l) (lem_tokentype l) (lem_start l) (lem_stacksize l) (lem_include l) (lem_includeln l) (lem_error l) (lem_errorln l) (lem_overflow l) (lem_overflowln l) (lem_failure l) (lem_failureln l) (lem_accept l) (lem_acceptln l) (lem_extracode l) (lem_extracodeln l) (lem_tokendest l) (lem_tokendestln l) (lem_filename l) (lem_tokenprefix l) (lem_nconflict l) (lem_tablesize l) (lem_basisflag l) (x2a l) (x3a l) (x4a l) (cfg_store l) (current l) (currentend l) (basis l) (basisend l) (size l) (msgs l).
Definition set_lem_nsymbol (l : lemon) (v : Z) : lemon :=
  mkLemon (lem_sorted l) (lem_rule l) (lem_nstate l) (lem_nrule l) v (lem_nterminal l) (lem_symbols l) (lem_errorcnt l) (lem_errsym l) (lem_name l) (lem_arg l) (lem_tokentype l) (lem_start l) (lem_stacksize l) (lem_include l) (lem_includeln l) (lem_error l) (lem_errorln l) (lem_overflow l) (lem_overflowln l) (lem_failure l) (lem_failureln l) (lem_accept l) (lem_acceptln l) (lem_extracode l) (lem_extracodeln l) (lem_tokendest l) (lem_tokendestln l) (lem_filename l) (lem_tokenprefix l) (lem_nconflict l) (lem_tablesize l) (lem_basisflag l) (x2a l) (x3a l) (x4a l) (cfg_store l) (current l) (currentend l) (basis l) (basisend l) (size l) (msgs l).
Definition set_lem_nterminal (l : lemon) (v : Z) : lemon :=
  mkLemon (lem_sorted l) (lem_rule l) (lem_nstate l) (lem_nrule l) (lem_nsymbol l) v (lem_symbols l) (lem_errorcnt l) (lem_errsym l) (lem_name l) (lem_arg l) (lem_tokentype l) (lem_start l) (lem_stacksize l) (lem_include l) (lem_includeln l) (lem_error l) (lem_errorln l) (lem_overflow l) (lem_overflowln l) (lem_failure l) (lem_failureln l) (lem_accept l) (lem_acceptln l) (lem_extracode l) (lem_extracodeln l) (lem_tokendest l) (lem_tokendestln l) (lem_filename l) (lem_tokenprefix l) (lem_nconflict l) (lem_tablesize l) (lem_basisflag l) (x2a l) (x3a l) (x4a l) (cfg_store l) (current l) (currentend l) (basis l) (basisend l) (size l) (msgs l).
Definition set_lem_symbols (l : lemon) (v : list symptr) : lemon :=
  mkLemon (lem_sorted l) (lem_rule l) (lem_nstate l) (lem_nrule l) (lem_nsymbol l) (lem_nterminal l) v (lem_errorcnt l) (lem_errsym l) (lem_name l) (lem_arg l) (lem_tokentype l) (lem_start l) (lem_stacksize l) (lem_include l) (lem_includeln l) (lem_error l) (lem_errorln l) (lem_overflow l) (lem_overflowln l) (lem_failure l) (lem_failureln l) (lem_accept l) (lem_acceptln l) (lem_extracode l) (lem_extracodeln l) (lem_tokendest l) (lem_tokendestln l) (lem_filename l) (lem_tokenprefix l) (lem_nconflict l) (lem_tablesize l) (lem_basisflag l) (x2a l) (x3a l) (x4a l) (cfg_store l) (current l) (currentend l) (basis l) (basisend l) (size l) (msgs l).
Definition set_lem_errorcnt (l : lemon) (v : Z) : lemon :=
  mkLemon (lem_sorted l) (lem_rule l) (lem_nstate l) (lem_nrule l) (lem_nsymbol l) (lem_nterminal l) (lem_symbols l) v (lem_errsym l) (lem_name l) (lem_arg l) (lem_tokentype l) (lem_start l) (lem_stacksize l) (lem_include l) (lem_includeln l) (lem_error l) (lem_errorln l) (lem_overflow l) (lem_overflowln l) (lem_failure l) (lem_failureln l) (lem_accept l) (lem_acceptln l) (lem_extracode l) (lem_extracodeln l) (lem_tokendest l) (lem_tokendestln l) (lem_filename l) (lem_tokenprefix l) (lem_nconflict l) (lem_tablesize l) (lem_basisflag l) (x2a l) (x3a l) (x4a l) (cfg_store l) (current l) (currentend l) (basis l) (basisend l) (size l) (msgs l).
Definition set_lem_errsym (l : lemon) (v : option symptr) : lemon :=
  mkLemon (lem_sorted l) (lem_rule l) (lem_nstate l) (lem_nrule l) (lem_nsymbol l) (lem_nterminal l) (lem_symbols l) (lem_errorcnt l) v (lem_name l) (lem_arg l) (lem_tokentype l) (lem_start l) (lem_stacksize l) (lem_include l) (lem_includeln l) (lem_error l) (lem_errorln l) (lem_overflow l) (lem_overflowln l) (lem_failure l) (lem_failureln l) (lem_accept l) (lem_acceptln l) (lem_extracode l) (lem_extracodeln l) (lem_tokendest l) (lem_tokendestln l) (lem_filename l) (lem_tokenprefix l) (lem_nconflict l) (lem_tablesize l) (lem_basisflag l) (x2a l) (x3a l) (x4a l) (cfg_store l) (current l) (currentend l) (basis l) (basisend l) (size l) (msgs l).
Definition set_lem_name (l : lemon) (v : option string) : lemon :=
  mkLemon (lem_sorted l) (lem_rule l) (lem_nstate l) (lem_nrule l) (lem_nsymbol l) (lem_nterminal l) (lem_symbols l) (lem_errorcnt l) (lem_errsym l) v (lem_arg l) (lem_tokentype l) (lem_start l) (lem_stacksize l) (lem_include l) (lem_includeln l) (lem_error l) (lem_errorln l) (lem_overflow l) (lem_overflowln l) (lem_failure l) (lem_failureln l) (lem_accept l) (lem_acceptln l) (lem_extracode l) (lem_extracodeln l) (lem_tokendest l) (lem_tokendestln l) (lem_filename l) (lem_tokenprefix l) (lem_nconflict l) (lem_tablesize l) (lem_basisflag l) (x2a l) (x3a l) (x4a l) (cfg_store l) (current l) (currentend l) (basis l) (basisend l) (size l) (msgs l).
Definition set_lem_arg (l : lemon) (v : option string) : lemon :=
  mkLemon (lem_sorted l) (lem_rule l) (lem_nstate l) (lem_nrule l) (lem_nsymbol l) (lem_nterminal l) (lem_symbols l) (lem_errorcnt l) (lem_errsym l) (lem_name l) v (lem_tokentype l) (lem_start l) (lem_stacksize l) (lem_include l) (lem_includeln l) (lem_error l) (lem_errorln l) (lem_overflow l) (lem_overflowln l) (lem_failure l) (lem_failureln l) (lem_accept l) (lem_acceptln l) (lem_extracode l) (lem_extracodeln l) (lem_tokendest l) (lem_tokendestln l) (lem_filename l) (lem_tokenprefix l) (lem_nconflict l) (lem_tablesize l) (lem_basisflag l) (x2a l) (x3a l) (x4a l) (cfg_store l) (current l) (currentend l) (basis l) (basisend l) (size l) (msgs l).
Definition set_lem_tokentype (l : lemon) (v : option string) : lemon :=
  mkLemon (lem_sorted l) (lem_rule l) (lem_nstate l) (lem_nrule l) (lem_nsymbol l) (lem_nterminal l) (lem_symbols l) (lem_errorcnt l) (lem_errsym l) (lem_name l) (lem_arg l) v (lem_start l) (lem_stacksize l) (lem_include l) (lem_includeln l) (lem_error l) (lem_errorln l) (lem_overflow l) (lem_overflowln l) (lem_failure l) (lem_failureln l) (lem_accept l) (lem_acceptln l) (lem_extracode l) (lem_extracodeln l) (lem_tokendest l) (lem_tokendestln l) (lem_filename l) (lem_tokenprefix l) (lem_nconflict l) (lem_tablesize l) (lem_basisflag l) (x2a l) (x3a l) (x4a l) (cfg_store l) (current l) (currentend l) (basis l) (basisend l) (size l) (msgs l).
Definition set_lem_start (l : lemon) (v : option string) : lemon :=
  mkLemon (lem_sorted l) (lem_rule l) (lem_nstate l) (lem_nrule l) (lem_nsymbol l) (lem_nterminal l) (lem_symbols l) (lem_errorcnt l) (lem_errsym l) (lem_name l) (lem_arg l) (lem_tokentype l) v (lem_stacksize l) (lem_include l) (lem_includeln l) (lem_error l) (lem_errorln l) (lem_overflow l) (lem_overflowln l) (lem_failure l) (lem_failureln l) (lem_accept l) (lem_acceptln l) (lem_extracode l) (lem_extracodeln l) (lem_tokendest l) (lem_tokendestln l) (lem_filename l) (lem_tokenprefix l) (lem_nconflict l) (lem_tablesize l) (lem_basisflag l) (x2a l) (x3a l) (x4a l) (cfg_store l) (current l) (currentend l) (basis l) (basisend l) (size l) (msgs l).
Definition set_lem_stacksize (l : lemon) (v : option string) : lemon :=
  mkLemon (lem_sorted l) (lem_rule l) (lem_nstate l) (lem_nrule l) (lem_nsymbol l) (lem_nterminal l) (lem_symbols l) (lem_errorcnt l) (lem_errsym l) (lem_name l) (lem_arg l) (lem_tokentype l) (lem_start l) v (lem_include l) (lem_includeln l) (lem_error l) (lem_errorln l) (lem_overflow l) (lem_overflowln l) (lem_failure l) (lem_failureln l) (lem_accept l) (lem_acceptln l) (lem_extracode l) (lem_extracodeln l) (lem_tokendest l) (lem_tokendestln l) (lem_filename l) (lem_tokenprefix l) (lem_nconflict l) (lem_tablesize l) (lem_basisflag l) (x2a l) (x3a l) (x4a l) (cfg_store l) (current l) (currentend l) (basis l) (basisend l) (size l) (msgs l).
Definition set_lem_include (l : lemon) (v : option string) : lemon :=
  mkLemon (lem_sorted l) (lem_rule l) (lem_nstate l) (lem_nrule l) (lem_nsymbol l) (lem_nterminal l) (lem_symbols l) (lem_errorcnt l) (lem_errsym l) (lem_name l) (lem_arg l) (lem_tokentype l) (lem_start l) (lem_stacksize l) v (lem_includeln l) (lem_error l) (lem_errorln l) (lem_overflow l) (lem_overflowln l) (lem_failure l) (lem_failureln l) (lem_accept l) (lem_acceptln l) (lem_extracode l) (lem_extracodeln l) (lem_tokendest l) (lem_tokendestln l) (lem_filename l) (lem_tokenprefix l) (lem_nconflict l) (lem_tablesize l) (lem_basisflag l) (x2a l) (x3a l) (x4a l) (cfg_store l) (current l) (currentend l) (basis l) (basisend l) (size l) (msgs l).
Definition set_lem_includeln (l : lemon) (v : Z) : lemon :=
  mkLemon (lem_sorted l) (lem_rule l) (lem_nstate l) (lem_nrule l) (lem_nsymbol l) (lem_nterminal l) (lem_symbols l) (lem_errorcnt l) (lem_errsym l) (lem_name l) (lem_arg l) (lem_tokentype l) (lem_start l) (lem_stacksize l) (lem_include l) v (lem_error l) (lem_errorln l) (lem_overflow l) (lem_overflowln l) (lem_failure l) (lem_failureln l) (lem_accept l) (lem_acceptln l) (lem_extracode l) (lem_extracodeln l) (lem_tokendest l) (lem_tokendestln l) (lem_filename l) (lem_tokenprefix l) (lem_nconflict l) (lem_tablesize l) (lem_basisflag l) (x2a l) (x3a l) (x4a l) (cfg_store l) (current l) (currentend l) (basis l) (basisend l) (size l) (msgs l).
Definition set_lem_error (l : lemon) (v : option string) : lemon :=
  mkLemon (lem_sorted l) (lem_rule l) (lem_nstate l) (lem_nrule l) (lem_nsymbol l) (lem_nterminal l) (lem_symbols l) (lem_errorcnt l) (lem_errsym l) (lem_name l) (lem_arg l) (lem_tokentype l) (lem_start l) (lem_stacksize l) (lem_include l) (lem_includeln l) v (lem_errorln l) (lem_overflow l) (lem_overflowln l) (lem_failure l) (lem_failureln l) (lem_accept l) (lem_acceptln l) (lem_extracode l) (lem_extracodeln l) (lem_tokendest l) (lem_tokendestln l) (lem_filename l) (lem_tokenprefix l) (lem_nconflict l) (lem_tablesize l) (lem_basisflag l) (x2a l) (x3a l) (x4a l) (cfg_store l) (current l) (currentend l) (basis l) (basisend l) (size l) (msgs l).
Definition set_lem_errorln (l : lemon) (v : Z) : lemon :=
  mkLemon (lem_sorted l) (lem_rule l) (lem_nstate l) (lem_nrule l) (lem_nsymbol l) (lem_nterminal l) (lem_symbols l) (lem_errorcnt l) (lem_errsym l) (lem_name l) (lem_arg l) (lem_tokentype l) (lem_start l) (lem_stacksize l) (lem_include l) (lem_includeln l) (lem_error l) v (lem_overflow l) (lem_overflowln l) (lem_failure l) (lem_failureln l) (lem_accept l) (lem_acceptln l) (lem_extracode l) (lem_extracodeln l) (lem_tokendest l) (lem_tokendestln l) (lem_filename l) (lem_tokenprefix l) (lem_nconflict l) (lem_tablesize l) (lem_basisflag l) (x2a l) (x3a l) (x4a l) (cfg_store l) (current l) (currentend l) (basis l) (basisend l) (size l) (msgs l).
Definition set_lem_overflow (l : lemon) (v : option string) : lemon :=
  mkLemon (lem_sorted l) (lem_rule l) (lem_nstate l) (lem_nrule l) (lem_nsymbol l) (lem_nterminal l) (lem_symbols l) (lem_errorcnt l) (lem_errsym l) (lem_name l) (lem_arg l) (lem_tokentype l) (lem_start l) (lem_stacksize l) (lem_include l) (lem_includeln l) (lem_error l) (lem_errorln l) v (lem_overflowln l) (lem_failure l) (lem_failureln l) (lem_accept l) (lem_acceptln l) (lem_extracode l) (lem_extracodeln l) (lem_tokendest l) (lem_tokendestln l) (lem_filename l) (lem_tokenprefix l) (lem_nconflict l) (lem_tablesize l) (lem_basisflag l) (x2a l) (x3a l) (x4a l) (cfg_store l) (current l) (currentend l) (basis l) (basisend l) (size l) (msgs l).
Definition set_lem_overflowln (l : lemon) (v : Z) : lemon :=
  mkLemon (lem_sorted l) (lem_rule l) (lem_nstate l) (lem_nrule l) (lem_nsymbol l) (lem_nterminal l) (lem_symbols l) (lem_errorcnt l) (lem_errsym l) (lem_name l) (lem_arg l) (lem_tokentype l) (lem_start l) (lem_stacksize l) (lem_include l) (lem_includeln l) (lem_error l) (lem_errorln l) (lem_overflow l) v (lem_failure l) (lem_failureln l) (lem_accept l) (lem_acceptln l) (lem_extracode l) (lem_extracodeln l) (lem_tokendest l) (lem_tokendestln l) (lem_filename l) (lem_tokenprefix l) (lem_nconflict l) (lem_tablesize l) (lem_basisflag l) (x2a l) (x3a l) (x4a l) (cfg_store l) (current l) (currentend l) (basis l) (basisend l) (size l) (msgs l).
Definition set_lem_failure (l : lemon) (v : option string) : lemon :=
  mkLemon (lem_sorted l) (lem_rule l) (lem_nstate l) (lem_nrule l) (lem_nsymbol l) (lem_nterminal l) (lem_symbols l) (lem_errorcnt l) (lem_errsym l) (lem_name l) (lem_arg l) (lem_tokentype l) (lem_start l) (lem_stacksize l) (lem_include l) (lem_includeln l) (lem_error l) (lem_errorln l) (lem_overflow l) (lem_overflowln l) v (lem_failureln l) (lem_accept l) (lem_acceptln l) (lem_extracode l) (lem_extracodeln l) (lem_tokendest l) (lem_tokendestln l) (lem_filename l) (lem_tokenprefix l) (lem_nconflict l) (lem_tablesize l) (lem_basisflag l) (x2a l) (x3a l) (x4a l) (cfg_store l) (current l) (currentend l) (basis l) (basisend l) (size l) (msgs l).
Definition set_lem_failureln (l : lemon) (v : Z) : lemon :=
  mkLemon (lem_sorted l) (lem_rule l) (lem_nstate l) (lem_nrule l) (lem_nsymbol l) (lem_nterminal l) (lem_symbols l) (lem_errorcnt l) (lem_errsym l) (lem_name l) (lem_arg l) (lem_tokentype l) (lem_start l) (lem_stacksize l) (lem_include l) (lem_includeln l) (lem_error l) (lem_errorln l) (lem_overflow l) (lem_overflowln l) (lem_failure l) v (lem_accept l) (lem_acceptln l) (lem_extracode l) (lem_extracodeln l) (lem_tokendest l) (lem_tokendestln l) (lem_filename l) (lem_tokenprefix l) (lem_nconflict l) (lem_tablesize l) (lem_basisflag l) (x2a l) (x3a l) (x4a l) (cfg_store l) (current l) (currentend l) (basis l) (basisend l) (size l) (msgs l).
Definition set_lem_accept (l : lemon) (v : option string) : lemon :=
  mkLemon (lem_sorted l) (lem_rule l) (lem_nstate l) (lem_nrule l) (lem_nsymbol l) (lem_nterminal l) (lem_symbols l) (lem_errorcnt l) (lem_errsym l) (lem_name l) (lem_arg l) (lem_tokentype l) (lem_start l) (lem_stacksize l) (lem_include l) (lem_includeln l) (lem_error l) (lem_errorln l) (lem_overflow l) (lem_overflowln l) (lem_failure l) (lem_failureln l) v (lem_acceptln l) (lem_extracode l) (lem_extracodeln l) (lem_tokendest l) (lem_tokendestln l) (lem_filename l) (lem_tokenprefix l) (lem_nconflict l) (lem_tablesize l) (lem_basisflag l) (x2a l) (x3a l) (x4a l) (cfg_store l) (current l) (currentend l) (basis l) (basisend l) (size l) (msgs l).
Definition set_lem_acceptln (l : lemon) (v : Z) : lemon :=
  mkLemon (lem_sorted l) (lem_rule l) (lem_nstate l) (lem_nrule l) (lem_nsymbol l) (lem_nterminal l) (lem_symbols l) (lem_errorcnt l) (lem_errsym l) (lem_name l) (lem_arg l) (lem_tokentype l) (lem_start l) (lem_stacksize l) (lem_include l) (lem_includeln l) (lem_error l) (lem_errorln l) (lem_overflow l) (lem_overflowln l) (lem_failure l) (lem_failureln l) (lem_accept l) v (lem_extracode l) (lem_extracodeln l) (lem_tokendest l) (lem_tokendestln l) (lem_filename l) (lem_tokenprefix l) (lem_nconflict l) (lem_tablesize l) (lem_basisflag l) (x2a l) (x3a l) (x4a l) (cfg_store l) (current l) (currentend l) (basis l) (basisend l) (size l) (msgs l).
Definition set_lem_extracode (l : lemon) (v : option string) : lemon :=
  mkLemon (lem_sorted l) (lem_rule l) (lem_nstate l) (lem_nrule l) (lem_nsymbol l) (lem_nterminal l) (lem_symbols l) (lem_errorcnt l) (lem_errsym l) (lem_name l) (lem_arg l) (lem_tokentype l) (lem_start l) (lem_stacksize l) (lem_include l) (lem_includeln l) (lem_error l) (lem_errorln l) (lem_overflow l) (lem_overflowln l) (lem_failure l) (lem_failureln l) (lem_accept l) (lem_acceptln l) v (lem_extracodeln l) (lem_tokendest l) (lem_tokendestln l) (lem_filename l) (lem_tokenprefix l) (lem_nconflict l) (lem_tablesize l) (lem_basisflag l) (x2a l) (x3a l) (x4a l) (cfg_store l) (current l) (currentend l) (basis l) (basisend l) (size l) (msgs l).
Definition set_lem_extracodeln (l : lemon) (v : Z) : lemon :=
  mkLemon (lem_sorted l) (lem_rule l) (lem_nstate l) (lem_nrule l) (lem_nsymbol l) (lem_nterminal l) (lem_symbols l) (lem_errorcnt l) (lem_errsym l) (lem_name l) (lem_arg l) (lem_tokentype l) (lem_start l) (lem_stacksize l) (lem_include l) (lem_includeln l) (lem_error l) (lem_errorln l) (lem_overflow l) (lem_overflowln l) (lem_failure l) (lem_failureln l) (lem_accept l) (lem_acceptln l) (lem_extracode l) v (lem_tokendest l) (lem_tokendestln l) (lem_filename l) (lem_tokenprefix l) (lem_nconflict l) (lem_tablesize l) (lem_basisflag l) (x2a l) (x3a l) (x4a l) (cfg_store l) (current l) (currentend l) (basis l) (basisend l) (size l) (msgs l).
Definition set_lem_tokendest (l : lemon) (v : option string) : lemon :=
  mkLemon (lem_sorted l) (lem_rule l) (lem_nstate l) (lem_nrule l) (lem_nsymbol l) (lem_nterminal l) (lem_symbols l) (lem_errorcnt l) (lem_errsym l) (lem_name l) (lem_arg l) (lem_tokentype l) (lem_start l) (lem_stacksize l) (lem_include l) (lem_includeln l) (lem_error l) (lem_errorln l) (lem_overflow l) (lem_overflowln l) (lem_failure l) (lem_failureln l) (lem_accept l) (lem_acceptln l) (lem_extracode l) (lem_extracodeln l) v (lem_tokendestln l) (lem_filename l) (lem_tokenprefix l) (lem_nconflict l) (lem_tablesize l) (lem_basisflag l) (x2a l) (x3a l) (x4a l) (cfg_store l) (current l) (currentend l) (basis l) (basisend l) (size l) (msgs l).
Definition set_lem_tokendestln (l : lemon) (v : Z) : lemon :=
  mkLemon (lem_sorted l) (lem_rule l) (lem_nstate l) (lem_nrule l) (lem_nsymbol l) (lem_nterminal l) (lem_symbols l) (lem_errorcnt l) (lem_errsym l) (lem_name l) (lem_arg l) (lem_tokentype l) (lem_start l) (lem_stacksize l) (lem_include l) (lem_includeln l) (lem_error l) (lem_errorln l) (lem_overflow l) (lem_overflowln l) (lem_failure l) (lem_failureln l) (lem_accept l) (lem_acceptln l) (lem_extracode l) (lem_extracodeln l) (lem_tokendest l) v (lem_filename l) (lem_tokenprefix l) (lem_nconflict l) (lem_tablesize l) (lem_basisflag l) (x2a l) (x3a l) (x4a l) (cfg_store l) (current l) (currentend l) (basis l) (basisend l) (size l) (msgs l).
Definition set_lem_filename (l : lemon) (v : string) : lemon :=
  mkLemon (lem_sorted l) (lem_rule l) (lem_nstate l) (lem_nrule l) (lem_nsymbol l) (lem_nterminal l) (lem_symbols l) (lem_errorcnt l) (lem_errsym l) (lem_name l) (lem_arg l) (lem_tokentype l) (lem_start l) (lem_stacksize l) (lem_include l) (lem_includeln l) (lem_error l) (lem_errorln l) (lem_overflow l) (lem_overflowln l) (lem_failure l) (lem_failureln l) (lem_accept l) (lem_acceptln l) (lem_extracode l) (lem_extracodeln l) (lem_tokendest l) (lem_tokendestln l) v (lem_tokenprefix l) (lem_nconflict l) (lem_tablesize l) (lem_basisflag l) (x2a l) (x3a l) (x4a l) (cfg_store l) (current l) (currentend l) (basis l) (basisend l) (size l) (msgs l).
Definition set_lem_tokenprefix (l : lemon) (v : option string) : lemon :=
  mkLemon (lem_sorted l) (lem_rule l) (lem_nstate l) (lem_nrule l) (lem_nsymbol l) (lem_nterminal l) (lem_symbols l) (lem_errorcnt l) (lem_errsym l) (lem_name l) (lem_arg l) (lem_tokentype l) (lem_start l) (lem_stacksize l) (lem_include l) (lem_includeln l) (lem_error l) (lem_errorln l) (lem_overflow l) (lem_overflowln l) (lem_failure l) (lem_failureln l) (lem_accept l) (lem_acceptln l) (lem_extracode l) (lem_extracodeln l) (lem_tokendest l) (lem_tokendestln l) (lem_filename l) v (lem_nconflict l) (lem_tablesize l) (lem_basisflag l) (x2a l) (x3a l) (x4a l) (cfg_store l) (current l) (currentend l) (basis l) (basisend l) (size l) (msgs l).
Definition set_lem_nconflict (l : lemon) (v : Z) : lemon :=
  mkLemon (lem_sorted l) (lem_rule l) (lem_nstate l) (lem_nrule l) (lem_nsymbol l) (lem_nterminal l) (lem_symbols l) (lem_errorcnt l) (lem_errsym l) (lem_name l) (lem_arg l) (lem_tokentype l) (lem_start l) (lem_stacksize l) (lem_include l) (lem_includeln l) (lem_error l) (lem_errorln l) (lem_overflow l) (lem_overflowln l) (lem_failure l) (lem_failureln l) (lem_accept l) (lem_acceptln l) (lem_extracode l) (lem_extracodeln l) (lem_tokendest l) (lem_tokendestln l) (lem_filename l) (lem_tokenprefix l) v (lem_tablesize l) (lem_basisflag l) (x2a l) (x3a l) (x4a l) (cfg_store l) (current l) (currentend l) (basis l) (basisend l) (size l) (msgs l).
Definition set_lem_tablesize (l : lemon) (v : Z) : lemon :=
  mkLemon (lem_sorted l) (lem_rule l) (lem_nstate l) (lem_nrule l) (lem_nsymbol l) (lem_nterminal l) (lem_symbols l) (lem_errorcnt l) (lem_errsym l) (lem_name l) (lem_arg l) (lem_tokentype l) (lem_start l) (lem_stacksize l) (lem_include l) (lem_includeln l) (lem_error l) (lem_errorln l) (lem_overflow l) (lem_overflowln l) (lem_failure l) (lem_failureln l) (lem_accept l) (lem_acceptln l) (lem_extracode l) (lem_extracodeln l) (lem_tokendest l) (lem_tokendestln l) (lem_filename l) (lem_tokenprefix l) (lem_nconflict l) v (lem_basisflag l) (x2a l) (x3a l) (x4a l) (cfg_store l) (current l) (currentend l) (basis l) (basisend l) (size l) (msgs l).
Definition set_lem_basisflag (l : lemon) (v : Z) : lemon :=
  mkLemon (lem_sorted l) (lem_rule l) (lem_nstate l) (lem_nrule l) (lem_nsymbol l) (lem_nterminal l) (lem_symbols l) (lem_errorcnt l) (lem_errsym l) (lem_name l) (lem_arg l) (lem_tokentype l) (lem_start l) (lem_stacksize l) (lem_include l) (lem_includeln l) (lem_error l) (lem_errorln l) (lem_overflow l) (lem_overflowln l) (lem_failure l) (lem_failureln l) (lem_accept l) (lem_acceptln l) (lem_extracode l) (lem_extracodeln l) (lem_tokendest l) (lem_tokendestln l) (lem_filename l) (lem_tokenprefix l) (lem_nconflict l) (lem_tablesize l) v (x2a l) (x3a l) (x4a l) (cfg_store l) (current l) (currentend l) (basis l) (basisend l) (size l) (msgs l).
Definition set_x2a (l : lemon) (v : list symbol) : lemon :=
  mkLemon (lem_sorted l) (lem_rule l) (lem_nstate l) (lem_nrule l) (lem_nsymbol l) (lem_nterminal l) (lem_symbols l) (lem_errorcnt l) (lem_errsym l) (lem_name l) (lem_arg l) (lem_tokentype l) (lem_start l) (lem_stacksize l) (lem_include l) (lem_includeln l) (lem_error l) (lem_errorln l) (lem_overflow l) (lem_overflowln l) (lem_failure l) (lem_failureln l) (lem_accept l) (lem_acceptln l) (lem_extracode l) (lem_extracodeln l) (lem_tokendest l) (lem_tokendestln l) (lem_filename l) (lem_tokenprefix l) (lem_nconflict l) (lem_tablesize l) (lem_basisflag l) v (x3a l) (x4a l) (cfg_store l) (current l) (currentend l) (basis l) (basisend l) (size l) (msgs l).
Definition set_x3a (l : lemon) (v : list state) : lemon :=
  mkLemon (lem_sorted l) (lem_rule l) (lem_nstate l) (lem_nrule l) (lem_nsymbol l) (lem_nterminal l) (lem_symbols l) (lem_errorcnt l) (lem_errsym l) (lem_name l) (lem_arg l) (lem_tokentype l) (lem_start l) (lem_stacksize l) (lem_include l) (lem_includeln l) (lem_error l) (lem_errorln l) (lem_overflow l) (lem_overflowln l) (lem_failure l) (lem_failureln l) (lem_accept l) (lem_acceptln l) (lem_extracode l) (lem_extracodeln l) (lem_tokendest l) (lem_tokendestln l) (lem_filename l) (lem_tokenprefix l) (lem_nconflict l) (lem_tablesize l) (lem_basisflag l) (x2a l) v (x4a l) (cfg_store l) (current l) (currentend l) (basis l) (basisend l) (size l) (msgs l).
Definition set_x4a (l : lemon) (v : list cfgptr) : lemon :=
  mkLemon (lem_sorted l) (lem_rule l) (lem_nstate l) (lem_nrule l) (lem_nsymbol l) (lem_nterminal l) (lem_symbols l) (lem_errorcnt l) (lem_errsym l) (lem_name l) (lem_arg l) (lem_tokentype l) (lem_start l) (lem_stacksize l) (lem_include l) (lem_includeln l) (lem_error l) (lem_errorln l) (lem_overflow l) (lem_overflowln l) (lem_failure l) (lem_failureln l) (lem_accept l) (lem_acceptln l) (lem_extracode l) (lem_extracodeln l) (lem_tokendest l) (lem_tokendestln l) (lem_filename l) (lem_tokenprefix l) (lem_nconflict l) (lem_tablesize l) (lem_basisflag l) (x2a l) (x3a l) v (cfg_store l) (current l) (currentend l) (basis l) (basisend l) (size l) (msgs l).
Definition set_cfg_store (l : lemon) (v : list config) : lemon :=
  mkLemon (lem_sorted l) (lem_rule l) (lem_nstate l) (lem_nrule l) (lem_nsymbol l) (lem_nterminal l) (lem_symbols l) (lem_errorcnt l) (lem_errsym l) (lem_name l) (lem_arg l) (lem_tokentype l) (lem_start l) (lem_stacksize l) (lem_include l) (lem_includeln l) (lem_error l) (lem_errorln l) (lem_overflow l) (lem_overflowln l) (lem_failure l) (lem_failureln l) (lem_accept l) (lem_acceptln l) (lem_extracode l) (lem_extracodeln l) (lem_tokendest l) (lem_tokendestln l) (lem_filename l) (lem_tokenprefix l) (lem_nconflict l) (lem_tablesize l) (lem_basisflag l) (x2a l) (x3a l) (x4a l) v (current l) (currentend l) (basis l) (basisend l) (size l) (msgs l).
Definition set_current (l : lemon) (v : list cfgptr) : lemon :=
  mkLemon (lem_sorted l) (lem_rule l) (lem_nstate l) (lem_nrule l) (lem_nsymbol l) (lem_nterminal l) (lem_symbols l) (lem_errorcnt l) (lem_errsym l) (lem_name l) (lem_arg l) (lem_tokentype l) (lem_start l) (lem_stacksize l) (lem_include l) (lem_includeln l) (lem_error l) (lem_errorln l) (lem_overflow l) (lem_overflowln l) (lem_failure l) (lem_failureln l) (lem_accept l) (lem_acceptln l) (lem_extracode l) (lem_extracodeln l) (lem_tokendest l) (lem_tokendestln l) (lem_filename l) (lem_tokenprefix l) (lem_nconflict l) (lem_tablesize l) (lem_basisflag l) (x2a l) (x3a l) (x4a l) (cfg_store l) v (currentend l) (basis l) (basisend l) (size l) (msgs l).
Definition set_currentend (l : lemon) (v : bool) : lemon :=
  mkLemon (lem_sorted l) (lem_rule l) (lem_nstate l) (lem_nrule l) (lem_nsymbol l) (lem_nterminal l) (lem_symbols l) (lem_errorcnt l) (lem_errsym l) (lem_name l) (lem_arg l) (lem_tokentype l) (lem_start l) (lem_stacksize l) (lem_include l) (lem_includeln l) (lem_error l) (lem_errorln l) (lem_overflow l) (lem_overflowln l) (lem_failure l) (lem_failureln l) (lem_accept l) (lem_acceptln l) (lem_extracode l) (lem_extracodeln l) (lem_tokendest l) (lem_tokendestln l) (lem_filename l) (lem_tokenprefix l) (lem_nconflict l) (lem_tablesize l) (lem_basisflag l) (x2a l) (x3a l) (x4a l) (cfg_store l) (current l) v (basis l) (basisend l) (size l) (msgs l).
Definition set_basis (l : lemon) (v : list cfgptr) : lemon :=
  mkLemon (lem_sorted l) (lem_rule l) (lem_nstate l) (lem_nrule l) (lem_nsymbol l) (lem_nterminal l) (lem_symbols l) (lem_errorcnt l) (lem_errsym l) (lem_name l) (lem_arg l) (lem_tokentype l) (lem_start l) (lem_stacksize l) (lem_include l) (lem_includeln l) (lem_error l) (lem_errorln l) (lem_overflow l) (lem_overflowln l) (lem_failure l) (lem_failureln l) (lem_accept l) (lem_acceptln l) (lem_extracode l) (lem_extracodeln l) (lem_tokendest l) (lem_tokendestln l) (lem_filename l) (lem_tokenprefix l) (lem_nconflict l) (lem_tablesize l) (lem_basisflag l) (x2a l) (x3a l) (x4a l) (cfg_store l) (current l) (currentend l) v (basisend l) (size l) (msgs l).
Definition set_basisend (l : lemon) (v : bool) : lemon :=
  mkLemon (lem_sorted l) (lem_rule l) (lem_nstate l) (lem_nrule l) (lem_nsymbol l) (lem_nterminal l) (lem_symbols l) (lem_errorcnt l) (lem_errsym l) (lem_name l) (lem_arg l) (lem_tokentype l) (lem_start l) (lem_stacksize l) (lem_include l) (lem_includeln l) (lem_error l) (lem_errorln l) (lem_overflow l) (lem_overflowln l) (lem_failure l) (lem_failureln l) (lem_accept l) (lem_acceptln l) (lem_extracode l) (lem_extracodeln l) (lem_tokendest l) (lem_tokendestln l) (lem_filename l) (lem_tokenprefix l) (lem_nconflict l) (lem_tablesize l) (lem_basisflag l) (x2a l) (x3a l) (x4a l) (cfg_store l) (current l) (currentend l) (basis l) v (size l) (msgs l).
Definition set_size (l : lemon) (v : Z) : lemon :=
  mkLemon (lem_sorted l) (lem_rule l) (lem_nstate l) (lem_nrule l) (lem_nsymbol l) (lem_nterminal l) (lem_symbols l) (lem_errorcnt l) (lem_errsym l) (lem_name l) (lem_arg l) (lem_tokentype l) (lem_start l) (lem_stacksize l) (lem_include l) (lem_includeln l) (lem_error l) (lem_errorln l) (lem_overflow l) (lem_overflowln l) (lem_failure l) (lem_failureln l) (lem_accept l) (lem_acceptln l) (lem_extracode l) (lem_extracodeln l) (lem_tokendest l) (lem_tokendestln l) (lem_filename l) (lem_tokenprefix l) (lem_nconflict l) (lem_tablesize l) (lem_basisflag l) (x2a l) (x3a l) (x4a l) (cfg_store l) (current l) (currentend l) (basis l) (basisend l) v (msgs l).
Definition set_msgs (l : lemon) (v : list (string * Z * string)) : lemon :=
  mkLemon (lem_sorted l) (lem_rule l) (lem_nstate l) (lem_nrule l) (lem_nsymbol l) (lem_nterminal l) (lem_symbols l) (lem_errorcnt l) (lem_errsym l) (lem_name l) (lem_arg l) (lem_tokentype l) (lem_start l) (lem_stacksize l) (lem_include l) (lem_includeln l) (lem_error l) (lem_errorln l) (lem_overflow l) (lem_overflowln l) (lem_failure l) (lem_failureln l) (lem_accept l) (lem_acceptln l) (lem_extracode l) (lem_extracodeln l) (lem_tokendest l) (lem_tokendestln l) (lem_filename l) (lem_tokenprefix l) (lem_nconflict l) (lem_tablesize l) (lem_basisflag l) (x2a l) (x3a l) (x4a l) (cfg_store l) (current l) (currentend l) (basis l) (basisend l) (size l) v.
Definition set_ps_filename (ps : pstate) (v : string) : pstate :=
  mkPstate v (ps_tokenlineno ps) (ps_errorcnt ps) (ps_tokenstart ps) (ps_gp ps) (ps_state ps) (ps_lhs ps) (ps_lhsalias ps) (ps_rhs ps) (ps_alias ps) (ps_prevrule ps) (ps_declkeyword ps) (ps_declargslot ps) (ps_decllnslot ps) (ps_declassoc ps) (ps_preccounter ps) (ps_firstrule ps) (ps_lastrule ps).
Definition set_ps_tokenlineno (ps : pstate) (v : Z) : pstate :=
  mkPstate (ps_filename ps) v (ps_errorcnt ps) (ps_tokenstart ps) (ps_gp ps) (ps_state ps) (ps_lhs ps) (ps_lhsalias ps) (ps_rhs ps) (ps_alias ps) (ps_prevrule ps) (ps_declkeyword ps) (ps_declargslot ps) (ps_decllnslot ps) (ps_declassoc ps) (ps_preccounter ps) (ps_firstrule ps) (ps_lastrule ps).
Definition set_ps_errorcnt (ps : pstate) (v : Z) : pstate :=
  mkPstate (ps_filename ps) (ps_tokenlineno ps) v (ps_tokenstart ps) (ps_gp ps) (ps_state ps) (ps_lhs ps) (ps_lhsalias ps) (ps_rhs ps) (ps_alias ps) (ps_prevrule ps) (ps_declkeyword ps) (ps_declargslot ps) (ps_decllnslot ps) (ps_declassoc ps) (ps_preccounter ps) (ps_firstrule ps) (ps_lastrule ps).
Definition set_ps_tokenstart (ps : pstate) (v : string) : pstate :=
  mkPstate (ps_filename ps) (ps_tokenlineno ps) (ps_errorcnt ps) v (ps_gp ps) (ps_state ps) (ps_lhs ps) (ps_lhsalias ps) (ps_rhs ps) (ps_alias ps) (ps_prevrule ps) (ps_declkeyword ps) (ps_declargslot ps) (ps_decllnslot ps) (ps_declassoc ps) (ps_preccounter ps) (ps_firstrule ps) (ps_lastrule ps).
Definition set_ps_gp (ps : pstate) (v : lemon) : pstate :=
  mkPstate (ps_filename ps) (ps_tokenlineno ps) (ps_errorcnt ps) (ps_tokenstart ps) v (ps_state ps) (ps_lhs ps) (ps_lhsalias ps) (ps_rhs ps) (ps_alias ps) (ps_prevrule ps) (ps_declkeyword ps) (ps_declargslot ps) (ps_decllnslot ps) (ps_declassoc ps) (ps_preccounter ps) (ps_firstrule ps) (ps_lastrule ps).
Definition set_ps_state (ps : pstate) (v : e_state) : pstate :=
  mkPstate (ps_filename ps) (ps_tokenlineno ps) (ps_errorcnt ps) (ps_tokenstart ps) (ps_gp ps) v (ps_lhs ps) (ps_lhsalias ps) (ps_rhs ps) (ps_alias ps) (ps_prevrule ps) (ps_declkeyword ps) (ps_declargslot ps) (ps_decllnslot ps) (ps_declassoc ps) (ps_preccounter ps) (ps_firstrule ps) (ps_lastrule ps).
Definition set_ps_lhs (ps : pstate) (v : option symptr) : pstate :=
  mkPstate (ps_filename ps) (ps_tokenlineno ps) (ps_errorcnt ps) (ps_tokenstart ps) (ps_gp ps) (ps_state ps) v (ps_lhsalias ps) (ps_rhs ps) (ps_alias ps) (ps_prevrule ps) (ps_declkeyword ps) (ps_declargslot ps) (ps_decllnslot ps) (ps_declassoc ps) (ps_preccounter ps) (ps_firstrule ps) (ps_lastrule ps).
Definition set_ps_lhsalias (ps : pstate) (v : option string) : pstate :=
  mkPstate (ps_filename ps) (ps_tokenlineno ps) (ps_errorcnt ps) (ps_tokenstart ps) (ps_gp ps) (ps_state ps) (ps_lhs ps) v (ps_rhs ps) (ps_alias ps) (ps_prevrule ps) (ps_declkeyword ps) (ps_declargslot ps) (ps_decllnslot ps) (ps_declassoc ps) (ps_preccounter ps) (ps_firstrule ps) (ps_lastrule ps).
Definition set_ps_rhs (ps : pstate) (v : list symptr) : pstate :=
  mkPstate (ps_filename ps) (ps_tokenlineno ps) (ps_errorcnt ps) (ps_tokenstart ps) (ps_gp ps) (ps_state ps) (ps_lhs ps) (ps_lhsalias ps) v (ps_alias ps) (ps_prevrule ps) (ps_declkeyword ps) (ps_declargslot ps) (ps_decllnslot ps) (ps_declassoc ps) (ps_preccounter ps) (ps_firstrule ps) (ps_lastrule ps).
Definition set_ps_alias (ps : pstate) (v : list (option string)) : pstate :=
  mkPstate (ps_filename ps) (ps_tokenlineno ps) (ps_errorcnt ps) (ps_tokenstart ps) (ps_gp ps) (ps_state ps) (ps_lhs ps) (ps_lhsalias ps) (ps_rhs ps) v (ps_prevrule ps) (ps_declkeyword ps) (ps_declargslot ps) (ps_decllnslot ps) (ps_declassoc ps) (ps_preccounter ps) (ps_firstrule ps) (ps_lastrule ps).
Definition set_ps_prevrule (ps : pstate) (v : option ruleptr) : pstate :=
  mkPstate (ps_filename ps) (ps_tokenlineno ps) (ps_errorcnt ps) (ps_tokenstart ps) (ps_gp ps) (ps_state ps) (ps_lhs ps) (ps_lhsalias ps) (ps_rhs ps) (ps_alias ps) v (ps_declkeyword ps) (ps_declargslot ps) (ps_decllnslot ps) (ps_declassoc ps) (ps_preccounter ps) (ps_firstrule ps) (ps_lastrule ps).
Definition set_ps_declkeyword (ps : pstate) (v : option string) : pstate :=
  mkPstate (ps_filename ps) (ps_tokenlineno ps) (ps_errorcnt ps) (ps_tokenstart ps) (ps_gp ps) (ps_state ps) (ps_lhs ps) (ps_lhsalias ps) (ps_rhs ps) (ps_alias ps) (ps_prevrule ps) v (ps_declargslot ps) (ps_decllnslot ps) (ps_declassoc ps) (ps_preccounter ps) (ps_firstrule ps) (ps_lastrule ps).
Definition set_ps_declargslot (ps : pstate) (v : option argslot) : pstate :=
  mkPstate (ps_filename ps) (ps_tokenlineno ps) (ps_errorcnt ps) (ps_tokenstart ps) (ps_gp ps) (ps_state ps) (ps_lhs ps) (ps_lhsalias ps) (ps_rhs ps) (ps_alias ps) (ps_prevrule ps) (ps_declkeyword ps) v (ps_decllnslot ps) (ps_declassoc ps) (ps_preccounter ps) (ps_firstrule ps) (ps_lastrule ps).
Definition set_ps_decllnslot (ps : pstate) (v : option lnslot) : pstate :=
  mkPstate (ps_filename ps) (ps_tokenlineno ps) (ps_errorcnt ps) (ps_tokenstart ps) (ps_gp ps) (ps_state ps) (ps_lhs ps) (ps_lhsalias ps) (ps_rhs ps) (ps_alias ps) (ps_prevrule ps) (ps_declkeyword ps) (ps_declargslot ps) v (ps_declassoc ps) (ps_preccounter ps) (ps_firstrule ps) (ps_lastrule ps).
Definition set_ps_declassoc (ps : pstate) (v : e_assoc) : pstate :=
  mkPstate (ps_filename ps) (ps_tokenlineno ps) (ps_errorcnt ps) (ps_tokenstart ps) (ps_gp ps) (ps_state ps) (ps_lhs ps) (ps_lhsalias ps) (ps_rhs ps) (ps_alias ps) (ps_prevrule ps) (ps_declkeyword ps) (ps_declargslot ps) (ps_decllnslot ps) v (ps_preccounter ps) (ps_firstrule ps) (ps_lastrule ps).
Definition set_ps_preccounter (ps : pstate) (v : Z) : pstate :=
  mkPstate (ps_filename ps) (ps_tokenlineno ps) (ps_errorcnt ps) (ps_tokenstart ps) (ps_gp ps) (ps_state ps) (ps_lhs ps) (ps_lhsalias ps) (ps_rhs ps) (ps_alias ps) (ps_prevrule ps) (ps_declkeyword ps) (ps_declargslot ps) (ps_decllnslot ps) (ps_declassoc ps) v (ps_firstrule ps) (ps_lastrule ps).
Definition set_ps_firstrule (ps : pstate) (v : option (option ruleptr)) : pstate :=
  mkPstate (ps_filename ps) (ps_tokenlineno ps) (ps_errorcnt ps) (ps_tokenstart ps) (ps_gp ps) (ps_state ps) (ps_lhs ps) (ps_lhsalias ps) (ps_rhs ps) (ps_alias ps) (ps_prevrule ps) (ps_declkeyword ps) (ps_declargslot ps) (ps_decllnslot ps) (ps_declassoc ps) (ps_preccounter ps) v (ps_lastrule ps).
Definition set_ps_lastrule (ps : pstate) (v : option ruleptr) : pstate :=
  mkPstate (ps_filename ps) (ps_tokenlineno ps) (ps_errorcnt ps) (ps_tokenstart ps) (ps_gp ps) (ps_state ps) (ps_lhs ps) (ps_lhsalias ps) (ps_rhs ps) (ps_alias ps) (ps_prevrule ps) (ps_declkeyword ps) (ps_declargslot ps) (ps_decllnslot ps) (ps_declassoc ps) (ps_preccounter ps) (ps_firstrule ps) v.

(** A failed assertion ([myassert] exits) or a dereference of a null or
    dangling pointer ends a run: such steps give [None]. *)
Definition bind {A B : Type} (m : option A) (k : A -> option B) : option B :=
  match m with Some a => k a | None => None end.

Notation "x <- m ;; k" := (bind m (fun x => k))
  (at level 61, m at next level, right associativity).
Notation "' p <- m ;; k" := (bind m (fun p => k))
  (at level 61, p pattern, m at next level, right associativity).

Definition assert (b : bool) : option unit := if b then Some tt else None.

(** [a[i] = v] on a table. *)
Fixpoint upd {A : Type} (l : list A) (i : nat) (v : A) : list A :=
  match l, i with
  | [], _ => []
  | _ :: t, O => v :: t
  | h :: t, S j => h :: upd t j v
  end.

Definition the_symbol (l : lemon) (sp : symptr) : option symbol := nth_error (x2a l) sp.
Definition the_rule (l : lemon) (rp : ruleptr) : option rule := nth_error (lem_rule l) rp.
Definition the_config (l : lemon) (cfp : cfgptr) : option config := nth_error (cfg_store l) cfp.
Definition the_state (l : lemon) (stp : nat) : option state := nth_error (x3a l) stp.

Definition put_symbol (l : lemon) (sp : symptr) (s : symbol) : lemon :=
  set_x2a l (upd (x2a l) sp s).
Definition put_config (l : lemon) (cfp : cfgptr) (c : config) : lemon :=
  set_cfg_store l (upd (cfg_store l) cfp c).
Definition put_state (l : lemon) (stp : nat) (s : state) : lemon :=
  set_x3a l (upd (x3a l) stp s).

(* ================================================================= *)
(** ** Sets of terminals (set.c) *)

Definition SetSize (l : lemon) (n : Z) : lemon := set_size l (n + 1).

Definition SetNew (l : lemon) : list bool := repeat false (Z.to_nat (size l)).

Definition SetFind (s : list bool) (e : Z) : bool := nth (Z.to_nat e) s false.

(** Returns [!rv] and the set after [s[e] = 1]. *)
Definition SetAdd (s : list bool) (e : Z) : Z * list bool :=
  ((if SetFind s e then 0 else 1), upd s (Z.to_nat e) true).

(** Returns [progress] and [s1] after the loop over [0 <= i < size]; both
    sets have [size] elements. *)
Fixpoint SetUnion (s1 s2 : list bool) : Z * list bool :=
  match s1, s2 with
  | a :: s1', b :: s2' =>
      let '(progress, r) := SetUnion s1' s2' in
      if b then (if a then (progress, a :: r) else (1, true :: r))
      else (progress, a :: r)
  | _, _ => (0, s1)
  end.

(* ================================================================= *)
(** ** The symbol table (table.c) *)

Fixpoint find_key (key : string) (tbl : list symbol) (i : nat) : option symptr :=
  match tbl with
  | [] => None
  | s :: tbl' => if strcmp (sym_name s) key =? 0 then Some i else find_key key tbl' (S i)
  end.

(** The hash chains hold exactly the entries of [tbl]; a look-up finds the
    entry whose key compares equal. *)
Definition Symbol_find (l : lemon) (key : string) : option symptr :=
  find_key key (x2a l) 0.

Definition Symbol_new (l : lemon) (x : string) : symptr * lemon :=
  match Symbol_find l x with
  | Some sp => (sp, l)
  | None =>
      let sp :=
        mkSymbol x 0 (if safe_isupper (char_at x 0) then TERMINAL else NONTERMINAL)
                 [] (-1) UNK None false None 0 None 0 in
      (List.length (x2a l), set_x2a l (x2a l ++ [sp]))
  end.

Definition Symbol_count (l : lemon) : Z := Z.of_nat (List.length (x2a l)).

Definition Symbol_arrayof (l : lemon) : list symptr := seq 0 (List.length (x2a l)).

Definition Symbolcmpp (l : lemon) (a b : symptr) : option Z :=
  sa <- the_symbol l a ;; sb <- the_symbol l b ;;
  Some (strcmp (sym_name sa) (sym_name sb)).

(* ================================================================= *)
(** ** Merge sort of a linked list (msort.c) *)

Section Msort.
Context {A : Type}.
Variable cmp : A -> A -> option Z.

(** [merge]: the head of [a] goes first when [cmp(a,b) < 0], the head of
    [b] otherwise. *)
Fixpoint merge (a : list A) : list A -> option (list A) :=
  fix merge_b (b : list A) : option (list A) :=
    match a, b with
    | [], _ => Some b
    | _, [] => Some a
    | x :: a', y :: b' =>
        c <- cmp x y ;;
        if c <? 0 then (r <- merge a' b ;; Some (x :: r))
        else (r <- merge_b b' ;; Some (y :: r))
    end.

(** The inner loop of [msort] over the bins [set[i]], from the bin [i]
    on: [ep] is merged with every occupied bin until an empty one is
    met, or the last bin [set[LISTSIZE-1]] is reached, which is
    assigned without a look at its content. *)
Fixpoint msort_carry (ep : list A) (set : list (list A)) : option (list (list A)) :=
  match set with
  | [] => Some []
  | [_] => Some [ep]
  | [] :: rest => Some (ep :: rest)
  | b :: rest =>
      m <- merge ep b ;;
      r <- msort_carry m rest ;;
      Some ([] :: r)
  end.

Fixpoint msort_fill (lst : list A) (set : list (list A)) : option (list (list A)) :=
  match lst with
  | [] => Some set
  | x :: lst' => s <- msort_carry [x] set ;; msort_fill lst' s
  end.

(** The final loop: [ep = merge(ep,set[i])] over the occupied bins. *)
Fixpoint msort_collect (ep : list A) (set : list (list A)) : option (list A) :=
  match set with
  | [] => Some ep
  | [] :: rest => msort_collect ep rest
  | b :: rest => m <- merge ep b ;; msort_collect m rest
  end.

Definition LISTSIZE : nat := 30.

Definition msort (lst : list A) : option (list A) :=
  s <- msort_fill lst (repeat [] LISTSIZE) ;;
  msort_collect [] s.
End Msort.

(* ================================================================= *)
(** ** Parser actions (action.c) *)

Definition actioncmp (l : lemon) (ap1 ap2 : action) : option Z :=
  s1 <- the_symbol l (act_sp ap1) ;;
  s2 <- the_symbol l (act_sp ap2) ;;
  let rc := sym_index s1 - sym_index s2 in
  let rc := if rc =? 0 then e_action_code (act_type ap1) - e_action_code (act_type ap2) else rc in
  if rc =? 0 then
    _ <- assert (e_action_eqb (act_type ap1) REDUCE && e_action_eqb (act_type ap2) REDUCE) ;;
    match act_x ap1, act_x ap2 with
    | x_rp (Some r1), x_rp (Some r2) =>
        a <- the_rule l r1 ;; b <- the_rule l r2 ;;
        Some (rl_index a - rl_index b)
    | _, _ => None
    end
  else Some rc.

Definition Action_sort (l : lemon) (ap : list action) : option (list action) :=
  msort (actioncmp l) ap.

Definition Action_add (app : list action) (type : e_action) (sp : symptr)
    (arg : act_union) : list action :=
  mkAction sp type arg :: app.

(* ================================================================= *)
(** ** Error messages (error.c) *)

Definition ch (n : nat) : ascii := ascii_of_nat n.
Definition ch_tab : ascii := ch 9.
Definition ch_nl : ascii := ch 10.
Definition ch_space : ascii := ch 32.
Definition ch_dquote : ascii := ch 34.
Definition ch_minus : ascii := ch 45.

Definition str1 (c : ascii) : string := String c EmptyString.

(** [s[i] = c], for [i] before the terminator. *)
Fixpoint set_char (s : string) (i : nat) (c : ascii) : string :=
  match s, i with
  | EmptyString, _ => EmptyString
  | String _ t, O => String c t
  | String h t, S j => String h (set_char t j c)
  end.

(** [&s[n]] *)
Fixpoint str_drop (n : nat) (s : string) : string :=
  match n, s with
  | O, _ => s
  | S m, EmptyString => EmptyString
  | S m, String _ t => str_drop m t
  end.

(** The loop of [findbreak] with [rounds] rounds left, at index [i]:
    returns [spot] and the message, in which tabs and a newline met on the
    way have become spaces. *)
Fixpoint findbreak_loop (rounds : nat) (msg : string) (i max spot : Z) : Z * string :=
  match rounds with
  | O => (spot, msg)
  | S rounds' =>
      let c := char_at msg (Z.to_nat i) in
      let msg1 := if Ascii.eqb c ch_tab then set_char msg (Z.to_nat i) ch_space else msg in
      if Ascii.eqb c ch_nl then (i, set_char msg1 (Z.to_nat i) ch_space)
      else if Ascii.eqb c NUL then (i, msg1)
      else
        let spot1 := if Ascii.eqb c ch_minus && (i <? max - 1) then i + 1 else spot in
        let spot2 := if Ascii.eqb c ch_space then i else spot1 in
        findbreak_loop rounds' msg1 (i + 1) max spot2
  end.

Definition findbreak (msg : string) (min max : Z) : Z * string :=
  findbreak_loop (Z.to_nat (max - min + 1)) msg min max min.

Definition LINEWIDTH : Z := 79.
Definition PREFIXLIMIT : Z := 30.

Inductive stream := stdout | stderr.

(** [sprintf(prefix,"%.*s:%d: ",PREFIXLIMIT-10,filename,lineno)] or
    [sprintf(prefix,"%.*s: ",PREFIXLIMIT-10,filename)]. *)
Definition ErrorMsg_prefix (filename : string) (lineno : Z) : string :=
  let file := substring 0 (Z.to_nat (PREFIXLIMIT - 10)) filename in
  if lineno >? 0 then (file ++ ":" ++ fmt_d lineno ++ ": ")%string
  else (file ++ ": ")%string.

(** The message without its trailing newlines. *)
Fixpoint chop_newlines (errmsg : string) : string :=
  match errmsg with
  | EmptyString => EmptyString
  | String c t =>
      match chop_newlines t with
      | EmptyString => if Ascii.eqb c ch_nl then EmptyString else str1 c
      | t' => String c t'
      end
  end.

(** [while( errmsg[restart]==' ' ) restart++;] counts the spaces skipped. *)
Fixpoint skip_spaces (s : string) : nat :=
  match s with
  | String c t => if Ascii.eqb c ch_space then S (skip_spaces t) else O
  | EmptyString => O
  end.

(** The printing loop of [ErrorMsg] on [&errmsg[base]], for at most [n]
    rounds: the lines written, and whether the loop has come to its end. *)
Fixpoint ErrorMsg_loop (n : nat) (prefix : string) (availablewidth : Z) (errmsg : string)
  : list (stream * string) * bool :=
  match n with
  | O => ([], match errmsg with EmptyString => true | _ => false end)
  | S n' =>
      match errmsg with
      | EmptyString => ([], true)
      | _ =>
          let '(e, errmsg1) := findbreak errmsg 0 availablewidth in
          let restart := (Z.to_nat e + skip_spaces (str_drop (Z.to_nat e) errmsg1))%nat in
          let line := (prefix ++ substring 0 (Z.to_nat e) errmsg1 ++ str1 ch_nl)%string in
          let '(lines, finished) :=
            ErrorMsg_loop n' prefix availablewidth (str_drop restart errmsg1) in
          ((stdout, line) :: lines, finished)
      end
  end.

(** [ErrorMsg(filename, lineno, format, ...)], [errmsg] being the message
    that [vsprintf] makes of the format and its arguments. *)
Definition ErrorMsg (n : nat) (filename : string) (lineno : Z) (errmsg : string)
  : list (stream * string) * bool :=
  let prefix := ErrorMsg_prefix filename lineno in
  let availablewidth := LINEWIDTH - Z.of_nat (String.length prefix) in
  ErrorMsg_loop n prefix availablewidth (chop_newlines errmsg).

Definition ERRMSGSIZE : Z := 10000.

(** The rounds of the printing loop after which a message that is not yet
    printed never will be: in every round the rest of the message gets
    shorter or loses a tab, or the round changes nothing and all later
    rounds are the same. *)
Definition ErrorMsg_rounds (errmsg : string) : nat := 2 * String.length errmsg + 2.

(** A call of [ErrorMsg] in the program.  The call returns when the printing
    loop comes to its end, and what it has printed by then is [ErrorMsg];
    there is no result when the loop never ends (a word wider than the line
    stops it for ever), nor when [vsprintf] writes behind
    [errmsg[ERRMSGSIZE]]. *)
Definition call_ErrorMsg (l : lemon) (filename : string) (lineno : Z) (msg : string)
  : option lemon :=
  if ERRMSGSIZE <=? Z.of_nat (String.length msg) then None
  else if snd (ErrorMsg (ErrorMsg_rounds msg) filename lineno msg) then
    Some (set_msgs l ((filename, lineno, msg) :: msgs l))
  else None.

(** [ErrorMsg(lemp->filename,lineno,...); lemp->errorcnt++;] *)
Definition lemp_error (l : lemon) (lineno : Z) (msg : string) : option lemon :=
  l1 <- call_ErrorMsg l (lem_filename l) lineno msg ;;
  Some (set_lem_errorcnt l1 (lem_errorcnt l + 1)).

(* ================================================================= *)
(** ** Conflict resolution (build.c) *)

(** [resolve_conflict (apx, apy, errsym)]: the two actions after the call
    and the returned [errcnt]. *)
Definition resolve_conflict (l : lemon) (apx apy : action) (errsym : option symptr)
  : option (action * action * Z) :=
  _ <- assert (Nat.eqb (act_sp apx) (act_sp apy)) ;;
  if e_action_eqb (act_type apx) SHIFT && e_action_eqb (act_type apy) REDUCE then
    rpy <- match act_x apy with x_rp (Some r) => the_rule l r | _ => None end ;;
    match rl_precsym rpy with
    | None => Some (apx, set_type apy CONFLICT, 1)
    | Some spy_ptr =>
        spx <- the_symbol l (act_sp apx) ;;
        if sym_prec spx <? 0 then Some (apx, set_type apy CONFLICT, 1) else
        spy <- the_symbol l spy_ptr ;;
        if sym_prec spy <? 0 then
          Some (apx, set_type apy CONFLICT, 1)
        else if sym_prec spx >? sym_prec spy then
          Some (apx, set_type apy RD_RESOLVED, 0)
        else if sym_prec spx <? sym_prec spy then
          Some (set_type apx SH_RESOLVED, apy, 0)
        else if (sym_prec spx =? sym_prec spy) && e_assoc_eqb (sym_assoc spx) RIGHT then
          Some (apx, set_type apy RD_RESOLVED, 0)
        else if (sym_prec spx =? sym_prec spy) && e_assoc_eqb (sym_assoc spx) LEFT then
          Some (set_type apx SH_RESOLVED, apy, 0)
        else
          _ <- assert ((sym_prec spx =? sym_prec spy) && e_assoc_eqb (sym_assoc spx) NONE) ;;
          Some (apx, set_type apy CONFLICT, 1)
    end
  else if e_action_eqb (act_type apx) REDUCE && e_action_eqb (act_type apy) REDUCE then
    rpx <- match act_x apx with x_rp (Some r) => the_rule l r | _ => None end ;;
    rpy <- match act_x apy with x_rp (Some r) => the_rule l r | _ => None end ;;
    match rl_precsym rpx, rl_precsym rpy with
    | Some spx_ptr, Some spy_ptr =>
        spx <- the_symbol l spx_ptr ;;
        if sym_prec spx <? 0 then Some (apx, set_type apy CONFLICT, 1) else
        spy <- the_symbol l spy_ptr ;;
        if (sym_prec spy <? 0) || (sym_prec spx =? sym_prec spy) then
          Some (apx, set_type apy CONFLICT, 1)
        else if sym_prec spx >? sym_prec spy then
          Some (apx, set_type apy RD_RESOLVED, 0)
        else if sym_prec spx <? sym_prec spy then
          Some (set_type apx RD_RESOLVED, apy, 0)
        else Some (apx, apy, 0)
    | _, _ => Some (apx, set_type apy CONFLICT, 1)
    end
  else Some (apx, apy, 0).


Fixpoint for_each {S A : Type} (f : S -> A -> option S) (xs : list A) (s : S) : option S :=
  match xs with
  | [] => Some s
  | x :: xs' => s' <- f s x ;; for_each f xs' s'
  end.

(** [lemp->sorted[i]] *)
Definition sorted_at (l : lemon) (i : nat) : option nat := nth_error (lem_sorted l) i.

Definition nat_upto (n : Z) : list nat := seq 0 (Z.to_nat n).

(** The body of the inner loop of the conflict resolution:
    [lemp->nconflict += resolve_conflict(ap,nap,lemp->errsym)]. *)
Definition resolve_pair (l : lemon) (ap nap : action) : option (action * action * lemon) :=
  '(ap', nap', errcnt) <- resolve_conflict l ap nap (lem_errsym l) ;;
  Some (ap', nap', set_lem_nconflict l (lem_nconflict l + errcnt)).

(** The inner loop: [nap] runs from [ap->next] while [nap->sp == ap->sp].
    Returns [ap], the actions visited, and the list from the last value of
    [nap] on. *)
Fixpoint resolve_naps (l : lemon) (ap : action) (naps : list action)
  : option (action * list action * list action * lemon) :=
  match naps with
  | [] => Some (ap, [], [], l)
  | nap :: rest =>
      if Nat.eqb (act_sp nap) (act_sp ap) then
        '(ap1, nap1, l1) <- resolve_pair l ap nap ;;
        '(ap2, visited, rest', l2) <- resolve_naps l1 ap1 rest ;;
        Some (ap2, nap1 :: visited, rest', l2)
      else Some (ap, [], naps, l)
  end.

(** The outer loop [for(ap=stp->ap; ap && ap->next; ap=nap)]; [n] bounds
    the number of its rounds (the length of the list is enough). *)
Fixpoint resolve_aps (n : nat) (l : lemon) (aps : list action) : option (list action * lemon) :=
  match aps with
  | [] => Some ([], l)
  | [ap] => Some ([ap], l)
  | ap :: naps =>
      match n with
      | O => None
      | S n' =>
          '(ap', visited, rest, l1) <- resolve_naps l ap naps ;;
          '(rest', l2) <- resolve_aps n' l1 rest ;;
          Some (ap' :: visited ++ rest', l2)
      end
  end.

(** One round of [for(j=0; j<lemp->nterminal; j++)] in [FindActions]. *)
Definition add_reduce (l : lemon) (fws : list bool) (rp : ruleptr) (ap : list action) (j : nat)
  : option (list action) :=
  if SetFind fws (Z.of_nat j) then
    sp <- nth_error (lem_symbols l) j ;;
    Some (Action_add ap REDUCE sp (x_rp (Some rp)))
  else Some ap.

Definition add_reduces_of_config (l : lemon) (ap : list action) (cfp : cfgptr)
  : option (list action) :=
  c <- the_config l cfp ;;
  r <- the_rule l (cf_rp c) ;;
  if rl_nrhs r =? cf_dot c then
    for_each (add_reduce l (cf_fws c) (cf_rp c)) (nat_upto (lem_nterminal l)) ap
  else Some ap.

Definition add_reduces_of_state (l : lemon) (i : nat) : option lemon :=
  stp <- sorted_at l i ;;
  st <- the_state l stp ;;
  ap <- for_each (add_reduces_of_config l) (st_cfp st) (st_ap st) ;;
  Some (put_state l stp (set_st_ap st ap)).

(** The start symbol as [FindActions] finds it. *)
Definition start_symbol (l : lemon) : option symptr :=
  match lem_start l with
  | Some start =>
      match Symbol_find l start with
      | Some sp => Some sp
      | None => r <- hd_error (lem_rule l) ;; Some (rl_lhs r)
      end
  | None => r <- hd_error (lem_rule l) ;; Some (rl_lhs r)
  end.

Definition resolve_state (l : lemon) (i : nat) : option lemon :=
  stp <- sorted_at l i ;;
  st <- the_state l stp ;;
  _ <- assert (negb (Nat.eqb (List.length (st_ap st)) 0)) ;;
  ap <- Action_sort l (st_ap st) ;;
  '(ap', l') <- resolve_aps (List.length ap) l ap ;;
  Some (put_state l' stp (set_st_ap st ap')).

Definition mark_canReduce (rules : list rule) (a : action) : option (list rule) :=
  if e_action_eqb (act_type a) REDUCE then
    match act_x a with
    | x_rp (Some rp) => r <- nth_error rules rp ;; Some (upd rules rp (set_rl_canReduce r true))
    | _ => None
    end
  else Some rules.

Definition mark_canReduce_state (l : lemon) (i : nat) : option lemon :=
  stp <- sorted_at l i ;;
  st <- the_state l stp ;;
  rules <- for_each mark_canReduce (st_ap st) (lem_rule l) ;;
  Some (set_lem_rule l rules).

Definition report_unreduced (l : lemon) (r : rule) : option lemon :=
  if rl_canReduce r then Some l
  else lemp_error l (rl_ruleline r) "This rule can not be reduced.
".

Definition FindActions (l : lemon) : option lemon :=
  let states := nat_upto (lem_nstate l) in
  l <- for_each add_reduces_of_state states l ;;
  sp <- start_symbol l ;;
  stp0 <- sorted_at l 0 ;;
  st0 <- the_state l stp0 ;;
  let l := put_state l stp0 (set_st_ap st0 (Action_add (st_ap st0) ACCEPT sp (x_rp None))) in
  l <- for_each resolve_state states l ;;
  let l := set_lem_rule l (map (fun r => set_rl_canReduce r false) (lem_rule l)) in
  l <- for_each mark_canReduce_state states l ;;
  for_each report_unreduced (lem_rule l) l.

(* ================================================================= *)
(** ** The grammar-file parser (parse.c) *)

Definition MAXRHS : Z := 1000.

(** [%s] of a string that may be a null pointer (glibc prints "(null)"). *)
Definition fmt_s (s : option string) : string :=
  match s with Some x => x | None => "(null)"%string end.

Definition q (s : string) : string := (str1 ch_dquote ++ s ++ str1 ch_dquote)%string.

Definition is_char (c : ascii) (d : string) : bool := Ascii.eqb c (char_at d 0).

(** [ErrorMsg(psp->filename,psp->tokenlineno,...); psp->errorcnt++;] *)
Definition ps_error (ps : pstate) (msg : string) : option pstate :=
  gp <- call_ErrorMsg (ps_gp ps) (ps_filename ps) (ps_tokenlineno ps) msg ;;
  Some (set_ps_errorcnt (set_ps_gp ps gp) (ps_errorcnt ps + 1)).

Definition read_argslot (l : lemon) (slot : argslot) : option (option string) :=
  match slot with
  | slot_name => Some (lem_name l)
  | slot_include => Some (lem_include l)
  | slot_extracode => Some (lem_extracode l)
  | slot_tokendest => Some (lem_tokendest l)
  | slot_tokenprefix => Some (lem_tokenprefix l)
  | slot_error => Some (lem_error l)
  | slot_accept => Some (lem_accept l)
  | slot_failure => Some (lem_failure l)
  | slot_overflow => Some (lem_overflow l)
  | slot_arg => Some (lem_arg l)
  | slot_tokentype => Some (lem_tokentype l)
  | slot_stacksize => Some (lem_stacksize l)
  | slot_start => Some (lem_start l)
  | slot_destructor sp => s <- the_symbol l sp ;; Some (sym_destructor s)
  | slot_datatype sp => s <- the_symbol l sp ;; Some (sym_datatype s)
  end.

Definition write_argslot (l : lemon) (slot : argslot) (v : string) : option lemon :=
  match slot with
  | slot_name => Some (set_lem_name l (Some v))
  | slot_include => Some (set_lem_include l (Some v))
  | slot_extracode => Some (set_lem_extracode l (Some v))
  | slot_tokendest => Some (set_lem_tokendest l (Some v))
  | slot_tokenprefix => Some (set_lem_tokenprefix l (Some v))
  | slot_error => Some (set_lem_error l (Some v))
  | slot_accept => Some (set_lem_accept l (Some v))
  | slot_failure => Some (set_lem_failure l (Some v))
  | slot_overflow => Some (set_lem_overflow l (Some v))
  | slot_arg => Some (set_lem_arg l (Some v))
  | slot_tokentype => Some (set_lem_tokentype l (Some v))
  | slot_stacksize => Some (set_lem_stacksize l (Some v))
  | slot_start => Some (set_lem_start l (Some v))
  | slot_destructor sp =>
      s <- the_symbol l sp ;; Some (put_symbol l sp (set_sym_destructor s (Some v)))
  | slot_datatype sp =>
      s <- the_symbol l sp ;; Some (put_symbol l sp (set_sym_datatype s (Some v)))
  end.

Definition write_lnslot (l : lemon) (slot : lnslot) (v : Z) : option lemon :=
  match slot with
  | ln_include => Some (set_lem_includeln l v)
  | ln_extracode => Some (set_lem_extracodeln l v)
  | ln_tokendest => Some (set_lem_tokendestln l v)
  | ln_error => Some (set_lem_errorln l v)
  | ln_accept => Some (set_lem_acceptln l v)
  | ln_failure => Some (set_lem_failureln l v)
  | ln_overflow => Some (set_lem_overflowln l v)
  | ln_destructor sp =>
      s <- the_symbol l sp ;; Some (put_symbol l sp (set_sym_destructorln s v))
  end.

(** [Symbol_new(x)] on the symbol table of the run. *)
Definition ps_Symbol_new (ps : pstate) (x : string) : symptr * pstate :=
  let '(sp, l) := Symbol_new (ps_gp ps) x in (sp, set_ps_gp ps l).

Definition is_arrow (x : string) : bool :=
  is_char (char_at x 0) ":" && is_char (char_at x 1) ":" && is_char (char_at x 2) "=".

(** The end of the rule, at the token ".": the rule is allocated, filled
    and linked (the allocation does not fail here). *)
Definition finish_rule (ps : pstate) : option pstate :=
  lhs <- ps_lhs ps ;;
  lhssym <- the_symbol (ps_gp ps) lhs ;;
  let gp := ps_gp ps in
  let rp : ruleptr := List.length (lem_rule gp) in
  let r := mkRule lhs (ps_lhsalias ps) (ps_tokenlineno ps) (ps_rhs ps) (ps_alias ps)
                  0 None None (lem_nrule gp) false in
  let gp := set_lem_nrule gp (lem_nrule gp + 1) in
  let gp := put_symbol gp lhs (set_sym_rule lhssym (rp :: sym_rule lhssym)) in
  let gp := set_lem_rule gp (lem_rule gp ++ [r]) in
  let ps := set_ps_gp ps gp in
  firstrule <- ps_firstrule ps ;;
  let ps := match firstrule with
            | None => set_ps_lastrule (set_ps_firstrule ps (Some (Some rp))) (Some rp)
            | Some _ => set_ps_lastrule ps (Some rp)
            end in
  Some (set_ps_prevrule ps (Some rp)).

Definition decl_keyword (ps : pstate) (x : string) : option pstate :=
  let ps := set_ps_declkeyword ps (Some x) in
  let ps := set_ps_declargslot ps None in
  let ps := set_ps_decllnslot ps None in
  let ps := set_ps_state ps WAITING_FOR_DECL_ARG in
  let slot a := set_ps_declargslot ps (Some a) in
  let slots a ln := set_ps_decllnslot (set_ps_declargslot ps (Some a)) (Some ln) in
  let prec a :=
    set_ps_state
      (set_ps_declassoc (set_ps_preccounter ps (ps_preccounter ps + 1)) a)
      WAITING_FOR_PRECEDENCE_SYMBOL in
  if strcmp x "name" =? 0 then Some (slot slot_name)
  else if strcmp x "include" =? 0 then Some (slots slot_include ln_include)
  else if strcmp x "code" =? 0 then Some (slots slot_extracode ln_extracode)
  else if strcmp x "token_destructor" =? 0 then Some (slots slot_tokendest ln_tokendest)
  else if strcmp x "token_prefix" =? 0 then Some (slot slot_tokenprefix)
  else if strcmp x "syntax_error" =? 0 then Some (slots slot_error ln_error)
  else if strcmp x "parse_accept" =? 0 then Some (slots slot_accept ln_accept)
  else if strcmp x "parse_failure" =? 0 then Some (slots slot_failure ln_failure)
  else if strcmp x "stack_overflow" =? 0 then Some (slots slot_overflow ln_overflow)
  else if strcmp x "extra_argument" =? 0 then Some (slot slot_arg)
  else if strcmp x "token_type" =? 0 then Some (slot slot_tokentype)
  else if strcmp x "stack_size" =? 0 then Some (slot slot_stacksize)
  else if strcmp x "start_symbol" =? 0 then Some (slot slot_start)
  else if strcmp x "left" =? 0 then Some (prec LEFT)
  else if strcmp x "right" =? 0 then Some (prec RIGHT)
  else if strcmp x "nonassoc" =? 0 then Some (prec NONE)
  else if strcmp x "destructor" =? 0 then Some (set_ps_state ps WAITING_FOR_DESTRUCTOR_SYMBOL)
  else if strcmp x "type" =? 0 then Some (set_ps_state ps WAITING_FOR_DATATYPE_SYMBOL)
  else
    ps <- ps_error ps ("Unknown declaration keyword: " ++ q ("%" ++ x) ++ ".") ;;
    Some (set_ps_state ps RESYNC_AFTER_DECL_ERROR).

(** The case WAITING_FOR_DECL_OR_RULE of [parseonetoken]. *)
Definition decl_or_rule (ps : pstate) (x : string) : option pstate :=
  let x0 := char_at x 0 in
  if is_char x0 "%" then Some (set_ps_state ps WAITING_FOR_DECL_KEYWORD)
  else if safe_islower x0 then
    let '(sp, ps) := ps_Symbol_new ps x in
    Some (set_ps_state
            (set_ps_lhsalias (set_ps_alias (set_ps_rhs (set_ps_lhs ps (Some sp)) []) []) None)
            WAITING_FOR_ARROW)
  else if is_char x0 "{" then
    match ps_prevrule ps with
    | None =>
        ps_error ps
          "There is not prior rule opon which to attach the code fragment which begins on this line."
    | Some prev =>
        r <- the_rule (ps_gp ps) prev ;;
        match rl_code r with
        | Some _ =>
            ps_error ps
              "Code fragment beginning on this line is not the first to follow the previous rule."
        | None =>
            let r := set_rl_code (set_rl_line r (ps_tokenlineno ps)) (Some (str_drop 1 x)) in
            Some (set_ps_gp ps (set_lem_rule (ps_gp ps) (upd (lem_rule (ps_gp ps)) prev r)))
        end
    end
  else if is_char x0 "[" then Some (set_ps_state ps PRECEDENCE_MARK_1)
  else
    ps_error ps
      ("Token " ++ q x ++ " should be either " ++ q "%" ++ " or a nonterminal name.").

(** The case WAITING_FOR_PRECEDENCE_SYMBOL of [parseonetoken]. *)
Definition precedence_symbol (ps : pstate) (x : string) : option pstate :=
  let x0 := char_at x 0 in
  if is_char x0 "." then Some (set_ps_state ps WAITING_FOR_DECL_OR_RULE)
  else if safe_isupper x0 then
    let '(sp, ps) := ps_Symbol_new ps x in
    s <- the_symbol (ps_gp ps) sp ;;
    if sym_prec s >=? 0 then
      ps_error ps ("Symbol " ++ q x ++ " has already be given a precedence.")
    else
      Some (set_ps_gp ps
              (put_symbol (ps_gp ps) sp
                 (set_sym_assoc (set_sym_prec s (ps_preccounter ps)) (ps_declassoc ps))))
  else
    ps_error ps ("Can't assign a precedence to " ++ q x ++ ".").

(** The format "Symbol name missing after %destructor keyword" holds the
    conversion [%d], for which no argument is passed: the number printed is
    not determined by the program (0 here). *)
Definition missing_symbol_name : string :=
  ("Symbol name missing after " ++ fmt_d 0 ++ "estructor keyword")%string.

(** [alias[nrhs-1] = x] *)
Definition set_last {A : Type} (l : list A) (v : A) : list A :=
  upd l (List.length l - 1) v.

(** Parse a single token [x]. *)
Definition parseonetoken (ps : pstate) : option pstate :=
  let x := ps_tokenstart ps in                     (* Strsafe keeps the text *)
  let x0 := char_at x 0 in
  match ps_state ps with
  | INITIALIZE =>
      let ps := set_ps_prevrule ps None in
      let ps := set_ps_preccounter ps 0 in
      let ps := set_ps_lastrule (set_ps_firstrule ps (Some None)) None in
      let ps := set_ps_gp ps (set_lem_nrule (ps_gp ps) 0) in
      decl_or_rule ps x
  | WAITING_FOR_DECL_OR_RULE => decl_or_rule ps x
  | PRECEDENCE_MARK_1 =>
      ps <-
        (if negb (safe_isupper x0) then
           ps_error ps "The precedence symbol must be a terminal."
         else
           match ps_prevrule ps with
           | None =>
               ps_error ps
                 ("There is no prior rule to assign precedence " ++ q ("[" ++ x ++ "]") ++ ".")
           | Some prev =>
               r <- the_rule (ps_gp ps) prev ;;
               match rl_precsym r with
               | Some _ =>
                   ps_error ps
                     "Precedence mark on this line is not the first to follow the previous rule."
               | None =>
                   let '(sp, ps) := ps_Symbol_new ps x in
                   Some (set_ps_gp ps
                           (set_lem_rule (ps_gp ps)
                              (upd (lem_rule (ps_gp ps)) prev (set_rl_precsym r (Some sp)))))
               end
           end) ;;
      Some (set_ps_state ps PRECEDENCE_MARK_2)
  | PRECEDENCE_MARK_2 =>
      ps <- (if negb (is_char x0 "]")
             then ps_error ps ("Missing " ++ q "]" ++ " on precedence mark.")
             else Some ps) ;;
      Some (set_ps_state ps WAITING_FOR_DECL_OR_RULE)
  | WAITING_FOR_ARROW =>
      if is_arrow x then Some (set_ps_state ps IN_RHS)
      else if is_char x0 "(" then Some (set_ps_state ps LHS_ALIAS_1)
      else
        lhs <- ps_lhs ps ;; s <- the_symbol (ps_gp ps) lhs ;;
        ps <- ps_error ps
            ("Expected to see a " ++ q ":" ++ " following the LHS symbol "
            ++ q (sym_name s) ++ ".") ;;
        Some (set_ps_state ps RESYNC_AFTER_RULE_ERROR)
  | LHS_ALIAS_1 =>
      if safe_isalpha x0 then
        Some (set_ps_state (set_ps_lhsalias ps (Some x)) LHS_ALIAS_2)
      else
        lhs <- ps_lhs ps ;; s <- the_symbol (ps_gp ps) lhs ;;
        ps <- ps_error ps
            (q x ++ " is not a valid alias for the LHS " ++ q (sym_name s) ++ str1 ch_nl) ;;
        Some (set_ps_state ps RESYNC_AFTER_RULE_ERROR)
  | LHS_ALIAS_2 =>
      if is_char x0 ")" then Some (set_ps_state ps LHS_ALIAS_3)
      else
        ps <- ps_error ps
            ("Missing " ++ q ")" ++ " following LHS alias name "
            ++ q (fmt_s (ps_lhsalias ps)) ++ ".") ;;
        Some (set_ps_state ps RESYNC_AFTER_RULE_ERROR)
  | LHS_ALIAS_3 =>
      if is_arrow x then Some (set_ps_state ps IN_RHS)
      else
        lhs <- ps_lhs ps ;; s <- the_symbol (ps_gp ps) lhs ;;
        ps <- ps_error ps
            ("Missing " ++ q "->" ++ " following: "
            ++ q (sym_name s ++ "(" ++ fmt_s (ps_lhsalias ps) ++ ")") ++ ".") ;;
        Some (set_ps_state ps RESYNC_AFTER_RULE_ERROR)
  | IN_RHS =>
      if is_char x0 "." then
        ps <- finish_rule ps ;;
        Some (set_ps_state ps WAITING_FOR_DECL_OR_RULE)
      else if safe_isalpha x0 then
        if ps_nrhs ps >=? MAXRHS then
          ps <- ps_error ps
              ("Too many symbol on RHS or rule beginning at " ++ q x ++ ".") ;;
          Some (set_ps_state ps RESYNC_AFTER_RULE_ERROR)
        else
          let '(sp, ps) := ps_Symbol_new ps x in
          Some (set_ps_alias (set_ps_rhs ps (ps_rhs ps ++ [sp])) (ps_alias ps ++ [None]))
      else if is_char x0 "(" && (ps_nrhs ps >? 0) then
        Some (set_ps_state ps RHS_ALIAS_1)
      else
        ps <- ps_error ps
            ("Illegal character on RHS of rule: " ++ q x ++ ".") ;;
        Some (set_ps_state ps RESYNC_AFTER_RULE_ERROR)
  | RHS_ALIAS_1 =>
      if safe_isalpha x0 then
        Some (set_ps_state (set_ps_alias ps (set_last (ps_alias ps) (Some x))) RHS_ALIAS_2)
      else
        sp <- nth_error (ps_rhs ps) (List.length (ps_rhs ps) - 1) ;;
        s <- the_symbol (ps_gp ps) sp ;;
        ps <- ps_error ps
            (q x ++ " is not a valid alias for the RHS symbol " ++ q (sym_name s)
            ++ str1 ch_nl) ;;
        Some (set_ps_state ps RESYNC_AFTER_RULE_ERROR)
  | RHS_ALIAS_2 =>
      if is_char x0 ")" then Some (set_ps_state ps IN_RHS)
      else
        ps <- ps_error ps
            ("Missing " ++ q ")" ++ " following LHS alias name "
            ++ q (fmt_s (ps_lhsalias ps)) ++ ".") ;;
        Some (set_ps_state ps RESYNC_AFTER_RULE_ERROR)
  | WAITING_FOR_DECL_KEYWORD =>
      if safe_isalpha x0 then decl_keyword ps x
      else
        ps <- ps_error ps
            ("Illegal declaration keyword: " ++ q x ++ ".") ;;
        Some (set_ps_state ps RESYNC_AFTER_DECL_ERROR)
  | WAITING_FOR_DESTRUCTOR_SYMBOL =>
      if negb (safe_isalpha x0) then
        ps <- ps_error ps
            missing_symbol_name ;;
        Some (set_ps_state ps RESYNC_AFTER_DECL_ERROR)
      else
        let '(sp, ps) := ps_Symbol_new ps x in
        Some (set_ps_state
                (set_ps_decllnslot (set_ps_declargslot ps (Some (slot_destructor sp)))
                   (Some (ln_destructor sp)))
                WAITING_FOR_DECL_ARG)
  | WAITING_FOR_DATATYPE_SYMBOL =>
      if negb (safe_isalpha x0) then
        ps <- ps_error ps
            missing_symbol_name ;;
        Some (set_ps_state ps RESYNC_AFTER_DECL_ERROR)
      else
        let '(sp, ps) := ps_Symbol_new ps x in
        Some (set_ps_state
                (set_ps_decllnslot (set_ps_declargslot ps (Some (slot_datatype sp))) None)
                WAITING_FOR_DECL_ARG)
  | WAITING_FOR_PRECEDENCE_SYMBOL => precedence_symbol ps x
  | WAITING_FOR_DECL_ARG =>
      if is_char x0 "{" || Ascii.eqb x0 ch_dquote || safe_isalnum x0 then
        slot <- ps_declargslot ps ;;
        old <- read_argslot (ps_gp ps) slot ;;
        match old with
        | Some _ =>
            ps <- ps_error ps
                ("The argument " ++ q (if Ascii.eqb x0 ch_dquote then str_drop 1 x else x)
                ++ " to declaration " ++ q ("%" ++ fmt_s (ps_declkeyword ps))
                ++ " is not the first.") ;;
            Some (set_ps_state ps RESYNC_AFTER_DECL_ERROR)
        | None =>
            gp <- write_argslot (ps_gp ps) slot
                    (if Ascii.eqb x0 ch_dquote || is_char x0 "{" then str_drop 1 x else x) ;;
            gp <- match ps_decllnslot ps with
                  | Some ln => write_lnslot gp ln (ps_tokenlineno ps)
                  | None => Some gp
                  end ;;
            Some (set_ps_state (set_ps_gp ps gp) WAITING_FOR_DECL_OR_RULE)
        end
      else
        ps <- ps_error ps
            ("Illegal argument to %" ++ fmt_s (ps_declkeyword ps) ++ ": " ++ x) ;;
        Some (set_ps_state ps RESYNC_AFTER_DECL_ERROR)
  | RESYNC_AFTER_RULE_ERROR
  | RESYNC_AFTER_DECL_ERROR =>
      let ps := if is_char x0 "." then set_ps_state ps WAITING_FOR_DECL_OR_RULE else ps in
      let ps := if is_char x0 "%" then set_ps_state ps WAITING_FOR_DECL_KEYWORD else ps in
      Some ps
  end.

(** *** The scanner [Parse]

    [cp] is the text from the scan position on ([*cp] is 0 at its end). *)
Definition chars := list ascii.

(** [while( (c= *cp)!=0 && c!='\n' ) cp++;] *)
Fixpoint skip_to_eol (cp : chars) : chars :=
  match cp with
  | [] => []
  | c :: cp' => if Ascii.eqb c ch_nl then cp else skip_to_eol cp'
  end.

(** [while( (c= *cp)!=0 && (c!='/' || prevc!='*') ){ if( c=='\n' ) lineno++; prevc = c; cp++; }] *)
Fixpoint skip_comment (prevc : ascii) (cp : chars) (lineno : Z) : chars * Z :=
  match cp with
  | [] => ([], lineno)
  | c :: cp' =>
      if is_char c "/" && is_char prevc "*" then (cp, lineno)
      else skip_comment c cp' (if Ascii.eqb c ch_nl then lineno + 1 else lineno)
  end.

(** The loop over a string literal, up to the closing quote:
    [while( (c= *cp)!=0 && c!=QUOTE ){ if( c=='\n' ) lineno++; cp++; }] *)
Fixpoint skip_string (cp : chars) (lineno : Z) : chars * Z :=
  match cp with
  | [] => ([], lineno)
  | c :: cp' =>
      if Ascii.eqb c ch_dquote then (cp, lineno)
      else skip_string cp' (if Ascii.eqb c ch_nl then lineno + 1 else lineno)
  end.

(** The loop over a string or character literal inside a block of code. *)
Fixpoint skip_literal (startchar prevc : ascii) (cp : chars) (lineno : Z) : chars * Z :=
  match cp with
  | [] => ([], lineno)
  | c :: cp' =>
      if Ascii.eqb c startchar && negb (is_char prevc "\") then (cp, lineno)
      else skip_literal startchar (if is_char prevc "\" then NUL else c) cp'
                        (if Ascii.eqb c ch_nl then lineno + 1 else lineno)
  end.

(** [while( (c= *cp)!=0 && (safe_isalnum(c) || c=='_') ) cp++;] *)
Fixpoint skip_identifier (cp : chars) : chars :=
  match cp with
  | [] => []
  | c :: cp' => if safe_isalnum c || is_char c "_" then skip_identifier cp' else cp
  end.

(** The loop over a block of C code, [level] deep, for at most [n] rounds;
    it ends on the closing brace or at the end of the text.  After a
    comment or a literal that the text ends in, [cp++] steps over the
    terminator of the buffer: no result. *)
Fixpoint scan_code (n : nat) (level : Z) (cp : chars) (lineno : Z) : option (chars * Z) :=
  match cp with
  | [] => Some ([], lineno)
  | c :: cp' =>
      if negb (level >? 1) && is_char c "}" then Some (cp, lineno)
      else
        match n with
        | O => None
        | S n' =>
            if Ascii.eqb c ch_nl then scan_code n' level cp' (lineno + 1)
            else if is_char c "{" then scan_code n' (level + 1) cp' lineno
            else if is_char c "}" then scan_code n' (level - 1) cp' lineno
            else if is_char c "/" && is_char (hd NUL cp') "*" then
              match skip_comment NUL (tl cp') lineno with
              | ([], _) => None
              | (_ :: cp2, lineno') => scan_code n' level cp2 lineno'
              end
            else if is_char c "/" && is_char (hd NUL cp') "/" then
              match skip_to_eol (tl cp') with
              | [] => None
              | _ :: cp2 => scan_code n' level cp2 (lineno + 1)
              end
            else if is_char c "'" || Ascii.eqb c ch_dquote then
              match skip_literal c NUL cp' lineno with
              | ([], _) => None
              | (_ :: cp2, lineno') => scan_code n' level cp2 lineno'
              end
            else scan_code n' level cp' lineno
        end
  end.

(** The text between [tokenstart] and [cp]. *)
Definition token_text (tokenstart cp : chars) : string :=
  string_of_list_ascii (firstn (List.length tokenstart - List.length cp) tokenstart).

Definition isspace_nl (c : ascii) (lineno : Z) : Z :=
  if Ascii.eqb c ch_nl then lineno + 1 else lineno.

(** The scanning loop of [Parse], for at most [n] rounds. *)
Fixpoint scan (n : nat) (ps : pstate) (cp : chars) (lineno : Z) : option pstate :=
  match cp with
  | [] => Some ps
  | c :: cp' =>
      match n with
      | O => None
      | S n' =>
          let lineno := isspace_nl c lineno in
          if safe_isspace c then scan n' ps cp' lineno
          else if is_char c "/" && is_char (hd NUL cp') "/" then
            scan n' ps (skip_to_eol (tl cp')) lineno
          else if is_char c "/" && is_char (hd NUL cp') "*" then
            let '(cp2, lineno) := skip_comment (char_at "*" 0) (tl cp') lineno in
            scan n' ps (tl cp2) lineno
          else
            let ps := set_ps_tokenlineno ps lineno in
            '(ps, cpend, nextcp, lineno) <-
              (if Ascii.eqb c ch_dquote then
                 let '(cp2, lineno) := skip_string cp' lineno in
                 match cp2 with
                 | [] =>
                     gp <- call_ErrorMsg (ps_gp ps) (ps_filename ps) 0
                       "String starting on this line is not terminated before the end of the file." ;;
                     Some (set_ps_errorcnt (set_ps_gp ps gp) (ps_errorcnt ps + 1),
                           cp2, cp2, lineno)
                 | _ :: cp3 => Some (ps, cp2, cp3, lineno)
                 end
               else if is_char c "{" then
                 '(cp2, lineno) <- scan_code (List.length cp') 1 cp' lineno ;;
                 match cp2 with
                 | [] =>
                     gp <- call_ErrorMsg (ps_gp ps) (ps_filename ps) 0
                       "C code starting on this line is not terminated before the end of the file." ;;
                     Some (set_ps_errorcnt (set_ps_gp ps gp) (ps_errorcnt ps + 1),
                           cp2, cp2, lineno)
                 | _ :: cp3 => Some (ps, cp2, cp3, lineno)
                 end
               else if safe_isalnum c then
                 let cp2 := skip_identifier cp in Some (ps, cp2, cp2, lineno)
               else if is_char c ":" && is_char (hd NUL cp') ":"
                       && is_char (hd NUL (tl cp')) "=" then
                 let cp2 := tl (tl cp') in Some (ps, cp2, cp2, lineno)
               else Some (ps, cp', cp', lineno)) ;;
            ps <- parseonetoken (set_ps_tokenstart ps (token_text cp cpend)) ;;
            scan n' ps nextcp lineno
      end
  end.

(** The parser state at the start of [Parse]: of its fields only [gp],
    [filename], [errorcnt] and [state] are set there.  [firstrule] stays
    unset until the case INITIALIZE of [parseonetoken], which is reached
    with the first token, and is read when the scan is over.  The other
    fields are written before they are read ([prevrule], [preccounter] and
    [lastrule] in the case INITIALIZE, the rest where a declaration or a
    rule begins), so that what they hold here is never seen. *)
Definition pstate_init (gp : lemon) : pstate :=
  mkPstate (lem_filename gp) 0 0 EmptyString gp INITIALIZE None None [] [] None None
           None None UNK 0 None None.

(** [Parse(gp)]; [file] is the content of the file [gp->filename], if it
    can be opened (reading it does not fail here). *)
Definition Parse (gp : lemon) (file : option string) : option lemon :=
  match file with
  | None =>
      lemp_error gp 0 "Can't open this file for reading."
  | Some filebuf =>
      let cp := list_ascii_of_string filebuf in
      ps <- scan (List.length cp) (pstate_init gp) cp 1 ;;
      let gp := ps_gp ps in
      firstrule <- ps_firstrule ps ;;      (* unset when the file has no token *)
      let gp := set_lem_rule gp (match firstrule with
                                 | None => []
                                 | Some first => skipn first (lem_rule gp)
                                 end) in
      Some (set_lem_errorcnt gp (ps_errorcnt ps))
  end.

(* ================================================================= *)
(** ** Rule precedences, nullable symbols and first sets (build.c) *)

(** The first RHS symbol with a defined precedence. *)
Fixpoint first_prec (l : lemon) (rhs : list symptr) : option (option symptr) :=
  match rhs with
  | [] => Some None
  | sp :: rhs' =>
      s <- the_symbol l sp ;;
      if sym_prec s >=? 0 then Some (Some sp) else first_prec l rhs'
  end.

Definition FindRulePrecedences_rule (l : lemon) (rp : rule) : option rule :=
  match rl_precsym rp with
  | Some _ => Some rp
  | None => p <- first_prec l (rl_rhs rp) ;; Some (set_rl_precsym rp p)
  end.

Fixpoint map_opt {A B : Type} (f : A -> option B) (xs : list A) : option (list B) :=
  match xs with
  | [] => Some []
  | x :: xs' => y <- f x ;; ys <- map_opt f xs' ;; Some (y :: ys)
  end.

Definition FindRulePrecedences (xp : lemon) : option lemon :=
  rules <- map_opt (FindRulePrecedences_rule xp) (lem_rule xp) ;;
  Some (set_lem_rule xp rules).

(** [for(i=0; i<rp->nrhs; i++){ if( rp->rhs[i]->lambda==FALSE ) break; }]
    followed by the test [i==rp->nrhs]. *)
Fixpoint all_lambda (l : lemon) (rhs : list symptr) : option bool :=
  match rhs with
  | [] => Some true
  | sp :: rhs' =>
      s <- the_symbol l sp ;;
      if sym_lambda s then all_lambda l rhs' else Some false
  end.

(** One rule in a pass of the first loop; the state is the program state
    and [progress]. *)
Definition lambda_rule (st : lemon * Z) (rp : rule) : option (lemon * Z) :=
  let '(l, progress) := st in
  lhs <- the_symbol l (rl_lhs rp) ;;
  if sym_lambda lhs then Some st
  else
    b <- all_lambda l (rl_rhs rp) ;;
    if b then Some (put_symbol l (rl_lhs rp) (set_sym_lambda lhs true), 1)
    else Some st.

(** The loop [do{ ... }while( progress )], for at most [n] passes. *)
Fixpoint lambda_loop (n : nat) (l : lemon) : option lemon :=
  match n with
  | O => None
  | S n' =>
      '(l', progress) <- for_each lambda_rule (lem_rule l) (l, 0) ;;
      if progress =? 0 then Some l' else lambda_loop n' l'
  end.

(** The scan of the RHS of a rule with left-hand side [s1], from [rhs] on. *)
Fixpoint first_rhs (s1 : symptr) (rhs : list symptr) (st : lemon * Z) : option (lemon * Z) :=
  match rhs with
  | [] => Some st
  | s2 :: rhs' =>
      let '(l, progress) := st in
      sym2 <- the_symbol l s2 ;;
      match sym_type sym2 with
      | TERMINAL =>
          sym1 <- the_symbol l s1 ;;
          fs1 <- sym_firstset sym1 ;;
          let '(added, fs1') := SetAdd fs1 (sym_index sym2) in
          Some (put_symbol l s1 (set_sym_firstset sym1 (Some fs1')), progress + added)
      | NONTERMINAL =>
          if Nat.eqb s1 s2 then
            if sym_lambda sym2 then first_rhs s1 rhs' st else Some st
          else
            sym1 <- the_symbol l s1 ;;
            fs1 <- sym_firstset sym1 ;;
            fs2 <- sym_firstset sym2 ;;
            let '(changed, fs1') := SetUnion fs1 fs2 in
            let st' := (put_symbol l s1 (set_sym_firstset sym1 (Some fs1')), progress + changed) in
            if sym_lambda sym2 then first_rhs s1 rhs' st' else Some st'
      end
  end.

Definition first_rule (st : lemon * Z) (rp : rule) : option (lemon * Z) :=
  first_rhs (rl_lhs rp) (rl_rhs rp) st.

Fixpoint first_loop (n : nat) (l : lemon) : option lemon :=
  match n with
  | O => None
  | S n' =>
      '(l', progress) <- for_each first_rule (lem_rule l) (l, 0) ;;
      if progress =? 0 then Some l' else first_loop n' l'
  end.

(** The two loops at the head of [FindFirstSets]. *)
Definition clear_lambda (l : lemon) (i : nat) : option lemon :=
  sp <- nth_error (lem_symbols l) i ;;
  s <- the_symbol l sp ;;
  Some (put_symbol l sp (set_sym_lambda s false)).

Definition new_firstset (l : lemon) (i : nat) : option lemon :=
  sp <- nth_error (lem_symbols l) i ;;
  s <- the_symbol l sp ;;
  Some (put_symbol l sp (set_sym_firstset s (Some (SetNew l)))).

Definition nat_range (lo hi : Z) : list nat :=
  seq (Z.to_nat lo) (Z.to_nat hi - Z.to_nat lo).

(** [FindFirstSets], each of its two [do ... while] loops making at most
    [n] passes. *)
Definition FindFirstSets (n : nat) (lemp : lemon) : option lemon :=
  l <- for_each clear_lambda (nat_upto (lem_nsymbol lemp)) lemp ;;
  l <- for_each new_firstset (nat_range (lem_nterminal l) (lem_nsymbol l)) l ;;
  l <- lambda_loop n l ;;
  first_loop n l.

(* ================================================================= *)
(** ** The configuration list builder (configlist.c) *)

(** [Configcmp] *)
Definition Configcmp (l : lemon) (a b : config) : option Z :=
  ra <- the_rule l (cf_rp a) ;;
  rb <- the_rule l (cf_rp b) ;;
  let x := rl_index ra - rl_index rb in
  Some (if x =? 0 then cf_dot a - cf_dot b else x).

Definition Configcmp_ptr (l : lemon) (a b : cfgptr) : option Z :=
  ca <- the_config l a ;; cb <- the_config l b ;; Configcmp l ca cb.

(** [Configtable_find]: the entry of [x4a] that compares equal to the key. *)
Fixpoint Configtable_find_in (l : lemon) (key : config) (tbl : list cfgptr) : option (option cfgptr) :=
  match tbl with
  | [] => Some None
  | cfp :: tbl' =>
      c <- the_config l cfp ;;
      x <- Configcmp l c key ;;
      if x =? 0 then Some (Some cfp) else Configtable_find_in l key tbl'
  end.

Definition Configtable_find (l : lemon) (key : config) : option (option cfgptr) :=
  Configtable_find_in l key (x4a l).

Definition Configlist_init (l : lemon) : lemon :=
  set_x4a (set_basisend (set_basis (set_currentend (set_current l []) true) []) true) [].

Definition Configlist_reset (l : lemon) : lemon :=
  set_x4a (set_basisend (set_basis (set_currentend (set_current l []) true) []) true) [].

(** [newconfig] hands out a configuration that no list holds; it is the
    next one of the store. *)
Definition newconfig (l : lemon) : cfgptr := List.length (cfg_store l).

Definition Configlist_add (l : lemon) (rp : ruleptr) (dot : Z) : option (cfgptr * lemon) :=
  _ <- assert (currentend l) ;;
  let model := mkConfig rp dot [] [] [] None COMPLETE in
  found <- Configtable_find l model ;;
  match found with
  | Some cfp => Some (cfp, l)
  | None =>
      let cfp := newconfig l in
      let c := mkConfig rp dot (SetNew l) [] [] None COMPLETE in
      let l := set_cfg_store l (cfg_store l ++ [c]) in
      let l := set_current l (current l ++ [cfp]) in
      Some (cfp, set_x4a l (x4a l ++ [cfp]))
  end.

Definition Configlist_addbasis (l : lemon) (rp : ruleptr) (dot : Z) : option (cfgptr * lemon) :=
  _ <- assert (basisend l) ;;
  _ <- assert (currentend l) ;;
  let model := mkConfig rp dot [] [] [] None COMPLETE in
  found <- Configtable_find l model ;;
  match found with
  | Some cfp => Some (cfp, l)
  | None =>
      let cfp := newconfig l in
      let c := mkConfig rp dot (SetNew l) [] [] None COMPLETE in
      let l := set_cfg_store l (cfg_store l ++ [c]) in
      let l := set_current l (current l ++ [cfp]) in
      let l := set_basis l (basis l ++ [cfp]) in
      Some (cfp, set_x4a l (x4a l ++ [cfp]))
  end.

(** The loop [for(i=dot+1; i<rp->nrhs; i++)] of the closure over the
    symbols [rest] after the one behind the dot: the follow set of the new
    configuration, and whether the loop ran to [i==rp->nrhs]. *)
Fixpoint closure_follow (l : lemon) (rest : list symptr) (fws : list bool)
  : option (list bool * bool) :=
  match rest with
  | [] => Some (fws, true)
  | xsp :: rest' =>
      x <- the_symbol l xsp ;;
      match sym_type x with
      | TERMINAL => Some (snd (SetAdd fws (sym_index x)), false)
      | NONTERMINAL =>
          fs <- sym_firstset x ;;
          let fws' := snd (SetUnion fws fs) in
          if sym_lambda x then closure_follow l rest' fws' else Some (fws', false)
      end
  end.

(** One round of [for(newrp=sp->rule; newrp; newrp=newrp->nextlhs)] for
    the configuration [cfp], whose rule has [rest] after the symbol behind
    the dot. *)
Definition closure_rule (cfp : cfgptr) (rest : list symptr) (l : lemon) (newrp : ruleptr)
  : option lemon :=
  '(newcfp, l) <- Configlist_add l newrp 0 ;;
  newc <- the_config l newcfp ;;
  '(fws, at_end) <- closure_follow l rest (cf_fws newc) ;;
  let l := put_config l newcfp (set_cf_fws newc fws) in
  if at_end then
    c <- the_config l cfp ;;
    Some (put_config l cfp (set_cf_fplp c (newcfp :: cf_fplp c)))
  else Some l.

(** One round of the loop of [Configlist_closure], for [cfp]. *)
Definition closure_config (l : lemon) (cfp : cfgptr) : option lemon :=
  c <- the_config l cfp ;;
  rp <- the_rule l (cf_rp c) ;;
  if cf_dot c >=? rl_nrhs rp then Some l
  else
    sp <- nth_error (rl_rhs rp) (Z.to_nat (cf_dot c)) ;;
    s <- the_symbol l sp ;;
    match sym_type s with
    | TERMINAL => Some l
    | NONTERMINAL =>
        l <-
          match sym_rule s with
          | [] =>
              if negb (match lem_errsym l with Some e => Nat.eqb sp e | None => false end) then
                lemp_error l (rl_line rp) ("Nonterminal " ++ q (sym_name s) ++ " has no rules.")
              else Some l
          | _ => Some l
          end ;;
        for_each (closure_rule cfp (skipn (S (Z.to_nat (cf_dot c))) (rl_rhs rp))) (sym_rule s) l
    end.

(** [for(cfp=current; cfp; cfp=cfp->next)] over a list that grows at its
    end while it is walked: [k] configurations are behind [cfp], and at
    most [n] rounds are made. *)
Fixpoint closure_loop (n : nat) (l : lemon) (k : nat) : option lemon :=
  match nth_error (current l) k with
  | None => Some l
  | Some cfp =>
      match n with
      | O => None
      | S n' => l' <- closure_config l cfp ;; closure_loop n' l' (S k)
      end
  end.

Definition Configlist_closure (n : nat) (lemp : lemon) : option lemon :=
  _ <- assert (currentend lemp) ;;
  closure_loop n lemp 0.

Definition Configlist_sort (l : lemon) : option lemon :=
  cur <- msort (Configcmp_ptr l) (current l) ;;
  Some (set_currentend (set_current l cur) false).

(** The list sorted is the one that starts at [current] and goes along
    the [bp] links: the basis, which [current] starts with. *)
Definition Configlist_sortbasis (l : lemon) : option lemon :=
  bas <- msort (Configcmp_ptr l) (basis l) ;;
  Some (set_basisend (set_basis l bas) false).

Definition Configlist_return (l : lemon) : list cfgptr * lemon :=
  (current l, set_currentend (set_current l []) false).

Definition Configlist_basis (l : lemon) : list cfgptr * lemon :=
  (basis l, set_basisend (set_basis l []) false).

(** [Configlist_eat]: the configurations go back to the free list; nothing
    refers to them. *)
Definition eat_config (l : lemon) (cfp : cfgptr) : option lemon :=
  c <- the_config l cfp ;;
  _ <- assert (match cf_fplp c with [] => true | _ => false end) ;;
  _ <- assert (match cf_bplp c with [] => true | _ => false end) ;;
  Some l.

Definition Configlist_eat (l : lemon) (cfp : list cfgptr) : option lemon :=
  for_each eat_config cfp l.

(* ================================================================= *)
(** ** The states (build.c, table.c) *)

Fixpoint statecmp (l : lemon) (a b : list cfgptr) : option Z :=
  match a, b with
  | [], [] => Some 0
  | _ :: _, [] => Some 1
  | [], _ :: _ => Some (-1)
  | x :: a', y :: b' =>
      rc <- Configcmp_ptr l x y ;;
      if rc =? 0 then statecmp l a' b' else Some rc
  end.

(** [State_find]: the state of [x3a] whose key, its basis, compares equal. *)
Fixpoint State_find_in (l : lemon) (key : list cfgptr) (tbl : list state) (i : nat)
  : option (option nat) :=
  match tbl with
  | [] => Some None
  | st :: tbl' =>
      rc <- statecmp l (st_bp st) key ;;
      if rc =? 0 then Some (Some i) else State_find_in l key tbl' (S i)
  end.

Definition State_find (l : lemon) (key : list cfgptr) : option (option nat) :=
  State_find_in l key (x3a l) 0.

(** [Plink_copy(to,from)] moves the links of [from] one by one to the head
    of [to]. *)
Definition Plink_copy (to from : list cfgptr) : list cfgptr := rev from ++ to.

(** The loop of [getstate] over the two bases, when the state exists. *)
Fixpoint copy_links (l : lemon) (xs ys : list cfgptr) : option lemon :=
  match xs, ys with
  | x :: xs', y :: ys' =>
      cx <- the_config l x ;;
      cy <- the_config l y ;;
      let l := put_config l y (set_cf_bplp cy (Plink_copy (cf_bplp cy) (cf_bplp cx))) in
      cx <- the_config l x ;;
      let l := put_config l x (set_cf_bplp (set_cf_fplp cx []) []) in
      copy_links l xs' ys'
  | _, _ => Some l
  end.

(** One round of the inner loop of [buildshifts], for [bcfp]; [sp] is the
    symbol shifted. *)
Definition shift_basis (sp : symptr) (l : lemon) (bcfp : cfgptr) : option lemon :=
  c <- the_config l bcfp ;;
  match cf_status c with
  | COMPLETE => Some l
  | INCOMPLETE =>
      rp <- the_rule l (cf_rp c) ;;
      if cf_dot c >=? rl_nrhs rp then Some l
      else
        bsp <- nth_error (rl_rhs rp) (Z.to_nat (cf_dot c)) ;;
        if negb (Nat.eqb bsp sp) then Some l
        else
          let l := put_config l bcfp (set_cf_status c COMPLETE) in
          '(new, l) <- Configlist_addbasis l (cf_rp c) (cf_dot c + 1) ;;
          cnew <- the_config l new ;;
          Some (put_config l new (set_cf_bplp cnew (bcfp :: cf_bplp cnew)))
  end.

(** The outer loop of [buildshifts] over the configurations [cfps] of the
    state [stp]; [getstate] is the function of that name. *)
Fixpoint shifts_loop (getstate : lemon -> option (nat * lemon)) (stp : nat)
    (cfps : list cfgptr) (l : lemon) : option lemon :=
  match cfps with
  | [] => Some l
  | cfp :: rest =>
      c <- the_config l cfp ;;
      rp <- the_rule l (cf_rp c) ;;
      match cf_status c with
      | COMPLETE => shifts_loop getstate stp rest l
      | INCOMPLETE =>
          if cf_dot c >=? rl_nrhs rp then shifts_loop getstate stp rest l
          else
            let l := Configlist_reset l in
            sp <- nth_error (rl_rhs rp) (Z.to_nat (cf_dot c)) ;;
            l <- for_each (shift_basis sp) cfps l ;;
            '(newstp, l) <- getstate l ;;
            st <- the_state l stp ;;
            let l := put_state l stp
                       (set_st_ap st (Action_add (st_ap st) SHIFT sp (x_stp newstp))) in
            shifts_loop getstate stp rest l
      end
  end.

Definition set_incomplete (l : lemon) (cfp : cfgptr) : option lemon :=
  c <- the_config l cfp ;;
  Some (put_config l cfp (set_cf_status c INCOMPLETE)).

Definition buildshifts (getstate : lemon -> option (nat * lemon)) (l : lemon) (stp : nat)
  : option lemon :=
  st <- the_state l stp ;;
  l <- for_each set_incomplete (st_cfp st) l ;;
  shifts_loop getstate stp (st_cfp st) l.

(** [getstate]; [n] bounds the depth of the calls and the rounds of the
    closure. *)
Fixpoint getstate (n : nat) (lemp : lemon) : option (nat * lemon) :=
  match n with
  | O => None
  | S n' =>
      l <- Configlist_sortbasis lemp ;;
      let '(bp, l) := Configlist_basis l in
      found <- State_find l bp ;;
      match found with
      | Some stp =>
          st <- the_state l stp ;;
          l <- copy_links l bp (st_bp st) ;;
          let '(cfp, l) := Configlist_return l in
          l <- Configlist_eat l cfp ;;
          Some (stp, l)
      | None =>
          l <- Configlist_closure n l ;;
          l <- Configlist_sort l ;;
          let '(cfp, l) := Configlist_return l in
          let stp := List.length (x3a l) in
          let st := mkState bp cfp (lem_nstate l) [] 0 0 0 in
          let l := set_lem_nstate l (lem_nstate l + 1) in
          let l := set_x3a l (x3a l ++ [st]) in
          l <- buildshifts (getstate n') l stp ;;
          Some (stp, l)
      end
  end.

(** The loop of [FindStates] that looks for the start symbol on the
    right-hand sides. *)
Definition start_on_rhs (sp : symptr) (name : string) (l : lemon) (x : symptr) : option lemon :=
  if Nat.eqb x sp then
    lemp_error l 0
      ("The start symbol " ++ q name ++ " occurs on the right-hand side of a rule. "
       ++ "This will result in a parser which does not work properly.")
  else Some l.

Definition add_start_basis (l : lemon) (rp : ruleptr) : option lemon :=
  '(newcfp, l) <- Configlist_addbasis l rp 0 ;;
  c <- the_config l newcfp ;;
  Some (put_config l newcfp (set_cf_fws c (snd (SetAdd (cf_fws c) 0)))).

Definition FindStates (n : nat) (lemp : lemon) : option lemon :=
  let l := Configlist_init lemp in
  '(sp, l) <-
    match lem_start l with
    | Some start =>
        match Symbol_find l start with
        | Some sp => Some (sp, l)
        | None =>
            r <- hd_error (lem_rule l) ;;
            lhs <- the_symbol l (rl_lhs r) ;;
            l <- lemp_error l 0
                   ("The specified start symbol " ++ q start
                    ++ " is not in a nonterminal of the grammar.  " ++ q (sym_name lhs)
                    ++ " will be used as the start symbol instead.") ;;
            Some (rl_lhs r, l)
        end
    | None => r <- hd_error (lem_rule l) ;; Some (rl_lhs r, l)
    end ;;
  s <- the_symbol l sp ;;
  l <- for_each (fun l rp => for_each (start_on_rhs sp (sym_name s)) (rl_rhs rp) l)
         (lem_rule l) l ;;
  s <- the_symbol l sp ;;
  l <- for_each add_start_basis (sym_rule s) l ;;
  '(_, l) <- getstate n l ;;
  Some l.

(** [State_arrayof] *)
Definition State_arrayof (l : lemon) : list nat := seq 0 (List.length (x3a l)).

(* ================================================================= *)
(** ** Propagation links and follow sets (build.c) *)

Definition set_stp (stp : nat) (l : lemon) (cfp : cfgptr) : option lemon :=
  c <- the_config l cfp ;; Some (put_config l cfp (set_cf_stp c (Some stp))).

Definition add_forward (cfp : cfgptr) (l : lemon) (other : cfgptr) : option lemon :=
  o <- the_config l other ;;
  Some (put_config l other (set_cf_fplp o (cfp :: cf_fplp o))).

Definition forward_links (l : lemon) (cfp : cfgptr) : option lemon :=
  c <- the_config l cfp ;; for_each (add_forward cfp) (cf_bplp c) l.

Definition for_each_config (f : lemon -> cfgptr -> option lemon) (l : lemon) (i : nat)
  : option lemon :=
  stp <- sorted_at l i ;;
  st <- the_state l stp ;;
  for_each f (st_cfp st) l.

Definition FindLinks (lemp : lemon) : option lemon :=
  let states := nat_upto (lem_nstate lemp) in
  l <- for_each (fun l i => stp <- sorted_at l i ;; for_each_config (set_stp stp) l i)
         states lemp ;;
  for_each (for_each_config forward_links) states l.

Definition propagate (cfp : cfgptr) (st : lemon * Z) (target : cfgptr) : option (lemon * Z) :=
  let '(l, progress) := st in
  c <- the_config l cfp ;;
  t <- the_config l target ;;
  let '(change, fws) := SetUnion (cf_fws t) (cf_fws c) in
  let l := put_config l target (set_cf_fws t fws) in
  if change =? 0 then Some (l, progress)
  else
    t <- the_config l target ;;
    Some (put_config l target (set_cf_status t INCOMPLETE), 1).

Definition follow_config (st : lemon * Z) (cfp : cfgptr) : option (lemon * Z) :=
  c <- the_config (fst st) cfp ;;
  match cf_status c with
  | COMPLETE => Some st
  | INCOMPLETE =>
      '(l, progress) <- for_each (propagate cfp) (cf_fplp c) st ;;
      c <- the_config l cfp ;;
      Some (put_config l cfp (set_cf_status c COMPLETE), progress)
  end.

Definition follow_state (st : lemon * Z) (i : nat) : option (lemon * Z) :=
  stp <- sorted_at (fst st) i ;;
  s <- the_state (fst st) stp ;;
  for_each follow_config (st_cfp s) st.

Fixpoint follow_loop (n : nat) (l : lemon) : option lemon :=
  match n with
  | O => None
  | S n' =>
      '(l', progress) <- for_each follow_state (nat_upto (lem_nstate l)) (l, 0) ;;
      if progress =? 0 then Some l' else follow_loop n' l'
  end.

Definition FindFollowSets (n : nat) (lemp : lemon) : option lemon :=
  l <- for_each (for_each_config set_incomplete) (nat_upto (lem_nstate lemp)) lemp ;;
  follow_loop n l.

(* ================================================================= *)
(** ** Table compression and the header file (report.c) *)

(** [for(ap=stp->ap; ap && ap->type!=REDUCE; ap=ap->next);] splits the
    list at the first REDUCE action. *)
Fixpoint first_reduce (aps : list action) : option (list action * action * list action) :=
  match aps with
  | [] => None
  | ap :: rest =>
      if e_action_eqb (act_type ap) REDUCE then Some ([], ap, rest)
      else
        match first_reduce rest with
        | Some (before, r, after) => Some (ap :: before, r, after)
        | None => None
        end
  end.

Definition act_union_eqb (a b : act_union) : bool :=
  match a, b with
  | x_stp s, x_stp t => Nat.eqb s t
  | x_rp (Some r), x_rp (Some t) => Nat.eqb r t
  | x_rp None, x_rp None => true
  | _, _ => false
  end.

(** The loop that looks whether all other REDUCE actions use the rule
    [rp]: whether it ran to the end of the list, and [cnt]. *)
Fixpoint same_rule (rp : act_union) (aps : list action) (cnt : Z) : bool * Z :=
  match aps with
  | [] => (true, cnt)
  | ap :: rest =>
      if e_action_eqb (act_type ap) REDUCE then
        if negb (act_union_eqb (act_x ap) rp) then (false, cnt)
        else same_rule rp rest (cnt + 1)
      else same_rule rp rest cnt
  end.

Definition not_used (ap : action) : action :=
  if e_action_eqb (act_type ap) REDUCE then set_type ap NOT_USED else ap.

Definition CompressTables_state (l : lemon) (i : nat) : option lemon :=
  stp <- sorted_at l i ;;
  st <- the_state l stp ;;
  match first_reduce (st_ap st) with
  | None => Some l
  | Some (before, ap, after) =>
      let '(to_end, cnt) := same_rule (act_x ap) after 1 in
      if negb to_end || (cnt =? 1) then Some l
      else
        let '(dflt, l) := Symbol_new l "{default}" in
        let aps := before ++ set_sp ap dflt :: map not_used after in
        aps <- Action_sort l aps ;;
        st <- the_state l stp ;;
        Some (put_state l stp (set_st_ap st aps))
  end.

Definition CompressTables (lemp : lemon) : option lemon :=
  for_each CompressTables_state (nat_upto (lem_nstate lemp)) lemp.

Definition LINESIZE : nat := 1000.

(** [fgets(line,n,in)]: at most [n-1] characters, up to and with a
    newline; null at the end of the file. *)
Fixpoint fgets_chars (k : nat) (input : string) : string * string :=
  match k, input with
  | O, _ => (EmptyString, input)
  | _, EmptyString => (EmptyString, EmptyString)
  | S k', String c t =>
      if Ascii.eqb c ch_nl then (str1 c, t)
      else let '(line, rest) := fgets_chars k' t in (String c line, rest)
  end.

Definition fgets (n : nat) (input : string) : option (string * string) :=
  match input with
  | EmptyString => None
  | _ => Some (fgets_chars (n - 1) input)
  end.

Fixpoint spaces (n : nat) : string :=
  match n with O => EmptyString | S m => String ch_space (spaces m) end.

(** [%-30s] and [%2d] *)
Definition pad_right (w : nat) (s : string) : string := (s ++ spaces (w - String.length s))%string.
Definition pad_left (w : nat) (s : string) : string := (spaces (w - String.length s) ++ s)%string.

(** ["#define %s%-30s %2d\n"] *)
Definition define_line (prefix name : string) (i : Z) : string :=
  ("#define " ++ prefix ++ pad_right 30 name ++ " " ++ pad_left 2 (fmt_d i) ++ str1 ch_nl)%string.

Definition terminal_name (l : lemon) (i : Z) : option string :=
  sp <- nth_error (lem_symbols l) (Z.to_nat i) ;;
  s <- the_symbol l sp ;;
  Some (sym_name s).

(** The loop of [ReportHeader] that compares the file with the lines to
    write, with [k] terminals to go: the value of [i] after it. *)
Fixpoint header_compare (l : lemon) (prefix : string) (k : nat) (i : Z) (input : string)
  : option Z :=
  match k with
  | O => Some i
  | S k' =>
      match fgets LINESIZE input with
      | None => Some i
      | Some (line, rest) =>
          name <- terminal_name l i ;;
          if negb (strcmp line (define_line prefix name i) =? 0) then Some i
          else header_compare l prefix k' (i + 1) rest
      end
  end.

Fixpoint header_text (l : lemon) (prefix : string) (k : nat) (i : Z) : option string :=
  match k with
  | O => Some EmptyString
  | S k' =>
      name <- terminal_name l i ;;
      rest <- header_text l prefix k' (i + 1) ;;
      Some (define_line prefix name i ++ rest)%string
  end.

(** A file of the output directory: its content, if it exists, and how
    often it has been opened for writing. *)
Record file := mkFile {
  f_content : option string;
  f_writable : bool;
  f_writes : nat
}.

(** [ReportHeader]: the program state and the header file after it. *)
Definition ReportHeader (lemp : lemon) (h : file) : option (lemon * file) :=
  let prefix := match lem_tokenprefix lemp with Some p => p | None => EmptyString end in
  let terminals := Z.to_nat (lem_nterminal lemp - 1) in
  unchanged <-
    match f_content h with
    | Some content =>
        i <- header_compare lemp prefix terminals 1 content ;;
        Some (i =? lem_nterminal lemp)
    | None => Some false
    end ;;
  if unchanged then Some (lemp, h)
  else if f_writable h then
    text <- header_text lemp prefix terminals 1 ;;
    Some (lemp, mkFile (Some text) true (S (f_writes h)))
  else
    Some (set_lem_errorcnt lemp (lem_errorcnt lemp + 1), h).

(* ================================================================= *)
(** ** The main program (main.c) *)

(** The C library's [qsort] on an array without equal elements: any
    sorting algorithm gives its result (an insertion sort here). *)
Section Qsort.
Context {A : Type}.
Variable cmp : A -> A -> option Z.

Fixpoint qsort_insert (x : A) (sorted : list A) : option (list A) :=
  match sorted with
  | [] => Some [x]
  | y :: rest =>
      c <- cmp x y ;;
      if c <=? 0 then Some (x :: sorted)
      else r <- qsort_insert x rest ;; Some (y :: r)
  end.

Fixpoint qsort (base : list A) : option (list A) :=
  match base with
  | [] => Some []
  | x :: rest => s <- qsort rest ;; qsort_insert x s
  end.
End Qsort.

(** [struct lemon] as [main] fills it before [Parse], and the tables as
    [Strsafe_init], [Symbol_init] and [State_init] leave them.  The fields
    that [main] does not set there are 0. *)
Definition lemon_start (filename : string) (basisflag : Z) : lemon :=
  mkLemon [] [] 0 0 0 0 [] 0 None None None None None None None 0 None 0 None 0
          None 0 None 0 None 0 None 0 filename None 0 0 basisflag
          [] [] [] [] [] false [] false 0 [].

(** The command line after [optinit]. *)
Record options := mkOptions {
  version : bool;
  rpflag : bool;
  opt_basisflag : bool;
  compress : bool;
  quiet : bool;
  statistics : bool;
  mhflag : bool;
  nargs : Z;                  (* optnargs() *)
  optarg0 : string            (* get_optarg(0) *)
}.

(** [for(i=0; i<=lem.nsymbol; i++) lem.symbols[i]->index = i;] *)
Fixpoint index_symbols (l : lemon) (syms : list symptr) (i : Z) : option lemon :=
  match syms with
  | [] => Some l
  | sp :: rest =>
      s <- the_symbol l sp ;;
      index_symbols (put_symbol l sp (set_sym_index s i)) rest (i + 1)
  end.

(** [for(i=1; safe_isupper(lem.symbols[i]->name[0]); i++);] on the array
    from [symbols[i]] on; the loop has no bound of its own, and there is
    no result when it runs off the array. *)
Fixpoint count_terminals (l : lemon) (syms : list symptr) (i : Z) : option Z :=
  match syms with
  | [] => None
  | sp :: rest =>
      s <- the_symbol l sp ;;
      if safe_isupper (char_at (sym_name s) 0) then count_terminals l rest (i + 1)
      else Some i
  end.

(** Count and index the symbols of the grammar. *)
Definition index_grammar (lem : lemon) : option lemon :=
  let lem := set_lem_nsymbol lem (Symbol_count lem) in
  let '(_, lem) := Symbol_new lem "{default}" in
  symbols <- qsort (Symbolcmpp lem) (Symbol_arrayof lem) ;;
  let lem := set_lem_symbols lem symbols in
  lem <- index_symbols lem (firstn (Z.to_nat (lem_nsymbol lem + 1)) symbols) 0 ;;
  i <- count_terminals lem (tl symbols) 1 ;;
  Some (set_lem_nterminal lem i).

Section Main.
(** The writers of the grammar listing, of the report and of the parser
    tables are not part of this development: they are any functions on
    the program state. *)
Variables Reprint ReportOutput ReportTable : lemon -> lemon.

(** The analysis and the output of [main], for a grammar without errors
    that has rules. *)
Definition generate (n : nat) (opts : options) (h : file) (lem : lemon)
  : option (lemon * file) :=
  if rpflag opts then Some (Reprint lem, h)
  else
    let lem := SetSize lem (lem_nterminal lem) in
    lem <- FindRulePrecedences lem ;;
    lem <- FindFirstSets n lem ;;
    let lem := set_lem_nstate lem 0 in
    lem <- FindStates n lem ;;
    let lem := set_lem_sorted lem (State_arrayof lem) in
    lem <- FindLinks lem ;;
    lem <- FindFollowSets n lem ;;
    lem <- FindActions lem ;;
    lem <- (if negb (compress opts) then CompressTables lem else Some lem) ;;
    let lem := if negb (quiet opts) then ReportOutput lem else lem in
    let lem := ReportTable lem in
    if negb (mhflag opts) then ReportHeader lem h else Some (lem, h).

(** [main]: the argument of the [exit] that ends the run, with the program
    state and the header file then.  [grammar] is the content of the
    grammar file; [n] bounds the rounds of the loops of the analysis.  There is no
    result for a run that does not come to an [exit] of [main]. *)
Definition main (n : nat) (opts : options) (grammar : option string) (h : file)
  : option (Z * lemon * file) :=
  let lem := lemon_start (optarg0 opts) (if opt_basisflag opts then 1 else 0) in
  if version opts then Some (0, lem, h)
  else if negb (nargs opts =? 1) then Some (1, lem, h)
  else
    let '(_, lem) := Symbol_new lem "$" in
    let '(errsym, lem) := Symbol_new lem "error" in
    let lem := set_lem_errsym lem (Some errsym) in
    lem <- Parse lem grammar ;;
    if negb (lem_errorcnt lem =? 0) then Some (lem_errorcnt lem, lem, h)
    else
      match lem_rule lem with
      | [] => Some (1, lem, h)
      | _ =>
          lem <- index_grammar lem ;;
          '(lem, h) <- generate n opts h lem ;;
          Some (lem_errorcnt lem + lem_nconflict lem, lem, h)
      end.
End Main.

(* ================================================================= *)
(** ** Vocabulary of the statements *)

(** [c] occurs in [s]. *)
Fixpoint has_char (c : ascii) (s : string) : bool :=
  match s with
  | EmptyString => false
  | String d t => Ascii.eqb d c || has_char c t
  end.

(** What the scan of [findbreak] has seen before [i] holds neither a
    newline nor the end of the message; [spot] is 0, on a space, or behind
    a hyphen. *)
Definition scanned (msg : string) (i : Z) : Prop :=
  forall j, 0 <= j < i ->
    char_at msg (Z.to_nat j) <> ch_nl /\ char_at msg (Z.to_nat j) <> NUL.

Definition good_spot (msg : string) (spot : Z) : Prop :=
  0 < spot ->
  char_at msg (Z.to_nat spot) = ch_space \/ char_at msg (Z.to_nat spot) = NUL \/
  char_at msg (Z.to_nat (spot - 1)) = ch_minus.

(** A line as [ErrorMsg] writes it for [filename] and [lineno]: on the
    standard output, the prefix, then a text without a newline that fits
    into [LINEWIDTH] columns with the prefix, then the newline. *)
Definition message_line (filename : string) (lineno : Z) (e : stream * string) : Prop :=
  fst e = stdout /\
  exists body,
    snd e = (ErrorMsg_prefix filename lineno ++ body ++ str1 ch_nl)%string /\
    has_char ch_nl body = false /\
    Z.of_nat (String.length (ErrorMsg_prefix filename lineno ++ body)) <= LINEWIDTH.

(** The symbol table as the parser leaves it: no two symbols of a name,
    and every name but "$" starts with a letter. *)
Definition dollar : string := "$".

Definition symbol_names_ok (l : lemon) : Prop :=
  NoDup (map sym_name (x2a l)) /\
  In dollar (map sym_name (x2a l)) /\
  Forall (fun s => sym_name s = dollar \/ safe_isalpha (char_at (sym_name s) 0) = true)
         (x2a l).

(** The name of the symbol that [sp] points to. *)
Definition name_at (l : lemon) (sp : symptr) : string :=
  match the_symbol l sp with Some s => sym_name s | None => EmptyString end.

(** A line of the header that [fgets] reads back whole: no newline in the
    token prefix or in the name, and room in the buffer of [LINESIZE]. *)
Definition header_line_ok (prefix name : string) (i : Z) : Prop :=
  has_char ch_nl prefix = false /\ has_char ch_nl name = false /\
  (String.length (define_line prefix name i) < LINESIZE)%nat.

(** The REDUCE actions of a list. *)
Definition reduces (aps : list action) : list action :=
  filter (fun ap => e_action_eqb (act_type ap) REDUCE) aps.

(** The condition of [CompressTables], in the words of its comment: all
    REDUCE actions use the same rule, and there is more than one. *)
Definition compressible (aps : list action) : Prop :=
  (2 <= List.length (reduces aps))%nat /\
  forall a b, In a (reduces aps) -> In b (reduces aps) -> act_x a = act_x b.

(** Two of the REDUCE actions of the list use the same rule. *)
Definition two_share_a_rule (aps : list action) : Prop :=
  exists before a between b after,
    aps = before ++ a :: between ++ b :: after /\
    act_type a = REDUCE /\ act_type b = REDUCE /\ act_x a = act_x b.

(** Every two actions of the list can be compared by [actioncmp]: the
    pointers are good and the assertion holds. *)
Definition comparable (l : lemon) (aps : list action) : Prop :=
  NoDup aps /\
  forall a b, In a aps -> In b aps -> a <> b -> actioncmp l a b <> None.

Definition action_ord (l : lemon) (a b : action) : Z :=
  match actioncmp l a b with Some c => c | None => 0 end.

(** The order of [actioncmp]: by the index of the lookahead, then by the
    type, then by the index of the rule. *)
Definition action_key (l : lemon) (a : action) : Z * Z * Z :=
  (match the_symbol l (act_sp a) with Some s => sym_index s | None => 0 end,
   e_action_code (act_type a),
   match act_x a with
   | x_rp (Some r) => match the_rule l r with Some rp => rl_index rp | None => 0 end
   | _ => 0
   end).

Definition lex3 (x y : Z * Z * Z) : Z :=
  let '(i, t, r) := x in
  let '(i', t', r') := y in
  if i - i' =? 0 then (if t - t' =? 0 then r - r' else t - t') else i - i'.

(** The program state of [main] when it calls [Parse]. *)
Definition main_init (opts : options) : lemon :=
  let lem := lemon_start (optarg0 opts) (if opt_basisflag opts then 1 else 0) in
  let '(_, lem) := Symbol_new lem "$" in
  let '(errsym, lem) := Symbol_new lem "error" in
  set_lem_errsym lem (Some errsym).

(** The two counters of a run are counts. *)
Definition counts_ok (l : lemon) : Prop := 0 <= lem_errorcnt l /\ 0 <= lem_nconflict l.

(** The symbols that derive the empty string: the left-hand side of a
    rule all of whose right-hand side symbols derive it. *)
Inductive nullable (rules : list rule) : symptr -> Prop :=
| nullable_by (rp : rule) :
    In rp rules -> all_nullable rules (rl_rhs rp) -> nullable rules (rl_lhs rp)
with all_nullable (rules : list rule) : list symptr -> Prop :=
| all_nullable_nil : all_nullable rules []
| all_nullable_cons (sp : symptr) (rest : list symptr) :
    nullable rules sp -> all_nullable rules rest -> all_nullable rules (sp :: rest).

(** [sp->lambda] *)
Definition is_lambda (l : lemon) (sp : symptr) : bool :=
  match the_symbol l sp with Some s => sym_lambda s | None => false end.

(** What a pass of the loop keeps, [R] being the rules of the grammar:
    the rules, every field of the symbols but [lambda], the flags that
    are set, and that a flag is set for a symbol that derives the empty
    string only. *)
Definition lambda_grows (R : list rule) (l l' : lemon) : Prop :=
  lem_rule l' = lem_rule l /\
  map (fun s => set_sym_lambda s false) (x2a l')
  = map (fun s => set_sym_lambda s false) (x2a l) /\
  (forall sp, is_lambda l sp = true -> is_lambda l' sp = true) /\
  ((forall sp, is_lambda l sp = true -> nullable R sp) ->
   (forall sp, is_lambda l' sp = true -> nullable R sp)).


(** What the scan of [FindFirstSets] reads of a symbol: its type, its
    index, and whether a terminal is in its first set. *)
Definition kind_of (l : lemon) (sp : symptr) : option symtype :=
  option_map sym_type (the_symbol l sp).

Definition index_of (l : lemon) (sp : symptr) : Z :=
  match the_symbol l sp with Some s => sym_index s | None => 0 end.

Definition in_first (l : lemon) (sp : symptr) (e : Z) : bool :=
  match the_symbol l sp with
  | Some s => match sym_firstset s with Some fs => SetFind fs e | None => false end
  | None => false
  end.

(** A symbol that the scan of a right-hand side goes past: a nonterminal
    that derives the empty string. *)
Definition skipped (l : lemon) (x : symptr) : Prop :=
  kind_of l x = Some NONTERMINAL /\ is_lambda l x = true.

(** The terminals at which the strings of a nonterminal start, as the
    scan finds them: the index of a terminal of a right-hand side that
    follows skipped symbols only, and the first set of another nonterminal
    there. *)
Inductive first_of (l : lemon) : symptr -> Z -> Prop :=
| first_terminal (rp : rule) (before after : list symptr) (t : symptr) :
    In rp (lem_rule l) -> rl_rhs rp = before ++ t :: after ->
    Forall (skipped l) before -> kind_of l t = Some TERMINAL ->
    first_of l (rl_lhs rp) (index_of l t)
| first_nonterminal (rp : rule) (before after : list symptr) (x : symptr) (e : Z) :
    In rp (lem_rule l) -> rl_rhs rp = before ++ x :: after ->
    Forall (skipped l) before -> kind_of l x = Some NONTERMINAL -> x <> rl_lhs rp ->
    first_of l x e -> first_of l (rl_lhs rp) e.

(** Two program states that differ in the first sets only. *)
Definition same_static (L l : lemon) : Prop :=
  lem_rule l = lem_rule L /\
  map (fun s => set_sym_firstset s None) (x2a l)
  = map (fun s => set_sym_firstset s None) (x2a L).

(** All first sets have [N] elements. *)
Definition sets_ok (N : nat) (l : lemon) : Prop :=
  forall sp s fs, the_symbol l sp = Some s -> sym_firstset s = Some fs -> List.length fs = N.

(** The indices of the terminals of the right-hand sides are elements of
    the sets. *)
Definition terminals_ok (N : nat) (l : lemon) : Prop :=
  forall rp t, In rp (lem_rule l) -> In t (rl_rhs rp) -> kind_of l t = Some TERMINAL ->
               0 <= index_of l t < Z.of_nat N.

(** The first set of [s1] holds what the scan of [rest], the end of the
    right-hand side of a rule of [s1], adds to it. *)
Definition scan_closed (L l : lemon) (s1 : symptr) (rest : list symptr) : Prop :=
  forall before x after,
    rest = before ++ x :: after -> Forall (skipped L) before ->
    (kind_of L x = Some TERMINAL -> in_first l s1 (index_of L x) = true) /\
    (kind_of L x = Some NONTERMINAL -> x <> s1 ->
     forall e, 0 <= e -> in_first l x e = true -> in_first l s1 e = true).

(** Two program states that differ in the flags [lambda] and in the first
    sets only. *)
Definition same_frame (L l : lemon) : Prop :=
  l = set_x2a L (x2a l) /\
  map (fun s => set_sym_lambda (set_sym_firstset s None) false) (x2a l)
  = map (fun s => set_sym_lambda (set_sym_firstset s None) false) (x2a L).


(* ================================================================= *)
(** ** The hash table of the symbols (table.c) *)

(** [int] arithmetic as the machines of the program do it. *)
Definition int_wrap (z : Z) : Z := (z + 2 ^ 31) mod 2 ^ 32 - 2 ^ 31.

(** The value of a [char], which is signed there. *)
Definition char_value (c : ascii) : Z := if code c >=? 128 then code c - 256 else code c.

(** [while( *x) h = h*13 + *(x++);] *)
Fixpoint strhash_from (h : Z) (x : string) : Z :=
  match x with
  | EmptyString => h
  | String c t => strhash_from (int_wrap (h * 13 + char_value c)) t
  end.

Definition strhash (x : string) : Z := strhash_from 0 x.

Module Table.

(** Where the pointer to a node is: in the bucket [ht[h]] or in the field
    [next] of the node [tbl[i]]. *)
Inductive link := in_ht (h : nat) | in_next (i : nat).

(** [x2node]; [next] is the index in [tbl] of the next entry with the same
    hash. *)
Record x2node := mkNode {
  data : symptr;
  key : string;
  next : option nat;
  from : option link
}.

(** [struct s_x2]; [tbl] holds the slots that are filled, and [ht] the
    [size] buckets. *)
Record s_x2 := mkTable {
  size : Z;
  count : Z;
  tbl : list x2node;
  ht : list (option nat)
}.

(** [ph & (size-1)] *)
Definition bucket (ph : Z) (size : Z) : nat := Z.to_nat (Z.land ph (size - 1)).

(** [Symbol_init]; the allocations succeed. *)
Definition Symbol_init (x2a : option s_x2) : option s_x2 :=
  match x2a with
  | Some t => Some t
  | None => Some (mkTable 128 0 [] (repeat None 128))
  end.

(** The loop [while( np ){ if( strcmp(np->key,key)==0 ) ...; np = np->next; }]
    for at most [fuel] nodes: the node found, if any. *)
Fixpoint find_node (fuel : nat) (tbl : list x2node) (np : option nat) (k : string)
  : option (option nat) :=
  match np with
  | None => Some None
  | Some i =>
      match fuel with
      | O => None
      | S fuel' =>
          n <- nth_error tbl i ;;
          if strcmp (key n) k =? 0 then Some (Some i) else find_node fuel' tbl (next n) k
      end
  end.

(** The node [tbl[i]], the next free slot, is filled with [d] and [k] and
    becomes the head of its bucket; the node that was the head gets its
    [from]. *)
Definition place (size : Z) (tbl : list x2node) (ht : list (option nat))
    (i : nat) (d : symptr) (k : string) : option (list x2node * list (option nat)) :=
  let h := bucket (strhash k) size in
  _ <- assert (Nat.eqb i (List.length tbl)) ;;
  head <- nth_error ht h ;;
  tbl1 <- match head with
          | Some j =>
              n <- nth_error tbl j ;;
              Some (upd tbl j (mkNode (data n) (key n) (next n) (Some (in_next i))))
          | None => Some tbl
          end ;;
  Some (tbl1 ++ [mkNode d k head (Some (in_ht h))], upd ht h (Some i)).

(** The loop [for(i=0; i<x2a->count; i++)] that fills the bigger table
    from the nodes [old] of the table, from [old[i]] on. *)
Fixpoint rehash (size : Z) (old : list x2node) (i : nat)
    (tbl : list x2node) (ht : list (option nat))
  : option (list x2node * list (option nat)) :=
  match old with
  | [] => Some (tbl, ht)
  | oldnp :: rest =>
      '(tbl1, ht1) <- place size tbl ht i (data oldnp) (key oldnp) ;;
      rehash size rest (S i) tbl1 ht1
  end.

(** [if( x2a->count>=x2a->size ){ ... }]: the table is made twice as big
    when it is full ([size*2] must be an [int]; the allocation succeeds). *)
Definition grow (t : s_x2) : option s_x2 :=
  if count t >=? size t then
    _ <- assert (size t * 2 <? 2 ^ 31) ;;
    let size' := size t * 2 in
    '(tbl', ht') <- rehash size' (tbl t) 0 [] (repeat None (Z.to_nat size')) ;;
    Some (mkTable size' (count t) tbl' ht')
  else Some t.

(** [Symbol_insert(data,key)]: the value returned and the table. *)
Definition Symbol_insert (d : symptr) (k : string) (x2a : option s_x2)
  : option (Z * option s_x2) :=
  match x2a with
  | None => Some (0, None)
  | Some t =>
      let ph := strhash k in
      np0 <- nth_error (ht t) (bucket ph (size t)) ;;
      found <- find_node (List.length (tbl t)) (tbl t) np0 k ;;
      match found with
      | Some _ => Some (0, x2a)
      | None =>
          t1 <- grow t ;;
          '(tbl2, ht2) <- place (size t1) (tbl t1) (ht t1) (Z.to_nat (count t1)) d k ;;
          Some (1, Some (mkTable (size t1) (count t1 + 1) tbl2 ht2))
      end
  end.

(** [Symbol_find(key)]: the data, or a null pointer. *)
Definition Symbol_find (x2a : option s_x2) (k : string) : option (option symptr) :=
  match x2a with
  | None => Some None
  | Some t =>
      np0 <- nth_error (ht t) (bucket (strhash k) (size t)) ;;
      found <- find_node (List.length (tbl t)) (tbl t) np0 k ;;
      match found with
      | Some i => n <- nth_error (tbl t) i ;; Some (Some (data n))
      | None => Some None
      end
  end.

(** [Symbol_Nth(n)] *)
Definition Symbol_Nth (x2a : option s_x2) (n : Z) : option (option symptr) :=
  match x2a with
  | Some t =>
      if (n >? 0) && (n <=? count t) then
        nd <- nth_error (tbl t) (Z.to_nat (n - 1)) ;; Some (Some (data nd))
      else Some None
  | None => Some None
  end.

Definition Symbol_count (x2a : option s_x2) : Z :=
  match x2a with Some t => count t | None => 0 end.

(** [Symbol_arrayof]: the array, or a null pointer. *)
Definition Symbol_arrayof (x2a : option s_x2) : option (list symptr) :=
  match x2a with
  | Some t => Some (map data (firstn (Z.to_nat (count t)) (tbl t)))
  | None => None
  end.

(** The nodes from [np] along [next]. *)
Inductive chain (tbl : list x2node) : option nat -> list nat -> Prop :=
| chain_end : chain tbl None []
| chain_node (i : nat) (n : x2node) (rest : list nat) :
    nth_error tbl i = Some n -> chain tbl (next n) rest -> chain tbl (Some i) (i :: rest).

(** The nodes of the bucket [h], the last one filled first. *)
Definition bucket_nodes (size : Z) (tbl : list x2node) (h : nat) : list nat :=
  rev (filter (fun i => match nth_error tbl i with
                        | Some n => Nat.eqb (bucket (strhash (key n)) size) h
                        | None => false
                        end)
              (seq 0 (List.length tbl))).

(** The buckets of a table of [size] buckets: a power of 2 of them, each
    the head of the list of its nodes. *)
Definition buckets_ok (size : Z) (tbl : list x2node) (ht : list (option nat)) : Prop :=
  (exists e, 0 <= e /\ size = 2 ^ e) /\
  List.length ht = Z.to_nat size /\
  forall h np, nth_error ht h = Some np -> chain tbl np (bucket_nodes size tbl h).

(** A table as [Symbol_init] and [Symbol_insert] make it. *)
Definition table_ok (t : s_x2) : Prop :=
  buckets_ok (size t) (tbl t) (ht t) /\
  count t <= size t /\
  Z.of_nat (List.length (tbl t)) = count t /\
  NoDup (map key (tbl t)).

(** What the look-ups read of the nodes. *)
Definition skeleton (tbl : list x2node) : list (symptr * string * option nat) :=
  map (fun n => (data n, key n, next n)) tbl.

Definition key_at (tbl : list x2node) (i : nat) : string :=
  match nth_error tbl i with Some n => key n | None => EmptyString end.

(** The entries of the table in the order of their insertion. *)
Definition entries (t : s_x2) : list (string * symptr) :=
  map (fun n => (key n, data n)) (tbl t).

(** The data of the first entry with the key [k]. *)
Fixpoint lookup (k : string) (es : list (string * symptr)) : option symptr :=
  match es with
  | [] => None
  | (k', d) :: rest => if strcmp k' k =? 0 then Some d else lookup k rest
  end.

End Table.

(** The table [t] holds the symbols of the program state [l], each under
    its name, in the order of their creation. *)
Definition table_of (l : lemon) (t : Table.s_x2) : Prop :=
  Table.entries t
  = map (fun p : nat * symbol => (sym_name (snd p), fst p))
        (combine (seq 0 (List.length (x2a l))) (x2a l)).


(* ================================================================= *)
(** ** The command line (option.c) *)

(** [argv] is the list of its strings up to the terminating null pointer;
    [argv != 0 && *argv != 0] says that the list is not empty. *)
Module Opt.

Inductive opt_type :=
  OPT_FLAG | OPT_INT | OPT_DBL | OPT_STR | OPT_FFLAG | OPT_FINT | OPT_FDBL | OPT_FSTR.

(** The statics of [main] that the entries of its table point to. *)
Inductive variable :=
  var_basisflag | var_compress | var_outdirname | var_rpflag | var_mhflag
| var_quiet | var_statistics | var_templatename | var_version.

Record s_options := mkOpt {
  type : opt_type;
  label : string;
  arg : variable
}.

(** The table [options] of [main]; its end is the entry without label. *)
Definition options : list s_options :=
  [ mkOpt OPT_FLAG "b" var_basisflag;
    mkOpt OPT_FLAG "c" var_compress;
    mkOpt OPT_STR "d" var_outdirname;
    mkOpt OPT_FLAG "g" var_rpflag;
    mkOpt OPT_FLAG "m" var_mhflag;
    mkOpt OPT_FLAG "q" var_quiet;
    mkOpt OPT_FLAG "s" var_statistics;
    mkOpt OPT_STR "t" var_templatename;
    mkOpt OPT_FLAG "x" var_version ].

Record statics := mkStatics {
  s_version : Z;
  s_rpflag : Z;
  s_basisflag : Z;
  s_compress : Z;
  s_quiet : Z;
  s_statistics : Z;
  s_mhflag : Z;
  s_outdirname : option string;
  s_templatename : option string
}.

(** The initial values of the statics of [main]. *)
Definition statics0 : statics := mkStatics 0 0 0 0 0 0 0 None None.

(** [*((int* )x) = v]; the two [char*] variables are no [int]. *)
Definition store_int (x : variable) (v : Z) (s : statics) : option statics :=
  match x with
  | var_basisflag =>
      Some (mkStatics (s_version s) (s_rpflag s) v (s_compress s) (s_quiet s)
                      (s_statistics s) (s_mhflag s) (s_outdirname s) (s_templatename s))
  | var_compress =>
      Some (mkStatics (s_version s) (s_rpflag s) (s_basisflag s) v (s_quiet s)
                      (s_statistics s) (s_mhflag s) (s_outdirname s) (s_templatename s))
  | var_rpflag =>
      Some (mkStatics (s_version s) v (s_basisflag s) (s_compress s) (s_quiet s)
                      (s_statistics s) (s_mhflag s) (s_outdirname s) (s_templatename s))
  | var_mhflag =>
      Some (mkStatics (s_version s) (s_rpflag s) (s_basisflag s) (s_compress s) (s_quiet s)
                      (s_statistics s) v (s_outdirname s) (s_templatename s))
  | var_quiet =>
      Some (mkStatics (s_version s) (s_rpflag s) (s_basisflag s) (s_compress s) v
                      (s_statistics s) (s_mhflag s) (s_outdirname s) (s_templatename s))
  | var_statistics =>
      Some (mkStatics (s_version s) (s_rpflag s) (s_basisflag s) (s_compress s) (s_quiet s)
                      v (s_mhflag s) (s_outdirname s) (s_templatename s))
  | var_version =>
      Some (mkStatics v (s_rpflag s) (s_basisflag s) (s_compress s) (s_quiet s)
                      (s_statistics s) (s_mhflag s) (s_outdirname s) (s_templatename s))
  | var_outdirname | var_templatename => None
  end.

(** [*(char** )x = sv]; the seven [int] variables are no [char*]. *)
Definition store_str (x : variable) (sv : string) (s : statics) : option statics :=
  match x with
  | var_outdirname =>
      Some (mkStatics (s_version s) (s_rpflag s) (s_basisflag s) (s_compress s) (s_quiet s)
                      (s_statistics s) (s_mhflag s) (Some sv) (s_templatename s))
  | var_templatename =>
      Some (mkStatics (s_version s) (s_rpflag s) (s_basisflag s) (s_compress s) (s_quiet s)
                      (s_statistics s) (s_mhflag s) (s_outdirname s) (Some sv))
  | _ => None
  end.

Definition ch_plus : ascii := ch 43.
Definition ch_eq : ascii := ch 61.

(** [strchr(s,c)] for a [c] that is not NUL: the text before the first [c]
    and the text behind it, or nothing for the null pointer. *)
Fixpoint strchr (s : string) (c : ascii) : option (string * string) :=
  match s with
  | EmptyString => None
  | String d t =>
      if Ascii.eqb d c then Some (EmptyString, t)
      else match strchr t c with
           | Some (a, b) => Some (String d a, b)
           | None => None
           end
  end.

(** [#define ISOPT(X) ((X)[0]=='-'||(X)[0]=='+'||strchr((X),'=')!=0)] *)
Definition ISOPT (x : string) : bool :=
  Ascii.eqb (char_at x 0) ch_minus || Ascii.eqb (char_at x 0) ch_plus
  || match strchr x ch_eq with Some _ => true | None => false end.

(** The loop of [argindex] from [argv[i]] on; [n--] of the least [int] is
    undefined. *)
Fixpoint argindex_loop (args : list string) (i : Z) (dashdash : bool) (n : Z) : option Z :=
  match args with
  | [] => Some (-1)
  | a :: rest =>
      let dd := dashdash || (strcmp a "--" =? 0) in
      if dashdash || negb (ISOPT a) then
        if n =? 0 then Some i
        else
          _ <- assert (- 2 ^ 31 <? n) ;;
          argindex_loop rest (i + 1) dd (n - 1)
      else argindex_loop rest (i + 1) dd n
  end.

Definition argindex (argv : list string) (n : Z) : option Z :=
  match argv with
  | [] => Some (-1)
  | _ :: args => argindex_loop args 1 false n
  end.

(** The string after the first character, [&argv[i][1]]. *)
Definition from_1 (a : string) : string :=
  match a with
  | EmptyString => EmptyString
  | String _ t => t
  end.

(** [for(j=0; op[j].label; j++) if( strcmp(lbl,op[j].label)==0 ) break;]
    gives the entry [op[j]], or nothing when [op[j]] is the last one,
    which has no label. *)
Fixpoint find_op (op : list s_options) (lbl : string) : option s_options :=
  match op with
  | [] => None
  | o :: rest => if strcmp lbl (label o) =? 0 then Some o else find_op rest lbl
  end.

(** [handleflags(i,err)] for [a = argv[i]]: the error count and the
    statics.  What is printed to [err] is not part of the model, and a call
    of a function that a table entry points to is undefined here, since
    the table of [main] has only variables. *)
Definition handleflags (op : list s_options) (a : string) (s : statics)
  : option (Z * statics) :=
  let v := if Ascii.eqb (char_at a 0) ch_minus then 1 else 0 in
  match find_op op (from_1 a) with
  | None => Some (1, s)
  | Some o =>
      match type o with
      | OPT_FLAG => s <- store_int (arg o) v s ;; Some (0, s)
      | OPT_FFLAG => None
      | _ => Some (1, s)
      end
  end.

(** [handleswitch(i,err)] for [a = argv[i]], which holds a ['=']: the label
    is the text before the first one, the value the text behind it.
    [strtod], [strtol] and the calls through a pointer are undefined here:
    the table of [main] has no entry of these types. *)
Definition handleswitch (op : list s_options) (a : string) (s : statics)
  : option (Z * statics) :=
  '(lbl, cp) <- strchr a ch_eq ;;
  match find_op op lbl with
  | None => Some (1, s)
  | Some o =>
      match type o with
      | OPT_FLAG | OPT_FFLAG => Some (1, s)
      | OPT_STR => s <- store_str (arg o) cp s ;; Some (0, s)
      | OPT_DBL | OPT_FDBL | OPT_INT | OPT_FINT | OPT_FSTR => None
      end
  end.

(** The loop of [optinit] from [argv[1]] on. *)
Fixpoint optinit_loop (op : list s_options) (args : list string) (errcnt : Z) (s : statics)
  : option (Z * statics) :=
  match args with
  | [] => Some (errcnt, s)
  | a :: rest =>
      if Ascii.eqb (char_at a 0) ch_plus || Ascii.eqb (char_at a 0) ch_minus then
        '(e, s) <- handleflags op a s ;;
        optinit_loop op rest (errcnt + e) s
      else
        match strchr a ch_eq with
        | Some _ =>
            '(e, s) <- handleswitch op a s ;;
            optinit_loop op rest (errcnt + e) s
        | None => optinit_loop op rest errcnt s
        end
  end.

(** How a call ends: in [exit(status)], or with a return. *)
Inductive ending :=
| Exit (status : Z)
| Return (s : statics).

(** [optinit(argv,op,err)]: with an error it prints the valid options and
    leaves the program with [exit(1)]. *)
Definition optinit (argv : list string) (op : list s_options) (s : statics)
  : option ending :=
  '(errcnt, s) <- match argv with
                  | [] => Some (0, s)
                  | _ :: args => optinit_loop op args 0 s
                  end ;;
  if errcnt >? 0 then Some (Exit 1) else Some (Return s).

Fixpoint optnargs_loop (args : list string) (dashdash : bool) (cnt : Z) : Z :=
  match args with
  | [] => cnt
  | a :: rest =>
      optnargs_loop rest (dashdash || (strcmp a "--" =? 0))
                    (if dashdash || negb (ISOPT a) then cnt + 1 else cnt)
  end.

Definition optnargs (argv : list string) : Z :=
  match argv with
  | [] => 0
  | _ :: args => optnargs_loop args false 0
  end.

(** [get_optarg(n)]: [argv[i]], or nothing for the null pointer. *)
Definition get_optarg (argv : list string) (n : Z) : option (option string) :=
  i <- argindex argv n ;;
  if i >=? 0 then
    a <- nth_error argv (Z.to_nat i) ;; Some (Some a)
  else Some None.

(** The value of an [int] variable. *)
Definition load_int (x : variable) (s : statics) : option Z :=
  match x with
  | var_basisflag => Some (s_basisflag s)
  | var_compress => Some (s_compress s)
  | var_rpflag => Some (s_rpflag s)
  | var_mhflag => Some (s_mhflag s)
  | var_quiet => Some (s_quiet s)
  | var_statistics => Some (s_statistics s)
  | var_version => Some (s_version s)
  | var_outdirname | var_templatename => None
  end.

(** The value of a [char*] variable. *)
Definition load_str (x : variable) (s : statics) : option (option string) :=
  match x with
  | var_outdirname => Some (s_outdirname s)
  | var_templatename => Some (s_templatename s)
  | _ => None
  end.

(** What [optinit] accepts with the table of [main]: a flag [-x] or [+x]
    with one of the seven letters, and [d=...] or [t=...]; any other
    argument is no option. *)
Definition flag_labels : list string := ["b"; "c"; "g"; "m"; "q"; "s"; "x"]%string.

Definition accepted (a : string) : Prop :=
  if Ascii.eqb (char_at a 0) ch_plus || Ascii.eqb (char_at a 0) ch_minus then
    In (from_1 a) flag_labels
  else
    match strchr a ch_eq with
    | Some (lbl, _) => lbl = "d"%string \/ lbl = "t"%string
    | None => True
    end.

(** The argument [a] is an option with the label [lbl]: a flag [-lbl] or
    [+lbl], or [lbl=...]. *)
Definition names (lbl a : string) : Prop :=
  if Ascii.eqb (char_at a 0) ch_plus || Ascii.eqb (char_at a 0) ch_minus then
    from_1 a = lbl
  else
    match strchr a ch_eq with
    | Some (l, _) => l = lbl
    | None => False
    end.

(** The arguments that [optnargs] counts and [get_optarg] gives: behind the
    first [--] all of them, before it those that are no option. *)
Fixpoint arguments (args : list string) : list string :=
  match args with
  | [] => []
  | a :: rest =>
      if strcmp a "--" =? 0 then rest
      else if ISOPT a then arguments rest
      else a :: arguments rest
  end.

(** The same from a place in the loop where [dashdash] has a value. *)
Definition arguments_from (dashdash : bool) (args : list string) : list string :=
  if dashdash then args else arguments args.

End Opt.

(* ================================================================= *)
(** ** File names *)

Definition ch_slash : ascii := ch 47.
Definition ch_dot : ascii := ch 46.

Definition strlen (s : string) : Z := Z.of_nat (String.length s).

(** [strrchr(s,c)] for a [c] that is not NUL: the text before the last [c]
    and the text behind it, or nothing for the null pointer. *)
Fixpoint strrchr (s : string) (c : ascii) : option (string * string) :=
  match s with
  | EmptyString => None
  | String d t =>
      match strrchr t c with
      | Some (a, b) => Some (String d a, b)
      | None => if Ascii.eqb d c then Some (EmptyString, t) else None
      end
  end.

(** [strcpy(dst,src)] into a block of [cap] bytes that [malloc] has
    returned: the characters and the terminator must fit. *)
Definition strcpy (cap : Z) (src : string) : option string :=
  _ <- assert (strlen src + 1 <=? cap) ;; Some src.

(** [strcat(dst,src)], [dst] being the text in a block of [cap] bytes. *)
Definition strcat (cap : Z) (dst src : string) : option string :=
  _ <- assert (strlen dst + strlen src + 1 <=? cap) ;; Some (dst ++ src)%string.

(** [make_basename], not under [WIN32]. *)
Definition make_basename (fullname : string) : option string :=
  match strrchr fullname ch_slash with
  | None => strcpy (strlen fullname) fullname
  | Some (_, cp) => strcpy (strlen cp) cp
  end.

(** [file_makename(pattern,suffix)]; [*cp = 0] cuts the name at the last
    dot. *)
Definition file_makename (pattern suffix : string) : option string :=
  let cap := strlen pattern + strlen suffix + 5 in
  name <- strcpy cap pattern ;;
  let name := match strrchr name ch_dot with
              | Some (stem, _) => stem
              | None => name
              end in
  strcat cap name suffix.

(* ================================================================= *)
(** ** main, from the command line on *)

(** The command line as [main] reads it when [optinit] has returned. *)
Definition options_of (argv : list string) (s : Opt.statics) : option options :=
  f <- Opt.get_optarg argv 0 ;;
  Some (mkOptions (negb (Opt.s_version s =? 0))
                  (negb (Opt.s_rpflag s =? 0))
                  (negb (Opt.s_basisflag s =? 0))
                  (negb (Opt.s_compress s =? 0))
                  (negb (Opt.s_quiet s =? 0))
                  (negb (Opt.s_statistics s =? 0))
                  (negb (Opt.s_mhflag s =? 0))
                  (Opt.optnargs argv)
                  (match f with Some x => x | None => EmptyString end)).

Section MainArgv.
Variables Reprint ReportOutput ReportTable : lemon -> lemon.

(** The argument of the [exit] that ends [main(argc,argv)], be it the one
    of [optinit] or one of [main] itself. *)
Definition main_argv (n : nat) (argv : list string) (grammar : option string) (h : file)
  : option Z :=
  e <- Opt.optinit argv Opt.options Opt.statics0 ;;
  match e with
  | Opt.Exit status => Some status
  | Opt.Return s =>
      opts <- options_of argv s ;;
      '(status, _, _) <- main Reprint ReportOutput ReportTable n opts grammar h ;;
      Some status
  end.
End MainArgv.

(* ================================================================= *)
(** ** The closure of the configuration lists *)

(** The configuration [cfp] has the dot before a nonterminal, of which
    [newrp] is a rule. *)
Definition wants (l : lemon) (cfp : cfgptr) (newrp : ruleptr) : Prop :=
  exists c rp sp s,
    the_config l cfp = Some c /\ the_rule l (cf_rp c) = Some rp /\
    cf_dot c < rl_nrhs rp /\
    nth_error (rl_rhs rp) (Z.to_nat (cf_dot c)) = Some sp /\
    the_symbol l sp = Some s /\ sym_type s = NONTERMINAL /\ In newrp (sym_rule s).

(** [cfp] is the configuration of the rule [rp] with the dot at [dot]. *)
Definition config_at (l : lemon) (cfp : cfgptr) (rp : ruleptr) (dot : Z) : Prop :=
  exists c, the_config l cfp = Some c /\ cf_rp c = rp /\ cf_dot c = dot.

(** A list of configurations that holds, for each of its configurations
    with the dot before a nonterminal, every rule of that nonterminal with
    the dot at the start. *)
Definition closed (l : lemon) (cfps : list cfgptr) : Prop :=
  forall cfp newrp,
    In cfp cfps -> wants l cfp newrp ->
    exists cfp', In cfp' cfps /\ config_at l cfp' newrp 0.

(** The rules carry their place in the list of the rules as their index,
    as [Parse] numbers them. *)
Definition rules_indexed (l : lemon) : Prop :=
  forall i r, the_rule l i = Some r -> rl_index r = Z.of_nat i.

(** From [l] to [l'] the rules and the symbols are the same, and every
    configuration there was is still the one of its rule and dot. *)
Definition keeps (l l' : lemon) : Prop :=
  lem_rule l' = lem_rule l /\ x2a l' = x2a l /\
  (List.length (cfg_store l) <= List.length (cfg_store l'))%nat /\
  forall cfp c,
    the_config l cfp = Some c ->
    exists c', the_config l' cfp = Some c' /\ cf_rp c' = cf_rp c /\ cf_dot c' = cf_dot c.

(** The list [current] under construction: the table [x4a] holds
    configurations of the list only, which are distinct ones of the
    store. *)
Definition builder_ok (l : lemon) : Prop :=
  (forall cfp, In cfp (x4a l) -> In cfp (current l)) /\
  (forall cfp, In cfp (current l) -> (cfp < List.length (cfg_store l))%nat) /\
  NoDup (current l).

Definition valid_rule (l : lemon) (cfp : cfgptr) : Prop :=
  exists c r, the_config l cfp = Some c /\ the_rule l (cf_rp c) = Some r.

(** The closure has dealt with [cfp]. *)
Definition done_at (l : lemon) (cfp : cfgptr) : Prop :=
  valid_rule l cfp /\
  forall newrp, wants l cfp newrp ->
    exists cfp', In cfp' (current l) /\ config_at l cfp' newrp 0.

Definition states_ok (l : lemon) : Prop :=
  Forall (fun cfps =>
            (forall cfp, In cfp cfps -> (cfp < List.length (cfg_store l))%nat) /\
            closed l cfps)
         (map st_cfp (x3a l)).

(** The order of [Configcmp]: by the index of the rule, then by the dot. *)
Definition config_ord (l : lemon) (a b : cfgptr) : Z :=
  match Configcmp_ptr l a b with
  | Some z => z
  | None => 0
  end.

(** [keeps], for a step that leaves the states alone and adds to the end
    of [current]. *)
Definition grows (l l' : lemon) : Prop :=
  keeps l l' /\ x3a l' = x3a l /\ exists new, current l' = current l ++ new.

(** [keeps], for a step that leaves the configurations of the states there
    are alone. *)
Definition extends (l l' : lemon) : Prop :=
  keeps l l' /\ exists more, map st_cfp (x3a l') = map st_cfp (x3a l) ++ more.

(** From [l] to [l'] only counters and messages differ. *)
Definition same_core (l l' : lemon) : Prop :=
  lem_rule l' = lem_rule l /\ x2a l' = x2a l /\ cfg_store l' = cfg_store l /\
  x3a l' = x3a l /\ current l' = current l /\ x4a l' = x4a l.

(* ================================================================= *)
(** ** The action codes of the generated parser (report.c) *)




(* ================================================================= *)
(** ** Vocabulary of the conflict resolution *)



(** What the resolution loop reads behind the pointers of an action: the
    lookahead symbol, which has one of the three associativities when it
    has a precedence, and for a reduce its rule and the precedence symbol
    of the rule, if there is one. *)
Definition action_ok (l : lemon) (a : action) : bool :=
  match the_symbol l (act_sp a) with
  | Some s => (sym_prec s <? 0) || negb (e_assoc_eqb (sym_assoc s) UNK)
  | None => false
  end
  && (if e_action_eqb (act_type a) REDUCE then
        match act_x a with
        | x_rp (Some r) =>
            match the_rule l r with
            | Some rp =>
                match rl_precsym rp with
                | Some p => match the_symbol l p with Some _ => true | None => false end
                | None => true
                end
            | None => false
            end
        | _ => false
        end
      else true).



(** An action before and after the resolution: the same lookahead and the
    same target, and the type either kept or that of a reduce or a shift
    that has been marked. *)
Definition resolved_from (a a' : action) : Prop :=
  act_sp a' = act_sp a /\ act_x a' = act_x a /\
  (act_type a' = act_type a
   \/ (act_type a = REDUCE /\ (act_type a' = CONFLICT \/ act_type a' = RD_RESOLVED))
   \/ (act_type a = SHIFT /\ act_type a' = SH_RESOLVED)).

(* ================================================================= *)
(** ** Vocabulary of the error messages *)


(** A text without tabs and newlines (and without a NUL before its end). *)
Definition plain (s : string) : bool :=
  negb (has_char ch_tab s || has_char ch_nl s || has_char NUL s).




(** The columns that [ErrorMsg] has for the text of a line behind the
    prefix ([availablewidth]). *)
Definition line_room (filename : string) (lineno : Z) : Z :=
  LINEWIDTH - Z.of_nat (String.length (ErrorMsg_prefix filename lineno)).





(* ================================================================= *)
(** ** Sample grammars and states *)

Definition lemon_blank (filename : string) : lemon := lemon_start filename 0.

Definition a_symbol (name : string) (index : Z) (prec : Z) (assoc : e_assoc) : symbol :=
  mkSymbol name index
           (if safe_isupper (char_at name 0) then TERMINAL else NONTERMINAL)
           [] prec assoc None false None 0 None 0.

Definition a_rule (index : Z) (lhs : symptr) (rhs : list symptr) (precsym : option symptr) : rule :=
  mkRule lhs None 1 rhs (map (fun _ => None) rhs) 0 None precsym index false.

(** expr ::= expr PLUS expr [PLUS].  expr ::= expr TIMES expr [TIMES].
    expr ::= INT.  with %left PLUS. %right TIMES. %nonassoc EQ. *)
Definition expr_lemon : lemon :=
  set_lem_rule
    (set_x2a (lemon_blank "expr.y")
       [ a_symbol "$" 0 (-1) UNK; a_symbol "error" 6 (-1) UNK;
         a_symbol "PLUS" 3 1 LEFT; a_symbol "TIMES" 4 2 RIGHT;
         a_symbol "EQ" 1 3 NONE; a_symbol "expr" 7 (-1) UNK;
         a_symbol "INT" 2 (-1) UNK; a_symbol "MINUS" 5 1 LEFT ])
    [ a_rule 0 5%nat [5; 2; 5]%nat (Some 2%nat);
      a_rule 1 5%nat [5; 3; 5]%nat (Some 3%nat);
      a_rule 2 5%nat [6]%nat None;
      a_rule 3 5%nat [5; 4; 5]%nat (Some 4%nat);
      a_rule 4 5%nat [5; 7; 5]%nat (Some 7%nat) ].

(** Actions of a state of [expr_lemon] on the lookahead PLUS: the shift,
    and the reduce by [expr ::= expr PLUS expr]; two reduces on EQ. *)
Definition shift_PLUS : action := mkAction 2%nat SHIFT (x_stp 3).
Definition reduce_PLUS : action := mkAction 2%nat REDUCE (x_rp (Some 0%nat)).
Definition reduce_EQ_by_plus : action := mkAction 4%nat REDUCE (x_rp (Some 0%nat)).
Definition reduce_EQ_by_times : action := mkAction 4%nat REDUCE (x_rp (Some 1%nat)).


(** A message with a word that is wider than a line. *)
Definition long_name : string :=
  "AAAAAAAAAABBBBBBBBBBCCCCCCCCCCDDDDDDDDDDEEEEEEEEEEFFFFFFFFFFGGGGGGGGGGHHHHHHHHHH".

Definition long_message : string :=
  ("Symbol " ++ q long_name ++ " has already be given a precedence.")%string.

(** The symbol table of the grammar [start ::= A .] *)
Definition one_terminal_lemon : lemon :=
  set_lem_rule
    (set_x2a (lemon_blank "one.y")
       [ a_symbol "$" 0 (-1) UNK; a_symbol "error" 0 (-1) UNK;
         a_symbol "start" 0 (-1) UNK; a_symbol "A" 0 (-1) UNK ])
    [ a_rule 0 2%nat [3]%nat None ].

Definition no_output (l : lemon) : lemon := l.

Definition plain_options (filename : string) : options :=
  mkOptions false false false false false false false 1 filename.

(** A header file left by a grammar that had the terminals A and B. *)
Definition header_A : string := define_line EmptyString "A" 1.
Definition header_A_B : string := (define_line EmptyString "A" 1 ++ define_line EmptyString "B" 2)%string.

Definition one_terminal_grammar : string := "start ::= A .".

(** A grammar with a state that reduces by [a ::= .] on X and on Y and by
    [b ::= .] on Z, and its tables before the compression (option -c). *)
Definition two_of_three_grammar : string :=
  "s ::= a X. s ::= a Y. s ::= b Z. a ::= . b ::= .".

Definition uncompressed_options : options :=
  mkOptions false false false true false false false 1 "two.y".

Definition uncompressed_tables : lemon :=
  Eval vm_compute in
  match main no_output no_output no_output 20 uncompressed_options
             (Some two_of_three_grammar) (mkFile None true 0) with
  | Some (_, l, _) => l
  | None => lemon_blank "two.y"
  end.

(** A grammar of sums, and its tables before the compression. *)
Definition sum_grammar : string :=
  "%left PLUS. s ::= e. e ::= e PLUS e. e ::= INT.".

Definition sum_tables : lemon :=
  Eval vm_compute in
  match main no_output no_output no_output 20
             (mkOptions false false false true false false false 1 "sum.y")
             (Some sum_grammar) (mkFile None true 0) with
  | Some (_, l, _) => l
  | None => lemon_blank "sum.y"
  end.

(** The symbols and rules of the grammar
    [s ::= a b.  a ::= .  a ::= X.  b ::= a.  b ::= Y a.] after the symbols
    are indexed, with sets of three elements. *)
Definition optional_lemon : lemon :=
  set_size
    (set_lem_nterminal
       (set_lem_nsymbol
          (set_lem_symbols
             (set_lem_rule
                (set_x2a (lemon_blank "opt.y")
                   [ a_symbol "$" 0 (-1) UNK; a_symbol "error" 5 (-1) UNK;
                     a_symbol "s" 6 (-1) UNK; a_symbol "a" 3 (-1) UNK;
                     a_symbol "b" 4 (-1) UNK; a_symbol "X" 1 (-1) UNK;
                     a_symbol "Y" 2 (-1) UNK; a_symbol "{default}" 7 (-1) UNK ])
                [ a_rule 0 2%nat [3; 4]%nat None;
                  a_rule 1 3%nat []%nat None;
                  a_rule 2 3%nat [5]%nat None;
                  a_rule 3 4%nat [3]%nat None;
                  a_rule 4 4%nat [6; 3]%nat None ])
             [0; 5; 6; 3; 4; 1; 2; 7]%nat)
          7)
       3)
    4.

(** [optional_lemon] when the loop of the first sets starts. *)
Definition optional_ready : lemon :=
  Eval vm_compute in
  match (l <- for_each clear_lambda (nat_upto (lem_nsymbol optional_lemon)) optional_lemon ;;
         l <- for_each new_firstset (nat_range (lem_nterminal l) (lem_nsymbol l)) l ;;
         lambda_loop 5 l) with
  | Some l => l
  | None => optional_lemon
  end.


(** The table after the symbols [s0], [s1], ... of [n] names are inserted. *)
Fixpoint insert_all (names : list string) (i : nat) (x2a : option Table.s_x2)
  : option (option Table.s_x2) :=
  match names with
  | [] => Some x2a
  | k :: rest =>
      '(_, x2a') <- Table.Symbol_insert i k x2a ;;
      insert_all rest (S i) x2a'
  end.

Definition sample_names (n : nat) : list string :=
  map (fun i => ("s" ++ fmt_d (Z.of_nat i))%string) (seq 0 n).

(** The grammar of sums before and after [FindStates]. *)
Definition sum_before_states : lemon :=
  Eval vm_compute in
  match (lem <- Parse (main_init (plain_options "sum.y")) (Some sum_grammar) ;;
         lem <- index_grammar lem ;;
         let lem := SetSize lem (lem_nterminal lem) in
         lem <- FindRulePrecedences lem ;;
         lem <- FindFirstSets 20 lem ;;
         Some (set_lem_nstate lem 0)) with
  | Some l => l
  | None => lemon_blank "sum.y"
  end.

Definition sum_states : lemon :=
  Eval vm_compute in
  match FindStates 20 sum_before_states with
  | Some l => l
  | None => lemon_blank "sum.y"
  end.

(** The analysis of [main] up to the follow sets, and the actions that
    [FindActions] has added when its resolution loop begins. *)
Definition analysed (name grammar : string) : option lemon :=
  lem <- Parse (main_init (plain_options name)) (Some grammar) ;;
  lem <- index_grammar lem ;;
  let lem := SetSize lem (lem_nterminal lem) in
  lem <- FindRulePrecedences lem ;;
  lem <- FindFirstSets 20 lem ;;
  let lem := set_lem_nstate lem 0 in
  lem <- FindStates 20 lem ;;
  let lem := set_lem_sorted lem (State_arrayof lem) in
  lem <- FindLinks lem ;;
  FindFollowSets 20 lem.


(** A grammar in which the state behind X has a shift and two reduces on
    the lookahead T; the rule of the first reduce has the precedence of
    HI, that of the second has none. *)
Definition rr_grammar : string :=
  "%left T. %left HI. s ::= p T. s ::= q T. s ::= r. p ::= X. [HI] q ::= X. r ::= X T.".

Definition rr_analysed : lemon :=
  Eval vm_compute in
  match analysed "rr.y" rr_grammar with
  | Some l => l
  | None => lemon_blank "rr.y"
  end.







(* ================================================================= *)
(** * Runs that have a result *)

Lemma for_each_keeps {S A : Type} (P : S -> Prop) (f : S -> A -> option S) :
  (forall s a s', f s a = Some s' -> P s -> P s') ->
  forall xs s s', for_each f xs s = Some s' -> P s -> P s'.
Proof.
  intros Hf. induction xs as [|x xs IH]; simpl; intros s s' H Hs.
  - now injection H as <-.
  - unfold bind in H. destruct (f s x) as [s1|] eqn:E; [|discriminate].
    eapply IH; [exact H|]. eapply Hf; eassumption.
Qed.

(** Case analysis on a run [H : ... = Some _]. *)
Ltac break_in H :=
  repeat (unfold bind, assert in H;
          match type of H with
          | None = Some _ => discriminate H
          | Some _ = Some _ => inversion H; subst; clear H
          | context [match ?x with _ => _ end] =>
              first [ is_var x; destruct x | let E := fresh "E" in destruct x eqn:E ]
          end).

Lemma bind_Some {A B : Type} (m : option A) (k : A -> option B) (r : B) :
  bind m k = Some r -> exists a, m = Some a /\ k a = Some r.
Proof. destruct m as [a|]; simpl; [eauto|discriminate]. Qed.


(* ================================================================= *)
(** * Conflict resolution *)


Lemma e_action_eqb_eq (a b : e_action) : e_action_eqb a b = true <-> a = b.
Proof. destruct a, b; unfold e_action_eqb; simpl; split; intro H; congruence || reflexivity. Qed.

Ltac zbool :=
  repeat match goal with
  | |- context [?a <? ?b] => destruct (Z.ltb_spec a b); try lia
  | |- context [?a >? ?b] => rewrite (Z.gtb_ltb a b)
  | |- context [?a =? ?b] => destruct (Z.eqb_spec a b); try lia
  end.

(** ** One call of [resolve_conflict] *)






(** An action that is neither a shift nor a reduce is left, and so is the
    other one. *)
Lemma resolve_conflict_settled (l : lemon) (apx apy : action) (e : option symptr) :
  act_sp apx = act_sp apy ->
  act_type apx <> SHIFT -> act_type apx <> REDUCE ->
  resolve_conflict l apx apy e = Some (apx, apy, 0).
Proof.
  intros Hsp Hs Hr. unfold resolve_conflict. rewrite Hsp, Nat.eqb_refl. cbn [assert bind].
  destruct (e_action_eqb (act_type apx) SHIFT) eqn:Ex.
  { apply e_action_eqb_eq in Ex. contradiction. }
  destruct (e_action_eqb (act_type apx) REDUCE) eqn:Ex2.
  { apply e_action_eqb_eq in Ex2. contradiction. }
  reflexivity.
Qed.





Lemma action_ok_resolved (l : lemon) (a a' : action) :
  resolved_from a a' -> action_ok l a = true -> action_ok l a' = true.
Proof.
  intros (S1 & X1 & T1). unfold action_ok. rewrite S1, X1. intros H.
  apply andb_prop in H as [H1 H2]. rewrite H1. cbn [andb].
  destruct T1 as [T1 | [(T1 & [T1' | T1']) | (T1 & T1')]].
  - rewrite T1. exact H2.
  - rewrite T1'. reflexivity.
  - rewrite T1'. reflexivity.
  - rewrite T1'. reflexivity.
Qed.




(** ** The inner loop *)


(** ** The outer loop *)


Lemma forallb_ok_resolved (l : lemon) (xs ys : list action) :
  Forall2 resolved_from xs ys -> forallb (action_ok l) xs = true ->
  forallb (action_ok l) ys = true.
Proof.
  induction 1 as [|x y xs ys R _ IH]; [reflexivity|].
  cbn [forallb]. intros H. apply andb_prop in H as [H1 H2].
  rewrite (action_ok_resolved _ _ _ R H1), (IH H2). reflexivity.
Qed.





Lemma last_in_all (xs : list action) (d : action) (P : action -> Prop) :
  Forall P xs -> xs <> [] -> P (last xs d).
Proof.
  induction 1 as [|x xs Hx Hxs IH]; [congruence|]. intros _.
  destruct xs as [|y ys]; [exact Hx|].
  change (P (last (y :: ys) d)). apply IH. discriminate.
Qed.


(** ** A pair of the inner loop *)











(** C2.  The two reduces of that state are on the same lookahead T, and
    the rule of the second has no precedence symbol.  [FindActions]
    compares the first action on a lookahead with the later ones and goes
    on to the next lookahead ([ap=nap]): the two reduces behind the shift
    are never compared.  Both are REDUCE actions at the end, and the run
    counts neither a conflict nor an error. *)
Theorem FindActions_misses_reduce_reduce_conflict :
  exists l' st',
    FindActions rr_analysed = Some l' /\
    the_state l' 6%nat = Some st' /\
    st_ap st' = [mkAction 2%nat SH_RESOLVED (x_stp 7);
                 mkAction 2%nat REDUCE (x_rp (Some 3%nat));
                 mkAction 2%nat REDUCE (x_rp (Some 4%nat))] /\
    lem_nconflict l' = 0 /\ lem_errorcnt l' = 0.
Proof.
  do 2 eexists.
  repeat (split; [vm_compute; reflexivity|]).
  vm_compute. reflexivity.
Qed.


(* ================================================================= *)
(** * Error messages *)

Lemma length_append (a b : string) :
  String.length (a ++ b) = (String.length a + String.length b)%nat.
Proof. induction a; simpl; congruence. Qed.

Lemma length_substring_0 (n : nat) (s : string) :
  (String.length (substring 0 n s) <= n)%nat.
Proof.
  revert s. induction n as [|n IH]; intros [|c s]; simpl; try lia.
  specialize (IH s). lia.
Qed.

Lemma length_digits (k : nat) (n : Z) (acc : string) :
  (String.length (digits k n acc) <= k + String.length acc)%nat.
Proof.
  revert n acc. induction k as [|k IH]; intros n acc; simpl; [lia|].
  destruct (n <? 10); simpl; [lia|].
  specialize (IH (n / 10) (String (digit (n mod 10)) acc)). simpl in IH. lia.
Qed.

Lemma ErrorMsg_prefix_length (filename : string) (lineno : Z) :
  (String.length (ErrorMsg_prefix filename lineno) <= 33)%nat.
Proof.
  unfold ErrorMsg_prefix.
  change (Z.to_nat (PREFIXLIMIT - 10)) with 20%nat.
  pose proof (length_substring_0 20 filename) as Hf.
  destruct (lineno >? 0) eqn:Hl.
  - rewrite !length_append. unfold fmt_d.
    assert ((lineno <? 0) = false) as -> by lia.
    pose proof (length_digits 10 lineno EmptyString). simpl in *. lia.
  - rewrite length_append. simpl. lia.
Qed.

Lemma char_at_set_char_other (s : string) (i j : nat) (c : ascii) :
  i <> j -> char_at (set_char s i c) j = char_at s j.
Proof.
  unfold char_at. revert i j. induction s as [|d s IH]; intros i j Hij; simpl.
  - destruct i; reflexivity.
  - destruct i, j; simpl; try reflexivity; try lia.
    apply IH. lia.
Qed.

Lemma char_at_set_char_same (s : string) (i : nat) (c : ascii) :
  char_at s i <> NUL -> char_at (set_char s i c) i = c.
Proof.
  unfold char_at. revert i. induction s as [|d s IH]; intros i H; simpl in *.
  - destruct i; contradiction.
  - destruct i; simpl; [reflexivity|]. apply IH. exact H.
Qed.

Lemma findbreak_loop_spec (max : Z) :
  forall (rounds : nat) (msg : string) (i spot : Z),
    0 <= i -> 0 <= spot <= max -> spot <= i ->
    i + Z.of_nat rounds = max + 1 ->
    scanned msg i ->
    (0 < spot -> (char_at msg (Z.to_nat spot) = ch_space /\ spot < i) \/
                 char_at msg (Z.to_nat (spot - 1)) = ch_minus) ->
    let r := findbreak_loop rounds msg i max spot in
    0 <= fst r <= max /\ scanned (snd r) (fst r) /\ good_spot (snd r) (fst r).
Proof.
  induction rounds as [|rounds IH]; intros msg i spot Hi Hspot Hle Hsum Hscan Hgood; simpl.
  - repeat split; try lia.
    + apply Hscan. lia.
    + apply Hscan. lia.
    + intros Hpos. destruct (Hgood Hpos) as [[H _]|H]; auto.
  - set (c := char_at msg (Z.to_nat i)).
    set (msg1 := if Ascii.eqb c ch_tab then set_char msg (Z.to_nat i) ch_space else msg).
    assert (Hother : forall j, 0 <= j -> j <> i ->
              char_at msg1 (Z.to_nat j) = char_at msg (Z.to_nat j)).
    { intros j Hj Hne. subst msg1. destruct (Ascii.eqb c ch_tab); [|reflexivity].
      apply char_at_set_char_other. lia. }
    assert (Hscan1 : scanned msg1 i).
    { intros j Hj. rewrite Hother by lia. apply Hscan. lia. }
    destruct (Ascii.eqb_spec c ch_nl) as [Hnl|Hnl].
    { simpl. repeat split; try lia.
      - rewrite char_at_set_char_other by lia. apply Hscan1. lia.
      - rewrite char_at_set_char_other by lia. apply Hscan1. lia.
      - intros _. left. apply char_at_set_char_same.
        subst msg1. destruct (Ascii.eqb_spec c ch_tab) as [Ht|Ht].
        + rewrite Ht in Hnl. discriminate.
        + fold c. rewrite Hnl. discriminate. }
    destruct (Ascii.eqb_spec c NUL) as [Hz|Hz].
    { simpl. repeat split; try lia.
      - apply Hscan1. lia.
      - apply Hscan1. lia.
      - intros _. right. left. subst msg1.
        destruct (Ascii.eqb_spec c ch_tab) as [Ht|Ht].
        + rewrite Ht in Hz. discriminate.
        + exact Hz. }
    set (spot1 := if Ascii.eqb c ch_minus && (i <? max - 1) then i + 1 else spot).
    set (spot2 := if Ascii.eqb c ch_space then i else spot1).
    assert (Hc1 : char_at msg1 (Z.to_nat i) = c \/
                  (c = ch_tab /\ char_at msg1 (Z.to_nat i) = ch_space)).
    { subst msg1. destruct (Ascii.eqb_spec c ch_tab) as [Ht|Ht]; [right|left; reflexivity].
      split; [exact Ht|]. apply char_at_set_char_same. fold c. exact Hz. }
    apply IH; try lia.
    + subst spot2 spot1. destruct (Ascii.eqb c ch_space); [lia|].
      destruct (Ascii.eqb c ch_minus && (i <? max - 1)) eqn:E; [|lia].
      apply andb_prop in E. lia.
    + subst spot2 spot1. destruct (Ascii.eqb c ch_space); [lia|].
      destruct (Ascii.eqb c ch_minus && (i <? max - 1)); lia.
    + intros j Hj. destruct (Z.eq_dec j i) as [->|Hne].
      * destruct Hc1 as [-> | [Ht ->]]; [split; assumption|].
        split; discriminate.
      * apply Hscan1. lia.
    + intros Hpos. subst spot2.
      destruct (Ascii.eqb_spec c ch_space) as [Hsp|Hsp].
      * left. split; [|lia]. destruct Hc1 as [-> | [Ht _]]; [exact Hsp|].
        rewrite Ht in Hsp. discriminate.
      * subst spot1.
        destruct (Ascii.eqb_spec c ch_minus) as [Hm|Hm]; simpl in *.
        -- destruct (i <? max - 1) eqn:E.
           ++ right. replace (i + 1 - 1) with i by lia.
              destruct Hc1 as [-> | [Ht _]]; [exact Hm|].
              rewrite Ht in Hm. discriminate.
           ++ destruct (Hgood Hpos) as [[H Hlt]|H].
              ** left. split; [|lia]. rewrite Hother by lia. exact H.
              ** right. rewrite Hother by lia. exact H.
        -- destruct (Hgood Hpos) as [[H Hlt]|H].
           ++ left. split; [|lia]. rewrite Hother by lia. exact H.
           ++ right. rewrite Hother by lia. exact H.
Qed.

Lemma findbreak_spec (msg : string) (max : Z) :
  0 <= max ->
  let r := findbreak msg 0 max in
  0 <= fst r <= max /\ scanned (snd r) (fst r) /\ good_spot (snd r) (fst r).
Proof.
  intros Hmax. unfold findbreak. apply findbreak_loop_spec; try lia.
  intros j Hj. lia.
Qed.

Lemma has_char_substring (c : ascii) (n : nat) (s : string) :
  (forall j, (j < n)%nat -> char_at s j <> c /\ char_at s j <> NUL) ->
  has_char c (substring 0 n s) = false.
Proof.
  revert s. induction n as [|n IH]; intros [|d t] H; simpl; try reflexivity.
  destruct (H 0%nat ltac:(lia)) as [Hd _]. unfold char_at in Hd. simpl in Hd.
  destruct (Ascii.eqb_spec d c); [contradiction|]. simpl.
  apply IH. intros j Hj. apply (H (S j)). lia.
Qed.

Lemma ErrorMsg_loop_lines (filename : string) (lineno : Z) (availablewidth : Z) :
  0 <= availablewidth ->
  Z.of_nat (String.length (ErrorMsg_prefix filename lineno)) + availablewidth = LINEWIDTH ->
  forall (n : nat) (errmsg : string),
    Forall (message_line filename lineno)
           (fst (ErrorMsg_loop n (ErrorMsg_prefix filename lineno) availablewidth errmsg)).
Proof.
  intros Hav Hsum. induction n as [|n IH]; intros errmsg; simpl; [constructor|].
  destruct errmsg as [|c errmsg]; [constructor|].
  pose proof (findbreak_spec (String c errmsg) availablewidth Hav) as Hfb.
  destruct (findbreak (String c errmsg) 0 availablewidth) as [e errmsg1].
  simpl in Hfb. destruct Hfb as (Hrange & Hscan & _).
  match goal with
  | |- context [ErrorMsg_loop n ?p ?a ?m] =>
      specialize (IH m); destruct (ErrorMsg_loop n p a m) as [lines finished]
  end.
  simpl in *. constructor; [|exact IH].
  split; [reflexivity|]. exists (substring 0 (Z.to_nat e) errmsg1).
  split; [reflexivity|]. split.
  - apply has_char_substring. intros j Hj.
    specialize (Hscan (Z.of_nat j) ltac:(lia)). rewrite Nat2Z.id in Hscan. exact Hscan.
  - rewrite length_append.
    pose proof (length_substring_0 (Z.to_nat e) errmsg1). lia.
Qed.

(** C9, as the program has it.  Every line that ErrorMsg writes for a
    message goes to the standard output; it starts with the first 20
    characters of the file name, a colon, the line number and a colon when
    the line number is positive, and a space; with the text after the
    prefix, which holds no newline, it is at most 79 characters wide.  The
    place where findbreak breaks the text lies within the width that is
    left, and when it is not the start of the text, it is on a space (a
    newline of the message has become one), at the end of the message, or
    behind a hyphen. *)
Theorem ErrorMsg_lines :
  forall (n : nat) (filename : string) (lineno : Z) (errmsg : string),
    Forall (message_line filename lineno) (fst (ErrorMsg n filename lineno errmsg)) /\
    ErrorMsg_prefix filename lineno
    = (if lineno >? 0 then substring 0 20 filename ++ ":" ++ fmt_d lineno ++ ": "
       else substring 0 20 filename ++ ": ")%string /\
    (forall (msg : string) (max : Z),
       0 <= max ->
       0 <= fst (findbreak msg 0 max) <= max /\
       good_spot (snd (findbreak msg 0 max)) (fst (findbreak msg 0 max))).
Proof.
  intros n filename lineno errmsg. split; [|split].
  - unfold ErrorMsg. apply ErrorMsg_loop_lines.
    + pose proof (ErrorMsg_prefix_length filename lineno). unfold LINEWIDTH. lia.
    + lia.
  - reflexivity.
  - intros msg max Hmax. pose proof (findbreak_spec msg max Hmax) as H.
    simpl in H. tauto.
Qed.

(** The message of a duplicate precedence comes out on the standard
    output, not on the standard error stream. *)
Lemma ErrorMsg_not_on_stderr :
  fst (ErrorMsg 2 "gram.y" 12 "Symbol PLUS has already be given a precedence.")
  = [(stdout, ("gram.y:12: Symbol PLUS has already be given a precedence." ++ str1 ch_nl)%string)]
  /\ ~ Forall (fun e : stream * string => fst e = stderr)
         (fst (ErrorMsg 2 "gram.y" 12 "Symbol PLUS has already be given a precedence.")).
Proof.
  split; [vm_compute; reflexivity|].
  intros H. vm_compute in H. inversion H as [|? ? Hhd _]. discriminate Hhd.
Qed.

(** A long message is wrapped at spaces. *)
Example ErrorMsg_wraps :
  ErrorMsg 5 "gram.y" 0
    "The start symbol occurs on the right-hand side of a rule. This will result in a parser which does not work properly."
  = ([(stdout, ("gram.y: The start symbol occurs on the right-hand side of a rule. This will" ++ str1 ch_nl)%string);
      (stdout, ("gram.y: result in a parser which does not work properly." ++ str1 ch_nl)%string)],
     true).
Proof. vm_compute. reflexivity. Qed.

(** When the text left has no place to break within the width, and does
    not start with a space, a round of the loop prints the bare prefix and
    leaves the text as it is: the loop goes on for ever. *)
Lemma ErrorMsg_loop_stuck (prefix : string) (availablewidth : Z) (c : ascii) (errmsg : string) :
  findbreak (String c errmsg) 0 availablewidth = (0, String c errmsg) ->
  Ascii.eqb c ch_space = false ->
  forall n, snd (ErrorMsg_loop n prefix availablewidth (String c errmsg)) = false.
Proof.
  intros Hfb Hc. induction n as [|n IH]; simpl; [reflexivity|].
  rewrite Hfb. simpl. rewrite Hc. simpl.
  destruct (ErrorMsg_loop n prefix availablewidth (String c errmsg)). exact IH.
Qed.

(** The message of a duplicate precedence for a terminal of 80 letters is
    never printed to its end. *)
Lemma ErrorMsg_hangs_on_long_word :
  forall n, snd (ErrorMsg n "gram.y" 12 long_message) = false.
Proof.
  intros [|n]; [reflexivity|].
  unfold ErrorMsg.
  change (ErrorMsg_prefix "gram.y" 12) with ("gram.y:12: "%string).
  change (LINEWIDTH - Z.of_nat (String.length "gram.y:12: ")) with 68.
  set (prefix := "gram.y:12: "%string).
  assert (Hfirst : forall k,
            snd (ErrorMsg_loop (S k) prefix 68 (chop_newlines long_message))
            = snd (ErrorMsg_loop k prefix 68
                     (str_drop 7 (chop_newlines long_message)))).
  { intros k. cbn [ErrorMsg_loop].
    replace (chop_newlines long_message) with long_message by (vm_compute; reflexivity).
    replace (findbreak long_message 0 68) with (6, long_message) by (vm_compute; reflexivity).
    replace (Z.to_nat 6 + skip_spaces (str_drop (Z.to_nat 6) long_message))%nat
      with 7%nat by (vm_compute; reflexivity).
    unfold long_message at 1. cbn [append q str1].
    destruct (ErrorMsg_loop k prefix 68 (str_drop 7 long_message)). reflexivity. }
  rewrite Hfirst.
  replace (str_drop 7 (chop_newlines long_message))
    with (String ch_dquote (long_name ++ str1 ch_dquote ++ " has already be given a precedence."))
    by (vm_compute; reflexivity).
  apply ErrorMsg_loop_stuck; vm_compute; reflexivity.
Qed.


(* ================================================================= *)
(** * Does [ErrorMsg] return? *)

(** ** Strings *)







Lemma char_at_str_drop (k j : nat) (s : string) :
  (k <= String.length s)%nat -> char_at (str_drop k s) j = char_at s (k + j).
Proof.
  revert s. induction k as [|k IH]; intros s Hk; [reflexivity|].
  destruct s as [|d s]; simpl in Hk; [lia|].
  simpl. unfold char_at in *. simpl. apply IH. lia.
Qed.

Lemma char_at_in_range (s : string) (i : nat) :
  char_at s i <> NUL -> (i < String.length s)%nat.
Proof.
  unfold char_at. revert i. induction s as [|d s IH]; intros [|i] H; simpl in *;
    try contradiction; try lia.
  specialize (IH i H). lia.
Qed.

(** ** One scan of [findbreak] *)



(** ** One round of the printing loop *)










(** ** Messages whose words fit into the line *)














Lemma line_room_46 (filename : string) (lineno : Z) : 46 <= line_room filename lineno.
Proof.
  unfold line_room, LINEWIDTH. pose proof (ErrorMsg_prefix_length filename lineno). lia.
Qed.


(** ** The message of a duplicate precedence *)









(** 46 columns are left behind the widest prefix: the quoted name of at
    most 44 characters fits. *)
Lemma short_name_fits (filename : string) (lineno : Z) (x : string) :
  (String.length x <= 44)%nat ->
  Z.of_nat (String.length (q x)) <= line_room filename lineno.
Proof.
  intros H. pose proof (line_room_46 filename lineno).
  unfold q. rewrite !length_append. cbn [String.length str1]. lia.
Qed.


(* ================================================================= *)
(** * The parser: precedence declarations *)

Lemma find_key_bound key tbl i sp :
  find_key key tbl i = Some sp -> (i <= sp < i + List.length tbl)%nat.
Proof.
  revert i. induction tbl as [|s tbl IH]; simpl; intros i H; [discriminate|].
  destruct (strcmp (sym_name s) key =? 0).
  - injection H as <-. lia.
  - apply IH in H. lia.
Qed.





(* ================================================================= *)
(** * The order of the symbols *)

Lemma code_inj (c d : ascii) : code c = code d -> c = d.
Proof.
  unfold code. intros H. apply N2Z.inj in H.
  rewrite <- (ascii_N_embedding c), <- (ascii_N_embedding d). now rewrite H.
Qed.

Lemma strcmp_refl (a : string) : strcmp a a = 0.
Proof. induction a; simpl; [reflexivity|]. now rewrite Z.eqb_refl. Qed.

Lemma strcmp_eq (a b : string) : strcmp a b = 0 -> a = b.
Proof.
  revert b. induction a as [|c a IH]; intros [|d b]; simpl; try discriminate; auto.
  destruct (Z.eqb_spec (code c) (code d)) as [E|E]; intros H.
  - apply code_inj in E. subst. f_equal. auto.
  - lia.
Qed.

Lemma strcmp_antisym (a b : string) :
  (strcmp a b < 0 <-> 0 < strcmp b a) /\ (strcmp a b = 0 <-> strcmp b a = 0).
Proof.
  revert b. induction a as [|c a IH]; intros [|d b]; simpl; try lia.
  rewrite (Z.eqb_sym (code d) (code c)).
  destruct (Z.eqb_spec (code c) (code d)) as [E|E]; [apply IH | lia].
Qed.

Lemma strcmp_trans (a b c : string) :
  strcmp a b < 0 -> strcmp b c < 0 -> strcmp a c < 0.
Proof.
  revert b c. induction a as [|x a IH]; intros [|y b] [|z c]; simpl; try lia.
  destruct (Z.eqb_spec (code x) (code y)) as [E1|E1];
    destruct (Z.eqb_spec (code y) (code z)) as [E2|E2];
    destruct (Z.eqb_spec (code x) (code z)) as [E3|E3]; try lia.
  apply IH.
Qed.

(** The first characters of names in the order of [strcmp]. *)
Lemma strcmp_first_char (a b : string) :
  strcmp a b < 0 -> code (char_at a 0) <= code (char_at b 0).
Proof.
  destruct a as [|c a], b as [|d b]; simpl; unfold char_at; simpl; try lia.
  - intros _. unfold code, NUL. simpl. lia.
  - destruct (Z.eqb_spec (code c) (code d)); lia.
Qed.

Lemma strcmp_le_trans (a b c : string) :
  strcmp a b <= 0 -> strcmp b c <= 0 -> strcmp a c <= 0.
Proof.
  intros H1 H2.
  destruct (Z.eq_dec (strcmp a b) 0) as [E1|E1].
  { apply strcmp_eq in E1. now subst. }
  destruct (Z.eq_dec (strcmp b c) 0) as [E2|E2].
  { apply strcmp_eq in E2. now subst. }
  pose proof (strcmp_trans a b c). lia.
Qed.

(** ** Tables *)

Lemma upd_length {A : Type} (l : list A) (i : nat) (v : A) :
  List.length (upd l i v) = List.length l.
Proof. revert i. induction l; intros [|i]; simpl; auto. Qed.

Lemma nth_error_upd_same {A : Type} (l : list A) (i : nat) (v : A) :
  (i < List.length l)%nat -> nth_error (upd l i v) i = Some v.
Proof.
  revert i. induction l; intros [|i] H; simpl in *; try lia; auto. apply IHl. lia.
Qed.

Lemma nth_error_upd_other {A : Type} (l : list A) (i j : nat) (v : A) :
  i <> j -> nth_error (upd l i v) j = nth_error l j.
Proof.
  revert i j. induction l; intros [|i] [|j] H; simpl; auto; try lia.
Qed.

(** ** The sort of the symbol array *)

Section QsortFacts.
Context {A : Type}.
Variable cmp : A -> A -> option Z.
Variable key : A -> string.
Variable valid : A -> Prop.
Hypothesis cmp_valid :
  forall a b, valid a -> valid b -> cmp a b = Some (strcmp (key a) (key b)).

Let le (a b : A) : Prop := strcmp (key a) (key b) <= 0.

Lemma qsort_insert_sorted (x : A) (sorted : list A) :
  valid x -> Forall valid sorted -> Sorted le sorted ->
  exists r, qsort_insert cmp x sorted = Some r /\
            Permutation (x :: sorted) r /\ Sorted le r /\
            (forall z, le z x -> HdRel le z sorted -> HdRel le z r).
Proof.
  intros Hx. induction sorted as [|y rest IH]; intros Hv Hs; simpl.
  - exists [x]. repeat split; auto.
  - inversion Hv as [|? ? Hy Hrest]; subst.
    rewrite (cmp_valid x y Hx Hy). simpl.
    destruct (Z.leb_spec (strcmp (key x) (key y)) 0) as [Hle|Hgt].
    + exists (x :: y :: rest). repeat split; auto.
    + inversion Hs as [|? ? Hs' Hhd]; subst.
      destruct (IH Hrest Hs') as (r & -> & Hp & Hsr & Hh). simpl.
      assert (Hyx : le y x).
      { unfold le. destruct (strcmp_antisym (key y) (key x)) as [H1 _].
        apply Z.lt_le_incl, H1, Hgt. }
      exists (y :: r). repeat split.
      * rewrite perm_swap. now constructor.
      * constructor; [exact Hsr|]. now apply Hh.
      * intros z _ Hz. inversion Hz; subst. now constructor.
Qed.

Lemma qsort_sorted (base : list A) :
  Forall valid base ->
  exists r, qsort cmp base = Some r /\ Permutation base r /\ Sorted le r.
Proof.
  induction base as [|x rest IH]; intros Hv; simpl.
  - exists []. repeat split; auto.
  - inversion Hv as [|? ? Hx Hrest]; subst.
    destruct (IH Hrest) as (s & -> & Hp & Hs). simpl.
    assert (Hvs : Forall valid s).
    { rewrite Forall_forall in *. intros z Hz. apply Hrest.
      apply Permutation_in with s; [now apply Permutation_sym | exact Hz]. }
    destruct (qsort_insert_sorted x s Hx Hvs Hs) as (r & Hr & Hpr & Hsr & _).
    exists r. repeat split; auto.
    apply perm_trans with (x :: s); [now constructor | exact Hpr].
Qed.

Lemma sorted_strictly (l : list A) :
  Sorted le l -> NoDup (map key l) ->
  StronglySorted (fun a b => strcmp (key a) (key b) < 0) l.
Proof.
  intros Hs Hnd.
  assert (Hss : StronglySorted le l).
  { apply Sorted_StronglySorted; [|exact Hs].
    intros a b c. unfold le. apply strcmp_le_trans. }
  clear Hs. induction Hss as [|a l Hss IH Hall]; [constructor|].
  simpl in Hnd. inversion Hnd as [|? ? Hnotin Hnd']; subst.
  constructor; [auto|].
  rewrite Forall_forall in *. intros b Hb. specialize (Hall b Hb). unfold le in Hall.
  destruct (Z.eq_dec (strcmp (key a) (key b)) 0) as [E|E]; [|lia].
  apply strcmp_eq in E. exfalso. apply Hnotin. rewrite E. now apply in_map.
Qed.
End QsortFacts.

(** ** The symbol table *)

Lemma find_key_none (key : string) (tbl : list symbol) (i : nat) :
  ~ In key (map sym_name tbl) -> find_key key tbl i = None.
Proof.
  revert i. induction tbl as [|s tbl IH]; intros i H; simpl; [reflexivity|].
  destruct (Z.eqb_spec (strcmp (sym_name s) key) 0) as [E|E].
  - apply strcmp_eq in E. exfalso. apply H. simpl. auto.
  - apply IH. intros Hin. apply H. simpl. auto.
Qed.

Lemma find_key_some (key : string) (tbl : list symbol) (i : nat) (sp : symptr) :
  find_key key tbl i = Some sp ->
  exists s, nth_error tbl (sp - i) = Some s /\ sym_name s = key /\ (i <= sp)%nat.
Proof.
  revert i. induction tbl as [|s tbl IH]; intros i H; simpl in *; [discriminate|].
  destruct (Z.eqb_spec (strcmp (sym_name s) key) 0) as [E|E].
  - injection H as <-. apply strcmp_eq in E. exists s.
    rewrite Nat.sub_diag. auto.
  - destruct (IH _ H) as (s' & Hn & Hk & Hle). exists s'.
    replace (sp - i)%nat with (S (sp - S i)) by lia. simpl. repeat split; auto. lia.
Qed.

Lemma set_x2a_set_x2a (l : lemon) (a b : list symbol) :
  set_x2a (set_x2a l a) b = set_x2a l b.
Proof. reflexivity. Qed.

Lemma index_symbols_spec (syms : list symptr) :
  forall (l : lemon) (i : Z),
    NoDup syms ->
    Forall (fun sp => (sp < List.length (x2a l))%nat) syms ->
    exists T,
      index_symbols l syms i = Some (set_x2a l T) /\
      List.length T = List.length (x2a l) /\
      (forall sp, ~ In sp syms -> nth_error T sp = nth_error (x2a l) sp) /\
      (forall k sp, nth_error syms k = Some sp ->
         exists s, nth_error (x2a l) sp = Some s /\
                   nth_error T sp = Some (set_sym_index s (i + Z.of_nat k))).
Proof.
  induction syms as [|sp syms IH]; intros l i Hnd Hv; simpl.
  - exists (x2a l). repeat split; auto.
    + destruct l; reflexivity.
    + intros [|k] sp H; discriminate.
  - inversion Hnd as [|? ? Hnotin Hnd']; subst.
    inversion Hv as [|? ? Hsp Hv']; subst.
    unfold the_symbol.
    destruct (nth_error (x2a l) sp) as [s|] eqn:Hs.
    2:{ apply nth_error_None in Hs. lia. }
    simpl.
    destruct (IH (put_symbol l sp (set_sym_index s i)) (i + 1) Hnd') as (T & HT & HlenT & Hout & Hin).
    { unfold put_symbol. simpl. rewrite upd_length. exact Hv'. }
    exists T. unfold put_symbol in *. rewrite set_x2a_set_x2a in HT.
    simpl in HlenT, Hout, Hin. rewrite upd_length in HlenT.
    repeat split; auto.
    + intros sq Hsq. rewrite Hout by tauto.
      apply nth_error_upd_other. intros ->. apply Hsq. now left.
    + intros [|k] sq Hk; simpl in Hk.
      * injection Hk as <-. exists s. split; [exact Hs|].
        rewrite Hout by exact Hnotin. rewrite nth_error_upd_same by exact Hsp.
        f_equal. f_equal. lia.
      * destruct (Hin k sq Hk) as (s' & Hs' & HT').
        assert (sq <> sp).
        { intros ->. apply Hnotin. eapply nth_error_In; eauto. }
        rewrite nth_error_upd_other in Hs' by congruence.
        exists s'. split; [exact Hs'|]. rewrite HT'. f_equal. f_equal. lia.
Qed.

Lemma count_terminals_spec (l : lemon) (syms : list symptr) :
  forall (i : Z),
    Forall (fun sp => the_symbol l sp <> None) syms ->
    Exists (fun sp => safe_isupper (char_at (name_at l sp) 0) = false) syms ->
    exists n : nat,
      count_terminals l syms i = Some (i + Z.of_nat n) /\
      (n < List.length syms)%nat /\
      (forall k sp, (k < n)%nat -> nth_error syms k = Some sp ->
                    safe_isupper (char_at (name_at l sp) 0) = true) /\
      (forall sp, nth_error syms n = Some sp ->
                  safe_isupper (char_at (name_at l sp) 0) = false).
Proof.
  induction syms as [|sp syms IH]; intros i Hv Hex; [inversion Hex|].
  inversion Hv as [|? ? Hsp Hv']; subst. simpl.
  destruct (the_symbol l sp) as [s|] eqn:Hs; [|contradiction]. simpl.
  assert (Hname : name_at l sp = sym_name s) by (unfold name_at; now rewrite Hs).
  destruct (safe_isupper (char_at (sym_name s) 0)) eqn:Hup.
  - assert (Hex' : Exists (fun sp => safe_isupper (char_at (name_at l sp) 0) = false) syms).
    { inversion Hex as [? ? H|]; subst; [|assumption]. rewrite Hname in H. congruence. }
    destruct (IH (i + 1) Hv' Hex') as (n & Hn & Hlt & Hbefore & Hat).
    exists (S n). repeat split.
    + rewrite Hn. f_equal. lia.
    + simpl. lia.
    + intros [|k] sq Hk Hnth; simpl in Hnth.
      * injection Hnth as <-. now rewrite Hname.
      * apply (Hbefore k); [lia | exact Hnth].
    + intros sq Hnth. simpl in Hnth. now apply Hat.
  - exists 0%nat. repeat split.
    + f_equal. lia.
    + simpl. lia.
    + intros k sq Hk. lia.
    + intros sq Hnth. simpl in Hnth. injection Hnth as <-. now rewrite Hname.
Qed.

Lemma map_name_seq (tbl : list symbol) (l : lemon) :
  x2a l = tbl ->
  map (name_at l) (seq 0 (List.length tbl)) = map sym_name tbl.
Proof.
  intros <-. unfold name_at, the_symbol.
  apply nth_error_ext. intros n.
  rewrite !nth_error_map.
  destruct (Nat.lt_ge_cases n (List.length (x2a l))) as [Hlt|Hge].
  - rewrite nth_error_seq. destruct (Nat.ltb_spec n (List.length (x2a l))); [|lia]. simpl.
    destruct (nth_error (x2a l) n) eqn:E; [reflexivity|].
    apply nth_error_None in E. lia.
  - rewrite (proj2 (nth_error_None _ _)) by (rewrite length_seq; lia).
    rewrite (proj2 (nth_error_None (x2a l) n)) by lia. reflexivity.
Qed.

Lemma StronglySorted_nth {A : Type} (R : A -> A -> Prop) (l : list A) :
  StronglySorted R l ->
  forall i j a b, (i < j)%nat -> nth_error l i = Some a -> nth_error l j = Some b -> R a b.
Proof.
  induction 1 as [|x l Hs IH Hall]; intros i j a b Hij Hi Hj.
  - destruct i; discriminate.
  - destruct j as [|j]; [lia|]. simpl in Hj.
    destruct i as [|i]; simpl in Hi.
    + injection Hi as <-. rewrite Forall_forall in Hall. apply Hall.
      eapply nth_error_In; eauto.
    + apply (IH i j); auto. lia.
Qed.

Lemma StronglySorted_impl {A : Type} (R S : A -> A -> Prop) (l : list A) :
  (forall a b, R a b -> S a b) -> StronglySorted R l -> StronglySorted S l.
Proof.
  intros HRS. induction 1 as [|x l Hs IH Hall]; constructor; auto.
  eapply Forall_impl; [|exact Hall]. intros b. apply HRS.
Qed.

(** "$" comes before every name that starts with a letter or a brace. *)
Lemma dollar_first (name : string) :
  97 <= code (char_at name 0) \/ safe_isalpha (char_at name 0) = true ->
  strcmp dollar name < 0.
Proof.
  destruct name as [|c name].
  - intros [H|H]; vm_compute in H; [exfalso; now apply H | discriminate].
  - unfold dollar, char_at. cbn [strcmp String.get]. change (code "$") with 36.
    unfold safe_isalpha, safe_isupper, safe_islower. intros H.
    destruct (Z.eqb_spec 36 (code c)) as [E|E].
    + rewrite <- E in H. destruct H as [H|H]; [lia | vm_compute in H; discriminate].
    + destruct H as [H|H]; [lia|].
      destruct (Z.leb_spec 65 (code c)); destruct (Z.leb_spec 97 (code c));
        cbn [andb orb] in H; try lia; try discriminate.
Qed.

Lemma default_not_a_name (l : lemon) :
  symbol_names_ok l -> ~ In "{default}"%string (map sym_name (x2a l)).
Proof.
  intros (_ & _ & Hall) Hin. apply in_map_iff in Hin. destruct Hin as (s & Hs & Hin).
  rewrite Forall_forall in Hall. destruct (Hall s Hin) as [H|H]; rewrite Hs in H.
  - discriminate.
  - vm_compute in H. discriminate.
Qed.

Lemma Symbolcmpp_valid (l : lemon) (a b : symptr) :
  (a < List.length (x2a l))%nat -> (b < List.length (x2a l))%nat ->
  Symbolcmpp l a b = Some (strcmp (name_at l a) (name_at l b)).
Proof.
  intros Ha Hb. unfold Symbolcmpp, name_at, the_symbol.
  destruct (nth_error (x2a l) a) eqn:Ea; [|apply nth_error_None in Ea; lia].
  destruct (nth_error (x2a l) b) eqn:Eb; [|apply nth_error_None in Eb; lia].
  reflexivity.
Qed.

(** C7.  After [main] has counted, sorted and numbered the symbols of a
    table with distinct names that are "$" or start with a letter, the
    array [symbols] holds every symbol once, the symbol at position [i]
    has the index [i], the names go up strictly in the order of [strcmp]
    along the array (so the index of a symbol is the rank of its name
    among all names), "$" has the index 0, and the symbols whose names
    start with an uppercase letter are those with an index from 1 to
    [nterminal - 1]. *)
Theorem symbols_sorted_and_indexed :
  forall lem : lemon,
    symbol_names_ok lem ->
    exists lem',
      index_grammar lem = Some lem' /\
      map sym_name (x2a lem') = (map sym_name (x2a lem) ++ ["{default}"%string]) /\
      Permutation (seq 0 (List.length (x2a lem'))) (lem_symbols lem') /\
      (forall i sp, nth_error (lem_symbols lem') i = Some sp ->
         exists s, the_symbol lem' sp = Some s /\ sym_index s = Z.of_nat i) /\
      (forall i j sp sq,
         (i < j)%nat ->
         nth_error (lem_symbols lem') i = Some sp ->
         nth_error (lem_symbols lem') j = Some sq ->
         strcmp (name_at lem' sp) (name_at lem' sq) < 0) /\
      (exists sp, nth_error (lem_symbols lem') 0 = Some sp /\ name_at lem' sp = dollar) /\
      (forall i sp, nth_error (lem_symbols lem') i = Some sp ->
         (safe_isupper (char_at (name_at lem' sp) 0) = true <->
          1 <= Z.of_nat i < lem_nterminal lem')).
Proof.
  intros lem Hok. pose proof Hok as (Hnd & Hdollar & Hall).
  pose proof (default_not_a_name lem Hok) as Hdef.
  unfold index_grammar.
  set (lem1 := set_lem_nsymbol lem (Symbol_count lem)).
  unfold Symbol_new, Symbol_find.
  change (x2a lem1) with (x2a lem).
  rewrite (find_key_none _ _ 0 Hdef).
  set (dsym := mkSymbol "{default}" 0 _ [] (-1) UNK None false None 0 None 0).
  set (tbl2 := x2a lem ++ [dsym]).
  set (lem2 := set_x2a lem1 tbl2).
  assert (Hlen2 : List.length tbl2 = S (List.length (x2a lem))).
  { unfold tbl2. rewrite length_app. simpl. lia. }
  assert (Hnames2 : map sym_name tbl2 = map sym_name (x2a lem) ++ ["{default}"%string]).
  { unfold tbl2. now rewrite map_app. }
  assert (Hnd2 : NoDup (map sym_name tbl2)).
  { rewrite Hnames2. apply NoDup_app; auto.
    - repeat constructor. intros [].
    - intros x Hx [<-|[]]. now apply Hdef. }
  (* the sort *)
  unfold Symbol_arrayof. change (x2a lem2) with tbl2.
  destruct (qsort_sorted (Symbolcmpp lem2) (name_at lem2)
              (fun sp => (sp < List.length tbl2)%nat)
              (Symbolcmpp_valid lem2) (seq 0 (List.length tbl2)))
    as (symbols & Hq & Hperm & Hsorted).
  { apply Forall_forall. intros sp Hin. apply in_seq in Hin. lia. }
  rewrite Hq. cbn [bind].
  assert (Hlens : List.length symbols = List.length tbl2).
  { rewrite <- (Permutation_length Hperm). apply length_seq. }
  assert (Hndsym : NoDup symbols).
  { eapply Permutation_NoDup; [exact Hperm | apply seq_NoDup]. }
  assert (Hvalid : Forall (fun sp => (sp < List.length tbl2)%nat) symbols).
  { apply Forall_forall. intros sp Hin.
    apply (Permutation_in _ (Permutation_sym Hperm)) in Hin. apply in_seq in Hin. lia. }
  assert (Hkeys : NoDup (map (name_at lem2) symbols)).
  { eapply Permutation_NoDup; [apply Permutation_map; exact Hperm|].
    rewrite (map_name_seq tbl2 lem2 eq_refl). exact Hnd2. }
  pose proof (sorted_strictly (name_at lem2) symbols Hsorted Hkeys) as Hstrict.
  (* the indices *)
  set (lem3 := set_lem_symbols lem2 symbols).
  assert (Hfirstn : firstn (Z.to_nat (lem_nsymbol lem3 + 1)) symbols = symbols).
  { apply firstn_all2. change (lem_nsymbol lem3) with (Symbol_count lem).
    unfold Symbol_count. lia. }
  rewrite Hfirstn.
  destruct (index_symbols_spec symbols lem3 0 Hndsym) as (T & HT & HlenT & Hout & Hin).
  { exact Hvalid. }
  rewrite HT. cbn [bind].
  change (x2a lem3) with tbl2 in HlenT, Hout, Hin.
  set (lem4 := set_x2a lem3 T).
  assert (Hname4 : forall sp, name_at lem4 sp = name_at lem2 sp).
  { intros sp. unfold name_at, the_symbol. change (x2a lem4) with T.
    change (x2a lem2) with tbl2.
    destruct (in_dec Nat.eq_dec sp symbols) as [Hi|Hni].
    - apply In_nth_error in Hi. destruct Hi as (k & Hk).
      destruct (Hin k sp Hk) as (s & Hs & Hs'). rewrite Hs, Hs'. reflexivity.
    - now rewrite Hout. }
  assert (Hstrict4 : StronglySorted (fun a b => strcmp (name_at lem4 a) (name_at lem4 b) < 0) symbols).
  { eapply StronglySorted_impl; [|exact Hstrict].
    intros a b. simpl. now rewrite !Hname4. }
  assert (Hsome4 : forall sp, In sp symbols -> the_symbol lem4 sp <> None).
  { intros sp Hi. apply In_nth_error in Hi. destruct Hi as (k & Hk).
    destruct (Hin k sp Hk) as (s & _ & Hs'). unfold the_symbol. change (x2a lem4) with T.
    rewrite Hs'. discriminate. }
  assert (Hnames4 : forall sp, In sp symbols ->
            name_at lem4 sp = dollar \/ name_at lem4 sp = "{default}"%string \/
            safe_isalpha (char_at (name_at lem4 sp) 0) = true).
  { intros sp Hi. rewrite Hname4. apply Forall_forall with (x := sp) in Hvalid; [|exact Hi].
    unfold name_at, the_symbol. change (x2a lem2) with tbl2.
    destruct (nth_error tbl2 sp) as [s|] eqn:Es; [|apply nth_error_None in Es; lia].
    unfold tbl2 in Es. destruct (Nat.lt_ge_cases sp (List.length (x2a lem))) as [Hlt|Hge].
    - rewrite nth_error_app1 in Es by exact Hlt.
      rewrite Forall_forall in Hall. destruct (Hall s (nth_error_In _ _ Es)); auto.
    - rewrite nth_error_app2 in Es by exact Hge.
      replace (sp - List.length (x2a lem))%nat with 0%nat in Es by lia.
      injection Es as <-. auto. }
  (* "$" is the first symbol *)
  assert (Hdollar_in : exists k sp, nth_error symbols k = Some sp /\ name_at lem4 sp = dollar).
  { apply in_map_iff in Hdollar. destruct Hdollar as (s & Hs & Hsin).
    apply In_nth_error in Hsin. destruct Hsin as (p & Hp).
    assert (Hpin : In p symbols).
    { apply (Permutation_in _ Hperm). apply in_seq.
      assert (p < List.length (x2a lem))%nat by (apply nth_error_Some; congruence). lia. }
    apply In_nth_error in Hpin. destruct Hpin as (k & Hk).
    exists k, p. split; [exact Hk|]. rewrite Hname4. unfold name_at, the_symbol.
    change (x2a lem2) with tbl2. unfold tbl2.
    rewrite nth_error_app1 by (apply nth_error_Some; congruence). now rewrite Hp. }
  assert (Hleast : forall sp, In sp symbols -> name_at lem4 sp <> dollar ->
                              strcmp dollar (name_at lem4 sp) < 0).
  { intros sp Hi Hne. destruct (Hnames4 sp Hi) as [H|[H|H]]; [contradiction| |].
    - rewrite H. vm_compute. reflexivity.
    - apply dollar_first. now right. }
  assert (Hfirst : exists sp, nth_error symbols 0 = Some sp /\ name_at lem4 sp = dollar).
  { destruct Hdollar_in as (k & sp & Hk & Hn). destruct k as [|k]; [eauto|].
    destruct symbols as [|sp0 rest] eqn:Esym; [discriminate|].
    exfalso.
    assert (H0 : strcmp (name_at lem4 sp0) (name_at lem4 sp) < 0).
    { apply (StronglySorted_nth _ _ Hstrict4 0%nat (S k)); auto. lia. }
    rewrite Hn in H0.
    assert (Hne : name_at lem4 sp0 <> dollar).
    { intros E. rewrite E, strcmp_refl in H0. lia. }
    specialize (Hleast sp0 (or_introl eq_refl) Hne).
    destruct (strcmp_antisym dollar (name_at lem4 sp0)) as [H1 _]. apply H1 in Hleast. lia. }
  (* the terminals *)
  destruct Hfirst as (sp0 & Hsp0 & Hn0).
  destruct symbols as [|sp0' rest] eqn:Esym; [discriminate|].
  simpl in Hsp0. injection Hsp0 as ->.
  assert (Hdef_in : In (List.length (x2a lem)) rest).
  { assert (Hi : In (List.length (x2a lem)) (sp0 :: rest)).
    { apply (Permutation_in _ Hperm). apply in_seq. lia. }
    destruct Hi as [E|Hi]; [|exact Hi]. exfalso.
    rewrite E in Hn0. rewrite Hname4 in Hn0. unfold name_at, the_symbol in Hn0.
    change (x2a lem2) with tbl2 in Hn0. unfold tbl2 in Hn0.
    rewrite nth_error_app2 in Hn0 by lia. rewrite Nat.sub_diag in Hn0. discriminate. }
  destruct (count_terminals_spec lem4 rest 1) as (n & Hn & Hnlt & Hbefore & Hat).
  { apply Forall_forall. intros sp Hi. apply Hsome4. now right. }
  { apply Exists_exists. exists (List.length (x2a lem)). split; [exact Hdef_in|].
    rewrite Hname4. unfold name_at, the_symbol. change (x2a lem2) with tbl2. unfold tbl2.
    rewrite nth_error_app2 by lia. rewrite Nat.sub_diag. reflexivity. }
  cbn [tl]. rewrite Hn. cbn [bind].
  eexists. split; [reflexivity|].
  cbn [lem_symbols set_lem_nterminal lem_nterminal x2a].
  change (lem_symbols lem4) with (sp0 :: rest).
  change (x2a lem4) with T.
  assert (Hname' : forall sp, name_at (set_lem_nterminal lem4 (1 + Z.of_nat n)) sp = name_at lem4 sp)
    by reflexivity.
  split; [|split; [|split; [|split; [|split]]]].
  - rewrite <- Hnames2. apply nth_error_ext. intros k. rewrite !nth_error_map.
    destruct (Nat.lt_ge_cases k (List.length tbl2)) as [Hlt|Hge].
    + assert (Hki : In k (sp0 :: rest)).
      { apply (Permutation_in _ Hperm). apply in_seq. lia. }
      apply In_nth_error in Hki. destruct Hki as (p & Hp).
      destruct (Hin p k Hp) as (s & Hs & Hs'). rewrite Hs, Hs'. reflexivity.
    + rewrite (proj2 (nth_error_None T k)) by lia.
      rewrite (proj2 (nth_error_None tbl2 k)) by lia. reflexivity.
  - rewrite HlenT. exact Hperm.
  - intros i sp Hi. destruct (Hin i sp Hi) as (s & Hs & Hs').
    exists (set_sym_index s (0 + Z.of_nat i)). split; [exact Hs'|]. simpl. lia.
  - intros i j sp sq Hij Hi Hj. rewrite !Hname'.
    apply (StronglySorted_nth _ _ Hstrict4 i j); auto.
  - exists sp0. split; [reflexivity|]. rewrite Hname'. exact Hn0.
  - intros i sp Hi. rewrite Hname'. destruct i as [|i]; simpl in Hi.
    + injection Hi as <-. rewrite Hn0. split; [intros H; vm_compute in H; discriminate | lia].
    + split.
      * intros Hup.
        destruct (Nat.lt_ge_cases i n) as [Hlt|Hge]; [lia|]. exfalso.
        destruct (nth_error rest n) as [spn|] eqn:En; [|apply nth_error_None in En; lia].
        specialize (Hat spn eq_refl).
        assert (Hspn : In spn (sp0 :: rest)) by (right; eapply nth_error_In; eauto).
        assert (Hlow : 97 <= code (char_at (name_at lem4 spn) 0)).
        { destruct (Hnames4 spn Hspn) as [H|[H|H]].
          - exfalso.
            assert (H0 : strcmp (name_at lem4 sp0) (name_at lem4 spn) < 0).
            { apply (StronglySorted_nth _ _ Hstrict4 0%nat (S n)); auto. lia. }
            rewrite Hn0, H, strcmp_refl in H0. lia.
          - rewrite H. vm_compute. discriminate.
          - unfold safe_isalpha in H. rewrite Hat in H. simpl in H.
            unfold safe_islower in H. apply andb_prop in H. lia. }
        assert (Hle : code (char_at (name_at lem4 spn) 0) <= code (char_at (name_at lem4 sp) 0)).
        { destruct (Nat.eq_dec i n) as [->|Hne].
          - rewrite En in Hi. injection Hi as ->. lia.
          - apply strcmp_first_char.
            apply (StronglySorted_nth _ _ Hstrict4 (S n) (S i)); auto. lia. }
        unfold safe_isupper in Hup. apply andb_prop in Hup. lia.
      * intros Hrange. apply (Hbefore i sp); [lia | exact Hi].
Qed.

Lemma symbols_sorted_and_indexed_witness :
  symbol_names_ok expr_lemon /\
  exists lem',
    index_grammar expr_lemon = Some lem' /\
    exists sp, nth_error (lem_symbols lem') 0 = Some sp /\ name_at lem' sp = dollar.
Proof.
  assert (Hok : symbol_names_ok expr_lemon).
  { unfold symbol_names_ok. simpl. split; [|split].
    - repeat constructor; simpl; intuition discriminate.
    - left. reflexivity.
    - repeat constructor; (left; reflexivity) || (right; reflexivity). }
  split; [exact Hok|].
  destruct (symbols_sorted_and_indexed expr_lemon Hok)
    as (lem' & Hrun & _ & _ & _ & _ & Hfirst & _).
  exists lem'. split; [exact Hrun | exact Hfirst].
Defined.


(* ================================================================= *)
(** * The header file *)

(** C8, at an input where the program departs from it.  The grammar
    [start ::= A .] has the single terminal A; the header to write is the
    line for A.  On a header file that holds the lines for A and for B,
    left by an earlier grammar, the run ends without an error and has not
    written the file: the comparison stops after the lines of the new
    header and does not look for the end of the file. *)
Theorem ReportHeader_keeps_stale_header :
  let old := mkFile (Some header_A_B) true 0 in
  (exists lem, main no_output no_output no_output 20 (plain_options "one.y")
                 (Some one_terminal_grammar) old = Some (0, lem, old)) /\
  (exists lem, main no_output no_output no_output 20 (plain_options "one.y")
                 (Some one_terminal_grammar) (mkFile None true 0)
               = Some (0, lem, mkFile (Some header_A) true 1)) /\
  header_A <> header_A_B.
Proof.
  split; [|split].
  - eexists. vm_compute. reflexivity.
  - eexists. vm_compute. reflexivity.
  - intros H. vm_compute in H. discriminate.
Qed.

Lemma append_assoc (a b c : string) : ((a ++ b) ++ c = a ++ (b ++ c))%string.
Proof. induction a; simpl; congruence. Qed.

Lemma String_length_append (a b : string) :
  String.length (a ++ b) = (String.length a + String.length b)%nat.
Proof. induction a; simpl; congruence. Qed.

Lemma has_char_append (c : ascii) (a b : string) :
  has_char c (a ++ b) = has_char c a || has_char c b.
Proof. induction a; simpl; [reflexivity|]. rewrite IHa. now rewrite orb_assoc. Qed.

Lemma has_char_spaces (n : nat) : has_char ch_nl (spaces n) = false.
Proof. induction n; simpl; auto. Qed.

Lemma digit_not_nl (d : Z) : 0 <= d < 10 -> Ascii.eqb (digit d) ch_nl = false.
Proof.
  intros H. assert (d = 0 \/ d = 1 \/ d = 2 \/ d = 3 \/ d = 4 \/ d = 5 \/ d = 6 \/ d = 7 \/
                    d = 8 \/ d = 9) as Hd by lia.
  repeat (destruct Hd as [->|Hd]; [reflexivity|]). subst. reflexivity.
Qed.

Lemma has_char_digits (k : nat) (n : Z) (acc : string) :
  has_char ch_nl acc = false -> has_char ch_nl (digits k n acc) = false.
Proof.
  revert n acc. induction k as [|k IH]; intros n acc Hacc; cbn [digits]; [exact Hacc|].
  assert (Hd : has_char ch_nl (String (digit (n mod 10)) acc) = false).
  { cbn [has_char]. rewrite digit_not_nl, Hacc; [reflexivity|]. apply Z.mod_pos_bound. lia. }
  destruct (n <? 10); [exact Hd | now apply IH].
Qed.

Lemma has_char_fmt_d (n : Z) : has_char ch_nl (fmt_d n) = false.
Proof.
  unfold fmt_d. destruct (n <? 0).
  - cbn [has_char]. rewrite has_char_digits by reflexivity. reflexivity.
  - now apply has_char_digits.
Qed.

Lemma fgets_chars_line (body rest : string) (k : nat) :
  has_char ch_nl body = false -> (String.length body < k)%nat ->
  fgets_chars k (body ++ String ch_nl rest) = ((body ++ str1 ch_nl)%string, rest).
Proof.
  revert k. induction body as [|c body IH]; intros k Hnl Hlen.
  - destruct k; [simpl in Hlen; lia|]. reflexivity.
  - destruct k; [simpl in Hlen; lia|]. simpl in *.
    apply orb_false_iff in Hnl. destruct Hnl as [Hc Hb]. rewrite Hc.
    rewrite IH; [reflexivity | exact Hb | lia].
Qed.

Lemma define_line_body (prefix name : string) (i : Z) :
  exists body,
    define_line prefix name i = (body ++ str1 ch_nl)%string /\
    (has_char ch_nl prefix = false -> has_char ch_nl name = false ->
     has_char ch_nl body = false).
Proof.
  exists ("#define " ++ prefix ++ pad_right 30 name ++ " " ++ pad_left 2 (fmt_d i))%string.
  split.
  - unfold define_line. rewrite !append_assoc. reflexivity.
  - intros Hp Hn. unfold pad_right, pad_left.
    rewrite !has_char_append, Hp, Hn, !has_char_spaces, has_char_fmt_d. reflexivity.
Qed.

Lemma fgets_define_line (prefix name : string) (i : Z) (rest : string) :
  header_line_ok prefix name i ->
  fgets LINESIZE (define_line prefix name i ++ rest)
  = Some (define_line prefix name i, rest).
Proof.
  intros (Hp & Hn & Hlen).
  destruct (define_line_body prefix name i) as (body & Hbody & Hnl).
  rewrite Hbody in *. rewrite append_assoc. cbn [append str1].
  unfold fgets.
  destruct (body ++ String ch_nl rest)%string eqn:E.
  { destruct body; discriminate. }
  rewrite <- E. f_equal. apply fgets_chars_line; [auto|].
  rewrite String_length_append in Hlen. cbn [String.length str1] in Hlen. lia.
Qed.

Lemma strcmp_same (a : string) : strcmp a a = 0.
Proof. induction a; simpl; [reflexivity|]. now rewrite Z.eqb_refl. Qed.

Lemma header_text_step (l : lemon) (prefix : string) (k : nat) (i : Z) (text : string) :
  header_text l prefix (S k) i = Some text ->
  exists name rest,
    terminal_name l i = Some name /\ header_text l prefix k (i + 1) = Some rest /\
    text = (define_line prefix name i ++ rest)%string.
Proof.
  cbn [header_text]. unfold bind.
  destruct (terminal_name l i) as [name|]; [|discriminate].
  destruct (header_text l prefix k (i + 1)) as [rest|]; [|discriminate].
  intros H. exists name, rest. repeat split. congruence.
Qed.

Lemma header_compare_step (l : lemon) (prefix : string) (k : nat) (i : Z)
    (name rest : string) :
  terminal_name l i = Some name ->
  header_line_ok prefix name i ->
  header_compare l prefix (S k) i (define_line prefix name i ++ rest)
  = header_compare l prefix k (i + 1) rest.
Proof.
  intros Hname Hok. cbn [header_compare].
  rewrite (fgets_define_line _ _ _ _ Hok), Hname. unfold bind.
  rewrite strcmp_same. reflexivity.
Qed.

Lemma header_compare_own_text (l : lemon) (prefix : string) (k : nat) :
  forall (i : Z) (text : string),
    header_text l prefix k i = Some text ->
    (forall j name, i <= j < i + Z.of_nat k -> terminal_name l j = Some name ->
                    header_line_ok prefix name j) ->
    forall tail, header_compare l prefix k i (text ++ tail) = Some (i + Z.of_nat k).
Proof.
  induction k as [|k IH]; intros i text Htext Hok tail.
  - cbn [header_compare]. f_equal. lia.
  - destruct (header_text_step _ _ _ _ _ Htext) as (name & rest & Hname & Hrest & ->).
    rewrite append_assoc, (header_compare_step _ _ _ _ _ _ Hname)
      by (apply Hok; [lia | exact Hname]).
    rewrite (IH (i + 1) rest Hrest).
    + f_equal. lia.
    + intros j nm Hj. apply Hok. lia.
Qed.

(** The part of C8 that holds: a header file that starts with the lines
    of the header to write is not written again, so a second run on the
    same grammar leaves the file as it is; and whatever follows these
    lines in the file is not looked at. *)
Lemma ReportHeader_same_header_not_rewritten (lemp : lemon) (h : file) (text tail : string) :
  1 <= lem_nterminal lemp ->
  header_text lemp (match lem_tokenprefix lemp with Some p => p | None => EmptyString end)
              (Z.to_nat (lem_nterminal lemp - 1)) 1 = Some text ->
  (forall j name, 1 <= j < lem_nterminal lemp -> terminal_name lemp j = Some name ->
     header_line_ok (match lem_tokenprefix lemp with Some p => p | None => EmptyString end)
                    name j) ->
  f_content h = Some (text ++ tail)%string ->
  ReportHeader lemp h = Some (lemp, h).
Proof.
  intros Hnt Htext Hok Hh. unfold ReportHeader. rewrite Hh.
  rewrite (header_compare_own_text _ _ _ _ _ Htext).
  - cbn [bind]. replace (1 + Z.of_nat (Z.to_nat (lem_nterminal lemp - 1))) with (lem_nterminal lemp) by lia.
    now rewrite Z.eqb_refl.
  - intros j name Hj. apply Hok. lia.
Qed.


(* ================================================================= *)
(** * The merge sort *)

Section MsortFacts.
Context {A : Type}.
Variable cmp : A -> A -> option Z.
Variable ord : A -> A -> Z.
Variable valid : A -> Prop.
Hypothesis cmp_valid :
  forall a b, valid a -> valid b -> a <> b -> cmp a b = Some (ord a b).
Hypothesis ord_antisym : forall a b, valid a -> valid b -> 0 <= ord a b -> ord b a <= 0.
Hypothesis ord_trans :
  forall a b c, valid a -> valid b -> valid c -> ord a b <= 0 -> ord b c <= 0 -> ord a c <= 0.

Let le (a b : A) : Prop := ord a b <= 0.

Lemma merge_spec (a : list A) :
  forall b : list A,
    Forall valid a -> Forall valid b -> NoDup (a ++ b) ->
    exists r, merge cmp a b = Some r /\ Permutation (a ++ b) r /\
              (StronglySorted le a -> StronglySorted le b -> StronglySorted le r).
Proof.
  induction a as [|x a IHa]; intros b Ha Hb Hnd.
  - exists b. destruct b; simpl; auto.
  - induction b as [|y b IHb].
    + exists (x :: a). simpl. rewrite app_nil_r. auto.
    + inversion Ha as [|? ? Hx Ha']; subst. inversion Hb as [|? ? Hy Hb']; subst.
      assert (Hxy : x <> y).
      { intros ->. simpl in Hnd. inversion Hnd as [|? ? Hn _]; subst.
        apply Hn. apply in_or_app. right. now left. }
      cbn [merge]. rewrite (cmp_valid x y Hx Hy Hxy). cbn [bind].
      destruct (Z.ltb_spec (ord x y) 0) as [Hlt|Hge].
      * destruct (IHa (y :: b) Ha' Hb) as (r & Hr & Hp & Hs).
        { simpl in Hnd. now inversion Hnd. }
        rewrite Hr. cbn [bind]. exists (x :: r). repeat split.
        -- simpl. now constructor.
        -- intros Hsa Hsb. inversion Hsa as [|? ? Hsa' Hxa]; subst.
           constructor; [now apply Hs|].
           apply Forall_forall. intros z Hz.
           apply (Permutation_in _ (Permutation_sym Hp)) in Hz.
           apply in_app_or in Hz. destruct Hz as [Hz|Hz].
           ++ rewrite Forall_forall in Hxa. now apply Hxa.
           ++ assert (Hle : le x y) by (unfold le; lia).
              destruct Hz as [<-|Hz]; [exact Hle|].
              inversion Hsb as [|? ? _ Hyb]; subst. rewrite Forall_forall in Hyb.
              unfold le in *. apply ord_trans with y; auto.
              rewrite Forall_forall in Hb'. now apply Hb'.
      * destruct IHb as (r & Hr & Hp & Hs).
        { exact Hb'. }
        { apply NoDup_remove_1 with y. exact Hnd. }
        cbn [merge] in Hr. rewrite Hr. cbn [bind]. exists (y :: r). repeat split.
        -- apply Permutation_sym. apply Permutation_trans with (y :: (x :: a) ++ b).
           ++ constructor. now apply Permutation_sym.
           ++ apply Permutation_middle.
        -- intros Hsa Hsb. inversion Hsb as [|? ? Hsb' Hyb]; subst.
           constructor; [now apply Hs|].
           apply Forall_forall. intros z Hz.
           apply (Permutation_in _ (Permutation_sym Hp)) in Hz.
           apply in_app_or in Hz. destruct Hz as [Hz|Hz].
           ++ assert (Hyx : le y x) by (unfold le; apply ord_antisym; auto; lia).
              destruct Hz as [<-|Hz]; [exact Hyx|].
              inversion Hsa as [|? ? _ Hxa]; subst. rewrite Forall_forall in Hxa.
              unfold le in *. apply ord_trans with x; auto.
              rewrite Forall_forall in Ha'. now apply Ha'.
           ++ rewrite Forall_forall in Hyb. now apply Hyb.
Qed.

Lemma Forall_perm (P : A -> Prop) (l l' : list A) :
  Permutation l l' -> Forall P l -> Forall P l'.
Proof.
  intros Hp H. apply Forall_forall. intros x Hx. rewrite Forall_forall in H.
  apply H. eapply Permutation_in; [apply Permutation_sym; exact Hp | exact Hx].
Qed.

(** The bins of [msort]: from the level [k] on, an occupied bin [j] holds
    at least [2^(k+j)] elements, sorted. *)
Definition bins_ok (k : Z) (set : list (list A)) : Prop :=
  forall (j : nat) (b : list A),
    nth_error set j = Some b ->
    Forall valid b /\ StronglySorted le b /\
    (b <> [] -> 2 ^ (k + Z.of_nat j) <= Z.of_nat (List.length b)).

Lemma bins_ok_tail (k : Z) (b : list A) (set : list (list A)) :
  bins_ok k (b :: set) -> bins_ok (k + 1) set.
Proof.
  intros H j c Hj. destruct (H (S j) c Hj) as (Hv & Hs & Hl). repeat split; auto.
  intros Hne. specialize (Hl Hne).
  replace (k + 1 + Z.of_nat j) with (k + Z.of_nat (S j)) by lia. exact Hl.
Qed.

Lemma bins_ok_cons (k : Z) (b : list A) (set : list (list A)) :
  Forall valid b -> StronglySorted le b ->
  (b <> [] -> 2 ^ k <= Z.of_nat (List.length b)) ->
  bins_ok (k + 1) set -> bins_ok k (b :: set).
Proof.
  intros Hv Hs Hl H [|j] c Hj; simpl in Hj.
  - injection Hj as <-. repeat split; auto. now rewrite Z.add_0_r.
  - destruct (H j c Hj) as (Hv' & Hs' & Hl'). repeat split; auto.
    intros Hne. specialize (Hl' Hne).
    replace (k + Z.of_nat (S j)) with (k + 1 + Z.of_nat j) by lia. exact Hl'.
Qed.

Lemma msort_carry_occupied (ep : list A) (y : A) (b b' : list A) (rest' : list (list A)) :
  msort_carry cmp ep ((y :: b) :: b' :: rest')
  = (m <- merge cmp ep (y :: b) ;; r <- msort_carry cmp m (b' :: rest') ;; Some ([] :: r)).
Proof. reflexivity. Qed.

Lemma msort_carry_spec (set : list (list A)) :
  forall (ep : list A) (k : Z),
    0 <= k ->
    set <> [] ->
    Forall valid ep -> StronglySorted le ep ->
    2 ^ k <= Z.of_nat (List.length ep) ->
    bins_ok k set ->
    Z.of_nat (List.length ep + List.length (concat set)) < 2 ^ (k + Z.of_nat (List.length set) - 1) ->
    NoDup (ep ++ concat set) ->
    exists r, msort_carry cmp ep set = Some r /\
              Permutation (ep ++ concat set) (concat r) /\
              bins_ok k r /\ List.length r = List.length set.
Proof.
  induction set as [|b rest IH]; intros ep k Hk Hne Hv Hs Hlen Hbins Htot Hnd; [contradiction|].
  destruct rest as [|b' rest'].
  - exfalso. simpl in Htot. replace (k + 1 - 1) with k in Htot by lia.
    rewrite Nat2Z.inj_add in Htot. lia.
  - destruct b as [|y b].
    + exists (ep :: b' :: rest'). cbn [msort_carry].
      split; [reflexivity|]. split; [reflexivity|]. split; [|reflexivity].
      apply bins_ok_cons; auto. now apply bins_ok_tail with [].
    + rewrite msort_carry_occupied.
      destruct (Hbins 0%nat (y :: b) eq_refl) as (Hvb & Hsb & Hlb).
      change (concat ((y :: b) :: b' :: rest')) with ((y :: b) ++ concat (b' :: rest')) in Hnd.
      rewrite app_assoc in Hnd.
      destruct (merge_spec ep (y :: b) Hv Hvb (NoDup_app_remove_r _ _ Hnd))
        as (m & Hm & Hpm & Hsm).
      rewrite Hm. cbn [bind].
      assert (Hlm : List.length m = (List.length ep + List.length (y :: b))%nat).
      { rewrite <- (Permutation_length Hpm). apply length_app. }
      destruct (IH m (k + 1)) as (r & Hr & Hpr & Hbr & Hlr).
      * lia.
      * discriminate.
      * eapply Forall_perm; [exact Hpm|]. apply Forall_app. auto.
      * auto.
      * rewrite Hlm, Nat2Z.inj_add. specialize (Hlb ltac:(discriminate)).
        rewrite Z.add_0_r in Hlb. rewrite Z.pow_add_r, Z.pow_1_r by lia. lia.
      * now apply bins_ok_tail with (y :: b).
      * rewrite Hlm.
        change (concat ((y :: b) :: b' :: rest')) with ((y :: b) ++ concat (b' :: rest')) in Htot.
        rewrite length_app in Htot.
        replace (k + 1 + Z.of_nat (List.length (b' :: rest')) - 1)
          with (k + Z.of_nat (List.length ((y :: b) :: b' :: rest')) - 1)
          by (cbn [List.length]; lia).
        eapply Z.le_lt_trans; [|exact Htot]. lia.
      * eapply Permutation_NoDup; [|exact Hnd]. now apply Permutation_app_tail.
      * rewrite Hr. cbn [bind]. exists ([] :: r).
        split; [reflexivity|]. split; [|split].
        -- cbn [concat]. rewrite app_nil_l.
           apply Permutation_trans with (m ++ concat (b' :: rest')); [|exact Hpr].
           rewrite app_assoc. now apply Permutation_app_tail.
        -- apply bins_ok_cons; auto; try constructor. intros H; contradiction.
        -- cbn [List.length]. now rewrite Hlr.
Qed.
Lemma msort_fill_spec (lst : list A) :
  forall set : list (list A),
    Forall valid lst ->
    bins_ok 0 set -> List.length set = LISTSIZE ->
    Z.of_nat (List.length lst + List.length (concat set)) < 2 ^ 29 ->
    NoDup (concat set ++ lst) ->
    exists s, msort_fill cmp lst set = Some s /\
              Permutation (concat set ++ lst) (concat s) /\
              bins_ok 0 s /\ List.length s = LISTSIZE.
Proof.
  induction lst as [|x lst IH]; intros set Hv Hbins Hlen Htot Hnd.
  - exists set. simpl. rewrite app_nil_r. auto.
  - inversion Hv as [|? ? Hx Hv']; subst. cbn [msort_fill].
    assert (H1 : 0 <= 0) by lia.
    assert (H2 : set <> []) by (intros ->; discriminate).
    assert (H3 : Forall valid [x]) by (repeat constructor; exact Hx).
    assert (H4 : StronglySorted le [x]) by repeat constructor.
    assert (H5 : 2 ^ 0 <= Z.of_nat (List.length [x])) by (simpl; lia).
    assert (H6 : Z.of_nat (List.length [x] + List.length (concat set))
                 < 2 ^ (0 + Z.of_nat (List.length set) - 1)).
    { rewrite Hlen. change (0 + Z.of_nat LISTSIZE - 1) with 29.
      cbn [List.length] in *. lia. }
    assert (Hnd1 : NoDup ((x :: concat set) ++ lst)).
    { eapply Permutation_NoDup; [|exact Hnd]. simpl. apply Permutation_sym, Permutation_middle. }
    destruct (msort_carry_spec set [x] 0 H1 H2 H3 H4 H5 Hbins H6 (NoDup_app_remove_r _ _ Hnd1))
      as (s1 & Hs1 & Hp1 & Hb1 & Hl1).
    rewrite Hs1. cbn [bind].
    assert (Hc1 : List.length (concat s1) = S (List.length (concat set))).
    { rewrite <- (Permutation_length Hp1). reflexivity. }
    destruct (IH s1 Hv' Hb1) as (s & Hs & Hp & Hb & Hl).
    + now rewrite Hl1.
    + rewrite Hc1. cbn [List.length] in Htot. lia.
    + eapply Permutation_NoDup; [|exact Hnd1]. apply Permutation_app_tail. exact Hp1.
    + exists s. split; [exact Hs|]. split; [|split; assumption].
      apply Permutation_trans with (concat s1 ++ lst); [|exact Hp].
      apply Permutation_trans with ((x :: concat set) ++ lst).
      * simpl. apply Permutation_sym, Permutation_middle.
      * apply Permutation_app_tail. exact Hp1.
Qed.

Lemma msort_collect_spec (set : list (list A)) :
  forall (ep : list A) (k : Z),
    Forall valid ep -> StronglySorted le ep -> bins_ok k set ->
    NoDup (ep ++ concat set) ->
    exists r, msort_collect cmp ep set = Some r /\
              Permutation (ep ++ concat set) r /\ StronglySorted le r /\ Forall valid r.
Proof.
  induction set as [|b rest IH]; intros ep k Hv Hs Hbins Hnd.
  - exists ep. simpl. rewrite app_nil_r. auto.
  - pose proof (bins_ok_tail _ _ _ Hbins) as Hrest.
    destruct b as [|y b].
    + cbn [msort_collect]. apply (IH ep (k + 1)); auto.
    + destruct (Hbins 0%nat (y :: b) eq_refl) as (Hvb & Hsb & _).
      cbn [concat] in Hnd. rewrite app_assoc in Hnd.
      destruct (merge_spec ep (y :: b) Hv Hvb (NoDup_app_remove_r _ _ Hnd))
        as (m & Hm & Hpm & Hsm).
      cbn [msort_collect]. rewrite Hm. cbn [bind].
      destruct (IH m (k + 1)) as (r & Hr & Hp & Hsr & Hvr); auto.
      * eapply Forall_perm; [exact Hpm|]. apply Forall_app. auto.
      * eapply Permutation_NoDup; [|exact Hnd]. now apply Permutation_app_tail.
      * exists r. repeat split; auto.
        apply Permutation_trans with (m ++ concat rest); [|exact Hp].
        cbn [concat]. rewrite app_assoc. now apply Permutation_app_tail.
Qed.

Lemma bins_ok_empty (n : nat) : bins_ok 0 (repeat [] n).
Proof.
  intros j b Hj. apply nth_error_In, repeat_spec in Hj. subst.
  repeat split; try constructor. intros H. contradiction.
Qed.

(** [msort] sorts a list of fewer than [2^29] elements: beyond that the
    last bin would be overwritten. *)
Lemma msort_spec (lst : list A) :
  Forall valid lst ->
  NoDup lst ->
  Z.of_nat (List.length lst) < 2 ^ 29 ->
  exists r, msort cmp lst = Some r /\ Permutation lst r /\ StronglySorted le r.
Proof.
  intros Hv Hnd Hlen. unfold msort.
  assert (Hc : concat (repeat (@nil A) LISTSIZE) = []) by reflexivity.
  destruct (msort_fill_spec lst (repeat [] LISTSIZE) Hv (bins_ok_empty _))
    as (s & Hs & Hp & Hb & Hl).
  - apply repeat_length.
  - rewrite Hc. simpl. lia.
  - rewrite Hc. exact Hnd.
  - rewrite Hs. cbn [bind]. rewrite Hc in Hp. simpl in Hp.
    destruct (msort_collect_spec s [] 0) as (r & Hr & Hpr & Hsr & _); auto.
    + constructor.
    + simpl. eapply Permutation_NoDup; [exact Hp | exact Hnd].
    + exists r. repeat split; auto.
      apply Permutation_trans with (concat s); auto.
Qed.
End MsortFacts.



(* ================================================================= *)
(** * Table compression *)

Lemma act_union_eqb_eq (a b : act_union) : act_union_eqb a b = true <-> a = b.
Proof.
  destruct a as [s|[r|]], b as [t|[u|]]; simpl; split; intros H;
    try discriminate; try reflexivity.
  - apply Nat.eqb_eq in H. now subst.
  - injection H as ->. apply Nat.eqb_refl.
  - apply Nat.eqb_eq in H. now subst.
  - injection H as ->. apply Nat.eqb_refl.
Qed.

Lemma first_reduce_none (aps : list action) :
  first_reduce aps = None -> reduces aps = [].
Proof.
  induction aps as [|ap aps IH]; simpl; [reflexivity|].
  destruct (e_action_eqb (act_type ap) REDUCE); [discriminate|].
  destruct (first_reduce aps) as [[[b r] a]|]; [discriminate|]. auto.
Qed.

Lemma first_reduce_some (aps before after : list action) (ap : action) :
  first_reduce aps = Some (before, ap, after) ->
  aps = before ++ ap :: after /\ reduces before = [] /\ act_type ap = REDUCE /\
  reduces aps = ap :: reduces after.
Proof.
  revert before. induction aps as [|a aps IH]; simpl; intros before H; [discriminate|].
  destruct (e_action_eqb (act_type a) REDUCE) eqn:E.
  - injection H as <- <- <-. repeat split; auto. now apply e_action_eqb_eq.
  - destruct (first_reduce aps) as [[[b r] af]|]; [|discriminate].
    injection H as <- <- <-. destruct (IH b eq_refl) as (-> & Hb & Ht & Hr).
    repeat split; auto. simpl. now rewrite E.
Qed.

Lemma same_rule_spec (rp : act_union) (aps : list action) :
  forall cnt : Z,
    (fst (same_rule rp aps cnt) = true <-> forall a, In a (reduces aps) -> act_x a = rp) /\
    (fst (same_rule rp aps cnt) = true ->
     snd (same_rule rp aps cnt) = cnt + Z.of_nat (List.length (reduces aps))).
Proof.
  induction aps as [|ap aps IH]; intros cnt; simpl.
  - split; [split; [intros _ a []|reflexivity]|intros _; lia].
  - destruct (e_action_eqb (act_type ap) REDUCE) eqn:E; [|apply IH].
    destruct (act_union_eqb (act_x ap) rp) eqn:Ex; simpl.
    + apply act_union_eqb_eq in Ex. destruct (IH (cnt + 1)) as [[H1 H2] H3]. split.
      * split.
        -- intros H a [<-|Ha]; auto.
        -- intros H. apply H2. intros a Ha. apply H. now right.
      * intros H. rewrite (H3 H). lia.
    + split; [split|]; try discriminate.
      intros H. exfalso. specialize (H ap (or_introl eq_refl)).
      apply act_union_eqb_eq in H. congruence.
Qed.

(** The test of [CompressTables] is the condition [compressible]. *)
Lemma compress_test (aps before after : list action) (ap : action) :
  first_reduce aps = Some (before, ap, after) ->
  (negb (fst (same_rule (act_x ap) after 1)) || (snd (same_rule (act_x ap) after 1) =? 1) = false
   <-> compressible aps).
Proof.
  intros Hf. destruct (first_reduce_some _ _ _ _ Hf) as (_ & _ & _ & Hr).
  destruct (same_rule_spec (act_x ap) after 1) as [[H1 H2] H3].
  unfold compressible. rewrite Hr. simpl. split.
  - intros H. apply orb_false_iff in H. destruct H as [Ht Hc].
    apply negb_false_iff in Ht. specialize (H3 Ht). rewrite H3 in Hc.
    apply Z.eqb_neq in Hc. split; [clear - Hc; lia|].
    intros a b [<-|Ha] [<-|Hb]; auto.
    + symmetry. now apply H1.
    + rewrite (H1 Ht a Ha), (H1 Ht b Hb). reflexivity.
  - intros [Hlen Hall].
    assert (Ht : fst (same_rule (act_x ap) after 1) = true).
    { apply H2. intros a Ha. apply Hall; auto. }
    rewrite Ht, (H3 Ht). cbn [negb orb]. apply Z.eqb_neq. cbn [List.length] in Hlen. lia.
Qed.

(** ** The order of the actions *)

Lemma actioncmp_lex3 (l : lemon) (a b : action) (c : Z) :
  actioncmp l a b = Some c -> c = lex3 (action_key l a) (action_key l b).
Proof.
  unfold actioncmp, action_key, lex3.
  destruct (the_symbol l (act_sp a)) as [sa|]; [|discriminate].
  destruct (the_symbol l (act_sp b)) as [sb|]; [|discriminate]. cbn [bind]. cbv zeta.
  destruct (Z.eqb_spec (sym_index sa - sym_index sb) 0) as [E1|E1].
  - destruct (Z.eqb_spec (e_action_code (act_type a) - e_action_code (act_type b)) 0) as [E2|E2].
    + destruct (e_action_eqb (act_type a) REDUCE && e_action_eqb (act_type b) REDUCE);
        [|discriminate]. cbn [assert bind].
      destruct (act_x a) as [|[ra|]]; try discriminate.
      destruct (act_x b) as [|[rb|]]; try discriminate.
      destruct (the_rule l ra); [|discriminate].
      destruct (the_rule l rb); [|discriminate]. cbn [bind].
      intros H. injection H as <-. reflexivity.
    + intros H. injection H as <-. reflexivity.
  - destruct (Z.eqb_spec (sym_index sa - sym_index sb) 0) as [E3|E3]; [contradiction|].
    intros H. injection H as <-. reflexivity.
Qed.

Lemma lex3_antisym (x y : Z * Z * Z) : 0 <= lex3 x y -> lex3 y x <= 0.
Proof.
  destruct x as [[i t] r], y as [[i' t'] r']. unfold lex3.
  destruct (Z.eqb_spec (i - i') 0), (Z.eqb_spec (i' - i) 0); try lia.
  destruct (Z.eqb_spec (t - t') 0), (Z.eqb_spec (t' - t) 0); lia.
Qed.

Lemma lex3_trans (x y z : Z * Z * Z) : lex3 x y <= 0 -> lex3 y z <= 0 -> lex3 x z <= 0.
Proof.
  destruct x as [[i t] r], y as [[i' t'] r'], z as [[i'' t''] r'']. unfold lex3.
  destruct (Z.eqb_spec (i - i') 0), (Z.eqb_spec (i' - i'') 0), (Z.eqb_spec (i - i'') 0);
    try lia;
    destruct (Z.eqb_spec (t - t') 0), (Z.eqb_spec (t' - t'') 0), (Z.eqb_spec (t - t'') 0);
    lia.
Qed.

Lemma lex3_refl (x : Z * Z * Z) : lex3 x x = 0.
Proof.
  destruct x as [[i t] r]. unfold lex3. rewrite !Z.sub_diag. reflexivity.
Qed.

Lemma action_eq_dec (a b : action) : {a = b} + {a <> b}.
Proof.
  repeat decide equality.
Defined.

Lemma Action_sort_spec (l : lemon) (aps : list action) :
  comparable l aps ->
  Z.of_nat (List.length aps) < 2 ^ 29 ->
  exists r, Action_sort l aps = Some r /\ Permutation aps r /\
            StronglySorted (fun a b => action_ord l a b <= 0) r.
Proof.
  intros [Hnd Hc] Hlen. unfold Action_sort.
  assert (Hord : forall a b, In a aps -> In b aps ->
            action_ord l a b = lex3 (action_key l a) (action_key l b)).
  { intros a b Ha Hb. unfold action_ord.
    destruct (actioncmp l a b) eqn:E; [now apply actioncmp_lex3|].
    destruct (action_eq_dec a b) as [->|Hab]; [now rewrite lex3_refl|].
    exfalso. now apply (Hc a b). }
  apply (msort_spec (actioncmp l) (action_ord l) (fun a => In a aps)).
  - intros a b Ha Hb Hab. unfold action_ord.
    destruct (actioncmp l a b) eqn:E; [reflexivity|]. exfalso. now apply (Hc a b).
  - intros a b Ha Hb. rewrite !Hord by assumption. apply lex3_antisym.
  - intros a b c Ha Hb Hcc. rewrite !Hord by assumption. apply lex3_trans.
  - apply Forall_forall. auto.
  - exact Hnd.
  - exact Hlen.
Qed.

(** C6, as the program has it.  [CompressTables] changes a state only when
    all its REDUCE actions use the same rule and there are two of them or
    more; every other state stays as it is.  In such a state the first
    REDUCE action gets the symbol "{default}" as its lookahead, every
    other REDUCE action becomes NOT_USED, and the list of the actions is
    sorted again: when the actions are distinct and any two of them can be
    compared, the new list holds the same actions in the order of
    [actioncmp], and nothing else changes but the entry of "{default}" in
    the symbol table. *)
Theorem CompressTables_state_spec :
  forall (l : lemon) (i stp : nat) (st : state),
    sorted_at l i = Some stp ->
    the_state l stp = Some st ->
    (~ compressible (st_ap st) -> CompressTables_state l i = Some l) /\
    (compressible (st_ap st) ->
       exists before ap after,
         st_ap st = before ++ ap :: after /\
         reduces before = [] /\ act_type ap = REDUCE /\
         let dflt := fst (Symbol_new l "{default}") in
         let l1 := snd (Symbol_new l "{default}") in
         let collapsed := before ++ set_sp ap dflt :: map not_used after in
         (comparable l1 collapsed ->
          Z.of_nat (List.length collapsed) < 2 ^ 29 ->
          exists aps',
            CompressTables_state l i = Some (put_state l1 stp (set_st_ap st aps')) /\
            Permutation collapsed aps' /\
            StronglySorted (fun a b => action_ord l1 a b <= 0) aps')).
Proof.
  intros l i stp st Hi Hst. unfold CompressTables_state. rewrite Hi. cbn [bind].
  rewrite Hst. cbn [bind].
  destruct (first_reduce (st_ap st)) as [[[before ap] after]|] eqn:Hf.
  - pose proof (compress_test _ _ _ _ Hf) as Htest.
    destruct (first_reduce_some _ _ _ _ Hf) as (Haps & Hb & Ht & _).
    destruct (same_rule (act_x ap) after 1) as [to_end cnt] eqn:Hsame.
    cbn [fst snd] in Htest. split.
    + intros Hnot. destruct (negb to_end || (cnt =? 1)) eqn:E; [reflexivity|].
      exfalso. apply Hnot. now apply Htest.
    + intros Hc. apply Htest in Hc. rewrite Hc.
      exists before, ap, after.
      split; [exact Haps|]. split; [exact Hb|]. split; [exact Ht|].
      intros Hcmp Hlen.
      destruct (Action_sort_spec _ _ Hcmp Hlen) as (r & Hr & Hp & Hs).
      exists r. split; [|split; assumption].
      destruct (Symbol_new l "{default}") as [d l1] eqn:Hnew. cbn [fst snd] in *.
      rewrite Hr. cbn [bind].
      assert (Hx3 : the_state l1 stp = Some st).
      { unfold Symbol_new in Hnew. destruct (Symbol_find l "{default}").
        - injection Hnew as <- <-. exact Hst.
        - injection Hnew as <- <-. exact Hst. }
      rewrite Hx3. reflexivity.
  - split; [reflexivity|].
    intros [Hlen _]. rewrite (first_reduce_none _ Hf) in Hlen. simpl in Hlen. lia.
Qed.

Lemma CompressTables_state_spec_witness :
  exists aps',
    CompressTables_state sum_tables 4
    = Some (put_state sum_tables 4
              (set_st_ap (mkState [11]%nat [11]%nat 4
                                  [mkAction 0%nat REDUCE (x_rp (Some 2%nat));
                                   mkAction 2%nat REDUCE (x_rp (Some 2%nat))] 0 0 0) aps')) /\
    Permutation [mkAction 6%nat REDUCE (x_rp (Some 2%nat));
                 mkAction 2%nat NOT_USED (x_rp (Some 2%nat))] aps'.
Proof.
  assert (Hst : the_state sum_tables 4
                = Some (mkState [11]%nat [11]%nat 4
                                [mkAction 0%nat REDUCE (x_rp (Some 2%nat));
                                 mkAction 2%nat REDUCE (x_rp (Some 2%nat))] 0 0 0))
    by (vm_compute; reflexivity).
  destruct (CompressTables_state_spec sum_tables 4 4 _ eq_refl Hst) as (_ & H).
  destruct H as (before & ap & after & Haps & Hb & Ht & H).
  - split; [simpl; lia|].
    simpl. intros a b [<-|[<-|[]]] [<-|[<-|[]]]; reflexivity.
  - cbn [st_ap] in Haps.
    destruct before as [|b0 before].
    + injection Haps as <- <-.
      destruct H as (aps' & Hrun & Hp & _).
      * split.
        -- repeat constructor; vm_compute; intuition discriminate.
        -- intros a b Ha Hb' Hab. vm_compute in Ha, Hb'.
           destruct Ha as [<-|[<-|[]]]; destruct Hb' as [<-|[<-|[]]];
             try (exfalso; apply Hab; reflexivity); vm_compute; discriminate.
      * vm_compute. reflexivity.
      * exists aps'. split; [exact Hrun | exact Hp].
    + exfalso. injection Haps as <- Haps. simpl in Hb. discriminate.
Defined.

(** The state 0 of the grammar [two_of_three_grammar] reduces by the same
    rule on X and on Y, and by another rule on Z: two REDUCE actions use
    the same rule, and [CompressTables] leaves the state as it is. *)
Lemma CompressTables_keeps_two_of_three :
  (exists st, the_state uncompressed_tables 0 = Some st /\ two_share_a_rule (st_ap st)) /\
  CompressTables_state uncompressed_tables 0 = Some uncompressed_tables /\
  CompressTables uncompressed_tables = Some uncompressed_tables.
Proof.
  split; [|split].
  - eexists. split; [vm_compute; reflexivity|].
    exists [], (mkAction 4%nat REDUCE (x_rp (Some 3%nat))), [],
           (mkAction 5%nat REDUCE (x_rp (Some 3%nat))),
           [mkAction 7%nat REDUCE (x_rp (Some 4%nat)); mkAction 3%nat SHIFT (x_stp 1);
            mkAction 6%nat SHIFT (x_stp 4); mkAction 2%nat ACCEPT (x_rp None)].
    repeat split.
  - vm_compute. reflexivity.
  - vm_compute. reflexivity.
Qed.


(* ================================================================= *)
(** * The sorting of the lists *)

(** [msort] returns the elements of a list of fewer than [2^29] distinct
    elements in the order of the comparison, when the comparison gives a
    result for any two distinct elements and the order it reports is
    antisymmetric and transitive. *)
Theorem msort_sorts :
  forall (A : Type) (cmp : A -> A -> option Z) (ord : A -> A -> Z) (valid : A -> Prop),
    (forall a b, valid a -> valid b -> a <> b -> cmp a b = Some (ord a b)) ->
    (forall a b, valid a -> valid b -> 0 <= ord a b -> ord b a <= 0) ->
    (forall a b c, valid a -> valid b -> valid c ->
                   ord a b <= 0 -> ord b c <= 0 -> ord a c <= 0) ->
    forall lst : list A,
      Forall valid lst -> NoDup lst -> Z.of_nat (List.length lst) < 2 ^ 29 ->
      exists r, msort cmp lst = Some r /\ Permutation lst r /\
                StronglySorted (fun a b => ord a b <= 0) r.
Proof.
  intros A cmp ord valid H1 H2 H3 lst Hv Hnd Hlen.
  exact (msort_spec cmp ord valid H1 H2 H3 lst Hv Hnd Hlen).
Qed.

Lemma msort_sorts_witness :
  exists r, msort (fun a b : Z => Some (a - b)) [3; 1; 2] = Some r /\
            Permutation [3; 1; 2] r /\ StronglySorted (fun a b => a - b <= 0) r.
Proof.
  apply (msort_sorts Z (fun a b => Some (a - b)) Z.sub (fun _ => True)).
  - reflexivity.
  - intros; lia.
  - intros; lia.
  - repeat constructor.
  - repeat constructor; simpl; intuition lia.
  - reflexivity.
Defined.

(** [actioncmp], when it gives a result, compares two actions by the
    index of the lookahead symbol, then by the type, then by the index of
    the rule; that order is antisymmetric and transitive. *)
Theorem actioncmp_is_lexicographic :
  forall (l : lemon) (a b : action) (c : Z),
    actioncmp l a b = Some c ->
    c = lex3 (action_key l a) (action_key l b) /\
    (0 <= c -> lex3 (action_key l b) (action_key l a) <= 0) /\
    (forall d : action, c <= 0 -> lex3 (action_key l b) (action_key l d) <= 0 ->
                        lex3 (action_key l a) (action_key l d) <= 0).
Proof.
  intros l a b c H. apply actioncmp_lex3 in H. subst c. split; [reflexivity|]. split.
  - apply lex3_antisym.
  - intros d. apply lex3_trans.
Qed.

Lemma actioncmp_is_lexicographic_witness :
  lex3 (action_key expr_lemon shift_PLUS) (action_key expr_lemon reduce_EQ_by_plus) = 2.
Proof.
  destruct (actioncmp_is_lexicographic expr_lemon shift_PLUS reduce_EQ_by_plus
              2 eq_refl) as [H _].
  symmetry. exact H.
Defined.

(** [Action_sort] returns the actions of a list in the order of
    [actioncmp], when the list has fewer than [2^29] actions, no action
    twice, and any two of them can be compared. *)
Theorem Action_sort_sorts :
  forall (l : lemon) (aps : list action),
    comparable l aps ->
    Z.of_nat (List.length aps) < 2 ^ 29 ->
    exists r, Action_sort l aps = Some r /\ Permutation aps r /\
              StronglySorted (fun a b => action_ord l a b <= 0) r.
Proof. exact Action_sort_spec. Qed.

Lemma Action_sort_sorts_witness :
  exists r, Action_sort expr_lemon [shift_PLUS; reduce_EQ_by_plus; reduce_PLUS] = Some r /\
            Permutation [shift_PLUS; reduce_EQ_by_plus; reduce_PLUS] r.
Proof.
  destruct (Action_sort_sorts expr_lemon [shift_PLUS; reduce_EQ_by_plus; reduce_PLUS])
    as (r & Hr & Hp & _).
  - split.
    + repeat constructor; simpl; intuition discriminate.
    + intros a b Ha Hb Hab. simpl in Ha, Hb.
      destruct Ha as [<-|[<-|[<-|[]]]]; destruct Hb as [<-|[<-|[<-|[]]]];
        try (exfalso; apply Hab; reflexivity); vm_compute; discriminate.
  - reflexivity.
  - exists r. split; assumption.
Defined.

(* ================================================================= *)
(** * Error messages *)

(** [findbreak] returns a place within the limit; when it is not the
    start of the text, the place is on a space (which a newline has
    become), at the end of the text, or behind a hyphen, and no newline
    and no end of the text lies before it. *)
Theorem findbreak_breaks_within_max :
  forall (msg : string) (max : Z),
    0 <= max ->
    0 <= fst (findbreak msg 0 max) <= max /\
    scanned (snd (findbreak msg 0 max)) (fst (findbreak msg 0 max)) /\
    good_spot (snd (findbreak msg 0 max)) (fst (findbreak msg 0 max)).
Proof. intros msg max H. exact (findbreak_spec msg max H). Qed.

Lemma findbreak_breaks_within_max_witness :
  0 <= fst (findbreak "a b-c d" 0 4) <= 4.
Proof.
  destruct (findbreak_breaks_within_max "a b-c d" 4) as [H _]; [lia|exact H].
Defined.

Lemma alnum_plain (c : ascii) :
  safe_isalnum c = true ->
  Ascii.eqb c ch_tab = false /\ Ascii.eqb c ch_nl = false /\ Ascii.eqb c NUL = false /\
  Ascii.eqb c ch_minus = false /\ Ascii.eqb c ch_space = false.
Proof.
  intros H.
  assert (Hne : forall d, safe_isalnum d = false -> Ascii.eqb c d = false).
  { intros d Hd. destruct (Ascii.eqb_spec c d) as [->|]; [congruence|reflexivity]. }
  repeat split; apply Hne; reflexivity.
Qed.

Lemma findbreak_loop_alnum (rounds : nat) :
  forall (msg : string) (i max spot : Z),
    0 <= i ->
    (forall j, (Z.to_nat i <= j < Z.to_nat i + rounds)%nat ->
               safe_isalnum (char_at msg j) = true) ->
    findbreak_loop rounds msg i max spot = (spot, msg).
Proof.
  induction rounds as [|rounds IH]; intros msg i max spot Hi H; [reflexivity|].
  cbn [findbreak_loop].
  destruct (alnum_plain (char_at msg (Z.to_nat i))) as (H1 & H2 & H3 & H4 & H5).
  { apply H. lia. }
  rewrite H1, H2, H3, H4, H5. cbn [andb]. apply IH; [lia|].
  intros j Hj. apply H. lia.
Qed.

Lemma char_at_chop_newlines (s : string) :
  forall j, char_at (chop_newlines s) j = char_at s j \/
            (exists k, (k <= j)%nat /\ (char_at s k = ch_nl \/ char_at s k = NUL)).
Proof.
  induction s as [|c t IH]; intros j; [left; reflexivity|].
  destruct j as [|j].
  - cbn [chop_newlines]. destruct (chop_newlines t).
    + destruct (Ascii.eqb_spec c ch_nl) as [->|].
      * right. exists 0%nat. split; [lia|]. left. reflexivity.
      * left. reflexivity.
    + left. reflexivity.
  - destruct (IH j) as [Hj|(k & Hk & Hc)].
    + cbn [chop_newlines]. destruct (chop_newlines t) eqn:E.
      * destruct (Ascii.eqb_spec c ch_nl) as [->|].
        -- right. exists 0%nat. split; [lia|]. left. reflexivity.
        -- left. unfold char_at in *. cbn [String.get] in *.
           destruct j; exact Hj.
      * left. unfold char_at in *. cbn [String.get] in *. exact Hj.
    + right. exists (S k). split; [lia|]. exact Hc.
Qed.

(** A message that starts with 80 letters or digits is never printed to
    its end: [findbreak] finds no place to break the first line, and
    every round of the loop of [ErrorMsg] prints the bare prefix and
    starts again at the same place. *)
Theorem ErrorMsg_never_ends_on_wide_word :
  forall (filename : string) (lineno : Z) (errmsg : string),
    (forall j, (j <= 79)%nat -> safe_isalnum (char_at errmsg j) = true) ->
    forall n, snd (ErrorMsg n filename lineno errmsg) = false.
Proof.
  intros filename lineno errmsg H n. unfold ErrorMsg.
  assert (Hchop : forall j, (j <= 79)%nat ->
            char_at (chop_newlines errmsg) j = char_at errmsg j).
  { intros j Hj. destruct (char_at_chop_newlines errmsg j) as [E|(k & Hk & Hc)]; [exact E|].
    exfalso. destruct (alnum_plain _ (H k ltac:(lia))) as (_ & H2 & H3 & _).
    destruct Hc as [Hc|Hc]; rewrite Hc in *; discriminate. }
  destruct (chop_newlines errmsg) as [|c rest] eqn:E.
  - exfalso. specialize (Hchop 0%nat ltac:(lia)).
    destruct (alnum_plain _ (H 0%nat ltac:(lia))) as (_ & _ & H3 & _).
    rewrite <- Hchop in H3. discriminate.
  - apply ErrorMsg_loop_stuck.
    + unfold findbreak. apply findbreak_loop_alnum; [lia|].
      intros j Hj. rewrite Hchop; [apply H|]; unfold LINEWIDTH in Hj; lia.
    + specialize (Hchop 0%nat ltac:(lia)). cbn in Hchop. rewrite Hchop.
      apply (alnum_plain _ (H 0%nat ltac:(lia))).
Qed.

Lemma ErrorMsg_never_ends_on_wide_word_witness :
  snd (ErrorMsg 1000 "gram.y" 12 long_name) = false.
Proof.
  apply ErrorMsg_never_ends_on_wide_word.
  intros j Hj.
  do 80 (destruct j as [|j]; [reflexivity|]). lia.
Defined.

Lemma ErrorMsg_lines_witness :
  Forall (message_line "gram.y" 12)
         (fst (ErrorMsg 2 "gram.y" 12 "Symbol PLUS has already be given a precedence.")) /\
  0 <= fst (findbreak "a b-c d" 0 4) <= 4.
Proof.
  destruct (ErrorMsg_lines 2 "gram.y" 12 "Symbol PLUS has already be given a precedence.")
    as (H1 & _ & H3).
  split; [exact H1|]. apply (H3 "a b-c d"%string 4). lia.
Defined.

(* ================================================================= *)
(** * The header file *)

(** A header file that starts with the lines that [ReportHeader] would
    write is left as it is: it is not opened for writing. *)
Theorem ReportHeader_keeps_same_header :
  forall (lemp : lemon) (h : file) (text tail : string),
    1 <= lem_nterminal lemp ->
    header_text lemp (match lem_tokenprefix lemp with Some p => p | None => EmptyString end)
                (Z.to_nat (lem_nterminal lemp - 1)) 1 = Some text ->
    (forall j name, 1 <= j < lem_nterminal lemp -> terminal_name lemp j = Some name ->
       header_line_ok (match lem_tokenprefix lemp with Some p => p | None => EmptyString end)
                      name j) ->
    f_content h = Some (text ++ tail)%string ->
    ReportHeader lemp h = Some (lemp, h).
Proof. exact ReportHeader_same_header_not_rewritten. Qed.

Lemma ReportHeader_keeps_same_header_witness :
  ReportHeader sum_tables
    (mkFile (Some ((define_line EmptyString "INT" 1 ++ define_line EmptyString "PLUS" 2)
                   ++ EmptyString)%string) true 0)
  = Some (sum_tables,
          mkFile (Some ((define_line EmptyString "INT" 1 ++ define_line EmptyString "PLUS" 2)
                        ++ EmptyString)%string) true 0).
Proof.
  apply (ReportHeader_keeps_same_header sum_tables _
           (define_line EmptyString "INT" 1 ++ define_line EmptyString "PLUS" 2)%string
           EmptyString).
  - vm_compute. discriminate.
  - vm_compute. reflexivity.
  - intros j name Hj Hn.
    assert (H3 : lem_nterminal sum_tables = 3) by reflexivity.
    assert (Hc : j = 1 \/ j = 2) by lia.
    destruct Hc as [-> | ->]; vm_compute in Hn; injection Hn as <-;
      (split; [reflexivity|split; [reflexivity|vm_compute; lia]]).
  - reflexivity.
Defined.

(* ================================================================= *)
(** * Sets of terminals *)

Lemma nth_upd_same {A : Type} (s : list A) (i : nat) (v d : A) :
  (i < List.length s)%nat -> nth i (upd s i v) d = v.
Proof.
  revert i. induction s as [|a s IH]; intros [|i] H; simpl in *; try lia; auto.
  apply IH. lia.
Qed.

Lemma nth_upd_other {A : Type} (s : list A) (i j : nat) (v d : A) :
  i <> j -> nth j (upd s i v) d = nth j s d.
Proof.
  revert i j. induction s as [|a s IH]; intros [|i] [|j] H; simpl; auto; try lia.
Qed.

Lemma length_upd {A : Type} (s : list A) (i : nat) (v : A) :
  List.length (upd s i v) = List.length s.
Proof. revert i. induction s as [|a s IH]; intros [|i]; simpl; auto. Qed.

(** [SetAdd(s,e)] for an element within the size of the set: afterwards
    [e] is in the set, the other elements are as before, and the value
    returned tells whether [e] was new. *)
Theorem SetAdd_adds :
  forall (s : list bool) (e : Z),
    0 <= e < Z.of_nat (List.length s) ->
    SetFind (snd (SetAdd s e)) e = true /\
    (forall e', 0 <= e' -> e' <> e -> SetFind (snd (SetAdd s e)) e' = SetFind s e') /\
    (fst (SetAdd s e) = 1 <-> SetFind s e = false) /\
    (fst (SetAdd s e) = 0 <-> SetFind s e = true) /\
    List.length (snd (SetAdd s e)) = List.length s.
Proof.
  intros s e He. unfold SetAdd, SetFind. cbn [fst snd]. split; [|split; [|split; [|split]]].
  - apply nth_upd_same. lia.
  - intros e' He' Hne. apply nth_upd_other. lia.
  - destruct (nth (Z.to_nat e) s false); split; intros; congruence || lia || auto.
  - destruct (nth (Z.to_nat e) s false); split; intros; congruence || lia || auto.
  - apply length_upd.
Qed.

Lemma SetAdd_adds_witness :
  SetFind (snd (SetAdd [false; true; false] 2)) 2 = true.
Proof. apply (SetAdd_adds [false; true; false] 2). simpl. lia. Defined.

Lemma SetUnion_spec (s1 : list bool) :
  forall s2 : list bool,
    List.length s1 = List.length s2 ->
    (forall i, nth i (snd (SetUnion s1 s2)) false = nth i s1 false || nth i s2 false) /\
    (fst (SetUnion s1 s2) = 0 \/ fst (SetUnion s1 s2) = 1) /\
    (fst (SetUnion s1 s2) = 0 <-> snd (SetUnion s1 s2) = s1) /\
    List.length (snd (SetUnion s1 s2)) = List.length s1.
Proof.
  induction s1 as [|a s1 IH]; intros [|b s2] Hlen; try discriminate.
  - simpl. split; [intros [|i]; reflexivity|]. split; [now left|]. split; [tauto|reflexivity].
  - injection Hlen as Hlen. destruct (IH s2 Hlen) as (Hn & Hp & Heq & Hl).
    cbn [SetUnion]. destruct (SetUnion s1 s2) as [progress r]. cbn [fst snd] in *.
    destruct b, a; cbn [fst snd].
    + split; [intros [|i]; simpl; auto|]. split; [exact Hp|]. split; [|simpl; congruence].
      split; intros H; [f_equal; now apply Heq|injection H as H; now apply Heq].
    + split; [intros [|i]; simpl; auto|]. split; [now right|]. split; [|simpl; congruence].
      split; intros H; [lia|discriminate].
    + split; [intros [|i]; simpl; auto|]. split; [exact Hp|]. split; [|simpl; congruence].
      split; intros H; [f_equal; now apply Heq|injection H as H; now apply Heq].
    + split; [intros [|i]; simpl; auto|]. split; [exact Hp|]. split; [|simpl; congruence].
      split; intros H; [f_equal; now apply Heq|injection H as H; now apply Heq].
Qed.

(** [SetUnion(s1,s2)] on two sets of one size: afterwards [s1] holds the
    elements of both, and the value returned is 0 when [s1] has not
    changed and 1 when it has. *)
Theorem SetUnion_unites :
  forall s1 s2 : list bool,
    List.length s1 = List.length s2 ->
    (forall e, 0 <= e ->
       SetFind (snd (SetUnion s1 s2)) e = SetFind s1 e || SetFind s2 e) /\
    (fst (SetUnion s1 s2) = 0 /\ snd (SetUnion s1 s2) = s1 \/
     fst (SetUnion s1 s2) = 1 /\ snd (SetUnion s1 s2) <> s1) /\
    List.length (snd (SetUnion s1 s2)) = List.length s1.
Proof.
  intros s1 s2 Hlen. destruct (SetUnion_spec s1 s2 Hlen) as (Hn & Hp & Heq & Hl).
  split; [|split].
  - intros e _. unfold SetFind. apply Hn.
  - destruct Hp as [Hp|Hp].
    + left. split; [exact Hp|now apply Heq].
    + right. split; [exact Hp|]. intros H. apply Heq in H. lia.
  - exact Hl.
Qed.

Lemma SetUnion_unites_witness :
  SetFind (snd (SetUnion [false; true; false] [true; false; false])) 0 = true.
Proof.
  destruct (SetUnion_unites [false; true; false] [true; false; false] eq_refl) as (H & _).
  rewrite H by lia. reflexivity.
Defined.

(* ================================================================= *)
(** * The symbol table *)

Lemma find_key_app (key : string) (a b : list symbol) :
  forall i, find_key key (a ++ b) i
            = match find_key key a i with
              | Some r => Some r
              | None => find_key key b (i + List.length a)
              end.
Proof.
  induction a as [|s a IH]; intros i; simpl.
  - f_equal. lia.
  - destruct (strcmp (sym_name s) key =? 0); [reflexivity|].
    rewrite IH. replace (S i + List.length a)%nat with (i + S (List.length a))%nat by lia.
    reflexivity.
Qed.

(** [Symbol_new(x)] returns a symbol of the name [x] that [Symbol_find(x)]
    finds from then on; the symbols that were in the table stay what and
    where they were, and a second call for [x] returns the same symbol and
    leaves the table as it is. *)
Theorem Symbol_new_then_find :
  forall (l l' : lemon) (x : string) (sp : symptr),
    Symbol_new l x = (sp, l') ->
    Symbol_find l' x = Some sp /\
    (exists s, the_symbol l' sp = Some s /\ sym_name s = x) /\
    (forall y q, Symbol_find l y = Some q -> Symbol_find l' y = Some q) /\
    (forall q s, the_symbol l q = Some s -> the_symbol l' q = Some s) /\
    Symbol_new l' x = (sp, l').
Proof.
  intros l l' x sp H. unfold Symbol_new in H.
  destruct (Symbol_find l x) as [found|] eqn:E.
  - injection H as <- <-. split; [exact E|]. split.
    + unfold Symbol_find in E. apply find_key_some in E.
      destruct E as (s & Hs & Hn & _). exists s. split; [|exact Hn].
      unfold the_symbol. now rewrite Nat.sub_0_r in Hs.
    + split; [auto|]. split; [auto|]. unfold Symbol_new. now rewrite E.
  - injection H as <- <-.
    assert (Hfind : Symbol_find
                      (set_x2a l (x2a l ++ [mkSymbol x 0
                         (if safe_isupper (char_at x 0) then TERMINAL else NONTERMINAL)
                         [] (-1) UNK None false None 0 None 0])) x
                    = Some (List.length (x2a l))).
    { unfold Symbol_find in *. cbn [x2a set_x2a]. rewrite find_key_app, E.
      cbn [find_key sym_name]. now rewrite strcmp_refl. }
    split; [exact Hfind|]. split.
    + exists (mkSymbol x 0 (if safe_isupper (char_at x 0) then TERMINAL else NONTERMINAL)
                       [] (-1) UNK None false None 0 None 0).
      split; [|reflexivity]. unfold the_symbol. cbn [x2a set_x2a].
      rewrite nth_error_app2 by lia. now rewrite Nat.sub_diag.
    + split; [|split].
      * intros y q Hy. unfold Symbol_find in *. cbn [x2a set_x2a].
        now rewrite find_key_app, Hy.
      * intros q s Hq. unfold the_symbol in *. cbn [x2a set_x2a].
        rewrite nth_error_app1; [exact Hq|]. apply nth_error_Some. congruence.
      * unfold Symbol_new. now rewrite Hfind.
Qed.

Lemma Symbol_new_then_find_witness :
  Symbol_find (snd (Symbol_new expr_lemon "DIVIDE")) "DIVIDE" = Some 8%nat.
Proof.
  destruct (Symbol_new_then_find expr_lemon (snd (Symbol_new expr_lemon "DIVIDE"))
              "DIVIDE" 8%nat eq_refl) as [H _].
  exact H.
Defined.

(** A name that is not in the table is not found, and [Symbol_new] then
    makes a symbol without precedence, rules, first set, destructor or
    data type, which is a terminal exactly when the name starts with an
    upper-case letter; the number of symbols grows by one. *)
Theorem Symbol_new_makes_fresh_symbol :
  forall (l : lemon) (x : string),
    ~ In x (map sym_name (x2a l)) ->
    Symbol_find l x = None /\
    (exists s,
       the_symbol (snd (Symbol_new l x)) (fst (Symbol_new l x)) = Some s /\
       sym_name s = x /\
       sym_type s = (if safe_isupper (char_at x 0) then TERMINAL else NONTERMINAL) /\
       sym_rule s = [] /\ sym_prec s = -1 /\ sym_assoc s = UNK /\
       sym_firstset s = None /\ sym_lambda s = false /\
       sym_destructor s = None /\ sym_datatype s = None) /\
    Symbol_count (snd (Symbol_new l x)) = Symbol_count l + 1.
Proof.
  intros l x Hx.
  assert (E : Symbol_find l x = None) by (apply find_key_none; exact Hx).
  split; [exact E|]. unfold Symbol_new. rewrite E. cbn [fst snd]. split.
  - eexists. split.
    + unfold the_symbol. cbn [x2a set_x2a]. rewrite nth_error_app2 by lia.
      rewrite Nat.sub_diag. reflexivity.
    + cbn. repeat split.
  - unfold Symbol_count. cbn [x2a set_x2a]. rewrite length_app. simpl. lia.
Qed.

Lemma Symbol_new_makes_fresh_symbol_witness :
  Symbol_count (snd (Symbol_new expr_lemon "DIVIDE")) = Symbol_count expr_lemon + 1.
Proof.
  destruct (Symbol_new_makes_fresh_symbol expr_lemon "DIVIDE") as (_ & _ & H).
  - simpl. intuition discriminate.
  - exact H.
Defined.

(* ================================================================= *)
(** * Conflict resolution *)



(* ================================================================= *)
(** * Rule precedences *)

Lemma first_prec_spec (l : lemon) (rhs : list symptr) :
  forall p, first_prec l rhs = Some p ->
    match p with
    | Some sp =>
        exists before after s,
          rhs = before ++ sp :: after /\ the_symbol l sp = Some s /\ 0 <= sym_prec s /\
          Forall (fun x => exists sx, the_symbol l x = Some sx /\ sym_prec sx < 0) before
    | None =>
        Forall (fun x => exists sx, the_symbol l x = Some sx /\ sym_prec sx < 0) rhs
    end.
Proof.
  induction rhs as [|x rhs IH]; intros p H; simpl in H.
  - injection H as <-. constructor.
  - unfold bind in H. destruct (the_symbol l x) as [sx|] eqn:Ex; [|discriminate].
    destruct (Z.geb_spec (sym_prec sx) 0) as [Hge|Hlt].
    + injection H as <-. exists [], rhs, sx.
      split; [reflexivity|]. split; [exact Ex|]. split; [lia|constructor].
    + specialize (IH p H). destruct p as [sp|].
      * destruct IH as (before & after & s & -> & Hs & Hp & Hb).
        exists (x :: before), after, s.
        split; [reflexivity|]. split; [exact Hs|]. split; [exact Hp|].
        constructor; [|exact Hb]. exists sx. split; [exact Ex|lia].
      * constructor; [|exact IH]. exists sx. split; [exact Ex|lia].
Qed.

Lemma map_opt_nth {A B : Type} (f : A -> option B) (xs : list A) :
  forall ys, map_opt f xs = Some ys ->
    List.length ys = List.length xs /\
    forall i x, nth_error xs i = Some x ->
      exists y, nth_error ys i = Some y /\ f x = Some y.
Proof.
  induction xs as [|x xs IH]; intros ys H; simpl in H.
  - injection H as <-. split; [reflexivity|]. intros [|i] y Hy; discriminate.
  - unfold bind in H. destruct (f x) as [y|] eqn:Ey; [|discriminate].
    destruct (map_opt f xs) as [ys'|]; [|discriminate]. injection H as <-.
    destruct (IH ys' eq_refl) as [Hl Hn]. split; [simpl; congruence|].
    intros [|i] z Hz; simpl in *.
    + injection Hz as <-. eauto.
    + eauto.
Qed.

(** [FindRulePrecedences] changes nothing but the precedence symbols of
    the rules: a rule that has a precedence symbol keeps it, and a rule
    without one gets the first symbol of its right-hand side that has a
    precedence, or none when no symbol of the right-hand side has one. *)
Theorem FindRulePrecedences_takes_first_precedence :
  forall (l l' : lemon),
    FindRulePrecedences l = Some l' ->
    l' = set_lem_rule l (lem_rule l') /\
    List.length (lem_rule l') = List.length (lem_rule l) /\
    forall (i : ruleptr) (r : rule),
      the_rule l i = Some r ->
      exists r',
        the_rule l' i = Some r' /\ r' = set_rl_precsym r (rl_precsym r') /\
        match rl_precsym r, rl_precsym r' with
        | Some p, q => q = Some p
        | None, Some sp =>
            exists before after s,
              rl_rhs r = before ++ sp :: after /\ the_symbol l sp = Some s /\
              0 <= sym_prec s /\
              Forall (fun x => exists sx, the_symbol l x = Some sx /\ sym_prec sx < 0) before
        | None, None =>
            Forall (fun x => exists sx, the_symbol l x = Some sx /\ sym_prec sx < 0) (rl_rhs r)
        end.
Proof.
  intros l l' H. unfold FindRulePrecedences in H. unfold bind in H.
  destruct (map_opt (FindRulePrecedences_rule l) (lem_rule l)) as [rules|] eqn:E;
    [|discriminate].
  injection H as <-. destruct (map_opt_nth _ _ _ E) as [Hl Hn].
  split; [reflexivity|]. split; [exact Hl|].
  intros i r Hr. destruct (Hn i r Hr) as (r' & Hr' & Hf).
  exists r'. split; [exact Hr'|].
  unfold FindRulePrecedences_rule in Hf. destruct (rl_precsym r) as [p|] eqn:Ep.
  - injection Hf as <-. rewrite Ep. split; [|reflexivity].
    destruct r; cbn in *. now subst.
  - unfold bind in Hf. destruct (first_prec l (rl_rhs r)) as [p|] eqn:Efp; [|discriminate].
    injection Hf as <-. split; [reflexivity|].
    cbn [rl_precsym set_rl_precsym]. exact (first_prec_spec _ _ _ Efp).
Qed.

Lemma FindRulePrecedences_takes_first_precedence_witness :
  exists l', FindRulePrecedences expr_lemon = Some l' /\
             List.length (lem_rule l') = List.length (lem_rule expr_lemon).
Proof.
  destruct (FindRulePrecedences expr_lemon) as [l'|] eqn:E; [|vm_compute in E; discriminate E].
  exists l'. split; [reflexivity|].
  exact (proj1 (proj2 (FindRulePrecedences_takes_first_precedence _ _ E))).
Defined.


(* ================================================================= *)
(** * The symbols that derive the empty string *)

Scheme nullable_ind2 := Induction for nullable Sort Prop
  with all_nullable_ind2 := Induction for all_nullable Sort Prop.

Lemma is_lambda_put_same (l : lemon) (sp : symptr) (s s' : symbol) :
  the_symbol l sp = Some s -> is_lambda (put_symbol l sp s') sp = sym_lambda s'.
Proof.
  intros H. unfold is_lambda, the_symbol, put_symbol in *. cbn [x2a set_x2a].
  rewrite nth_error_upd_same; [reflexivity|]. apply nth_error_Some. congruence.
Qed.

Lemma is_lambda_put_other (l : lemon) (sp q : symptr) (s' : symbol) :
  q <> sp -> is_lambda (put_symbol l sp s') q = is_lambda l q.
Proof.
  intros H. unfold is_lambda, the_symbol, put_symbol. cbn [x2a set_x2a].
  rewrite nth_error_upd_other; [reflexivity|]. congruence.
Qed.

Lemma all_lambda_true (l : lemon) (rhs : list symptr) :
  all_lambda l rhs = Some true -> Forall (fun x => is_lambda l x = true) rhs.
Proof.
  induction rhs as [|x rhs IH]; simpl; intros H; [constructor|].
  unfold bind in H. destruct (the_symbol l x) as [s|] eqn:E; [|discriminate].
  destruct (sym_lambda s) eqn:El; [|discriminate].
  constructor; [|auto]. unfold is_lambda. now rewrite E.
Qed.

Lemma all_lambda_false (l : lemon) (rhs : list symptr) :
  all_lambda l rhs = Some false -> exists x, In x rhs /\ is_lambda l x = false.
Proof.
  induction rhs as [|x rhs IH]; simpl; intros H; [discriminate|].
  unfold bind in H. destruct (the_symbol l x) as [s|] eqn:E; [|discriminate].
  destruct (sym_lambda s) eqn:El.
  - destruct (IH H) as (y & Hy & Hl). exists y. auto.
  - exists x. split; [now left|]. unfold is_lambda. now rewrite E.
Qed.

Lemma lambda_grows_refl (R : list rule) (l : lemon) : lambda_grows R l l.
Proof. unfold lambda_grows. auto. Qed.

Lemma lambda_grows_trans (R : list rule) (l1 l2 l3 : lemon) :
  lambda_grows R l1 l2 -> lambda_grows R l2 l3 -> lambda_grows R l1 l3.
Proof.
  intros (A1 & B1 & C1 & D1) (A2 & B2 & C2 & D2).
  split; [congruence|]. split; [congruence|]. split; auto.
Qed.

Lemma Forall_all_nullable (R : list rule) (rhs : list symptr) :
  Forall (nullable R) rhs -> all_nullable R rhs.
Proof. induction 1; constructor; auto. Qed.

Lemma map_upd {A B : Type} (f : A -> B) (xs : list A) (i : nat) (v : A) :
  map f (upd xs i v) = upd (map f xs) i (f v).
Proof. revert i. induction xs as [|x xs IH]; intros [|i]; simpl; congruence. Qed.

Lemma upd_same {A : Type} (xs : list A) (i : nat) (v : A) :
  nth_error xs i = Some v -> upd xs i v = xs.
Proof.
  revert i. induction xs as [|x xs IH]; intros [|i] H; simpl in *; try discriminate.
  - congruence.
  - f_equal. auto.
Qed.

Lemma lambda_rule_step (R : list rule) (l l' : lemon) (p p' : Z) (rp : rule) :
  In rp R ->
  lambda_rule (l, p) rp = Some (l', p') ->
  lambda_grows R l l' /\
  ((l' = l /\ p' = p /\
    (is_lambda l (rl_lhs rp) = true \/ all_lambda l (rl_rhs rp) = Some false)) \/
   p' = 1).
Proof.
  intros Hin H. unfold lambda_rule in H. unfold bind in H.
  destruct (the_symbol l (rl_lhs rp)) as [lhs|] eqn:El; [|discriminate].
  destruct (sym_lambda lhs) eqn:Elam.
  - injection H as <- <-. split; [apply lambda_grows_refl|]. left.
    repeat split. left. unfold is_lambda. now rewrite El.
  - destruct (all_lambda l (rl_rhs rp)) as [[|]|] eqn:Ea; [| |discriminate].
    + injection H as <- <-. split; [|now right].
      split; [reflexivity|]. split; [|split].
      * unfold put_symbol. cbn [x2a set_x2a]. rewrite map_upd.
        apply upd_same. unfold the_symbol in El.
        rewrite nth_error_map, El. reflexivity.
      * intros sp Hsp. destruct (Nat.eq_dec sp (rl_lhs rp)) as [->|Hne].
        -- now rewrite (is_lambda_put_same _ _ lhs).
        -- now rewrite is_lambda_put_other.
      * intros Hinv sp Hsp. destruct (Nat.eq_dec sp (rl_lhs rp)) as [->|Hne].
        -- apply nullable_by; [exact Hin|]. apply Forall_all_nullable.
           apply all_lambda_true in Ea. eapply Forall_impl; [|exact Ea]. auto.
        -- rewrite is_lambda_put_other in Hsp by exact Hne. auto.
    + injection H as <- <-. split; [apply lambda_grows_refl|]. left. auto.
Qed.

Lemma lambda_pass_progress (rules : list rule) :
  forall l l' p', for_each lambda_rule rules (l, 1) = Some (l', p') -> p' = 1.
Proof.
  induction rules as [|rp rules IH]; cbn [for_each]; intros l l' p' H.
  - now injection H as <- <-.
  - unfold bind in H. destruct (lambda_rule (l, 1) rp) as [[l1 p1]|] eqn:E; [|discriminate].
    assert (p1 = 1).
    { unfold lambda_rule in E. break_in E; reflexivity. }
    subst. eauto.
Qed.

Lemma lambda_pass (R : list rule) (rules : list rule) :
  (forall rp, In rp rules -> In rp R) ->
  forall l l' p', for_each lambda_rule rules (l, 0) = Some (l', p') ->
    lambda_grows R l l' /\
    (p' = 0 ->
     l' = l /\
     forall rp, In rp rules ->
       is_lambda l (rl_lhs rp) = true \/ all_lambda l (rl_rhs rp) = Some false).
Proof.
  induction rules as [|rp rules IH]; intros Hsub l l' p' H.
  - cbn [for_each] in H. injection H as <- <-. split; [apply lambda_grows_refl|].
    intros _. split; [reflexivity|]. intros rp [].
  - cbn [for_each] in H. unfold bind in H.
    destruct (lambda_rule (l, 0) rp) as [[l1 p1]|] eqn:E; [|discriminate].
    destruct (lambda_rule_step R l l1 0 p1 rp (Hsub rp (or_introl eq_refl)) E)
      as [Hg [(E1 & E2 & Hrp)|E1]]; subst.
    + destruct (IH (fun r Hr => Hsub r (or_intror Hr)) l l' p' H) as [Hg' Hz].
      split; [exact Hg'|]. intros Hp. destruct (Hz Hp) as [-> Hall].
      split; [reflexivity|]. intros r [<-|Hr]; auto.
    + assert (Hp1 : p' = 1) by (eapply lambda_pass_progress; exact H).
      split.
      * eapply lambda_grows_trans; [exact Hg|].
        clear E Hg. revert l1 H. clear IH.
        assert (Hsub' : forall r, In r rules -> In r R) by (intros r Hr; apply Hsub; now right).
        clear Hsub. induction rules as [|r rules IHr]; intros l1 H.
        -- cbn [for_each] in H. injection H as <- _. apply lambda_grows_refl.
        -- cbn [for_each] in H. unfold bind in H.
           destruct (lambda_rule (l1, 1) r) as [[l2 p2]|] eqn:E2; [|discriminate].
           destruct (lambda_rule_step R l1 l2 1 p2 r (Hsub' r (or_introl eq_refl)) E2)
             as [Hg2 Hc].
           assert (p2 = 1) by (destruct Hc as [(_ & Hc & _)|Hc]; exact Hc). subst p2.
           eapply lambda_grows_trans; [exact Hg2|].
           apply IHr; [intros r' Hr'; apply Hsub'; now right|exact H].
      * intros Hp. lia.
Qed.

Lemma lambda_loop_spec (R : list rule) (n : nat) :
  forall l l',
    lem_rule l = R ->
    lambda_loop n l = Some l' ->
    lambda_grows R l l' /\
    forall rp, In rp R ->
      is_lambda l' (rl_lhs rp) = true \/ all_lambda l' (rl_rhs rp) = Some false.
Proof.
  induction n as [|n IH]; intros l l' HR H; [discriminate|].
  cbn [lambda_loop] in H. unfold bind in H.
  destruct (for_each lambda_rule (lem_rule l) (l, 0)) as [[l1 p1]|] eqn:E; [|discriminate].
  rewrite HR in E.
  destruct (lambda_pass R R (fun r Hr => Hr) l l1 p1 E) as [Hg Hz].
  destruct (Z.eqb_spec p1 0) as [Hp|Hp].
  - injection H as <-. destruct (Hz Hp) as [-> Hall]. split; [apply lambda_grows_refl|exact Hall].
  - destruct (IH l1 l') as [Hg' Hall]; [|exact H|].
    + destruct Hg as (Hr & _). congruence.
    + split; [eapply lambda_grows_trans; eassumption|exact Hall].
Qed.

Lemma closed_nullable (R : list rule) (l : lemon) :
  (forall rp, In rp R ->
     is_lambda l (rl_lhs rp) = true \/ all_lambda l (rl_rhs rp) = Some false) ->
  forall sp, nullable R sp -> is_lambda l sp = true.
Proof.
  intros Hclosed.
  apply (nullable_ind2 R (fun sp _ => is_lambda l sp = true)
           (fun rhs _ => Forall (fun x => is_lambda l x = true) rhs)).
  - intros rp Hin _ Hall. destruct (Hclosed rp Hin) as [H|H]; [exact H|].
    apply all_lambda_false in H. destruct H as (x & Hx & Hl).
    rewrite Forall_forall in Hall. rewrite (Hall x Hx) in Hl. discriminate.
  - constructor.
  - intros sp rest _ Hsp _ Hrest. constructor; assumption.
Qed.

(** The loop of [FindFirstSets] that looks for the symbols that derive
    the empty string, started with no flag set: when it ends, the flag
    [lambda] is set for exactly the symbols that are the left-hand side of
    a rule all of whose right-hand side symbols derive the empty string
    (the least such set); the rules and the other fields of the symbols
    are as before. *)
Theorem lambda_loop_finds_nullable :
  forall (n : nat) (l l' : lemon),
    (forall sp, is_lambda l sp = false) ->
    lambda_loop n l = Some l' ->
    lem_rule l' = lem_rule l /\
    map (fun s => set_sym_lambda s false) (x2a l')
    = map (fun s => set_sym_lambda s false) (x2a l) /\
    forall sp, is_lambda l' sp = true <-> nullable (lem_rule l) sp.
Proof.
  intros n l l' H0 H.
  destruct (lambda_loop_spec (lem_rule l) n l l' eq_refl H) as [(Hr & He & _ & Hinv) Hclosed].
  split; [exact Hr|]. split; [exact He|]. intros sp. split.
  - apply Hinv. intros q Hq. rewrite H0 in Hq. discriminate.
  - apply closed_nullable. exact Hclosed.
Qed.

Lemma lambda_loop_finds_nullable_witness :
  exists l', lambda_loop 5 optional_lemon = Some l' /\
             is_lambda l' 2%nat = true /\ nullable (lem_rule optional_lemon) 2%nat.
Proof.
  destruct (lambda_loop 5 optional_lemon) as [l'|] eqn:E; [|vm_compute in E; discriminate E].
  destruct (lambda_loop_finds_nullable 5 optional_lemon l') as (_ & _ & H).
  - intros sp. do 8 (destruct sp as [|sp]; [reflexivity|]). destruct sp; reflexivity.
  - exact E.
  - exists l'. split; [reflexivity|].
    assert (Hl : is_lambda l' 2%nat = true).
    { vm_compute in E. injection E as <-. reflexivity. }
    split; [exact Hl|]. apply H. exact Hl.
Defined.


(* ================================================================= *)
(** * First sets *)

Lemma same_static_refl (l : lemon) : same_static l l.
Proof. split; reflexivity. Qed.

Lemma same_static_symbol (L l : lemon) (sp : symptr) :
  same_static L l ->
  match the_symbol l sp, the_symbol L sp with
  | Some s, Some s0 =>
      sym_type s = sym_type s0 /\ sym_lambda s = sym_lambda s0 /\ sym_index s = sym_index s0
  | None, None => True
  | _, _ => False
  end.
Proof.
  intros [_ H]. unfold the_symbol.
  assert (E : nth_error (map (fun s => set_sym_firstset s None) (x2a l)) sp
              = nth_error (map (fun s => set_sym_firstset s None) (x2a L)) sp) by now rewrite H.
  rewrite !nth_error_map in E.
  destruct (nth_error (x2a l) sp) as [s|], (nth_error (x2a L) sp) as [s0|];
    cbn in E; try discriminate; auto.
  injection E as E. destruct s, s0. unfold set_sym_firstset in E. cbn in *.
  inversion E. auto.
Qed.

Lemma same_static_kind (L l : lemon) (sp : symptr) :
  same_static L l -> kind_of l sp = kind_of L sp.
Proof.
  intros H. pose proof (same_static_symbol L l sp H) as E. unfold kind_of.
  destruct (the_symbol l sp), (the_symbol L sp); cbn; try tauto. f_equal. tauto.
Qed.

Lemma same_static_lambda (L l : lemon) (sp : symptr) :
  same_static L l -> is_lambda l sp = is_lambda L sp.
Proof.
  intros H. pose proof (same_static_symbol L l sp H) as E. unfold is_lambda.
  destruct (the_symbol l sp), (the_symbol L sp); cbn; tauto.
Qed.

Lemma same_static_index (L l : lemon) (sp : symptr) :
  same_static L l -> index_of l sp = index_of L sp.
Proof.
  intros H. pose proof (same_static_symbol L l sp H) as E. unfold index_of.
  destruct (the_symbol l sp), (the_symbol L sp); cbn; tauto.
Qed.

(** The state after [s1->firstset] has got the elements [fs]. *)
Lemma same_static_put (L l : lemon) (s1 : symptr) (sym1 : symbol) (fs : list bool) :
  same_static L l -> the_symbol l s1 = Some sym1 ->
  same_static L (put_symbol l s1 (set_sym_firstset sym1 (Some fs))).
Proof.
  intros [Hr Hm] H1. split; [exact Hr|].
  unfold put_symbol. cbn [x2a set_x2a]. rewrite map_upd, <- Hm.
  apply upd_same. unfold the_symbol in H1. rewrite nth_error_map, H1. reflexivity.
Qed.

Lemma in_first_put (l : lemon) (s1 sp : symptr) (sym1 : symbol) (fs : list bool) (e : Z) :
  the_symbol l s1 = Some sym1 ->
  in_first (put_symbol l s1 (set_sym_firstset sym1 (Some fs))) sp e
  = if Nat.eqb sp s1 then SetFind fs e else in_first l sp e.
Proof.
  intros H1. unfold in_first, the_symbol, put_symbol in *. cbn [x2a set_x2a].
  destruct (Nat.eqb_spec sp s1) as [->|Hne].
  - rewrite nth_error_upd_same; [reflexivity|]. apply nth_error_Some. congruence.
  - rewrite nth_error_upd_other; [reflexivity|]. congruence.
Qed.

Lemma sets_ok_put (N : nat) (l : lemon) (s1 : symptr) (sym1 : symbol) (fs : list bool) :
  sets_ok N l -> the_symbol l s1 = Some sym1 -> List.length fs = N ->
  sets_ok N (put_symbol l s1 (set_sym_firstset sym1 (Some fs))).
Proof.
  intros Hok H1 Hl sp s fs' Hs Hf. unfold the_symbol, put_symbol in *. cbn [x2a set_x2a] in Hs.
  destruct (Nat.eq_dec s1 sp) as [->|Hne].
  - rewrite nth_error_upd_same in Hs by (apply nth_error_Some; congruence).
    injection Hs as <-. cbn in Hf. congruence.
  - rewrite nth_error_upd_other in Hs by exact Hne. eauto.
Qed.

Lemma put_symbol_same (l : lemon) (sp : symptr) (s : symbol) :
  the_symbol l sp = Some s -> put_symbol l sp s = l.
Proof.
  intros H. unfold put_symbol. rewrite upd_same by exact H. destruct l. reflexivity.
Qed.

Lemma set_sym_firstset_same (s : symbol) (fs : list bool) :
  sym_firstset s = Some fs -> set_sym_firstset s (Some fs) = s.
Proof. intros H. destruct s. cbn in *. now subst. Qed.

Lemma symbol_facts (L l : lemon) (sp : symptr) (s : symbol) :
  same_static L l -> the_symbol l sp = Some s ->
  kind_of L sp = Some (sym_type s) /\ is_lambda L sp = sym_lambda s /\
  index_of L sp = sym_index s.
Proof.
  intros H Hs.
  rewrite <- (same_static_kind L l sp H), <- (same_static_lambda L l sp H),
    <- (same_static_index L l sp H).
  unfold kind_of, is_lambda, index_of. rewrite Hs. auto.
Qed.

Lemma in_first_symbol (l : lemon) (sp : symptr) (s : symbol) (fs : list bool) (e : Z) :
  the_symbol l sp = Some s -> sym_firstset s = Some fs -> in_first l sp e = SetFind fs e.
Proof. intros H1 H2. unfold in_first. now rewrite H1, H2. Qed.

Lemma SetFind_upd (fs : list bool) (i e : Z) :
  0 <= i -> 0 <= e ->
  SetFind (upd fs (Z.to_nat i) true) e = true -> e = i \/ SetFind fs e = true.
Proof.
  intros Hi He H. unfold SetFind in *.
  destruct (Z.eq_dec e i) as [->|Hne]; [now left|right].
  rewrite nth_upd_other in H; [exact H|]. lia.
Qed.

Lemma SetFind_true_upd (fs : list bool) (i : Z) :
  SetFind fs i = true -> upd fs (Z.to_nat i) true = fs.
Proof.
  unfold SetFind. generalize (Z.to_nat i). intros n. revert n.
  induction fs as [|b fs IH]; intros [|n] H; simpl in *; try discriminate.
  - now subst.
  - f_equal. auto.
Qed.

Section FirstScan.
Variable L : lemon.
Variable N : nat.
Variable s1 : symptr.

Lemma first_rhs_spec (rest : list symptr) :
  forall (l : lemon) (p : Z) (l' : lemon) (p' : Z),
    same_static L l -> sets_ok N l ->
    (forall t, In t rest -> kind_of L t = Some TERMINAL -> 0 <= index_of L t < Z.of_nat N) ->
    first_rhs s1 rest (l, p) = Some (l', p') ->
    same_static L l' /\ sets_ok N l' /\ p <= p' /\
    (forall rp before,
       In rp (lem_rule L) -> rl_lhs rp = s1 -> rl_rhs rp = before ++ rest ->
       Forall (skipped L) before ->
       (forall sp e, 0 <= e -> in_first l sp e = true -> first_of L sp e) ->
       (forall sp e, 0 <= e -> in_first l' sp e = true -> first_of L sp e)) /\
    (p' = p -> l' = l /\ scan_closed L l s1 rest).
Proof.
  induction rest as [|s2 rest' IH]; intros l p l' p' Hst Hok Hterm H.
  - cbn [first_rhs] in H. injection H as <- <-.
    split; [exact Hst|]. split; [exact Hok|]. split; [lia|]. split; [auto|].
    intros _. split; [reflexivity|].
    intros before x after E. destruct before; discriminate.
  - cbn [first_rhs] in H. unfold bind in H.
    destruct (the_symbol l s2) as [sym2|] eqn:E2; [|discriminate].
    destruct (symbol_facts L l s2 sym2 Hst E2) as (Hk2 & Hl2 & Hi2).
    assert (Hsplit : forall before x after,
              s2 :: rest' = before ++ x :: after ->
              (before = [] /\ x = s2) \/
              (exists before', before = s2 :: before' /\ rest' = before' ++ x :: after)).
    { intros [|b before] x after E; injection E as <- E; [left|right]; eauto. }
    destruct (sym_type sym2) eqn:Et.
    + (* a terminal *)
      destruct (the_symbol l s1) as [sym1|] eqn:E1; [|discriminate].
      destruct (sym_firstset sym1) as [fs1|] eqn:Ef1; [|discriminate].
      unfold SetAdd in H. injection H as <- <-.
      assert (Hrange : 0 <= sym_index sym2 < Z.of_nat N).
      { rewrite <- Hi2. apply Hterm; [now left|exact Hk2]. }
      pose proof (Hok s1 sym1 fs1 E1 Ef1) as Hlen.
      split; [now apply same_static_put|].
      split; [apply sets_ok_put; auto; now rewrite length_upd|].
      split; [destruct (SetFind fs1 (sym_index sym2)); lia|]. split.
      * intros rp before Hin Hlhs Hrhs Hsk Hinv sp e He Hf.
        rewrite in_first_put in Hf by exact E1.
        destruct (Nat.eqb_spec sp s1) as [->|Hne]; [|auto].
        apply SetFind_upd in Hf; [|lia|exact He].
        destruct Hf as [->|Hf].
        -- rewrite <- Hi2, <- Hlhs. eapply first_terminal; eauto.
        -- apply Hinv; [exact He|]. now rewrite (in_first_symbol l s1 sym1 fs1).
      * intros Hp.
        assert (Hin : SetFind fs1 (sym_index sym2) = true).
        { destruct (SetFind fs1 (sym_index sym2)); [reflexivity|lia]. }
        split.
        -- rewrite (SetFind_true_upd _ _ Hin), set_sym_firstset_same by exact Ef1.
           now apply put_symbol_same.
        -- intros before x after E Hsk.
           destruct (Hsplit before x after E) as [[-> ->]|(before' & -> & _)].
           ++ split.
              ** intros _. rewrite Hi2. now rewrite (in_first_symbol l s1 sym1 fs1).
              ** intros Hk. congruence.
           ++ inversion Hsk as [|? ? [Hk _] _]; subst. congruence.
    + (* a nonterminal *)
      destruct (Nat.eqb_spec s1 s2) as [<-|Hne].
      * destruct (sym_lambda sym2) eqn:Elam.
        -- destruct (IH l p l' p' Hst Hok (fun t Ht => Hterm t (or_intror Ht)) H)
             as (A & B & C & D & F).
           split; [exact A|]. split; [exact B|]. split; [exact C|]. split.
           ++ intros rp before Hin Hlhs Hrhs Hsk.
              apply (D rp (before ++ [s1])); auto.
              ** now rewrite <- app_assoc.
              ** apply Forall_app. split; [exact Hsk|]. constructor; [|constructor].
                 split; [exact Hk2|congruence].
           ++ intros Hp. destruct (F Hp) as [-> Hc]. split; [reflexivity|].
              intros before x after E Hsk.
              destruct (Hsplit before x after E) as [[-> ->]|(before' & -> & E')].
              ** split; [intros Hk; congruence|intros _ Hx; congruence].
              ** apply (Hc before' x after E'). now inversion Hsk.
        -- injection H as <- <-.
           split; [exact Hst|]. split; [exact Hok|]. split; [lia|]. split; [auto|].
           intros _. split; [reflexivity|].
           intros before x after E Hsk.
           destruct (Hsplit before x after E) as [[-> ->]|(before' & -> & E')].
           ++ split; [intros Hk; congruence|intros _ Hx; congruence].
           ++ inversion Hsk as [|? ? [_ Hlam] _]; subst. congruence.
      * destruct (the_symbol l s1) as [sym1|] eqn:E1; [|discriminate].
        destruct (sym_firstset sym1) as [fs1|] eqn:Ef1; [|discriminate].
        destruct (sym_firstset sym2) as [fs2|] eqn:Ef2; [|discriminate].
        pose proof (Hok s1 sym1 fs1 E1 Ef1) as Hlen1.
        pose proof (Hok s2 sym2 fs2 E2 Ef2) as Hlen2.
        destruct (SetUnion_spec fs1 fs2 ltac:(congruence)) as (Hnth & Hprog & Hsame & Hlen).
        destruct (SetUnion fs1 fs2) as [changed fs1'] eqn:Eu. cbn [fst snd] in *.
        set (l1 := put_symbol l s1 (set_sym_firstset sym1 (Some fs1'))) in *.
        assert (Hst1 : same_static L l1) by now apply same_static_put.
        assert (Hok1 : sets_ok N l1) by (apply sets_ok_put; auto; congruence).
        assert (Hsound1 : forall rp before,
                  In rp (lem_rule L) -> rl_lhs rp = s1 -> rl_rhs rp = before ++ s2 :: rest' ->
                  Forall (skipped L) before ->
                  (forall sp e, 0 <= e -> in_first l sp e = true -> first_of L sp e) ->
                  (forall sp e, 0 <= e -> in_first l1 sp e = true -> first_of L sp e)).
        { intros rp before Hin Hlhs Hrhs Hsk Hinv sp e He Hf.
          unfold l1 in Hf. rewrite in_first_put in Hf by exact E1.
          destruct (Nat.eqb_spec sp s1) as [->|Hnes]; [|auto].
          unfold SetFind in Hf. rewrite Hnth in Hf. apply orb_true_iff in Hf.
          destruct Hf as [Hf|Hf].
          - apply Hinv; [exact He|]. now rewrite (in_first_symbol l s1 sym1 fs1).
          - rewrite <- Hlhs. eapply first_nonterminal; eauto.
            + congruence.
            + apply Hinv; [exact He|]. now rewrite (in_first_symbol l s2 sym2 fs2). }
        assert (Hclosed1 : changed = 0 ->
                  l1 = l /\
                  forall e, 0 <= e -> in_first l s2 e = true -> in_first l s1 e = true).
        { intros Hc. apply Hsame in Hc. subst fs1'. split.
          - unfold l1. rewrite set_sym_firstset_same by exact Ef1. now apply put_symbol_same.
          - intros e He Hf. rewrite (in_first_symbol l s2 sym2 fs2) in Hf by assumption.
            rewrite (in_first_symbol l s1 sym1 fs1) by assumption.
            unfold SetFind in *. specialize (Hnth (Z.to_nat e)).
            rewrite Hf, orb_true_r in Hnth. exact Hnth. }
        destruct (sym_lambda sym2) eqn:Elam.
        -- destruct (IH l1 (p + changed) l' p' Hst1 Hok1
                        (fun t Ht => Hterm t (or_intror Ht)) H)
             as (A & B & C & D & F).
           split; [exact A|]. split; [exact B|]. split; [lia|]. split.
           ++ intros rp before Hin Hlhs Hrhs Hsk Hinv.
              apply (D rp (before ++ [s2])); auto.
              ** now rewrite <- app_assoc.
              ** apply Forall_app. split; [exact Hsk|]. constructor; [|constructor].
                 split; [exact Hk2|congruence].
              ** eapply Hsound1; eauto.
           ++ intros Hp. assert (Hc : changed = 0) by lia.
              destruct (Hclosed1 Hc) as [El1 Hsub].
              destruct (F ltac:(lia)) as [El' Hcl]. split; [now rewrite El'|].
              rewrite El1 in Hcl.
              intros before x after E Hsk.
              destruct (Hsplit before x after E) as [[-> ->]|(before' & -> & E')].
              ** split; [intros Hk; congruence|intros _ _; exact Hsub].
              ** apply (Hcl before' x after E'). now inversion Hsk.
        -- injection H as <- <-.
           split; [exact Hst1|]. split; [exact Hok1|]. split; [lia|]. split.
           ++ intros rp before Hin Hlhs Hrhs Hsk Hinv. eapply Hsound1; eauto.
           ++ intros Hp. assert (Hc : changed = 0) by lia.
              destruct (Hclosed1 Hc) as [El1 Hsub]. split; [exact El1|].
              intros before x after E Hsk.
              destruct (Hsplit before x after E) as [[-> ->]|(before' & -> & E')].
              ** split; [intros Hk; congruence|intros _ _; exact Hsub].
              ** inversion Hsk as [|? ? [_ Hlam] _]. congruence.
Qed.
End FirstScan.

Section FirstLoop.
Variable L : lemon.
Variable N : nat.
Hypothesis L_terminals : terminals_ok N L.

Let sound (l : lemon) : Prop :=
  forall sp e, 0 <= e -> in_first l sp e = true -> first_of L sp e.

Lemma first_pass (rules : list rule) :
  (forall rp, In rp rules -> In rp (lem_rule L)) ->
  forall (l : lemon) (p : Z) (l' : lemon) (p' : Z),
    same_static L l -> sets_ok N l ->
    for_each first_rule rules (l, p) = Some (l', p') ->
    same_static L l' /\ sets_ok N l' /\ p <= p' /\ (sound l -> sound l') /\
    (p' = p -> l' = l /\
               forall rp, In rp rules -> scan_closed L l (rl_lhs rp) (rl_rhs rp)).
Proof.
  induction rules as [|rp rules IH]; intros Hsub l p l' p' Hst Hok H.
  - cbn [for_each] in H. injection H as <- <-.
    split; [exact Hst|]. split; [exact Hok|]. split; [lia|]. split; [auto|].
    intros _. split; [reflexivity|]. intros rp [].
  - cbn [for_each] in H. unfold bind in H.
    destruct (first_rule (l, p) rp) as [[l1 p1]|] eqn:E; [|discriminate].
    unfold first_rule in E.
    assert (Hin : In rp (lem_rule L)) by (apply Hsub; now left).
    destruct (first_rhs_spec L N (rl_lhs rp) (rl_rhs rp) l p l1 p1 Hst Hok
                (fun t Ht Hk => L_terminals rp t Hin Ht Hk) E)
      as (A1 & B1 & C1 & D1 & F1).
    destruct (IH (fun r Hr => Hsub r (or_intror Hr)) l1 p1 l' p' A1 B1 H)
      as (A2 & B2 & C2 & D2 & F2).
    split; [exact A2|]. split; [exact B2|]. split; [lia|]. split.
    + intros Hs. apply D2. unfold sound in *. apply (D1 rp []); auto.
    + intros Hp. destruct (F1 ltac:(lia)) as [E1 Hc1]. subst l1.
      destruct (F2 ltac:(lia)) as [E2 Hc2]. split; [exact E2|].
      intros r [<-|Hr]; auto.
Qed.

Lemma first_loop_spec (n : nat) :
  forall l l',
    same_static L l -> sets_ok N l ->
    first_loop n l = Some l' ->
    same_static L l' /\ sets_ok N l' /\ (sound l -> sound l') /\
    forall rp, In rp (lem_rule L) -> scan_closed L l' (rl_lhs rp) (rl_rhs rp).
Proof.
  induction n as [|n IH]; intros l l' Hst Hok H; [discriminate|].
  cbn [first_loop] in H. unfold bind in H.
  destruct (for_each first_rule (lem_rule l) (l, 0)) as [[l1 p1]|] eqn:E; [|discriminate].
  assert (Hr : lem_rule l = lem_rule L) by apply Hst. rewrite Hr in E.
  destruct (first_pass (lem_rule L) (fun r Hr => Hr) l 0 l1 p1 Hst Hok E)
    as (A & B & C & D & F).
  destruct (Z.eqb_spec p1 0) as [Hp|Hp].
  - injection H as <-. destruct (F Hp) as [-> Hc].
    split; [exact Hst|]. split; [exact Hok|]. split; [auto|exact Hc].
  - destruct (IH l1 l' A B H) as (A' & B' & D' & F').
    split; [exact A'|]. split; [exact B'|]. split; [auto|exact F'].
Qed.

Lemma closed_first (l : lemon) :
  (forall rp, In rp (lem_rule L) -> scan_closed L l (rl_lhs rp) (rl_rhs rp)) ->
  forall sp e, first_of L sp e -> 0 <= e -> in_first l sp e = true.
Proof.
  intros Hc sp e H. induction H as [rp before after t Hin Hrhs Hsk Hk
                                   |rp before after x e Hin Hrhs Hsk Hk Hne _ IH]; intros He.
  - destruct (Hc rp Hin before t after Hrhs Hsk) as [H _]. auto.
  - destruct (Hc rp Hin before x after Hrhs Hsk) as [_ H]. auto.
Qed.
End FirstLoop.

(** The loop of [FindFirstSets] that fills the first sets, started with
    empty sets of one size that has room for the index of every terminal
    of a right-hand side: when it ends, the first set of a symbol holds
    exactly what the scans of the rules put there, which are the index of
    a terminal of a right-hand side that follows only nonterminals that
    derive the empty string, and the first set of another nonterminal at
    such a place (the least such sets); nothing but the first sets has
    changed. *)
Theorem first_loop_finds_first_sets :
  forall (n N : nat) (l l' : lemon),
    sets_ok N l -> terminals_ok N l ->
    (forall sp e, in_first l sp e = false) ->
    first_loop n l = Some l' ->
    same_static l l' /\
    forall sp e, 0 <= e -> (in_first l' sp e = true <-> first_of l sp e).
Proof.
  intros n N l l' Hok Hterm Hempty H.
  destruct (first_loop_spec l N Hterm n l l' (same_static_refl l) Hok H)
    as (A & _ & Hsound & Hclosed).
  split; [exact A|]. intros sp e He. split.
  - apply Hsound; [|exact He]. intros q e' _ Hq. rewrite Hempty in Hq. discriminate.
  - intros Hf. apply (closed_first l l' Hclosed sp e Hf He).
Qed.

Lemma first_loop_finds_first_sets_witness :
  exists l', first_loop 5 optional_ready = Some l' /\
             in_first l' 2%nat 1 = true /\ first_of optional_ready 2%nat 1.
Proof.
  destruct (first_loop 5 optional_ready) as [l'|] eqn:E; [|vm_compute in E; discriminate E].
  destruct (first_loop_finds_first_sets 5 4 optional_ready l') as [_ H].
  - intros sp s fs Hs Hf.
    do 8 (destruct sp as [|sp];
          [injection Hs as <-; cbn in Hf; try discriminate Hf; injection Hf as <-; reflexivity|]).
    destruct sp; discriminate Hs.
  - intros rp t Hin Ht Hk.
    cbn in Hin. repeat (destruct Hin as [<-|Hin]; [cbn in Ht|]); try contradiction;
      repeat (destruct Ht as [<-|Ht]; [try discriminate Hk; vm_compute; split; congruence|]);
      try contradiction.
  - intros sp e. do 8 (destruct sp as [|sp]; [reflexivity || (unfold in_first, SetFind; cbn;
      destruct (Z.to_nat e) as [|[|[|[|[|k]]]]]; reflexivity)|]).
    destruct sp; reflexivity.
  - exact E.
  - exists l'. split; [reflexivity|].
    assert (Hf : in_first l' 2%nat 1 = true).
    { vm_compute in E. injection E as <-. reflexivity. }
    split; [exact Hf|]. apply H; [lia|exact Hf].
Defined.

(* ================================================================= *)
(** * [FindFirstSets] *)

Lemma same_frame_refl (l : lemon) : same_frame l l.
Proof. split; [destruct l; reflexivity|reflexivity]. Qed.

Lemma same_frame_trans (l1 l2 l3 : lemon) :
  same_frame l1 l2 -> same_frame l2 l3 -> same_frame l1 l3.
Proof.
  intros [A B] [A' B']. split; [|congruence].
  rewrite A' at 1. rewrite A at 1. reflexivity.
Qed.

Lemma same_frame_put (l : lemon) (sp : symptr) (s s' : symbol) :
  the_symbol l sp = Some s ->
  set_sym_lambda (set_sym_firstset s' None) false
  = set_sym_lambda (set_sym_firstset s None) false ->
  same_frame l (put_symbol l sp s').
Proof.
  intros H E. split; [reflexivity|].
  unfold put_symbol. cbn [x2a set_x2a]. rewrite map_upd. apply upd_same.
  unfold the_symbol in H. rewrite nth_error_map, H. cbn. now rewrite E.
Qed.

Lemma same_frame_symbol (L l : lemon) (sp : symptr) :
  same_frame L l ->
  match the_symbol l sp, the_symbol L sp with
  | Some s, Some s0 => sym_type s = sym_type s0 /\ sym_index s = sym_index s0
  | None, None => True
  | _, _ => False
  end.
Proof.
  intros [_ H]. unfold the_symbol.
  assert (E : nth_error (map (fun s => set_sym_lambda (set_sym_firstset s None) false) (x2a l)) sp
              = nth_error (map (fun s => set_sym_lambda (set_sym_firstset s None) false) (x2a L)) sp)
    by now rewrite H.
  rewrite !nth_error_map in E.
  destruct (nth_error (x2a l) sp) as [s|], (nth_error (x2a L) sp) as [s0|];
    cbn in E; try discriminate; auto.
  injection E as E. destruct s, s0. unfold set_sym_lambda, set_sym_firstset in E. cbn in *.
  inversion E. auto.
Qed.

Lemma same_frame_kind (L l : lemon) (sp : symptr) :
  same_frame L l -> kind_of l sp = kind_of L sp /\ index_of l sp = index_of L sp.
Proof.
  intros H. pose proof (same_frame_symbol L l sp H) as E. unfold kind_of, index_of.
  destruct (the_symbol l sp), (the_symbol L sp); cbn; try tauto.
  destruct E as [-> ->]. auto.
Qed.

Lemma same_frame_fields (L l : lemon) :
  same_frame L l ->
  lem_rule l = lem_rule L /\ size l = size L /\ lem_symbols l = lem_symbols L /\
  lem_nsymbol l = lem_nsymbol L /\ lem_nterminal l = lem_nterminal L.
Proof. intros [-> _]. repeat split. Qed.

(** Only the symbol table changes. *)
Lemma only_x2a_put (L l : lemon) (sp : symptr) (s : symbol) :
  l = set_x2a L (x2a l) -> put_symbol l sp s = set_x2a L (x2a (put_symbol l sp s)).
Proof. intros H. unfold put_symbol. rewrite H at 1. destruct L. reflexivity. Qed.

Lemma lambda_rule_only_x2a (L : lemon) (st st' : lemon * Z) (rp : rule) :
  lambda_rule st rp = Some st' ->
  fst st = set_x2a L (x2a (fst st)) -> fst st' = set_x2a L (x2a (fst st')).
Proof.
  destruct st as [l p]. unfold lambda_rule. intros H Hl. break_in H; cbn [fst] in *; auto.
  now apply only_x2a_put.
Qed.

Lemma lambda_loop_only_x2a (L : lemon) (n : nat) :
  forall l l', lambda_loop n l = Some l' ->
               l = set_x2a L (x2a l) -> l' = set_x2a L (x2a l').
Proof.
  induction n as [|n IH]; intros l l' H Hl; [discriminate|].
  cbn [lambda_loop] in H. unfold bind in H.
  destruct (for_each lambda_rule (lem_rule l) (l, 0)) as [[l1 p1]|] eqn:E; [|discriminate].
  assert (H1 : l1 = set_x2a L (x2a l1)).
  { apply (for_each_keeps (fun st => fst st = set_x2a L (x2a (fst st))) lambda_rule
             (fun st rp st' => lambda_rule_only_x2a L st st' rp) _ _ _ E Hl). }
  destruct (p1 =? 0); [now injection H as <-|eauto].
Qed.

Lemma first_rhs_only_x2a (L : lemon) (s1 : symptr) (rhs : list symptr) :
  forall st st', first_rhs s1 rhs st = Some st' ->
    fst st = set_x2a L (x2a (fst st)) -> fst st' = set_x2a L (x2a (fst st')).
Proof.
  induction rhs as [|s2 rhs IH]; intros [l p] st' H Hl; cbn [first_rhs] in H.
  - now injection H as <-.
  - break_in H; cbn [fst] in *; auto;
      try (now apply only_x2a_put);
      try (eapply IH; [eassumption|]; cbn [fst]; auto; now apply only_x2a_put).
Qed.

Lemma first_loop_only_x2a (L : lemon) (n : nat) :
  forall l l', first_loop n l = Some l' ->
               l = set_x2a L (x2a l) -> l' = set_x2a L (x2a l').
Proof.
  induction n as [|n IH]; intros l l' H Hl; [discriminate|].
  cbn [first_loop] in H. unfold bind in H.
  destruct (for_each first_rule (lem_rule l) (l, 0)) as [[l1 p1]|] eqn:E; [|discriminate].
  assert (H1 : l1 = set_x2a L (x2a l1)).
  { apply (for_each_keeps (fun st => fst st = set_x2a L (x2a (fst st))) first_rule
             (fun st rp st' => first_rhs_only_x2a L (rl_lhs rp) (rl_rhs rp) st st') _ _ _ E Hl). }
  destruct (p1 =? 0); [now injection H as <-|eauto].
Qed.

Lemma erase_lambda (s : symbol) (b : bool) :
  set_sym_lambda (set_sym_firstset (set_sym_lambda s b) None) false
  = set_sym_lambda (set_sym_firstset s None) false.
Proof. destruct s. reflexivity. Qed.

Lemma erase_firstset (s : symbol) (fs : option (list bool)) :
  set_sym_lambda (set_sym_firstset (set_sym_firstset s fs) None) false
  = set_sym_lambda (set_sym_firstset s None) false.
Proof. destruct s. reflexivity. Qed.

Lemma the_symbol_put (l : lemon) (sp q : symptr) (s s' : symbol) :
  the_symbol l sp = Some s ->
  the_symbol (put_symbol l sp s') q = if Nat.eqb q sp then Some s' else the_symbol l q.
Proof.
  intros H. unfold the_symbol, put_symbol in *. cbn [x2a set_x2a].
  destruct (Nat.eqb_spec q sp) as [->|Hne].
  - apply nth_error_upd_same. apply nth_error_Some. congruence.
  - apply nth_error_upd_other. congruence.
Qed.

(** The first loop of [FindFirstSets] clears the flags of the symbols of
    the array. *)
Lemma clear_lambda_loop (L : lemon) (idx : list nat) :
  forall l l',
    same_frame L l ->
    for_each clear_lambda idx l = Some l' ->
    same_frame L l' /\
    (forall sp s', the_symbol l' sp = Some s' ->
       exists s, the_symbol l sp = Some s /\ sym_firstset s' = sym_firstset s) /\
    (forall sp, is_lambda l' sp = true ->
       is_lambda l sp = true /\ forall i, In i idx -> nth_error (lem_symbols L) i <> Some sp).
Proof.
  induction idx as [|i idx IH]; intros l l' Hf H; cbn [for_each] in H.
  - injection H as <-. split; [exact Hf|]. split; [eauto|]. intros sp Hsp. split; [exact Hsp|].
    intros i [].
  - unfold bind in H. destruct (clear_lambda l i) as [l1|] eqn:E; [|discriminate].
    unfold clear_lambda, bind in E.
    destruct (nth_error (lem_symbols l) i) as [sp0|] eqn:Ei; [|discriminate].
    destruct (the_symbol l sp0) as [s0|] eqn:E0; [|discriminate].
    injection E as <-.
    assert (Hf1 : same_frame L (put_symbol l sp0 (set_sym_lambda s0 false))).
    { eapply same_frame_trans; [exact Hf|]. eapply same_frame_put; [exact E0|].
      apply erase_lambda. }
    destruct (IH _ l' Hf1 H) as (A & B & C).
    split; [exact A|]. split.
    + intros sp s' Hs'. destruct (B sp s' Hs') as (s & Hs & Hfs).
      rewrite (the_symbol_put l sp0 sp s0) in Hs by exact E0.
      destruct (Nat.eqb_spec sp sp0) as [->|Hne].
      * injection Hs as <-. exists s0. split; [exact E0|]. rewrite Hfs. destruct s0; reflexivity.
      * eauto.
    + intros sp Hsp. destruct (C sp Hsp) as [Hl Hn].
      destruct (Nat.eq_dec sp sp0) as [->|Hne].
      * rewrite (is_lambda_put_same l sp0 s0) in Hl by exact E0. discriminate.
      * rewrite is_lambda_put_other in Hl by exact Hne. split; [exact Hl|].
        intros j [<-|Hj]; [|auto].
        destruct (same_frame_fields L l Hf) as (_ & _ & Hsy & _). rewrite <- Hsy, Ei. congruence.
Qed.

(** The second loop gives the nonterminals empty first sets. *)
Lemma new_firstset_loop (L : lemon) (idx : list nat) :
  forall l l',
    same_frame L l ->
    for_each new_firstset idx l = Some l' ->
    same_frame L l' /\
    (forall sp, is_lambda l' sp = is_lambda l sp) /\
    (forall sp s' fs, the_symbol l' sp = Some s' -> sym_firstset s' = Some fs ->
       fs = repeat false (Z.to_nat (size L)) \/
       exists s, the_symbol l sp = Some s /\ sym_firstset s = Some fs).
Proof.
  induction idx as [|i idx IH]; intros l l' Hf H; cbn [for_each] in H.
  - injection H as <-. split; [exact Hf|]. split; [reflexivity|]. eauto.
  - unfold bind in H. destruct (new_firstset l i) as [l1|] eqn:E; [|discriminate].
    unfold new_firstset, bind in E.
    destruct (nth_error (lem_symbols l) i) as [sp0|] eqn:Ei; [|discriminate].
    destruct (the_symbol l sp0) as [s0|] eqn:E0; [|discriminate].
    injection E as <-.
    assert (Hf1 : same_frame L (put_symbol l sp0 (set_sym_firstset s0 (Some (SetNew l))))).
    { eapply same_frame_trans; [exact Hf|]. eapply same_frame_put; [exact E0|].
      apply erase_firstset. }
    destruct (IH _ l' Hf1 H) as (A & B & C).
    split; [exact A|]. split.
    + intros sp. rewrite B. destruct (Nat.eq_dec sp sp0) as [->|Hne].
      * rewrite (is_lambda_put_same l sp0 s0) by exact E0.
        unfold is_lambda. rewrite E0. destruct s0; reflexivity.
      * now apply is_lambda_put_other.
    + intros sp s' fs Hs' Hfs. destruct (C sp s' fs Hs' Hfs) as [Hr|(s & Hs & Hs2)]; [now left|].
      rewrite (the_symbol_put l sp0 sp s0) in Hs by exact E0.
      destruct (Nat.eqb_spec sp sp0) as [->|Hne].
      * injection Hs as <-. left. cbn in Hs2. injection Hs2 as <-.
        unfold SetNew. destruct (same_frame_fields L l Hf) as (_ & -> & _). reflexivity.
      * right. eauto.
Qed.

Lemma first_of_ext (L l : lemon) :
  lem_rule l = lem_rule L ->
  (forall sp, kind_of l sp = kind_of L sp) ->
  (forall sp, is_lambda l sp = is_lambda L sp) ->
  (forall sp, index_of l sp = index_of L sp) ->
  forall sp e, first_of L sp e -> first_of l sp e.
Proof.
  intros Hr Hk Hl Hi sp e H.
  assert (Hsk : forall xs, Forall (skipped L) xs -> Forall (skipped l) xs).
  { intros xs Hx. eapply Forall_impl; [|exact Hx]. intros x [A B].
    split; [now rewrite Hk|now rewrite Hl]. }
  induction H as [rp before after t Hin Hrhs Hb Hkt
                 |rp before after x e Hin Hrhs Hb Hkx Hne _ IH].
  - rewrite <- Hi. eapply first_terminal; eauto; [now rewrite Hr|now rewrite Hk].
  - eapply first_nonterminal; eauto; [now rewrite Hr|now rewrite Hk].
Qed.

Lemma lambda_keeps_firstsets (l l' : lemon) (sp : symptr) :
  map (fun s => set_sym_lambda s false) (x2a l')
  = map (fun s => set_sym_lambda s false) (x2a l) ->
  match the_symbol l' sp, the_symbol l sp with
  | Some s', Some s => sym_firstset s' = sym_firstset s
  | None, None => True
  | _, _ => False
  end.
Proof.
  intros H. unfold the_symbol.
  assert (E : nth_error (map (fun s => set_sym_lambda s false) (x2a l')) sp
              = nth_error (map (fun s => set_sym_lambda s false) (x2a l)) sp) by now rewrite H.
  rewrite !nth_error_map in E.
  destruct (nth_error (x2a l') sp) as [s'|], (nth_error (x2a l) sp) as [s|];
    cbn in E; try discriminate; auto.
  injection E as E. destruct s', s. unfold set_sym_lambda in E. cbn in *. inversion E. auto.
Qed.

Lemma same_frame_of_lambda (l l' : lemon) :
  l' = set_x2a l (x2a l') ->
  map (fun s => set_sym_lambda s false) (x2a l')
  = map (fun s => set_sym_lambda s false) (x2a l) ->
  same_frame l l'.
Proof.
  intros Ho Hm. split; [exact Ho|].
  apply (f_equal (map (fun s => set_sym_firstset s None))) in Hm.
  rewrite !map_map in Hm.
  rewrite (map_ext _ (fun s => set_sym_firstset (set_sym_lambda s false) None)) at 1
    by (intros s; destruct s; reflexivity).
  rewrite Hm. apply map_ext. intros s. destruct s. reflexivity.
Qed.

Lemma same_frame_of_static (l l' : lemon) :
  l' = set_x2a l (x2a l') -> same_static l l' -> same_frame l l'.
Proof.
  intros Ho [_ Hm]. split; [exact Ho|].
  apply (f_equal (map (fun s => set_sym_lambda s false))) in Hm.
  rewrite !map_map in Hm. exact Hm.
Qed.

Lemma in_first_empty (l : lemon) (N : nat) :
  (forall sp s fs, the_symbol l sp = Some s -> sym_firstset s = Some fs ->
                   fs = repeat false N) ->
  forall sp e, in_first l sp e = false.
Proof.
  intros H sp e. unfold in_first.
  destruct (the_symbol l sp) as [s|] eqn:Es; [|reflexivity].
  destruct (sym_firstset s) as [fs|] eqn:Ef; [|reflexivity].
  rewrite (H sp s fs Es Ef). unfold SetFind.
  generalize (Z.to_nat e). clear. induction N as [|N IH]; intros [|k]; simpl; auto.
Qed.

(** [FindFirstSets] on a grammar whose symbols have no first sets yet,
    whose flags [lambda], if any is set, belong to symbols of the array,
    and whose terminals have indices within the sets: afterwards [lambda]
    is set for exactly the symbols that derive the empty string, and the
    first sets hold exactly what the scan of the rules puts there; nothing
    else has changed. *)
Theorem FindFirstSets_finds_nullable_and_first :
  forall (n : nat) (l l' : lemon),
    (forall sp, is_lambda l sp = true ->
       exists i, In i (nat_upto (lem_nsymbol l)) /\ nth_error (lem_symbols l) i = Some sp) ->
    (forall sp s, the_symbol l sp = Some s -> sym_firstset s = None) ->
    terminals_ok (Z.to_nat (size l)) l ->
    FindFirstSets n l = Some l' ->
    same_frame l l' /\
    (forall sp, is_lambda l' sp = true <-> nullable (lem_rule l') sp) /\
    (forall sp e, 0 <= e -> (in_first l' sp e = true <-> first_of l' sp e)).
Proof.
  intros n l l' Hlam Hnone Hterm H. unfold FindFirstSets in H.
  apply bind_Some in H. destruct H as (l1 & E1 & H).
  apply bind_Some in H. destruct H as (l2 & E2 & H).
  apply bind_Some in H. destruct H as (l3 & E3 & H).
  set (N := Z.to_nat (size l)) in *.
  (* the two loops at the head *)
  destruct (clear_lambda_loop l _ l l1 (same_frame_refl l) E1) as (F1 & B1 & C1).
  assert (L1 : forall sp, is_lambda l1 sp = false).
  { intros sp. destruct (is_lambda l1 sp) eqn:E; [|reflexivity]. exfalso.
    destruct (C1 sp E) as [Hl Hn]. destruct (Hlam sp Hl) as (i & Hi & Hs).
    exact (Hn i Hi Hs). }
  destruct (new_firstset_loop l _ l1 l2 F1 E2) as (F2 & B2 & C2).
  assert (S2 : forall sp s fs, the_symbol l2 sp = Some s -> sym_firstset s = Some fs ->
                               fs = repeat false N).
  { intros sp s fs Hs Hf. destruct (C2 sp s fs Hs Hf) as [Hr|(s1 & Hs1 & Hf1)]; [exact Hr|].
    exfalso. destruct (B1 sp s1 Hs1) as (s0 & Hs0 & Hf0).
    rewrite (Hnone sp s0 Hs0) in Hf0. congruence. }
  assert (L2 : forall sp, is_lambda l2 sp = false) by (intros sp; now rewrite B2).
  (* the symbols that derive the empty string *)
  destruct (lambda_loop_spec (lem_rule l2) n l2 l3 eq_refl E3)
    as [(Hr3 & Hm3 & _ & Hinv3) Hclosed3].
  pose proof (lambda_loop_only_x2a l2 n l2 l3 E3 ltac:(destruct l2; reflexivity)) as O3.
  assert (F3 : same_frame l l3).
  { eapply same_frame_trans; [exact F2|]. now apply same_frame_of_lambda. }
  assert (S3 : forall sp s fs, the_symbol l3 sp = Some s -> sym_firstset s = Some fs ->
                               fs = repeat false N).
  { intros sp s fs Hs Hf. pose proof (lambda_keeps_firstsets l2 l3 sp Hm3) as Hk.
    rewrite Hs in Hk. destruct (the_symbol l2 sp) as [s2|] eqn:Es2; [|contradiction].
    apply (S2 sp s2 fs Es2). congruence. }
  assert (Hnull : forall sp, is_lambda l3 sp = true <-> nullable (lem_rule l2) sp).
  { intros sp. split.
    - apply Hinv3. intros q Hq. rewrite L2 in Hq. discriminate.
    - apply closed_nullable. exact Hclosed3. }
  (* the first sets *)
  assert (Hok3 : sets_ok N l3).
  { intros sp s fs Hs Hf. rewrite (S3 sp s fs Hs Hf). apply repeat_length. }
  assert (Hterm3 : terminals_ok N l3).
  { intros rp t Hin Ht Hk. destruct (same_frame_fields l l3 F3) as (Hr & _).
    destruct (same_frame_kind l l3 t F3) as [Hkk Hii].
    rewrite Hii. apply (Hterm rp t); [now rewrite <- Hr|exact Ht|now rewrite <- Hkk]. }
  destruct (first_loop_spec l3 N Hterm3 n l3 l' (same_static_refl l3) Hok3 H)
    as (A4 & _ & Hsound4 & Hclosed4).
  pose proof (first_loop_only_x2a l3 n l3 l' H ltac:(destruct l3; reflexivity)) as O4.
  assert (F4 : same_frame l l').
  { eapply same_frame_trans; [exact F3|]. now apply same_frame_of_static. }
  assert (Hr4 : lem_rule l' = lem_rule l3) by apply A4.
  split; [exact F4|]. split.
  - intros sp. rewrite (same_static_lambda l3 l' sp A4), Hr4, Hr3. apply Hnull.
  - intros sp e He.
    assert (Hext : first_of l3 sp e <-> first_of l' sp e).
    { split; apply first_of_ext; auto; intros q;
        try (now rewrite (same_static_kind l3 l' q A4));
        try (now rewrite (same_static_lambda l3 l' q A4));
        try (now rewrite (same_static_index l3 l' q A4)). }
    rewrite <- Hext. split.
    + apply Hsound4; [|exact He]. intros q e' _ Hq.
      rewrite (in_first_empty l3 N S3) in Hq. discriminate.
    + intros Hf. apply (closed_first l3 l' Hclosed4 sp e Hf He).
Qed.

Lemma FindFirstSets_finds_nullable_and_first_witness :
  exists l', FindFirstSets 5 optional_lemon = Some l' /\
             (is_lambda l' 2%nat = true <-> nullable (lem_rule l') 2%nat) /\
             (in_first l' 2%nat 1 = true <-> first_of l' 2%nat 1).
Proof.
  destruct (FindFirstSets 5 optional_lemon) as [l'|] eqn:E; [|vm_compute in E; discriminate E].
  destruct (FindFirstSets_finds_nullable_and_first 5 optional_lemon l') as (_ & H1 & H2).
  - intros sp Hsp. exfalso. revert Hsp.
    do 8 (destruct sp as [|sp]; [discriminate|]). destruct sp; discriminate.
  - intros sp s Hs.
    do 8 (destruct sp as [|sp]; [injection Hs as <-; reflexivity|]).
    destruct sp; discriminate Hs.
  - intros rp t Hin Ht Hk.
    cbn in Hin. repeat (destruct Hin as [<-|Hin]; [cbn in Ht|]); try contradiction;
      repeat (destruct Ht as [<-|Ht]; [try discriminate Hk; vm_compute; split; congruence|]);
      try contradiction.
  - exact E.
  - exists l'. split; [reflexivity|]. split; [apply H1|apply H2; lia].
Defined.


(* ================================================================= *)
(** * The hash table of the symbols *)

Lemma bucket_bound (ph size : Z) :
  (exists e, 0 <= e /\ size = 2 ^ e) -> (Table.bucket ph size < Z.to_nat size)%nat.
Proof.
  intros (e & He & ->). unfold Table.bucket.
  replace (2 ^ e - 1) with (Z.ones e) by (rewrite Z.ones_equiv; lia).
  rewrite Z.land_ones by exact He.
  pose proof (Z.mod_pos_bound ph (2 ^ e) ltac:(apply Z.pow_pos_nonneg; lia)). lia.
Qed.

Lemma strcmp_zero (a b : string) : (strcmp a b =? 0) = true <-> a = b.
Proof.
  split.
  - intros H. apply Z.eqb_eq in H. now apply strcmp_eq.
  - intros ->. apply Z.eqb_eq. apply strcmp_refl.
Qed.

Lemma skeleton_nth (tbl tbl' : list Table.x2node) (i : nat) :
  Table.skeleton tbl = Table.skeleton tbl' ->
  match nth_error tbl i, nth_error tbl' i with
  | Some n, Some n' => Table.data n = Table.data n' /\ Table.key n = Table.key n' /\ Table.next n = Table.next n'
  | None, None => True
  | _, _ => False
  end.
Proof.
  intros H. assert (E : nth_error (Table.skeleton tbl) i = nth_error (Table.skeleton tbl') i) by now rewrite H.
  unfold Table.skeleton in E. rewrite !nth_error_map in E.
  destruct (nth_error tbl i), (nth_error tbl' i); cbn in E; try discriminate; auto.
  injection E as -> -> ->. auto.
Qed.

Lemma skeleton_length (tbl tbl' : list Table.x2node) :
  Table.skeleton tbl = Table.skeleton tbl' -> List.length tbl = List.length tbl'.
Proof.
  intros H. apply (f_equal (@List.length _)) in H. unfold Table.skeleton in H.
  now rewrite !length_map in H.
Qed.

Lemma chain_skeleton (tbl tbl' : list Table.x2node) (np : option nat) (l : list nat) :
  Table.skeleton tbl = Table.skeleton tbl' -> Table.chain tbl np l -> Table.chain tbl' np l.
Proof.
  intros H C. induction C as [|i n rest Hn _ IH]; [constructor|].
  pose proof (skeleton_nth tbl tbl' i H) as E. rewrite Hn in E.
  destruct (nth_error tbl' i) as [n'|] eqn:Hn'; [|contradiction].
  destruct E as (_ & _ & En). econstructor; [exact Hn'|]. now rewrite <- En.
Qed.

Lemma key_at_skeleton (tbl tbl' : list Table.x2node) (i : nat) :
  Table.skeleton tbl = Table.skeleton tbl' -> Table.key_at tbl i = Table.key_at tbl' i.
Proof.
  intros H. pose proof (skeleton_nth tbl tbl' i H) as E. unfold Table.key_at.
  destruct (nth_error tbl i), (nth_error tbl' i); try tauto.
Qed.

Lemma bucket_nodes_key_at (size : Z) (tbl : list Table.x2node) (h : nat) :
  Table.bucket_nodes size tbl h
  = rev (filter (fun i => Nat.eqb (Table.bucket (strhash (Table.key_at tbl i)) size) h)
                (seq 0 (List.length tbl))).
Proof.
  unfold Table.bucket_nodes. f_equal. apply filter_ext_in. intros i Hi. apply in_seq in Hi.
  unfold Table.key_at. destruct (nth_error tbl i) eqn:E; [reflexivity|].
  apply nth_error_None in E. lia.
Qed.

Lemma bucket_nodes_skeleton (size : Z) (tbl tbl' : list Table.x2node) (h : nat) :
  Table.skeleton tbl = Table.skeleton tbl' -> Table.bucket_nodes size tbl h = Table.bucket_nodes size tbl' h.
Proof.
  intros H. rewrite !bucket_nodes_key_at, (skeleton_length _ _ H). f_equal.
  apply filter_ext. intros i. now rewrite (key_at_skeleton _ _ i H).
Qed.

Lemma chain_app (tbl more : list Table.x2node) (np : option nat) (l : list nat) :
  Table.chain tbl np l -> Table.chain (tbl ++ more) np l.
Proof.
  induction 1 as [|i n rest Hn _ IH]; [constructor|].
  econstructor; [|exact IH]. rewrite nth_error_app1; [exact Hn|].
  apply nth_error_Some. congruence.
Qed.

Lemma key_at_app (tbl more : list Table.x2node) (i : nat) :
  (i < List.length tbl)%nat -> Table.key_at (tbl ++ more) i = Table.key_at tbl i.
Proof. intros H. unfold Table.key_at. now rewrite nth_error_app1. Qed.

Lemma bucket_nodes_snoc (size : Z) (tbl : list Table.x2node) (n : Table.x2node) (h : nat) :
  Table.bucket_nodes size (tbl ++ [n]) h
  = if Nat.eqb (Table.bucket (strhash (Table.key n)) size) h
    then List.length tbl :: Table.bucket_nodes size tbl h
    else Table.bucket_nodes size tbl h.
Proof.
  rewrite !bucket_nodes_key_at, length_app. cbn [List.length].
  rewrite Nat.add_1_r, seq_S, filter_app, rev_app_distr. cbn [filter Nat.add].
  assert (Ek : Table.key_at (tbl ++ [n]) (List.length tbl) = Table.key n).
  { unfold Table.key_at. rewrite nth_error_app2 by lia. now rewrite Nat.sub_diag. }
  rewrite Ek.
  assert (Ef : filter (fun i => Nat.eqb (Table.bucket (strhash (Table.key_at (tbl ++ [n]) i)) size) h)
                      (seq 0 (List.length tbl))
               = filter (fun i => Nat.eqb (Table.bucket (strhash (Table.key_at tbl i)) size) h)
                        (seq 0 (List.length tbl))).
  { apply filter_ext_in. intros i Hi. apply in_seq in Hi. rewrite key_at_app by lia.
    reflexivity. }
  rewrite Ef. destruct (Nat.eqb (Table.bucket (strhash (Table.key n)) size) h); reflexivity.
Qed.

(** The walk along a chain finds the first node of the chain with the key. *)
Lemma find_node_chain (tbl : list Table.x2node) (k : string) (np : option nat) (l : list nat) :
  Table.chain tbl np l ->
  forall fuel, (List.length l <= fuel)%nat ->
    Table.find_node fuel tbl np k
    = Some (find (fun i => strcmp (Table.key_at tbl i) k =? 0) l).
Proof.
  induction 1 as [|i n rest Hn _ IH]; intros fuel Hf.
  - destruct fuel; reflexivity.
  - destruct fuel as [|fuel]; [simpl in Hf; lia|].
    cbn [Table.find_node find]. rewrite Hn. cbn [bind].
    unfold Table.key_at at 1. rewrite Hn.
    destruct (strcmp (Table.key n) k =? 0); [reflexivity|].
    apply IH. simpl in Hf. lia.
Qed.

Lemma bucket_nodes_length (size : Z) (tbl : list Table.x2node) (h : nat) :
  (List.length (Table.bucket_nodes size tbl h) <= List.length tbl)%nat.
Proof.
  unfold Table.bucket_nodes. rewrite length_rev.
  etransitivity; [apply filter_length_le|]. now rewrite length_seq.
Qed.

Lemma bucket_nodes_in (size : Z) (tbl : list Table.x2node) (h i : nat) :
  In i (Table.bucket_nodes size tbl h) <->
  (i < List.length tbl)%nat /\ Table.bucket (strhash (Table.key_at tbl i)) size = h.
Proof.
  rewrite bucket_nodes_key_at, <- in_rev, filter_In, in_seq, Nat.eqb_eq. lia.
Qed.

(** The look-up in a bucket is the look-up in the table. *)
Lemma find_in_bucket (size : Z) (tbl : list Table.x2node) (k : string) :
  NoDup (map Table.key tbl) ->
  match find (fun i => strcmp (Table.key_at tbl i) k =? 0)
             (Table.bucket_nodes size tbl (Table.bucket (strhash k) size)) with
  | Some i =>
      exists n, nth_error tbl i = Some n /\ Table.key n = k /\
                Table.lookup k (map (fun n => (Table.key n, Table.data n)) tbl)
                = Some (Table.data n)
  | None =>
      ~ In k (map Table.key tbl) /\
      Table.lookup k (map (fun n => (Table.key n, Table.data n)) tbl) = None
  end.
Proof.
  intros Hnd.
  assert (Hlook : forall t, ~ In k (map Table.key t) ->
            Table.lookup k (map (fun n => (Table.key n, Table.data n)) t) = None).
  { induction t as [|n t IH]; intros Hn; [reflexivity|]. cbn [map Table.lookup].
    destruct (strcmp (Table.key n) k =? 0) eqn:E.
    - apply strcmp_zero in E. exfalso. apply Hn. now left.
    - apply IH. intros Hin. apply Hn. now right. }
  assert (Hfound : forall t i n, NoDup (map Table.key t) -> nth_error t i = Some n ->
            Table.lookup (Table.key n) (map (fun n => (Table.key n, Table.data n)) t)
            = Some (Table.data n)).
  { induction t as [|m t IH]; intros [|i] n Hd Hn; try discriminate; cbn [map Table.lookup].
    - injection Hn as <-. now rewrite strcmp_refl.
    - simpl in Hn. inversion Hd as [|? ? Hm Hd']; subst.
      destruct (strcmp (Table.key m) (Table.key n) =? 0) eqn:E.
      + apply strcmp_zero in E. exfalso. apply Hm. rewrite E.
        apply in_map. eapply nth_error_In; eauto.
      + eauto. }
  destruct (find _ _) as [i|] eqn:E.
  - apply find_some in E. destruct E as [Hin Hk]. apply bucket_nodes_in in Hin.
    destruct Hin as [Hi _]. apply strcmp_zero in Hk. unfold Table.key_at in Hk.
    destruct (nth_error tbl i) as [n|] eqn:Hn; [|apply nth_error_None in Hn; lia].
    exists n. split; [reflexivity|]. split; [exact Hk|]. rewrite <- Hk. eauto.
  - assert (Hno : ~ In k (map Table.key tbl)).
    { intros Hin. apply in_map_iff in Hin. destruct Hin as (n & Hk & Hin).
      apply In_nth_error in Hin. destruct Hin as (i & Hi).
      assert (Hf : (strcmp (Table.key_at tbl i) k =? 0) = false).
      { apply (find_none _ _ E i). apply bucket_nodes_in.
        split; [apply nth_error_Some; congruence|].
        unfold Table.key_at. now rewrite Hi, Hk. }
      assert (Ht : (strcmp (Table.key_at tbl i) k =? 0) = true).
      { apply strcmp_zero. unfold Table.key_at. now rewrite Hi. }
      congruence. }
    split; [exact Hno|auto].
Qed.

Lemma entries_skeleton (tbl tbl' : list Table.x2node) :
  Table.skeleton tbl = Table.skeleton tbl' ->
  map (fun n => (Table.key n, Table.data n)) tbl
  = map (fun n => (Table.key n, Table.data n)) tbl'.
Proof.
  intros H. apply (f_equal (map (fun x : symptr * string * option nat =>
                                   (snd (fst x), fst (fst x))))) in H.
  unfold Table.skeleton in H. rewrite !map_map in H. exact H.
Qed.

Lemma buckets_ok_empty (e : Z) :
  0 <= e -> Table.buckets_ok (2 ^ e) [] (repeat None (Z.to_nat (2 ^ e))).
Proof.
  intros He. split; [eauto|]. split; [apply repeat_length|].
  intros h np Hn. apply nth_error_In, repeat_spec in Hn. subst. constructor.
Qed.

Lemma place_spec (size : Z) (tbl : list Table.x2node) (ht : list (option nat))
    (d : symptr) (k : string) :
  Table.buckets_ok size tbl ht ->
  exists tbl' ht',
    Table.place size tbl ht (List.length tbl) d k = Some (tbl', ht') /\
    Table.buckets_ok size tbl' ht' /\
    map (fun n => (Table.key n, Table.data n)) tbl'
    = map (fun n => (Table.key n, Table.data n)) tbl ++ [(k, d)].
Proof.
  intros (Hpow & Hlen & Hch). unfold Table.place.
  rewrite Nat.eqb_refl. cbn [assert bind].
  pose proof (bucket_bound (strhash k) size Hpow) as Hb.
  set (h := Table.bucket (strhash k) size) in *.
  destruct (nth_error ht h) as [head|] eqn:Eh; [|apply nth_error_None in Eh; lia].
  cbn [bind].
  assert (Hskel : exists tbl1,
            match head with
            | Some j =>
                n <- nth_error tbl j ;;
                Some (upd tbl j (Table.mkNode (Table.data n) (Table.key n) (Table.next n)
                                              (Some (Table.in_next (List.length tbl)))))
            | None => Some tbl
            end = Some tbl1 /\ Table.skeleton tbl1 = Table.skeleton tbl).
  { destruct head as [j|]; [|eauto].
    pose proof (Hch h (Some j) Eh) as C. inversion C as [|? n rest Hn _]; subst.
    rewrite Hn. cbn [bind]. eexists. split; [reflexivity|].
    unfold Table.skeleton. rewrite map_upd. apply upd_same.
    rewrite nth_error_map, Hn. reflexivity. }
  destruct Hskel as (tbl1 & -> & Hsk). cbn [bind].
  eexists. eexists. split; [reflexivity|].
  assert (Hl1 : List.length tbl1 = List.length tbl) by (apply skeleton_length; exact Hsk).
  split.
  - split; [exact Hpow|]. split; [now rewrite upd_length|].
    intros h' np' Hn'. rewrite bucket_nodes_snoc. cbn [Table.key]. fold h.
    rewrite (bucket_nodes_skeleton size tbl1 tbl h' Hsk), Hl1.
    destruct (Nat.eqb_spec h h') as [<-|Hne].
    + rewrite nth_error_upd_same in Hn' by (apply nth_error_Some; congruence).
      injection Hn' as <-. econstructor.
      * rewrite nth_error_app2 by lia. rewrite Hl1, Nat.sub_diag. reflexivity.
      * cbn [Table.next]. apply chain_app.
        apply (chain_skeleton tbl tbl1); [now symmetry|]. now apply Hch.
    + rewrite nth_error_upd_other in Hn' by exact Hne.
      apply chain_app. apply (chain_skeleton tbl tbl1); [now symmetry|]. now apply Hch.
  - rewrite map_app. cbn [map Table.key Table.data]. f_equal. now apply entries_skeleton.
Qed.

Lemma place_length (size : Z) (tbl tbl' : list Table.x2node) (ht ht' : list (option nat))
    (i : nat) (d : symptr) (k : string) :
  Table.place size tbl ht i d k = Some (tbl', ht') ->
  map (fun n => (Table.key n, Table.data n)) tbl'
  = map (fun n => (Table.key n, Table.data n)) tbl ++ [(k, d)] ->
  List.length tbl' = S (List.length tbl).
Proof.
  intros _ H. apply (f_equal (@List.length _)) in H.
  rewrite length_app, !length_map in H. simpl in H. lia.
Qed.

Lemma rehash_spec (size : Z) (old : list Table.x2node) :
  forall (tbl : list Table.x2node) (ht : list (option nat)),
    Table.buckets_ok size tbl ht ->
    exists tbl' ht',
      Table.rehash size old (List.length tbl) tbl ht = Some (tbl', ht') /\
      Table.buckets_ok size tbl' ht' /\
      map (fun n => (Table.key n, Table.data n)) tbl'
      = map (fun n => (Table.key n, Table.data n)) tbl
        ++ map (fun n => (Table.key n, Table.data n)) old.
Proof.
  induction old as [|oldnp old IH]; intros tbl ht Hok; cbn [Table.rehash].
  - exists tbl, ht. split; [reflexivity|]. split; [exact Hok|]. now rewrite app_nil_r.
  - destruct (place_spec size tbl ht (Table.data oldnp) (Table.key oldnp) Hok)
      as (tbl1 & ht1 & Hp & Hok1 & He1).
    rewrite Hp. cbn [bind].
    pose proof (place_length _ _ _ _ _ _ _ _ Hp He1) as Hl1.
    destruct (IH tbl1 ht1 Hok1) as (tbl' & ht' & Hr & Hok' & He').
    rewrite Hl1 in Hr. exists tbl', ht'. split; [exact Hr|]. split; [exact Hok'|].
    rewrite He', He1, <- app_assoc. reflexivity.
Qed.

Lemma find_node_in_table (t : Table.s_x2) (k : string) :
  Table.table_ok t ->
  exists np0,
    nth_error (Table.ht t) (Table.bucket (strhash k) (Table.size t)) = Some np0 /\
    Table.find_node (List.length (Table.tbl t)) (Table.tbl t) np0 k
    = Some (find (fun i => strcmp (Table.key_at (Table.tbl t) i) k =? 0)
                 (Table.bucket_nodes (Table.size t) (Table.tbl t)
                    (Table.bucket (strhash k) (Table.size t)))).
Proof.
  intros ((Hpow & Hlen & Hch) & _).
  pose proof (bucket_bound (strhash k) (Table.size t) Hpow) as Hb.
  destruct (nth_error (Table.ht t) (Table.bucket (strhash k) (Table.size t))) as [np0|] eqn:E;
    [|apply nth_error_None in E; lia].
  exists np0. split; [reflexivity|].
  apply find_node_chain; [now apply Hch|apply bucket_nodes_length].
Qed.

Lemma Symbol_find_lookup (t : Table.s_x2) (k : string) :
  Table.table_ok t ->
  Table.Symbol_find (Some t) k = Some (Table.lookup k (Table.entries t)).
Proof.
  intros Hok. destruct (find_node_in_table t k Hok) as (np0 & Hn & Hf).
  unfold Table.Symbol_find. rewrite Hn. cbn [bind]. rewrite Hf. cbn [bind].
  destruct Hok as (_ & _ & _ & Hnd).
  pose proof (find_in_bucket (Table.size t) (Table.tbl t) k Hnd) as H.
  destruct (find _ _) as [i|].
  - destruct H as (n & Hi & _ & Hl). rewrite Hi. cbn [bind]. unfold Table.entries.
    now rewrite Hl.
  - destruct H as [_ Hl]. unfold Table.entries. now rewrite Hl.
Qed.

Lemma Symbol_insert_spec (t : Table.s_x2) (d : symptr) (k : string) :
  Table.table_ok t ->
  Table.size t * 2 < 2 ^ 31 ->
  exists r t',
    Table.Symbol_insert d k (Some t) = Some (r, Some t') /\
    Table.table_ok t' /\
    match Table.lookup k (Table.entries t) with
    | Some _ => r = 0 /\ t' = t
    | None =>
        r = 1 /\ Table.entries t' = Table.entries t ++ [(k, d)] /\
        Table.count t' = Table.count t + 1
    end.
Proof.
  intros Hok Hsize. destruct (find_node_in_table t k Hok) as (np0 & Hn & Hf).
  unfold Table.Symbol_insert. rewrite Hn. cbn [bind]. rewrite Hf. cbn [bind].
  destruct Hok as (Hb & Hcnt & Hl & Hnd).
  pose proof (find_in_bucket (Table.size t) (Table.tbl t) k Hnd) as H.
  destruct (find _ _) as [i|].
  - destruct H as (n & _ & _ & Hlook). exists 0, t. split; [reflexivity|].
    split; [split; [exact Hb|split; [exact Hcnt|split; assumption]]|].
    unfold Table.entries. rewrite Hlook. auto.
  - destruct H as [Hno Hlook]. unfold Table.entries at 1. rewrite Hlook.
    assert (Hbig : exists t1,
              Table.grow t = Some t1 /\
              Table.buckets_ok (Table.size t1) (Table.tbl t1) (Table.ht t1) /\
              Table.count t1 < Table.size t1 /\ Table.count t1 = Table.count t /\
              Z.of_nat (List.length (Table.tbl t1)) = Table.count t1 /\
              Table.entries t1 = Table.entries t).
    { unfold Table.grow.
      destruct (Z.geb_spec (Table.count t) (Table.size t)) as [Hge|Hlt].
      - destruct (Z.ltb_spec (Table.size t * 2) (2 ^ 31)) as [_|]; [|lia]. cbn [assert bind].
        destruct Hb as ((e & He & Hpow) & _).
        assert (E2 : Table.size t * 2 = 2 ^ (e + 1)) by (rewrite Z.pow_add_r, Hpow; lia).
        rewrite E2.
        destruct (rehash_spec (2 ^ (e + 1)) (Table.tbl t) [] _
                    (buckets_ok_empty (e + 1) ltac:(lia))) as (tbl' & ht' & Hr & Hok' & He').
        cbn [List.length] in Hr. rewrite Hr. cbn [bind]. eexists. split; [reflexivity|].
        cbn [Table.size Table.tbl Table.ht Table.count]. split; [exact Hok'|].
        assert (Hp : 0 < 2 ^ e) by (apply Z.pow_pos_nonneg; lia).
        split; [rewrite <- E2; lia|]. split; [reflexivity|]. split.
        + apply (f_equal (@List.length _)) in He'. rewrite length_app, !length_map in He'.
          simpl in He'. lia.
        + unfold Table.entries. cbn [Table.tbl]. rewrite He'. reflexivity.
      - exists t. split; [reflexivity|]. split; [exact Hb|]. split; [lia|].
        split; [reflexivity|]. split; [exact Hl|reflexivity]. }
    destruct Hbig as (t1 & -> & Hb1 & Hc1 & Hc1' & Hl1 & He1). cbn [bind].
    destruct (place_spec (Table.size t1) (Table.tbl t1) (Table.ht t1) d k Hb1)
      as (tbl2 & ht2 & Hp & Hb2 & He2).
    replace (Z.to_nat (Table.count t1)) with (List.length (Table.tbl t1)) by lia.
    rewrite Hp. cbn [bind]. eexists. eexists. split; [reflexivity|].
    pose proof (place_length _ _ _ _ _ _ _ _ Hp He2) as Hl2.
    split; [|split; [reflexivity|split]].
    + split; [exact Hb2|]. cbn [Table.size Table.count Table.tbl Table.ht].
      split; [lia|]. split; [lia|].
      assert (Ek : map Table.key tbl2 = map Table.key (Table.tbl t) ++ [k]).
      { assert (Hkeys : forall tb, map Table.key tb
                           = map fst (map (fun n => (Table.key n, Table.data n)) tb))
          by (intros tb; rewrite map_map; reflexivity).
        rewrite (Hkeys tbl2), He2, map_app. cbn [map fst]. f_equal.
        rewrite Hkeys. f_equal. exact He1. }
      rewrite Ek. apply NoDup_app; [exact Hnd|repeat constructor; intros []|].
      intros x Hx [<-|[]]. exact (Hno Hx).
    + unfold Table.entries in *. cbn [Table.tbl]. rewrite He2, He1. reflexivity.
    + cbn [Table.count]. lia.
Qed.

(** [Symbol_find] returns the data stored under the key, and a null
    pointer when the table has no such key; without a table it returns a
    null pointer. *)
Theorem Symbol_find_finds_entry :
  forall (t : Table.s_x2) (k : string),
    Table.table_ok t ->
    Table.Symbol_find (Some t) k = Some (Table.lookup k (Table.entries t)) /\
    Table.Symbol_find None k = Some None.
Proof.
  intros t k Hok. split; [|reflexivity]. now apply Symbol_find_lookup.
Qed.

Lemma table_ok_init : Table.table_ok (Table.mkTable 128 0 [] (repeat None 128)).
Proof.
  split; [|split; [cbn; lia|split; [reflexivity|constructor]]].
  exact (buckets_ok_empty 7 ltac:(lia)).
Qed.

(** [Symbol_init] makes an empty table of 128 buckets, in which nothing is
    found, and leaves a table that exists as it is. *)
Theorem Symbol_init_makes_empty_table :
  (exists t, Table.Symbol_init None = Some t /\ Table.table_ok t /\
             Table.entries t = [] /\ Table.size t = 128 /\
             forall k, Table.Symbol_find (Some t) k = Some None) /\
  (forall t, Table.Symbol_init (Some t) = Some t).
Proof.
  split; [|reflexivity]. eexists. split; [reflexivity|].
  split; [exact table_ok_init|]. split; [reflexivity|]. split; [reflexivity|].
  intros k. now rewrite (Symbol_find_lookup _ k table_ok_init).
Qed.

(** [Symbol_insert] on a table that can still double its size: a key
    that the table has is not stored again (the table stays as it is and 0
    is returned); a new key is stored with its data behind the entries
    there are, the count grows by one, and 1 is returned.  The table that
    results is well formed, also when it had to grow.  Without a table 0 is
    returned. *)
Theorem Symbol_insert_inserts :
  forall (t : Table.s_x2) (d : symptr) (k : string),
    Table.table_ok t ->
    Table.size t * 2 < 2 ^ 31 ->
    (exists r t',
       Table.Symbol_insert d k (Some t) = Some (r, Some t') /\
       Table.table_ok t' /\
       match Table.lookup k (Table.entries t) with
       | Some _ => r = 0 /\ t' = t
       | None =>
           r = 1 /\ Table.entries t' = Table.entries t ++ [(k, d)] /\
           Table.count t' = Table.count t + 1
       end) /\
    Table.Symbol_insert d k None = Some (0, None).
Proof.
  intros t d k Hok Hsize. split; [|reflexivity]. now apply Symbol_insert_spec.
Qed.

Lemma lookup_app (k : string) (es es' : list (string * symptr)) :
  Table.lookup k (es ++ es')
  = match Table.lookup k es with Some d => Some d | None => Table.lookup k es' end.
Proof.
  induction es as [|[k' d'] es IH]; [reflexivity|]. cbn [app Table.lookup].
  destruct (strcmp k' k =? 0); [reflexivity|exact IH].
Qed.

Lemma table_ok_tbl (t : Table.s_x2) :
  Table.table_ok t -> firstn (Z.to_nat (Table.count t)) (Table.tbl t) = Table.tbl t.
Proof.
  intros (_ & _ & Hl & _). apply firstn_all2. lia.
Qed.

(** After [Symbol_insert] of a new key, [Symbol_find] finds its data, and
    finds under any other key what it found before; the new data is the
    last one of [Symbol_arrayof] and the one that [Symbol_Nth] gives for
    the new count. *)
Theorem Symbol_insert_then_find :
  forall (t t' : Table.s_x2) (d : symptr) (k : string),
    Table.table_ok t ->
    Table.size t * 2 < 2 ^ 31 ->
    Table.Symbol_insert d k (Some t) = Some (1, Some t') ->
    Table.Symbol_find (Some t') k = Some (Some d) /\
    (forall k', k' <> k -> Table.Symbol_find (Some t') k' = Table.Symbol_find (Some t) k') /\
    Table.Symbol_count (Some t') = Table.Symbol_count (Some t) + 1 /\
    Table.Symbol_Nth (Some t') (Table.Symbol_count (Some t')) = Some (Some d) /\
    (exists old, Table.Symbol_arrayof (Some t) = Some old /\
                 Table.Symbol_arrayof (Some t') = Some (old ++ [d])).
Proof.
  intros t t' d k Hok Hsize H.
  destruct (Symbol_insert_spec t d k Hok Hsize) as (r & t2 & H2 & Hok2 & Hcase).
  rewrite H in H2. injection H2 as <- <-.
  destruct (Table.lookup k (Table.entries t)) as [x|] eqn:El; [destruct Hcase; lia|].
  destruct Hcase as (_ & He & Hc).
  assert (Hmap : map Table.data (Table.tbl t') = map Table.data (Table.tbl t) ++ [d]).
  { unfold Table.entries in He. apply (f_equal (map snd)) in He.
    rewrite map_app, !map_map in He. exact He. }
  split; [|split; [|split; [|split]]].
  - rewrite (Symbol_find_lookup t' k Hok2), He, lookup_app, El. cbn [Table.lookup].
    now rewrite strcmp_refl.
  - intros k' Hne. rewrite (Symbol_find_lookup t' k' Hok2), (Symbol_find_lookup t k' Hok).
    rewrite He, lookup_app. destruct (Table.lookup k' (Table.entries t)); [reflexivity|].
    cbn [Table.lookup]. destruct (strcmp k k' =? 0) eqn:E; [|reflexivity].
    apply strcmp_zero in E. congruence.
  - exact Hc.
  - cbn [Table.Symbol_count Table.Symbol_Nth]. destruct Hok as (_ & _ & Hl & _).
    destruct (Z.gtb_spec (Table.count t') 0) as [_|]; [|lia].
    rewrite Z.leb_refl. cbn [andb].
    assert (En : nth_error (map Table.data (Table.tbl t')) (Z.to_nat (Table.count t' - 1))
                 = Some d).
    { rewrite Hmap, nth_error_app2 by (rewrite length_map; lia).
      rewrite length_map. replace (_ - _)%nat with 0%nat by lia. reflexivity. }
    rewrite nth_error_map in En.
    destruct (nth_error (Table.tbl t') _) as [nd|]; [|discriminate].
    cbn in En. injection En as <-. reflexivity.
  - exists (map Table.data (Table.tbl t)). cbn [Table.Symbol_arrayof].
    rewrite (table_ok_tbl t Hok), (table_ok_tbl t' Hok2), Hmap. auto.
Qed.

Lemma Symbol_find_finds_entry_witness :
  Table.Symbol_find (Some (Table.mkTable 128 0 [] (repeat None 128))) "expr" = Some None.
Proof.
  destruct (Symbol_find_finds_entry (Table.mkTable 128 0 [] (repeat None 128)) "expr"
              table_ok_init) as [H _].
  exact H.
Defined.

Lemma Symbol_insert_inserts_witness :
  exists r t',
    Table.Symbol_insert 7%nat "expr" (Some (Table.mkTable 128 0 [] (repeat None 128)))
    = Some (r, Some t') /\ Table.table_ok t'.
Proof.
  destruct (Symbol_insert_inserts (Table.mkTable 128 0 [] (repeat None 128)) 7%nat "expr"
              table_ok_init) as [(r & t' & H & Hok & _) _].
  - reflexivity.
  - exists r, t'. split; assumption.
Defined.

Lemma Symbol_insert_then_find_witness :
  exists t',
    Table.Symbol_insert 7%nat "expr" (Some (Table.mkTable 128 0 [] (repeat None 128)))
    = Some (1, Some t') /\
    Table.Symbol_find (Some t') "expr" = Some (Some 7%nat).
Proof.
  destruct (Table.Symbol_insert 7%nat "expr" (Some (Table.mkTable 128 0 [] (repeat None 128))))
    as [[r [t'|]]|] eqn:E; try (vm_compute in E; discriminate E).
  assert (Hr : r = 1) by (vm_compute in E; congruence). subst r.
  exists t'. split; [reflexivity|].
  destruct (Symbol_insert_then_find _ t' 7%nat "expr" table_ok_init eq_refl E) as [H _].
  exact H.
Defined.

Lemma lookup_find_key (k : string) (tbl : list symbol) :
  forall i,
    Table.lookup k (map (fun p : nat * symbol => (sym_name (snd p), fst p))
                        (combine (seq i (List.length tbl)) tbl))
    = find_key k tbl i.
Proof.
  induction tbl as [|s tbl IH]; intros i; [reflexivity|].
  cbn [List.length seq combine map Table.lookup find_key fst snd].
  destruct (strcmp (sym_name s) k =? 0); [reflexivity|apply IH].
Qed.

Lemma map_fst_combine_seq {A : Type} (xs : list A) :
  forall i, map fst (combine (seq i (List.length xs)) xs) = seq i (List.length xs).
Proof.
  induction xs as [|x xs IH]; intros i; [reflexivity|].
  cbn [List.length seq combine map fst]. f_equal. apply IH.
Qed.

(** The list of the symbols, in which this development looks a name up
    from the front, gives what the hash table gives that holds the same
    symbols: the same answer of [Symbol_find] for every name, the same
    [Symbol_count], and the same array of [Symbol_arrayof]. *)
Theorem symbol_list_agrees_with_hash_table :
  forall (l : lemon) (t : Table.s_x2),
    Table.table_ok t -> table_of l t ->
    (forall k, Table.Symbol_find (Some t) k = Some (Symbol_find l k)) /\
    Table.Symbol_count (Some t) = Symbol_count l /\
    Table.Symbol_arrayof (Some t) = Some (Symbol_arrayof l).
Proof.
  intros l t Hok Hof. unfold table_of in Hof.
  assert (Hlen : List.length (Table.tbl t) = List.length (x2a l)).
  { apply (f_equal (@List.length _)) in Hof. unfold Table.entries in Hof.
    rewrite !length_map, length_combine, length_seq in Hof. lia. }
  split; [|split].
  - intros k. rewrite (Symbol_find_lookup t k Hok), Hof, lookup_find_key. reflexivity.
  - destruct Hok as (_ & _ & Hl & _). cbn [Table.Symbol_count]. unfold Symbol_count. lia.
  - cbn [Table.Symbol_arrayof]. rewrite (table_ok_tbl t Hok). f_equal.
    unfold Table.entries in Hof. apply (f_equal (map snd)) in Hof.
    rewrite !map_map in Hof. cbn [snd fst] in Hof.
    transitivity (map (fun x => Table.data x) (Table.tbl t)); [reflexivity|].
    rewrite Hof. unfold Symbol_arrayof. apply (map_fst_combine_seq (x2a l) 0%nat).
Qed.

Lemma table_of_init (filename : string) :
  table_of (lemon_blank filename) (Table.mkTable 128 0 [] (repeat None 128)).
Proof. reflexivity. Qed.

Lemma symbol_list_agrees_with_hash_table_witness :
  Table.Symbol_find (Some (Table.mkTable 128 0 [] (repeat None 128))) "expr"
  = Some (Symbol_find (lemon_blank "expr.y") "expr").
Proof.
  destruct (symbol_list_agrees_with_hash_table (lemon_blank "expr.y")
              (Table.mkTable 128 0 [] (repeat None 128)) table_ok_init
              (table_of_init "expr.y")) as [H _].
  exact (H "expr"%string).
Defined.

Lemma combine_snoc {A B : Type} (xs : list A) (ys : list B) (x : A) (y : B) :
  List.length xs = List.length ys ->
  combine (xs ++ [x]) (ys ++ [y]) = combine xs ys ++ [(x, y)].
Proof.
  revert ys. induction xs as [|a xs IH]; intros [|b ys] H; try discriminate; [reflexivity|].
  simpl. f_equal. apply IH. now injection H.
Qed.

(** [Symbol_new] on the list of the symbols is [Symbol_new] on the hash
    table: when the name is found nothing is stored, and otherwise
    [Symbol_insert] stores the new symbol under its name and returns 1;
    the table holds the symbols of the list again. *)
Theorem Symbol_new_on_hash_table :
  forall (l l' : lemon) (t : Table.s_x2) (x : string) (sp : symptr),
    Table.table_ok t -> table_of l t ->
    Table.size t * 2 < 2 ^ 31 ->
    Symbol_new l x = (sp, l') ->
    exists t',
      Table.table_ok t' /\ table_of l' t' /\
      match Table.lookup x (Table.entries t) with
      | Some found => sp = found /\ t' = t
      | None => Table.Symbol_insert sp x (Some t) = Some (1, Some t')
      end.
Proof.
  intros l l' t x sp Hok Hof Hsize H.
  assert (Hl : Table.lookup x (Table.entries t) = Symbol_find l x).
  { unfold table_of in Hof. rewrite Hof. apply lookup_find_key. }
  unfold Symbol_new in H. rewrite Hl. destruct (Symbol_find l x) as [found|] eqn:Ef.
  - injection H as <- <-. exists t. auto.
  - injection H as <- <-.
    destruct (Symbol_insert_spec t (List.length (x2a l)) x Hok Hsize)
      as (r & t' & Hi & Hok' & Hcase).
    rewrite Hl in Hcase. destruct Hcase as (-> & He & _).
    exists t'. split; [exact Hok'|]. split; [|exact Hi].
    unfold table_of in *. rewrite He, Hof. cbn [x2a set_x2a].
    rewrite length_app. cbn [List.length]. rewrite Nat.add_1_r, seq_S.
    rewrite combine_snoc by now rewrite length_seq.
    rewrite map_app. reflexivity.
Qed.

Lemma Symbol_new_on_hash_table_witness :
  exists t',
    Table.Symbol_insert 0%nat "$" (Some (Table.mkTable 128 0 [] (repeat None 128)))
    = Some (1, Some t') /\
    table_of (snd (Symbol_new (lemon_blank "expr.y") "$")) t'.
Proof.
  destruct (Symbol_new_on_hash_table (lemon_blank "expr.y")
              (snd (Symbol_new (lemon_blank "expr.y") "$"))
              (Table.mkTable 128 0 [] (repeat None 128)) "$" 0%nat
              table_ok_init (table_of_init "expr.y") eq_refl eq_refl)
    as (t' & _ & Hof & Hi).
  exists t'. split; [exact Hi|exact Hof].
Defined.


(* ================================================================= *)
(** ** The command line *)

Lemma double_dash_is_option (a : string) :
  (strcmp a "--" =? 0) = true -> Opt.ISOPT a = true.
Proof. intros H. apply strcmp_zero in H. subst a. reflexivity. Qed.

Lemma arguments_from_cons (dd : bool) (a : string) (rest : list string) :
  Opt.arguments_from dd (a :: rest)
  = if dd || negb (Opt.ISOPT a)
    then a :: Opt.arguments_from (dd || (strcmp a "--" =? 0)) rest
    else Opt.arguments_from (dd || (strcmp a "--" =? 0)) rest.
Proof.
  destruct dd; [reflexivity|]. cbn [Opt.arguments_from Opt.arguments orb].
  destruct (strcmp a "--" =? 0) eqn:E.
  - now rewrite (double_dash_is_option a E).
  - now destruct (Opt.ISOPT a).
Qed.

Lemma optnargs_loop_spec (args : list string) :
  forall dd cnt,
    Opt.optnargs_loop args dd cnt
    = cnt + Z.of_nat (List.length (Opt.arguments_from dd args)).
Proof.
  induction args as [|a rest IH]; intros dd cnt.
  - destruct dd; cbn; lia.
  - cbn [Opt.optnargs_loop]. rewrite IH, arguments_from_cons.
    destruct (dd || negb (Opt.ISOPT a)); cbn [List.length]; lia.
Qed.

Lemma argindex_loop_spec (args : list string) :
  forall (pre : list string) dd n,
    0 <= n ->
    exists j,
      Opt.argindex_loop args (Z.of_nat (List.length pre)) dd n = Some j /\
      match nth_error (Opt.arguments_from dd args) (Z.to_nat n) with
      | Some a => 0 <= j /\ nth_error (pre ++ args) (Z.to_nat j) = Some a
      | None => j = -1
      end.
Proof.
  induction args as [|a rest IH]; intros pre dd n Hn.
  - exists (-1). split; [reflexivity|].
    destruct dd; cbn; now destruct (Z.to_nat n).
  - cbn [Opt.argindex_loop]. rewrite arguments_from_cons.
    assert (Hpre : Z.of_nat (List.length pre) + 1 = Z.of_nat (List.length (pre ++ [a]))).
    { rewrite length_app. cbn. lia. }
    assert (Happ : pre ++ a :: rest = (pre ++ [a]) ++ rest).
    { now rewrite <- app_assoc. }
    destruct (dd || negb (Opt.ISOPT a)).
    + destruct (Z.eqb_spec n 0) as [->|Hn0].
      * exists (Z.of_nat (List.length pre)). split; [reflexivity|].
        cbn. split; [lia|]. rewrite Nat2Z.id, nth_error_app2 by lia.
        now rewrite Nat.sub_diag.
      * assert (Hlt : (- 2 ^ 31 <? n) = true) by (apply Z.ltb_lt; lia).
        rewrite Hlt. cbn [assert bind]. rewrite Hpre.
        destruct (IH (pre ++ [a]) (dd || (strcmp a "--" =? 0)) (n - 1) ltac:(lia))
          as (j & Hj & Hcase).
        exists j. split; [exact Hj|].
        replace (Z.to_nat n) with (S (Z.to_nat (n - 1))) by lia.
        cbn [nth_error]. rewrite Happ. exact Hcase.
    + rewrite Hpre.
      destruct (IH (pre ++ [a]) (dd || (strcmp a "--" =? 0)) n Hn) as (j & Hj & Hcase).
      exists j. split; [exact Hj|]. rewrite Happ. exact Hcase.
Qed.

Lemma get_optarg_spec (prog : string) (args : list string) (n : Z) :
  0 <= n ->
  Opt.optnargs (prog :: args) = Z.of_nat (List.length (Opt.arguments args)) /\
  Opt.get_optarg (prog :: args) n = Some (nth_error (Opt.arguments args) (Z.to_nat n)).
Proof.
  intros Hn. split.
  - cbn [Opt.optnargs]. rewrite optnargs_loop_spec. cbn [Opt.arguments_from]. lia.
  - unfold Opt.get_optarg. cbn [Opt.argindex].
    destruct (argindex_loop_spec args [prog] false n Hn) as (j & Hj & Hcase).
    cbn [List.length] in Hj. change (Z.of_nat 1) with 1 in Hj. rewrite Hj.
    cbn [bind Opt.arguments_from] in *.
    destruct (nth_error (Opt.arguments args) (Z.to_nat n)) as [a|].
    + destruct Hcase as [Hj0 Hnth]. cbn [app] in Hnth.
      assert (E : (j >=? 0) = true) by (apply Z.geb_le; lia).
      rewrite E, Hnth. reflexivity.
    + subst j. reflexivity.
Qed.

Lemma arguments_plain (a : list string) :
  ~ In "--"%string a ->
  Opt.arguments a = filter (fun x => negb (Opt.ISOPT x)) a.
Proof.
  induction a as [|x a IH]; intros Hno; [reflexivity|].
  cbn [Opt.arguments filter].
  destruct (strcmp x "--" =? 0) eqn:E.
  - apply strcmp_zero in E. subst x. exfalso. apply Hno. now left.
  - rewrite IH by (intros H; apply Hno; now right).
    now destruct (Opt.ISOPT x).
Qed.

Lemma arguments_double_dash (a b : list string) :
  ~ In "--"%string a ->
  Opt.arguments (a ++ "--"%string :: b) = filter (fun x => negb (Opt.ISOPT x)) a ++ b.
Proof.
  induction a as [|x a IH]; intros Hno; [reflexivity|].
  cbn [Opt.arguments filter app].
  destruct (strcmp x "--" =? 0) eqn:E.
  - apply strcmp_zero in E. subst x. exfalso. apply Hno. now left.
  - rewrite IH by (intros H; apply Hno; now right).
    now destruct (Opt.ISOPT x).
Qed.

(** [optnargs] counts, and [get_optarg(n)] gives in their order, the
    arguments that are no option (none that starts with [-] or [+] or holds
    a [=]), and behind the first [--] every argument; [get_optarg] is the
    null pointer from [optnargs()] on. *)
Theorem get_optarg_gives_arguments :
  forall (prog : string) (a b : list string) (n : Z),
    0 <= n ->
    ~ In "--"%string a ->
    let plain := filter (fun x => negb (Opt.ISOPT x)) a in
    (Opt.optnargs (prog :: a) = Z.of_nat (List.length plain) /\
     Opt.get_optarg (prog :: a) n = Some (nth_error plain (Z.to_nat n))) /\
    (Opt.optnargs (prog :: a ++ "--"%string :: b) = Z.of_nat (List.length (plain ++ b)) /\
     Opt.get_optarg (prog :: a ++ "--"%string :: b) n
     = Some (nth_error (plain ++ b) (Z.to_nat n))).
Proof.
  intros prog a b n Hn Hno plain. subst plain. split.
  - rewrite <- (arguments_plain a Hno). now apply get_optarg_spec.
  - rewrite <- (arguments_double_dash a b Hno). now apply get_optarg_spec.
Qed.

Lemma get_optarg_gives_arguments_witness :
  Opt.optnargs ["lemon"; "-q"; "d=out"; "--"; "-x.y"]%string = 1 /\
  Opt.get_optarg ["lemon"; "-q"; "d=out"; "--"; "-x.y"]%string 0 = Some (Some "-x.y"%string) /\
  Opt.get_optarg ["lemon"; "-q"; "d=out"; "--"; "-x.y"]%string 1 = Some None.
Proof.
  assert (Hno : ~ In "--"%string ["-q"; "d=out"]%string).
  { intros [H|[H|[]]]; discriminate. }
  split; [|split].
  - exact (proj1 (proj2 (get_optarg_gives_arguments "lemon" ["-q"; "d=out"]%string
                           ["-x.y"]%string 0 ltac:(lia) Hno))).
  - exact (proj2 (proj2 (get_optarg_gives_arguments "lemon" ["-q"; "d=out"]%string
                           ["-x.y"]%string 0 ltac:(lia) Hno))).
  - exact (proj2 (proj2 (get_optarg_gives_arguments "lemon" ["-q"; "d=out"]%string
                           ["-x.y"]%string 1 ltac:(lia) Hno))).
Defined.

(** *** The table of main *)

Lemma find_op_options (lbl : string) :
  match Opt.find_op Opt.options lbl with
  | Some o => In o Opt.options /\ Opt.label o = lbl
  | None => forall o, In o Opt.options -> Opt.label o <> lbl
  end.
Proof.
  unfold Opt.options. cbn [Opt.find_op Opt.label].
  repeat match goal with
  | |- context [strcmp lbl ?k =? 0] =>
      let E := fresh "E" in
      destruct (strcmp lbl k =? 0) eqn:E;
      [apply strcmp_zero in E; subst lbl; split; [cbn; tauto|reflexivity]|]
  end.
  intros o Ho Hl. subst lbl.
  assert (Hn : forall k, (strcmp (Opt.label o) k =? 0) = false -> Opt.label o <> k).
  { intros k Hk Heq. rewrite Heq, strcmp_refl in Hk. discriminate. }
  cbn in Ho.
  repeat match type of Ho with
  | _ \/ _ => destruct Ho as [<-|Ho]; [cbn in *; discriminate|]
  end.
  exact Ho.
Qed.

Lemma handleflags_options (a : string) (s : Opt.statics) :
  exists e s',
    Opt.handleflags Opt.options a s = Some (e, s') /\
    ((e = 0 /\ In (Opt.from_1 a) Opt.flag_labels) \/
     (e = 1 /\ ~ In (Opt.from_1 a) Opt.flag_labels)).
Proof.
  unfold Opt.handleflags.
  pose proof (find_op_options (Opt.from_1 a)) as H.
  destruct (Opt.find_op Opt.options (Opt.from_1 a)) as [o|].
  - destruct H as [Ho Hl]. rewrite <- Hl.
    cbn in Ho.
    repeat match type of Ho with
    | _ \/ _ => destruct Ho as [<-|Ho]
    end; try contradiction; cbn;
      eexists; eexists; (split; [reflexivity|]);
      first [left; split; [reflexivity|]; cbn; tauto
            |right; split; [reflexivity|]; cbn; intuition discriminate].
  - exists 1, s. split; [reflexivity|]. right. split; [reflexivity|].
    intros Hin.
    assert (Hl : In (Opt.from_1 a) (map Opt.label Opt.options)).
    { revert Hin. cbn. tauto. }
    apply in_map_iff in Hl as (o & Hl & Ho). exact (H o Ho Hl).
Qed.

Lemma handleswitch_options (a lbl cp : string) (s : Opt.statics) :
  Opt.strchr a Opt.ch_eq = Some (lbl, cp) ->
  exists e s',
    Opt.handleswitch Opt.options a s = Some (e, s') /\
    ((e = 0 /\ (lbl = "d"%string \/ lbl = "t"%string)) \/
     (e = 1 /\ ~ (lbl = "d"%string \/ lbl = "t"%string))).
Proof.
  intros Hs. unfold Opt.handleswitch. rewrite Hs. cbn [bind].
  pose proof (find_op_options lbl) as H.
  destruct (Opt.find_op Opt.options lbl) as [o|].
  - destruct H as [Ho Hl]. rewrite <- Hl.
    cbn in Ho.
    repeat match type of Ho with
    | _ \/ _ => destruct Ho as [<-|Ho]
    end; try contradiction; cbn;
      eexists; eexists; (split; [reflexivity|]);
      first [left; split; [reflexivity|]; cbn; tauto
            |right; split; [reflexivity|]; cbn; intuition discriminate].
  - exists 1, s. split; [reflexivity|]. right. split; [reflexivity|].
    intros [Hin|Hin]; symmetry in Hin.
    + exact (H (Opt.mkOpt Opt.OPT_STR "d" Opt.var_outdirname) ltac:(cbn; tauto) Hin).
    + exact (H (Opt.mkOpt Opt.OPT_STR "t" Opt.var_templatename) ltac:(cbn; tauto) Hin).
Qed.

Lemma optinit_loop_spec (args : list string) :
  forall (errcnt : Z) (s : Opt.statics),
    exists e s',
      Opt.optinit_loop Opt.options args errcnt s = Some (e, s') /\
      errcnt <= e /\
      (e = errcnt <-> Forall Opt.accepted args).
Proof.
  induction args as [|a rest IH]; intros errcnt s.
  - exists errcnt, s. split; [reflexivity|]. split; [lia|]. split; auto.
  - cbn [Opt.optinit_loop].
    unfold Opt.accepted at 1.
    destruct (Ascii.eqb (char_at a 0) Opt.ch_plus || Ascii.eqb (char_at a 0) ch_minus)
      eqn:Esign.
    + destruct (handleflags_options a s) as (e0 & s0 & H0 & Hcase).
      rewrite H0. cbn [bind].
      destruct (IH (errcnt + e0) s0) as (e & s' & Hl & Hle & Hiff).
      exists e, s'. split; [exact Hl|].
      assert (Ha : Opt.accepted a <-> In (Opt.from_1 a) Opt.flag_labels).
      { unfold Opt.accepted. rewrite Esign. reflexivity. }
      destruct Hcase as [[-> Hin]|[-> Hin]].
      * split; [lia|]. rewrite Z.add_0_r in *. rewrite Hiff. split.
        -- intros Hf. constructor; [now apply Ha|exact Hf].
        -- intros Hf. now inversion Hf.
      * split; [lia|]. split; [lia|].
        intros Hf. inversion Hf; subst. exfalso. apply Hin. now apply Ha.
    + destruct (Opt.strchr a Opt.ch_eq) as [[lbl cp]|] eqn:Es.
      * destruct (handleswitch_options a lbl cp s Es) as (e0 & s0 & H0 & Hcase).
        rewrite H0. cbn [bind].
        destruct (IH (errcnt + e0) s0) as (e & s' & Hl & Hle & Hiff).
        exists e, s'. split; [exact Hl|].
        assert (Ha : Opt.accepted a <-> (lbl = "d"%string \/ lbl = "t"%string)).
        { unfold Opt.accepted. rewrite Esign, Es. reflexivity. }
        destruct Hcase as [[-> Hin]|[-> Hin]].
        -- split; [lia|]. rewrite Z.add_0_r in *. rewrite Hiff. split.
           ++ intros Hf. constructor; [now apply Ha|exact Hf].
           ++ intros Hf. now inversion Hf.
        -- split; [lia|]. split; [lia|].
           intros Hf. inversion Hf; subst. exfalso. apply Hin. now apply Ha.
      * destruct (IH errcnt s) as (e & s' & Hl & Hle & Hiff).
        exists e, s'. split; [exact Hl|]. split; [exact Hle|].
        rewrite Hiff. split.
        -- intros Hf. constructor; [|exact Hf].
           unfold Opt.accepted. now rewrite Esign, Es.
        -- intros Hf. now inversion Hf.
Qed.

Lemma optinit_spec (prog : string) (args : list string) (s : Opt.statics) :
  (Forall Opt.accepted args ->
   exists s', Opt.optinit (prog :: args) Opt.options s = Some (Opt.Return s')) /\
  (~ Forall Opt.accepted args ->
   Opt.optinit (prog :: args) Opt.options s = Some (Opt.Exit 1)).
Proof.
  unfold Opt.optinit.
  destruct (optinit_loop_spec args 0 s) as (e & s' & Hl & Hle & Hiff).
  rewrite Hl. cbn [bind]. split.
  - intros Hf. apply Hiff in Hf. subst e. exists s'. reflexivity.
  - intros Hf. assert (e <> 0) by (intros ->; now apply Hf, Hiff).
    assert (E : (e >? 0) = true) by (apply Z.gtb_lt; lia).
    now rewrite E.
Qed.

(** With the table of [main], [optinit] returns when every argument that
    starts with [-] or [+] is one of these followed by [b], [c], [g], [m],
    [q], [s] or [x], and every other argument with a [=] has [d] or [t]
    before its first [=]; with any other argument it ends the program with
    [exit(1)]. *)
Theorem optinit_accepts_the_options_of_the_table :
  forall (prog : string) (args : list string) (s : Opt.statics),
    (Forall Opt.accepted args ->
     exists s', Opt.optinit (prog :: args) Opt.options s = Some (Opt.Return s')) /\
    (~ Forall Opt.accepted args ->
     Opt.optinit (prog :: args) Opt.options s = Some (Opt.Exit 1)).
Proof.
  intros prog args s. apply optinit_spec.
Qed.

Lemma optinit_accepts_the_options_of_the_table_witness :
  (exists s', Opt.optinit ["lemon"; "-q"; "+c"; "d=out"; "expr.y"]%string Opt.options
                Opt.statics0 = Some (Opt.Return s')) /\
  Opt.optinit ["lemon"; "-d"; "expr.y"]%string Opt.options Opt.statics0
  = Some (Opt.Exit 1).
Proof.
  split.
  - apply (proj1 (optinit_accepts_the_options_of_the_table "lemon"
                    ["-q"; "+c"; "d=out"; "expr.y"]%string Opt.statics0)).
    repeat constructor; cbn; tauto.
  - apply (proj2 (optinit_accepts_the_options_of_the_table "lemon"
                    ["-d"; "expr.y"]%string Opt.statics0)).
    intros H. inversion H as [|x xs Hx Hxs]; subst. cbn in Hx.
    intuition discriminate.
Defined.

Lemma double_dash_not_accepted : ~ Opt.accepted "--".
Proof. cbn. intuition discriminate. Qed.

(** [optinit] ends the program with [exit(1)] whenever an argument is
    [--]: it takes it for the flag with the label [-], which the table of
    [main] does not have.  So whenever [optinit] has returned, the
    arguments that [optnargs] counts and [get_optarg] gives are those that
    are no option, and none that starts with [-] or [+] or holds a [=] is
    among them. *)
Theorem optinit_rejects_double_dash :
  forall (prog : string) (args : list string) (s : Opt.statics),
    (In "--"%string args ->
     Opt.optinit (prog :: args) Opt.options s = Some (Opt.Exit 1)) /\
    (forall s', Opt.optinit (prog :: args) Opt.options s = Some (Opt.Return s') ->
       let plain := filter (fun x => negb (Opt.ISOPT x)) args in
       Opt.optnargs (prog :: args) = Z.of_nat (List.length plain) /\
       forall n, 0 <= n ->
         Opt.get_optarg (prog :: args) n = Some (nth_error plain (Z.to_nat n))).
Proof.
  intros prog args s.
  assert (Hdd : In "--"%string args ->
                Opt.optinit (prog :: args) Opt.options s = Some (Opt.Exit 1)).
  { intros Hin. apply optinit_spec. intros Hf.
    rewrite Forall_forall in Hf. exact (double_dash_not_accepted (Hf _ Hin)). }
  split; [exact Hdd|].
  intros s' Hret plain. subst plain.
  assert (Hno : ~ In "--"%string args).
  { intros Hin. rewrite (Hdd Hin) in Hret. discriminate. }
  rewrite <- (arguments_plain args Hno). split.
  - apply (get_optarg_spec prog args 0). lia.
  - intros n Hn. now apply get_optarg_spec.
Qed.

Lemma optinit_rejects_double_dash_witness :
  Opt.optinit ["lemon"; "-q"; "--"; "-x.y"]%string Opt.options Opt.statics0
  = Some (Opt.Exit 1).
Proof.
  apply (proj1 (optinit_rejects_double_dash "lemon" ["-q"; "--"; "-x.y"]%string
                  Opt.statics0)).
  cbn. tauto.
Defined.

Lemma handleflags_frame (a : string) (s s' : Opt.statics) (e : Z) (o : Opt.s_options) :
  Opt.handleflags Opt.options a s = Some (e, s') ->
  In o Opt.options ->
  Opt.from_1 a <> Opt.label o ->
  Opt.load_int (Opt.arg o) s' = Opt.load_int (Opt.arg o) s /\
  Opt.load_str (Opt.arg o) s' = Opt.load_str (Opt.arg o) s.
Proof.
  intros H Ho Hne. unfold Opt.handleflags in H.
  pose proof (find_op_options (Opt.from_1 a)) as F.
  destruct (Opt.find_op Opt.options (Opt.from_1 a)) as [o'|].
  - destruct F as [Ho' Hl']. rewrite <- Hl' in Hne. clear Hl'. cbn in Ho'.
    repeat match type of Ho' with
    | _ \/ _ => destruct Ho' as [<-|Ho']
    end; try contradiction; cbn in H; injection H as <- <-; cbn in Ho;
      repeat match type of Ho with
      | _ \/ _ => destruct Ho as [<-|Ho]
      end; try contradiction;
      first [exfalso; apply Hne; reflexivity|split; reflexivity].
  - injection H as <- <-. split; reflexivity.
Qed.

Lemma handleswitch_frame (a lbl cp : string) (s s' : Opt.statics) (e : Z)
    (o : Opt.s_options) :
  Opt.strchr a Opt.ch_eq = Some (lbl, cp) ->
  Opt.handleswitch Opt.options a s = Some (e, s') ->
  In o Opt.options ->
  lbl <> Opt.label o ->
  Opt.load_int (Opt.arg o) s' = Opt.load_int (Opt.arg o) s /\
  Opt.load_str (Opt.arg o) s' = Opt.load_str (Opt.arg o) s.
Proof.
  intros Hs H Ho Hne. unfold Opt.handleswitch in H. rewrite Hs in H. cbn [bind] in H.
  pose proof (find_op_options lbl) as F.
  destruct (Opt.find_op Opt.options lbl) as [o'|].
  - destruct F as [Ho' Hl']. rewrite <- Hl' in Hne. clear Hl'. cbn in Ho'.
    repeat match type of Ho' with
    | _ \/ _ => destruct Ho' as [<-|Ho']
    end; try contradiction; cbn in H; injection H as <- <-; cbn in Ho;
      repeat match type of Ho with
      | _ \/ _ => destruct Ho as [<-|Ho]
      end; try contradiction;
      first [exfalso; apply Hne; reflexivity|split; reflexivity].
  - injection H as <- <-. split; reflexivity.
Qed.

Lemma handleflags_hit (a : string) (s s' : Opt.statics) (o : Opt.s_options) :
  Opt.handleflags Opt.options a s = Some (0, s') ->
  In o Opt.options ->
  Opt.from_1 a = Opt.label o ->
  Opt.type o = Opt.OPT_FLAG /\
  Opt.load_int (Opt.arg o) s'
  = Some (if Ascii.eqb (char_at a 0) ch_minus then 1 else 0).
Proof.
  intros H Ho Hl. unfold Opt.handleflags in H.
  pose proof (find_op_options (Opt.from_1 a)) as F.
  destruct (Opt.find_op Opt.options (Opt.from_1 a)) as [o'|]; [|discriminate].
  destruct F as [Ho' Hl']. rewrite Hl in Hl'. clear Hl. cbn in Ho'.
  repeat match type of Ho' with
  | _ \/ _ => destruct Ho' as [<-|Ho']
  end; try contradiction; cbn in H; try discriminate; injection H as <-; cbn in Ho;
    repeat match type of Ho with
    | _ \/ _ => destruct Ho as [<-|Ho]
    end; try contradiction; try discriminate; split; reflexivity.
Qed.

Lemma handleswitch_hit (a lbl cp : string) (s s' : Opt.statics) (o : Opt.s_options) :
  Opt.strchr a Opt.ch_eq = Some (lbl, cp) ->
  Opt.handleswitch Opt.options a s = Some (0, s') ->
  In o Opt.options ->
  lbl = Opt.label o ->
  Opt.type o = Opt.OPT_STR /\
  Opt.load_str (Opt.arg o) s' = Some (Some cp).
Proof.
  intros Hs H Ho Hl. unfold Opt.handleswitch in H. rewrite Hs in H. cbn [bind] in H.
  pose proof (find_op_options lbl) as F.
  destruct (Opt.find_op Opt.options lbl) as [o'|]; [|discriminate].
  destruct F as [Ho' Hl']. rewrite Hl in Hl'. clear Hl. cbn in Ho'.
  repeat match type of Ho' with
  | _ \/ _ => destruct Ho' as [<-|Ho']
  end; try contradiction; cbn in H; try discriminate; injection H as <-; cbn in Ho;
    repeat match type of Ho with
    | _ \/ _ => destruct Ho as [<-|Ho]
    end; try contradiction; try discriminate; split; reflexivity.
Qed.

Lemma optinit_loop_frame (o : Opt.s_options) (args : list string) :
  forall (e e' : Z) (s s' : Opt.statics),
    Opt.optinit_loop Opt.options args e s = Some (e', s') ->
    In o Opt.options ->
    (forall b, In b args -> ~ Opt.names (Opt.label o) b) ->
    Opt.load_int (Opt.arg o) s' = Opt.load_int (Opt.arg o) s /\
    Opt.load_str (Opt.arg o) s' = Opt.load_str (Opt.arg o) s.
Proof.
  induction args as [|a rest IH]; intros e e' s s' H Ho Hno.
  - injection H as <- <-. split; reflexivity.
  - cbn [Opt.optinit_loop] in H.
    assert (Ha : ~ Opt.names (Opt.label o) a) by (apply Hno; now left).
    assert (Hrest : forall b, In b rest -> ~ Opt.names (Opt.label o) b).
    { intros b Hb. apply Hno. now right. }
    unfold Opt.names in Ha.
    destruct (Ascii.eqb (char_at a 0) Opt.ch_plus || Ascii.eqb (char_at a 0) ch_minus).
    + apply bind_Some in H as ([e0 s0] & H0 & H).
      destruct (handleflags_frame a s s0 e0 o H0 Ho Ha) as [Hi Hs].
      destruct (IH _ _ _ _ H Ho Hrest) as [Hi' Hs'].
      split; congruence.
    + destruct (Opt.strchr a Opt.ch_eq) as [[lbl cp]|] eqn:Es.
      * apply bind_Some in H as ([e0 s0] & H0 & H).
        destruct (handleswitch_frame a lbl cp s s0 e0 o Es H0 Ho Ha) as [Hi Hs].
        destruct (IH _ _ _ _ H Ho Hrest) as [Hi' Hs'].
        split; congruence.
      * exact (IH _ _ _ _ H Ho Hrest).
Qed.

Lemma optinit_loop_app (xs ys : list string) :
  forall (e : Z) (s : Opt.statics),
    Opt.optinit_loop Opt.options (xs ++ ys) e s
    = ('(e1, s1) <- Opt.optinit_loop Opt.options xs e s ;;
       Opt.optinit_loop Opt.options ys e1 s1).
Proof.
  induction xs as [|a xs IH]; intros e s; [reflexivity|].
  cbn [app Opt.optinit_loop].
  destruct (Ascii.eqb (char_at a 0) Opt.ch_plus || Ascii.eqb (char_at a 0) ch_minus).
  - destruct (Opt.handleflags Opt.options a s) as [[e0 s0]|]; [|reflexivity].
    cbn [bind]. apply IH.
  - destruct (Opt.strchr a Opt.ch_eq) as [[lbl cp]|]; [|apply IH].
    destruct (Opt.handleswitch Opt.options a s) as [[e0 s0]|]; [|reflexivity].
    cbn [bind]. apply IH.
Qed.

Lemma optinit_loop_grows (args : list string) (e e' : Z) (s s' : Opt.statics) :
  Opt.optinit_loop Opt.options args e s = Some (e', s') -> e <= e'.
Proof.
  intros H. destruct (optinit_loop_spec args e s) as (e2 & s2 & H2 & Hle & _).
  rewrite H in H2. injection H2 as <- <-. exact Hle.
Qed.

Lemma optinit_last_option :
  forall (prog : string) (args : list string) (o : Opt.s_options) (s s' : Opt.statics),
    In o Opt.options ->
    Opt.optinit (prog :: args) Opt.options s = Some (Opt.Return s') ->
    (forall pre a post,
       args = pre ++ a :: post ->
       Opt.names (Opt.label o) a ->
       (forall b, In b post -> ~ Opt.names (Opt.label o) b) ->
       match Opt.type o with
       | Opt.OPT_FLAG =>
           Opt.load_int (Opt.arg o) s'
           = Some (if Ascii.eqb (char_at a 0) ch_minus then 1 else 0)
       | _ =>
           exists lbl v, Opt.strchr a Opt.ch_eq = Some (lbl, v) /\
                         Opt.load_str (Opt.arg o) s' = Some (Some v)
       end) /\
    ((forall b, In b args -> ~ Opt.names (Opt.label o) b) ->
     Opt.load_int (Opt.arg o) s' = Opt.load_int (Opt.arg o) s /\
     Opt.load_str (Opt.arg o) s' = Opt.load_str (Opt.arg o) s).
Proof.
  intros prog args o s s' Ho H. unfold Opt.optinit in H.
  apply bind_Some in H as ([e s2] & Hl & H).
  destruct (e >? 0) eqn:Ee; [discriminate|]. injection H as ->.
  assert (He : e <= 0) by (rewrite Z.gtb_ltb in Ee; apply Z.ltb_ge in Ee; lia).
  split.
  - intros pre a post -> Hn Hpost.
    rewrite optinit_loop_app in Hl. apply bind_Some in Hl as ([e1 s1] & Hpre & Hl).
    pose proof (optinit_loop_grows _ _ _ _ _ Hpre) as G1.
    cbn [Opt.optinit_loop] in Hl. unfold Opt.names in Hn.
    destruct (Ascii.eqb (char_at a 0) Opt.ch_plus || Ascii.eqb (char_at a 0) ch_minus).
    + apply bind_Some in Hl as ([e0 s0] & H0 & Hl).
      pose proof (optinit_loop_grows _ _ _ _ _ Hl) as G2.
      destruct (handleflags_options a s1) as (e0' & s0' & H0' & Hcase).
      rewrite H0 in H0'. injection H0' as <- <-.
      assert (e0 = 0) by (destruct Hcase as [[-> _]|[-> _]]; lia). subst e0.
      destruct (handleflags_hit a s1 s0 o H0 Ho Hn) as [Ht Hv].
      rewrite Ht. destruct (optinit_loop_frame o post _ _ _ _ Hl Ho Hpost) as [Hi _].
      congruence.
    + destruct (Opt.strchr a Opt.ch_eq) as [[lbl cp]|] eqn:Es; [|contradiction].
      apply bind_Some in Hl as ([e0 s0] & H0 & Hl).
      pose proof (optinit_loop_grows _ _ _ _ _ Hl) as G2.
      destruct (handleswitch_options a lbl cp s1 Es) as (e0' & s0' & H0' & Hcase).
      rewrite H0 in H0'. injection H0' as <- <-.
      assert (e0 = 0) by (destruct Hcase as [[-> _]|[-> _]]; lia). subst e0.
      destruct (handleswitch_hit a lbl cp s1 s0 o Es H0 Ho Hn) as [Ht Hv].
      rewrite Ht. destruct (optinit_loop_frame o post _ _ _ _ Hl Ho Hpost) as [_ Hs].
      exists lbl, cp. split; [reflexivity|congruence].
  - intros Hno. exact (optinit_loop_frame o args _ _ _ _ Hl Ho Hno).
Qed.

(** When [optinit] has returned, a variable of the table of [main] has
    the value of the last argument that names its option: 1 for [-x] and 0
    for [+x], and for [d=...] and [t=...] the text behind the first [=]; a
    variable whose option no argument names is as it was. *)
Theorem optinit_last_option_wins :
  forall (prog : string) (args : list string) (o : Opt.s_options) (s s' : Opt.statics),
    In o Opt.options ->
    Opt.optinit (prog :: args) Opt.options s = Some (Opt.Return s') ->
    (forall pre a post,
       args = pre ++ a :: post ->
       Opt.names (Opt.label o) a ->
       (forall b, In b post -> ~ Opt.names (Opt.label o) b) ->
       match Opt.type o with
       | Opt.OPT_FLAG =>
           Opt.load_int (Opt.arg o) s'
           = Some (if Ascii.eqb (char_at a 0) ch_minus then 1 else 0)
       | _ =>
           exists lbl v, Opt.strchr a Opt.ch_eq = Some (lbl, v) /\
                         Opt.load_str (Opt.arg o) s' = Some (Some v)
       end) /\
    ((forall b, In b args -> ~ Opt.names (Opt.label o) b) ->
     Opt.load_int (Opt.arg o) s' = Opt.load_int (Opt.arg o) s /\
     Opt.load_str (Opt.arg o) s' = Opt.load_str (Opt.arg o) s).
Proof.
  intros prog args o s s' Ho H. now apply optinit_last_option with (prog := prog).
Qed.

Lemma optinit_last_option_wins_witness :
  Opt.optinit ["lemon"; "-c"; "t=a=b"; "+c"; "expr.y"]%string Opt.options Opt.statics0
  = Some (Opt.Return (Opt.mkStatics 0 0 0 0 0 0 0 None (Some "a=b"%string))) /\
  Opt.load_int Opt.var_compress (Opt.mkStatics 0 0 0 0 0 0 0 None (Some "a=b"%string))
  = Some 0.
Proof.
  split; [reflexivity|].
  assert (Ho : In (Opt.mkOpt Opt.OPT_FLAG "c" Opt.var_compress) Opt.options).
  { cbn. tauto. }
  refine (proj1 (optinit_last_option_wins "lemon" ["-c"; "t=a=b"; "+c"; "expr.y"]%string
                   _ Opt.statics0 _ Ho eq_refl)
                ["-c"; "t=a=b"]%string "+c"%string ["expr.y"]%string eq_refl eq_refl _).
  intros b [<-|[]]. cbn. tauto.
Defined.

(** *** main *)

Lemma in_split_last {A : Type} (x : A) (l : list A) :
  (forall a b : A, {a = b} + {a <> b}) ->
  In x l -> exists pre post, l = pre ++ x :: post /\ ~ In x post.
Proof.
  intros dec. induction l as [|y l IH]; intros Hin; [contradiction|].
  destruct (in_dec dec x l) as [Hl|Hl].
  - destruct (IH Hl) as (pre & post & -> & Hno). now exists (y :: pre), post.
  - destruct Hin as [->|Hin]; [|contradiction]. now exists [], l.
Qed.

Lemma names_x (b : string) :
  Opt.accepted b -> Opt.names "x" b -> b = "-x"%string \/ b = "+x"%string.
Proof.
  unfold Opt.accepted, Opt.names.
  destruct (Ascii.eqb (char_at b 0) Opt.ch_plus || Ascii.eqb (char_at b 0) ch_minus) eqn:E.
  - intros _ Hx. destruct b as [|c t]; [discriminate|]. cbn in Hx. subst t.
    cbn in E. apply orb_true_iff in E as [E|E]; apply Ascii.eqb_eq in E; subst c; auto.
  - destruct (Opt.strchr b Opt.ch_eq) as [[l v]|]; [|contradiction].
    intros [->| ->] Hx; discriminate.
Qed.

Lemma main_version (Reprint ReportOutput ReportTable : lemon -> lemon) (n : nat)
    (opts : options) (grammar : option string) (h : file) :
  version opts = true ->
  exists lem, main Reprint ReportOutput ReportTable n opts grammar h = Some (0, lem, h).
Proof. intros Hv. unfold main. rewrite Hv. eexists. reflexivity. Qed.

Lemma main_nargs (Reprint ReportOutput ReportTable : lemon -> lemon) (n : nat)
    (opts : options) (grammar : option string) (h : file) :
  version opts = false -> nargs opts <> 1 ->
  exists lem, main Reprint ReportOutput ReportTable n opts grammar h = Some (1, lem, h).
Proof.
  intros Hv Hn. unfold main. rewrite Hv.
  destruct (Z.eqb_spec (nargs opts) 1) as [E|E]; [contradiction|].
  eexists. reflexivity.
Qed.

Lemma options_of_spec (prog : string) (args : list string) (s : Opt.statics) :
  ~ In "--"%string args ->
  exists opts,
    options_of (prog :: args) s = Some opts /\
    version opts = negb (Opt.s_version s =? 0) /\
    nargs opts = Z.of_nat (List.length (filter (fun x => negb (Opt.ISOPT x)) args)).
Proof.
  intros Hno. unfold options_of.
  destruct (get_optarg_spec prog args 0 ltac:(lia)) as [Hn Hg].
  rewrite Hg. cbn [bind]. eexists. split; [reflexivity|].
  cbn [version nargs]. split; [reflexivity|].
  rewrite Hn, (arguments_plain args Hno). reflexivity.
Qed.

Lemma accepted_no_double_dash (args : list string) :
  Forall Opt.accepted args -> ~ In "--"%string args.
Proof.
  intros Hf Hin. rewrite Forall_forall in Hf.
  exact (double_dash_not_accepted (Hf _ Hin)).
Qed.

(** [main] ends with [exit(1)] before it reads the grammar when an
    argument is an option that the table does not have; with [exit(0)]
    when the options are accepted and the last of the arguments [-x] and
    [+x] is [-x], whatever else the command line holds; and with [exit(1)]
    when the options are accepted, none is [-x], and the arguments that
    are no option are not exactly one. *)
Theorem main_argv_exits_on_the_command_line :
  forall (Reprint ReportOutput ReportTable : lemon -> lemon) (n : nat)
         (prog : string) (args : list string) (grammar : option string) (h : file),
    (~ Forall Opt.accepted args ->
     main_argv Reprint ReportOutput ReportTable n (prog :: args) grammar h = Some 1) /\
    (Forall Opt.accepted args ->
     (forall pre post,
        args = pre ++ "-x"%string :: post ->
        ~ In "-x"%string post -> ~ In "+x"%string post ->
        main_argv Reprint ReportOutput ReportTable n (prog :: args) grammar h = Some 0) /\
     (~ In "-x"%string args ->
      List.length (filter (fun x => negb (Opt.ISOPT x)) args) <> 1%nat ->
      main_argv Reprint ReportOutput ReportTable n (prog :: args) grammar h = Some 1)).
Proof.
  intros Reprint ReportOutput ReportTable n prog args grammar h.
  assert (Hx : In (Opt.mkOpt Opt.OPT_FLAG "x" Opt.var_version) Opt.options).
  { cbn. tauto. }
  split.
  - intros Hf. unfold main_argv.
    rewrite (proj2 (optinit_spec prog args Opt.statics0) Hf). reflexivity.
  - intros Hf. pose proof (accepted_no_double_dash args Hf) as Hdd.
    destruct (proj1 (optinit_spec prog args Opt.statics0) Hf) as (s' & Hs').
    destruct (options_of_spec prog args s' Hdd) as (opts & Ho & Hv & Hn).
    assert (Hnm : forall b, In b args -> Opt.names "x" b ->
                            b = "-x"%string \/ b = "+x"%string).
    { intros b Hb. apply names_x. rewrite Forall_forall in Hf. now apply Hf. }
    split.
    + intros pre post Hargs Hm Hp.
      assert (Hver : Opt.load_int Opt.var_version s' = Some 1).
      { refine (proj1 (optinit_last_option prog args _ Opt.statics0 s' Hx Hs')
                      pre "-x"%string post Hargs eq_refl _).
        intros b Hb Hnb.
        destruct (Hnm b) as [->| ->]; [subst args; apply in_or_app; right; now right
                                      |exact Hnb|exact (Hm Hb)|exact (Hp Hb)]. }
      cbn in Hver. injection Hver as Hver. rewrite Hver in Hv. cbn in Hv.
      destruct (main_version Reprint ReportOutput ReportTable n opts grammar h Hv)
        as (lem & Hmain).
      unfold main_argv. rewrite Hs'. cbn [bind]. rewrite Ho. cbn [bind].
      rewrite Hmain. reflexivity.
    + intros Hm Hlen.
      assert (Hver : Opt.load_int Opt.var_version s' = Some 0).
      { destruct (in_dec string_dec "+x"%string args) as [Hin|Hin].
        - destruct (in_split_last _ _ string_dec Hin) as (pre & post & Hargs & Hp).
          refine (proj1 (optinit_last_option prog args _ Opt.statics0 s' Hx Hs')
                        pre "+x"%string post Hargs eq_refl _).
          intros b Hb Hnb.
          assert (Hba : In b args).
          { subst args. apply in_or_app. right. now right. }
          destruct (Hnm b Hba Hnb) as [->| ->]; [exact (Hm Hba)|exact (Hp Hb)].
        - refine (proj1 (proj2 (optinit_last_option prog args _ Opt.statics0 s' Hx Hs') _)).
          intros b Hb Hnb.
          destruct (Hnm b Hb Hnb) as [->| ->]; [exact (Hm Hb)|exact (Hin Hb)]. }
      cbn in Hver. injection Hver as Hver. rewrite Hver in Hv. cbn in Hv.
      assert (Hn1 : nargs opts <> 1) by (rewrite Hn; lia).
      destruct (main_nargs Reprint ReportOutput ReportTable n opts grammar h Hv Hn1)
        as (lem & Hmain).
      unfold main_argv. rewrite Hs'. cbn [bind]. rewrite Ho. cbn [bind].
      rewrite Hmain. reflexivity.
Qed.

Lemma main_argv_exits_on_the_command_line_witness :
  main_argv no_output no_output no_output 0
            ["lemon"; "-x"; "a.y"; "b.y"]%string None (mkFile None true 0) = Some 0 /\
  main_argv no_output no_output no_output 0
            ["lemon"; "a.y"; "b.y"]%string None (mkFile None true 0) = Some 1 /\
  main_argv no_output no_output no_output 0
            ["lemon"; "-d"; "a.y"]%string None (mkFile None true 0) = Some 1.
Proof.
  split; [|split].
  - refine (proj1 (proj2 (main_argv_exits_on_the_command_line _ _ _ 0 "lemon"
                            ["-x"; "a.y"; "b.y"]%string None (mkFile None true 0)) _)
                  [] ["a.y"; "b.y"]%string eq_refl _ _).
    + repeat constructor; cbn; tauto.
    + cbn. intuition discriminate.
    + cbn. intuition discriminate.
  - refine (proj2 (proj2 (main_argv_exits_on_the_command_line _ _ _ 0 "lemon"
                            ["a.y"; "b.y"]%string None (mkFile None true 0)) _) _ _).
    + repeat constructor; cbn; tauto.
    + cbn. intuition discriminate.
    + cbn. lia.
  - refine (proj1 (main_argv_exits_on_the_command_line _ _ _ 0 "lemon"
                     ["-d"; "a.y"]%string None (mkFile None true 0)) _).
    intros H. inversion H as [|x xs Hx Hxs]; subst. cbn in Hx.
    unfold Opt.flag_labels in Hx. cbn in Hx. intuition discriminate.
Defined.


(* ================================================================= *)
(** ** File names *)

Lemma strrchr_none (s : string) (c : ascii) :
  strrchr s c = None <-> has_char c s = false.
Proof.
  induction s as [|d t IH]; [split; reflexivity|]. cbn [strrchr has_char].
  destruct (strrchr t c) as [[a b]|].
  - split; [discriminate|]. intros H. apply orb_false_iff in H as [_ H].
    apply IH in H. discriminate.
  - destruct (Ascii.eqb d c); [split; discriminate|].
    cbn [orb]. split; intros _; [now apply IH|reflexivity].
Qed.

Lemma strrchr_some (s : string) (c : ascii) :
  forall a b,
    strrchr s c = Some (a, b) ->
    s = (a ++ String c b)%string /\ has_char c b = false.
Proof.
  induction s as [|d t IH]; intros a b H; [discriminate|]. cbn [strrchr] in H.
  destruct (strrchr t c) as [[a' b']|] eqn:E.
  - injection H as <- <-. destruct (IH a' b' eq_refl) as [-> Hb]. now split.
  - destruct (Ascii.eqb_spec d c) as [->|]; [|discriminate].
    injection H as <- <-. split; [reflexivity|]. now apply strrchr_none.
Qed.

Lemma strrchr_app (a b : string) (c : ascii) :
  has_char c b = false -> strrchr (a ++ String c b) c = Some (a, b).
Proof.
  intros Hb. induction a as [|d a IH]; cbn [append strrchr].
  - apply strrchr_none in Hb. rewrite Hb, Ascii.eqb_refl. reflexivity.
  - now rewrite IH.
Qed.

Lemma strlen_append (a b : string) : strlen (a ++ b) = strlen a + strlen b.
Proof. unfold strlen. rewrite length_append. lia. Qed.

Lemma file_makename_spec (pattern suffix : string) :
  file_makename pattern suffix
  = Some (match strrchr pattern ch_dot with
          | Some (stem, _) => stem
          | None => pattern
          end ++ suffix)%string.
Proof.
  unfold file_makename, strcpy, strcat.
  assert (H1 : (strlen pattern + 1 <=? strlen pattern + strlen suffix + 5) = true).
  { apply Z.leb_le. unfold strlen. lia. }
  rewrite H1. cbn [assert bind].
  destruct (strrchr pattern ch_dot) as [[stem ext]|] eqn:E.
  - apply strrchr_some in E as [E _].
    assert (H2 : (strlen stem + strlen suffix + 1 <=? strlen pattern + strlen suffix + 5) = true).
    { apply Z.leb_le. rewrite E, strlen_append. unfold strlen. lia. }
    now rewrite H2.
  - assert (H2 : (strlen pattern + strlen suffix + 1 <=? strlen pattern + strlen suffix + 5) = true).
    { apply Z.leb_le. lia. }
    now rewrite H2.
Qed.

(** [file_makename(pattern,suffix)] never writes outside its block; the
    name it returns is the pattern without what stands from its last dot
    on, followed by the suffix.  When the suffix is a dot and a text
    without dot, a second call on the name gives what it gives on the
    pattern: the name of the report made from the name of the parser is
    that made from the name of the grammar. *)
Theorem file_makename_replaces_the_extension :
  forall (pattern suffix : string),
    exists name,
      file_makename pattern suffix = Some name /\
      ((has_char ch_dot pattern = false /\ name = (pattern ++ suffix)%string) \/
       (exists stem ext,
          pattern = (stem ++ String ch_dot ext)%string /\
          has_char ch_dot ext = false /\ name = (stem ++ suffix)%string)) /\
      (forall ext suffix2,
         suffix = String ch_dot ext -> has_char ch_dot ext = false ->
         file_makename name suffix2 = file_makename pattern suffix2).
Proof.
  intros pattern suffix. eexists. split; [apply file_makename_spec|]. split.
  - destruct (strrchr pattern ch_dot) as [[stem ext]|] eqn:E.
    + right. exists stem, ext. apply strrchr_some in E as [E Hext]. auto.
    + left. split; [now apply strrchr_none|reflexivity].
  - intros ext suffix2 -> Hext. rewrite !file_makename_spec.
    now rewrite (strrchr_app _ ext ch_dot Hext).
Qed.

Lemma file_makename_replaces_the_extension_witness :
  file_makename "gram.tab.y" ".c" = Some "gram.tab.c"%string /\
  file_makename "gram.tab.c" ".out" = file_makename "gram.tab.y" ".out".
Proof.
  destruct (file_makename_replaces_the_extension "gram.tab.y" ".c") as (name & H & _ & Hc).
  assert (E : name = "gram.tab.c"%string).
  { assert (H2 : file_makename "gram.tab.y" ".c" = Some "gram.tab.c"%string) by reflexivity.
    rewrite H in H2. now injection H2. }
  subst name. split; [exact H|]. exact (Hc "c"%string ".out"%string eq_refl eq_refl).
Defined.

(** [make_basename] is undefined for every name: the block it gets from
    [malloc] has as many bytes as the base name has characters, and
    [strcpy] writes the terminator behind them. *)
Theorem make_basename_writes_behind_its_block :
  forall (fullname : string),
    make_basename fullname = None /\
    (forall cap base, strcpy cap base = Some base <-> strlen base + 1 <= cap).
Proof.
  intros fullname. split.
  - unfold make_basename, strcpy.
    assert (H : forall s, (strlen s + 1 <=? strlen s) = false).
    { intros s. apply Z.leb_gt. lia. }
    destruct (strrchr fullname ch_slash) as [[dir cp]|]; now rewrite H.
  - intros cap base. unfold strcpy.
    destruct (Z.leb_spec (strlen base + 1) cap) as [Hle|Hgt]; cbn [assert bind].
    + split; auto.
    + split; [discriminate|lia].
Qed.

(* ================================================================= *)
(** ** The action codes *)




